(** * WebSocket opening handshake (ws_handshake.c): a shallow embedding

    The development follows src/transports/websocket/ws_handshake.c:
    the string matchers, the inlined SHA-1 and Base64 routines, the accept
    key derivation, the two parsers, the two generators and the handshake
    state machine.

    Conventions.
    - An octet ([char], [uint8_t]) is an [ascii]; [uint8] gives its value
      and [to_uint8] is the C conversion to [uint8_t] (reduction mod 256).
    - A 32-bit unsigned value is a [Z] kept in range by [u32].
    - A buffer is a [list ascii]; [sizeof buf] is its [length].
    - A pointer into a buffer is an offset ([nat]); a nullable pointer is an
      [option nat].
    - A failed [nn_assert], [nn_fsm_bad_*] or [nn_fsm_error] aborts the
      process; it is an explicit [Abort] outcome. *)

From Stdlib Require Import ZArith Ascii String List Bool Lia Arith.
From coqutil Require Import Z.bitblast.
Import ListNotations.

Local Open Scope Z_scope.

(** ** Octets and C strings *)

Definition uint8 (c : ascii) : Z := Z.of_N (N_of_ascii c).
Definition to_uint8 (z : Z) : ascii := ascii_of_N (Z.to_N (z mod 256)).

Definition NUL : ascii := Ascii.zero.
Definition SP : ascii := " "%char.
Definition CR : ascii := "013"%char.
Definition LF : ascii := "010"%char.

(** A string literal of the source, without its terminating NUL. *)
Definition cs (s : string) : list ascii := list_ascii_of_string s.

(** [p[i]]: reading one octet of a buffer. *)
Definition rd (buf : list ascii) (p : nat) : ascii := nth p buf NUL.

Definition is_nul (c : ascii) : bool := Ascii.eqb c NUL.

(** [tolower] in the C locale. *)
Definition tolower (c : ascii) : ascii :=
  let n := uint8 c in
  if (65 <=? n) && (n <=? 90) then to_uint8 (n + 32) else c.

(** [isspace] in the C locale: SP, \t, \n, \v, \f, \r. *)
Definition isspace (c : ascii) : bool :=
  let n := uint8 c in (n =? 32) || ((9 <=? n) && (n <=? 13)).

(** ** 32-bit arithmetic *)

Definition u32 (x : Z) : Z := x mod 4294967296.

(** [#define sha1_rol32(num,bits) ((num << bits) | (num >> (32 - bits)))]
    on a [uint32_t]. *)
Definition sha1_rol32 (num bits : Z) : Z :=
  Z.lor (u32 (Z.shiftl num bits)) (Z.shiftr num (32 - bits)).

(** ** Array update: [a[k] = v] inside the bounds of [a]. *)
Fixpoint upd {A : Type} (k : nat) (v : A) (l : list A) : list A :=
  match l, k with
  | [], _ => []
  | _ :: t, O => v :: t
  | h :: t, S k' => h :: upd k' v t
  end.

(** ** Base64 (RFC 2045) *)

Inductive b64_result : Type :=
| B64_ENOBUFS
| B64_OK (rc : nat) (written : list ascii).

Definition ENCODEMAP : list ascii :=
  cs "ABCDEFGHIJKLMNOPQRSTUVWXYZabcdefghijklmnopqrstuvwxyz0123456789+/".

Definition encode_char (x : Z) : ascii := nth (Z.to_nat x) ENCODEMAP NUL.

(** The inner [while (rem >= 6)] of [base64_encode]. [out] holds
    [out[0..io)], so [io] is [length out]. [None] is [return -ENOBUFS].
    Each turn lowers [rem] by 6, so [rem] turns of fuel are enough. *)
Fixpoint encode_drain (fuel : nat) (v : Z) (rem out_len : nat)
    (out : list ascii) : option (nat * list ascii) :=
  match fuel with
  | O => Some (rem, out)
  | S fuel' =>
    if (6 <=? rem)%nat then
      let rem := (rem - 6)%nat in
      if (out_len <=? length out)%nat then None
      else encode_drain fuel' v rem out_len
             (out ++ [encode_char (Z.land (Z.shiftr v (Z.of_nat rem)) 63)])
    else Some (rem, out)
  end.

(** The [for] loop over the input octets. *)
Fixpoint encode_loop (inp : list ascii) (v : Z) (rem out_len : nat)
    (out : list ascii) : option (Z * nat * list ascii) :=
  match inp with
  | [] => Some (v, rem, out)
  | ch :: inp' =>
    let v := u32 (Z.lor (Z.shiftl v 8) (uint8 ch)) in
    let rem := (rem + 8)%nat in
    match encode_drain rem v rem out_len out with
    | None => None
    | Some (rem, out) => encode_loop inp' v rem out_len out
    end
  end.

(** [while (io & 3)]: at most three '=' are appended. *)
Fixpoint encode_pad (fuel out_len : nat) (out : list ascii)
    : option (list ascii) :=
  match fuel with
  | O => Some out
  | S fuel' =>
    if negb (Z.land (Z.of_nat (length out)) 3 =? 0) then
      if (out_len <=? length out)%nat then None
      else encode_pad fuel' out_len (out ++ ["="%char])
    else Some out
  end.

Definition base64_encode (inp : list ascii) (out_len : nat) : b64_result :=
  match encode_loop inp 0 0 out_len [] with
  | None => B64_ENOBUFS
  | Some (v, rem, out) =>
    let tail :=
      if negb (rem =? 0)%nat then
        let v := u32 (Z.shiftl v (6 - Z.of_nat rem)) in
        if (out_len <=? length out)%nat then None
        else Some (out ++ [encode_char (Z.land v 63)])
      else Some out in
    match tail with
    | None => B64_ENOBUFS
    | Some out =>
      match encode_pad 4 out_len out with
      | None => B64_ENOBUFS
      | Some out =>
        if (out_len <=? length out)%nat then B64_ENOBUFS
        else B64_OK (length out) (out ++ [NUL])
      end
    end
  end.

(** [DECODEMAP]: 0xFF marks an octet outside the alphabet. *)
Definition DECODEMAP : list Z :=
  [ 255;255;255;255;255;255;255;255; 255;255;255;255;255;255;255;255;
    255;255;255;255;255;255;255;255; 255;255;255;255;255;255;255;255;
    255;255;255;255;255;255;255;255; 255;255;255; 62;255;255;255; 63;
     52; 53; 54; 55; 56; 57; 58; 59;  60; 61;255;255;255; 62;255;255;
    255;  0;  1;  2;  3;  4;  5;  6;   7;  8;  9; 10; 11; 12; 13; 14;
     15; 16; 17; 18; 19; 20; 21; 22;  23; 24; 25;255;255;255;255;255;
    255; 26; 27; 28; 29; 30; 31; 32;  33; 34; 35; 36; 37; 38; 39; 40;
     41; 42; 43; 44; 45; 46; 47; 48;  49; 50; 51;255;255;255;255;255 ]
  ++ repeat 255 128.

(** The [for] loop of [base64_decode] over [in[ii]], [ii < in_len];
    [inp] is what is left of the input. The result is [(rem, v, out)] at
    the end of the loop, [None] for [return -ENOBUFS].

    [DECODEMAP [in [ii]]] is indexed here with the value 0..255 of the
    octet. That is the index of the source for every octet below 0x80,
    and for every octet where [char] is unsigned. Where [char] is signed,
    an octet from 0x80 up is a negative index, outside the table, and the
    source does not stop there as this loop does: what is stated of
    inputs that may hold such octets is stated for ASCII input. *)
Fixpoint decode_loop (inp : list ascii) (v : Z) (rem out_len : nat)
    (out : list ascii) : option (Z * nat * list ascii) :=
  match inp with
  | [] => Some (v, rem, out)
  | c :: inp' =>
    if isspace c then decode_loop inp' v rem out_len out
    else if Ascii.eqb c "="%char then Some (v, rem, out)
    else
      let ch := nth (Z.to_nat (uint8 c)) DECODEMAP 255 in
      if ch =? 255 then Some (v, rem, out)
      else
        let v := u32 (Z.lor (Z.shiftl v 6) ch) in
        let rem := (rem + 6)%nat in
        if (8 <=? rem)%nat then
          let rem := (rem - 8)%nat in
          if (out_len <=? length out)%nat then None
          else decode_loop inp' v rem out_len
                 (out ++ [to_uint8 (Z.land (Z.shiftr v (Z.of_nat rem)) 255)])
        else decode_loop inp' v rem out_len out
  end.

(** [base64_decode (in, in_len, out, out_len)]; [inp] is the [in_len]
    octets at [in]. *)
Definition base64_decode (inp : list ascii) (out_len : nat) : b64_result :=
  match decode_loop inp 0 0 out_len [] with
  | None => B64_ENOBUFS
  | Some (v, rem, out) =>
    if (8 <=? rem)%nat then
      let rem := (rem - 8)%nat in
      if (out_len <=? length out)%nat then B64_ENOBUFS
      else
        let out :=
          out ++ [to_uint8 (Z.land (Z.shiftr v (Z.of_nat rem)) 255)] in
        B64_OK (length out) out
    else B64_OK (length out) out
  end.

(** ** SHA-1 (single-shot, as inlined in the source)

    [uint32_t buffer[16]] is accessed both as words and, through a cast
    to an octet pointer, as octets, so it is kept as the 64 octets of
    its storage; [le] is the byte order of the machine the code runs on.
    [uint32_t state[5]] is kept as five words and turned into its storage
    octets where [sha1_result] returns [s->state] as an octet pointer. *)

Definition SHA1_HASH_LEN : Z := 20.
Definition SHA1_BLOCK_LEN : Z := 64.

Record sha1hash : Type := mk_sha1hash {
  buffer : list ascii;
  state : list Z;
  bytes_hashed : Z;
  buffer_offset : Z;
  is_little_endian : Z
}.

(** The four storage octets of a 32-bit word. *)
Definition word_octets (le : bool) (w : Z) : list ascii :=
  let b0 := to_uint8 w in
  let b1 := to_uint8 (Z.shiftr w 8) in
  let b2 := to_uint8 (Z.shiftr w 16) in
  let b3 := to_uint8 (Z.shiftr w 24) in
  if le then [b0; b1; b2; b3] else [b3; b2; b1; b0].

(** [s->buffer[i]] read as a [uint32_t]. *)
Definition load32 (le : bool) (mem : list ascii) (i : Z) : Z :=
  let b k := uint8 (rd mem (Z.to_nat (4 * i + k))) in
  if le
  then b 0 + Z.shiftl (b 1) 8 + Z.shiftl (b 2) 16 + Z.shiftl (b 3) 24
  else b 3 + Z.shiftl (b 2) 8 + Z.shiftl (b 1) 16 + Z.shiftl (b 0) 24.

(** [s->buffer[i] = w]. *)
Definition store32 (le : bool) (mem : list ascii) (i w : Z) : list ascii :=
  let k := Z.to_nat (4 * i) in
  match word_octets le w with
  | [o0; o1; o2; o3] =>
    upd (k + 3) o3 (upd (k + 2) o2 (upd (k + 1) o1 (upd k o0 mem)))
  | _ => mem
  end.

Definition sha1_init (le : bool) (s : sha1hash) : sha1hash :=
  {| buffer := buffer s;
     state := [0x67452301; 0xefcdab89; 0x98badcfe; 0x10325476; 0xc3d2e1f0];
     bytes_hashed := 0;
     buffer_offset := 0;
     is_little_endian := if le then 1 else 0 |}.

Record sha1_regs : Type := mk_regs {
  ra : Z; rb : Z; rc : Z; rd_ : Z; re : Z
}.

(** One turn of [for (i = 0; i < 80; i++)] in [sha1_add]. *)
Definition sha1_round (le : bool) (i : Z) (mem : list ascii) (r : sha1_regs)
    : list ascii * sha1_regs :=
  let '(mk_regs a b c d e) := r in
  let mem :=
    if 16 <=? i then
      let t :=
        Z.lxor (Z.lxor (Z.lxor (load32 le mem (Z.land (i + 13) 15))
                               (load32 le mem (Z.land (i + 8) 15)))
                       (load32 le mem (Z.land (i + 2) 15)))
               (load32 le mem (Z.land i 15)) in
      store32 le mem (Z.land i 15) (sha1_rol32 t 1)
    else mem in
  let t :=
    if i <? 20 then u32 (Z.lxor d (Z.land b (Z.lxor c d)) + 0x5A827999)
    else if i <? 40 then u32 (Z.lxor (Z.lxor b c) d + 0x6ED9EBA1)
    else if i <? 60 then
      u32 (Z.lor (Z.land b c) (Z.land d (Z.lor b c)) + 0x8F1BBCDC)
    else u32 (Z.lxor (Z.lxor b c) d + 0xCA62C1D6) in
  let t := u32 (t + (sha1_rol32 a 5 + e + load32 le mem (Z.land i 15))) in
  (mem, mk_regs t a (sha1_rol32 b 30) c d).

Fixpoint sha1_rounds (le : bool) (n : nat) (i : Z) (mem : list ascii)
    (r : sha1_regs) : list ascii * sha1_regs :=
  match n with
  | O => (mem, r)
  | S n' =>
    let '(mem, r) := sha1_round le i mem r in
    sha1_rounds le n' (i + 1) mem r
  end.

Definition st (s : list Z) (i : nat) : Z := nth i s 0.

Definition sha1_add (le : bool) (s : sha1hash) (data : ascii) : sha1hash :=
  let idx :=
    if negb (is_little_endian s =? 0)
    then Z.lxor (buffer_offset s) 3 else buffer_offset s in
  let mem := upd (Z.to_nat idx) data (buffer s) in
  let off := (buffer_offset s + 1) mod 256 in
  if off =? SHA1_BLOCK_LEN then
    let r0 := mk_regs (st (state s) 0) (st (state s) 1) (st (state s) 2)
                      (st (state s) 3) (st (state s) 4) in
    let '(mem, mk_regs a b c d e) := sha1_rounds le 80 0 mem r0 in
    {| buffer := mem;
       state := [u32 (st (state s) 0 + a); u32 (st (state s) 1 + b);
                 u32 (st (state s) 2 + c); u32 (st (state s) 3 + d);
                 u32 (st (state s) 4 + e)];
       bytes_hashed := bytes_hashed s;
       buffer_offset := 0;
       is_little_endian := is_little_endian s |}
  else
    {| buffer := mem;
       state := state s;
       bytes_hashed := bytes_hashed s;
       buffer_offset := off;
       is_little_endian := is_little_endian s |}.

Definition sha1_hashbyte (le : bool) (s : sha1hash) (data : ascii)
    : sha1hash :=
  sha1_add le
    {| buffer := buffer s; state := state s;
       bytes_hashed := u32 (bytes_hashed s + 1);
       buffer_offset := buffer_offset s;
       is_little_endian := is_little_endian s |} data.

(** [while (s->buffer_offset != 56) sha1_add (s, 0x00);] The offset runs
    through 0..63 cyclically, so 64 turns of fuel are enough
    ([sha1_pad_zero_exit] below). *)
Fixpoint sha1_pad_zero (fuel : nat) (le : bool) (s : sha1hash) : sha1hash :=
  match fuel with
  | O => s
  | S fuel' =>
    if negb (buffer_offset s =? 56)
    then sha1_pad_zero fuel' le (sha1_add le s NUL)
    else s
  end.

Definition bswap32 (w : Z) : Z :=
  Z.lor (Z.lor (Z.lor (Z.land (u32 (Z.shiftl w 24)) 0xFF000000)
                      (Z.land (u32 (Z.shiftl w 8)) 0x00FF0000))
               (Z.land (Z.shiftr w 8) 0x0000FF00))
        (Z.land (Z.shiftr w 24) 0x000000FF).

(** [sha1_result]: the padded final block, then the 20 octets stored at
    [s->state]. *)
Definition sha1_result (le : bool) (s : sha1hash) : list ascii :=
  let s := sha1_add le s (to_uint8 0x80) in
  let s := sha1_pad_zero 64 le s in
  let s := sha1_add le s (to_uint8 0) in
  let s := sha1_add le s (to_uint8 0) in
  let s := sha1_add le s (to_uint8 0) in
  let s := sha1_add le s (to_uint8 (Z.shiftr (bytes_hashed s) 29)) in
  let s := sha1_add le s (to_uint8 (Z.shiftr (bytes_hashed s) 21)) in
  let s := sha1_add le s (to_uint8 (Z.shiftr (bytes_hashed s) 13)) in
  let s := sha1_add le s (to_uint8 (Z.shiftr (bytes_hashed s) 5)) in
  let s := sha1_add le s (to_uint8 (u32 (Z.shiftl (bytes_hashed s) 3))) in
  let words :=
    if negb (is_little_endian s =? 0) then map bswap32 (state s)
    else state s in
  flat_map (word_octets le) words.

(** ** Accept key derivation *)

(** Modelled from the spec: ws_handshake.h, which defines these two
    constants, is not among the sources. The GUID is the one RFC 6455
    fixes; the accept key is the 28 characters Base64 makes of a 20-octet
    digest. *)
Definition NN_WS_HANDSHAKE_MAGIC_GUID : list ascii :=
  cs "258EAFA5-E914-47DA-95CA-C5AB0DC85B11".

Definition NN_WS_HANDSHAKE_ACCEPT_KEY_LEN : nat := 28.

(** [nn_ws_handshake_hash_key (key, key_len, hashed, hashed_len)]: [key]
    is the [key_len] octets at [key]; [hash] is the uninitialised local
    [struct sha1hash]. The result is the return code and the octets
    written to [hashed]. *)
Definition nn_ws_handshake_hash_key (le : bool) (hash : sha1hash)
    (key : list ascii) (hashed_len : nat) : b64_result :=
  let hash := sha1_init le hash in
  let hash := fold_left (sha1_hashbyte le) key hash in
  let hash := fold_left (sha1_hashbyte le) NN_WS_HANDSHAKE_MAGIC_GUID hash in
  base64_encode (sha1_result le hash) hashed_len.

(** ** Outcomes

    A function that can hit a failed assertion returns an [outcome]. *)

Inductive abort_reason : Type :=
| ASSERT_NO_NUL            (* nn_assert (memchr (buf, 0, sizeof (buf))) *)
| ASSERT_TRAILING_DATA     (* nn_assert (strlen (pos) == 0) *)
| ASSERT_RECV_POS          (* nn_assert (recv_pos < sizeof (buf)) *)
| ASSERT_BACKTRACK         (* nn_assert (recv_pos >= TERMSEQ_LEN) *)
| ASSERT_TERMSEQ           (* nn_assert (i < TERMSEQ_LEN) *)
| ASSERT_START             (* the assertions of the START action *)
| ASSERT_MODE              (* nn_assert (0): unexpected mode *)
| ASSERT_KEY_LEN           (* length assertions on the encoded keys *)
| ASSERT_SP_MAP            (* nn_assert (i < NN_WS_HANDSHAKE_SP_MAP_LEN) *)
| ASSERT_RESPONSE_CODE     (* nn_assert (0): unexpected failure response *)
| ASSERT_OWNER             (* nn_assert (usock == NULL && owner == NULL) *)
| ASSERT_RESOURCE          (* nn_assert (strlen (resource) >= 1) *)
| ASSERT_IDLE              (* nn_assert_state (self, IDLE) *)
| BUFFER_OVERRUN           (* a write past the end of a fixed buffer *)
| NULL_DEREF               (* a read through a null pointer *)
| OUT_OF_FUEL              (* never produced: see the fuel lemmas *)
| FSM_BAD_ACTION
| FSM_BAD_SOURCE
| FSM_BAD_STATE
| FSM_ERROR.

Inductive outcome (A : Type) : Type :=
| Done (a : A)
| Abort (why : abort_reason).
Arguments Done {A} a.
Arguments Abort {A} why.

Definition bind {A B : Type} (m : outcome A) (k : A -> outcome B)
    : outcome B :=
  match m with
  | Done a => k a
  | Abort why => Abort why
  end.

Notation "x <- m ;; k" := (bind m (fun x => k))
  (at level 61, m at next level, right associativity).
Notation "' p <- m ;; k" := (bind m (fun x => let 'p := x in k))
  (at level 61, p pattern, m at next level, right associativity).

Definition nn_assert (b : bool) (why : abort_reason) : outcome unit :=
  if b then Done tt else Abort why.

(** ** String matchers *)

Inductive match_rc : Type :=
| NN_WS_HANDSHAKE_NOMATCH
| NN_WS_HANDSHAKE_MATCH.

(** Modelled from the spec: the line ending and the terminating sequence
    of ws_handshake.h, the blank line that ends an HTTP header block. *)
Definition NN_WS_HANDSHAKE_CRLF : list ascii := [CR; LF].
Definition NN_WS_HANDSHAKE_TERMSEQ : list ascii := [CR; LF; CR; LF].
Definition NN_WS_HANDSHAKE_TERMSEQ_LEN : nat :=
  length NN_WS_HANDSHAKE_TERMSEQ.

Definition ascii_list_eqb (a b : list ascii) : bool :=
  if list_eq_dec ascii_dec a b then true else false.

(** The C string that starts at the head of [l]: the octets before the
    first NUL. *)
Fixpoint until_nul (l : list ascii) : list ascii :=
  match l with
  | [] => []
  | c :: l' => if is_nul c then [] else c :: until_nul l'
  end.

Definition cstring (buf : list ascii) (p : nat) : list ascii :=
  until_nul (skipn p buf).

Definition strlen (buf : list ascii) (p : nat) : nat :=
  length (cstring buf p).

Fixpoint prefixb (t l : list ascii) : bool :=
  match t, l with
  | [], _ => true
  | _ :: _, [] => false
  | a :: t', b :: l' => Ascii.eqb a b && prefixb t' l'
  end.

Fixpoint find_sub (t l : list ascii) : option nat :=
  if prefixb t l then Some O
  else match l with
       | [] => None
       | _ :: l' => option_map S (find_sub t l')
       end.

(** [strstr (buf + p, t)], as an offset into [buf]; [None] is NULL. *)
Definition strstr (buf : list ascii) (p : nat) (t : list ascii)
    : option nat :=
  option_map (Nat.add p) (find_sub t (cstring buf p)).

(** The loop that skips leading spaces in [nn_ws_match_token]: it runs
    while the octet under [pos] is a space (and not NUL). *)
Fixpoint skip_sp (l : list ascii) : nat :=
  match l with
  | c :: l' => if Ascii.eqb c SP && negb (is_nul c)
               then S (skip_sp l') else O
  | [] => O
  end.

(** The comparison loop of [nn_ws_match_token], which runs while neither
    the token nor the subject is at its NUL. [None] is the
    [return NN_WS_HANDSHAKE_NOMATCH] inside the loop; [Some (token, pos)]
    is the loop exit. *)
Fixpoint token_loop (case_insensitive : bool) (token buf : list ascii)
    (pos : nat) : option (list ascii * nat) :=
  match token with
  | [] => Some ([], pos)
  | t :: token' =>
    if is_nul (rd buf pos) then Some (token, pos)
    else
      let differ :=
        if case_insensitive
        then negb (Ascii.eqb (tolower t) (tolower (rd buf pos)))
        else negb (Ascii.eqb t (rd buf pos)) in
      if differ then None
      else token_loop case_insensitive token' buf (S pos)
  end.

(** [nn_ws_match_token (token, &subj, case_insensitive, ignore_leading_sp)]
    with [subj] pointing at [buf + subj]; the result holds the new value
    of [*subj]. The source's [nn_assert (!*token)] cannot fail, because
    the loop is left with octets of the token unread only at a NUL of the
    subject ([token_loop_exit]). *)
Definition nn_ws_match_token (token buf : list ascii) (subj : nat)
    (case_insensitive ignore_leading_sp : bool) : match_rc * nat :=
  let pos := subj in
  let pos :=
    if ignore_leading_sp then (pos + skip_sp (skipn pos buf))%nat
    else pos in
  match token_loop case_insensitive token buf pos with
  | None => (NN_WS_HANDSHAKE_NOMATCH, subj)
  | Some (token, pos) =>
    if is_nul (rd buf pos) && negb (ascii_list_eqb token [])
    then (NN_WS_HANDSHAKE_NOMATCH, subj)
    else (NN_WS_HANDSHAKE_MATCH, pos)
  end.

(** A parsed value: [(pointer, length)], as in [host], [host_len]. *)
Record slice : Type := mk_slice {
  sl_ptr : option nat;
  sl_len : nat
}.

Definition null_slice : slice := mk_slice None 0.

(** The leading-space loop of [nn_ws_match_value]: [start] moves right
    over spaces while [start < end]; [n] is [end - start]. *)
Fixpoint trim_leading (n : nat) (buf : list ascii) (start : nat) : nat :=
  match n with
  | O => start
  | S n' =>
    if Ascii.eqb (rd buf start) SP then trim_leading n' buf (S start)
    else start
  end.

(** The trailing-space loop of [nn_ws_match_value]: [end] moves left
    while the octet before it is a space and [start < end]; [n] is
    [end - start]. *)
Fixpoint trim_trailing (n : nat) (buf : list ascii) (end_ : nat) : nat :=
  match n with
  | O => end_
  | S n' =>
    if Ascii.eqb (rd buf (end_ - 1)) SP then trim_trailing n' buf (end_ - 1)
    else end_
  end.

(** [nn_ws_match_value (termseq, &subj, ignore_leading_sp,
    ignore_trailing_sp, addr, len)]. The result holds the new [*subj] and
    what is stored through [addr] and [len] when they are not NULL. *)
Definition nn_ws_match_value (termseq buf : list ascii) (subj : nat)
    (ignore_leading_sp ignore_trailing_sp : bool)
    : match_rc * nat * slice :=
  let start := subj in
  match strstr buf start termseq with
  | None => (NN_WS_HANDSHAKE_NOMATCH, subj, null_slice)
  | Some end_ =>
    let subj := (end_ + length termseq)%nat in
    let start :=
      if ignore_leading_sp then trim_leading (end_ - start) buf start
      else start in
    if (start =? end_)%nat
    then (NN_WS_HANDSHAKE_MATCH, subj, mk_slice (Some start) 0)
    else
      let end_ :=
        if ignore_trailing_sp then trim_trailing (end_ - start) buf end_
        else end_ in
      (NN_WS_HANDSHAKE_MATCH, subj, mk_slice (Some start) (end_ - start))
  end.

(** The comparison loop of [nn_ws_validate_value], which runs while
    neither [expected] nor [subj] is at a NUL.

    The source compares [*expected], a [char], with [*subj], a [uint8_t];
    here the two octets are compared by their values 0..255. The two
    agree for every expected octet below 0x80, and for every octet where
    [char] is unsigned. Where [char] is signed, an expected octet from
    0x80 up is negative and differs from every subject octet: what is
    stated of arbitrary expected strings is stated for ASCII ones. *)
Fixpoint validate_loop (case_insensitive : bool) (expected buf : list ascii)
    (subj : nat) : match_rc :=
  match expected with
  | [] => NN_WS_HANDSHAKE_MATCH
  | e :: expected' =>
    if is_nul (rd buf subj) then NN_WS_HANDSHAKE_MATCH
    else
      let differ :=
        if case_insensitive
        then negb (Ascii.eqb (tolower e) (tolower (rd buf subj)))
        else negb (Ascii.eqb e (rd buf subj)) in
      if differ then NN_WS_HANDSHAKE_NOMATCH
      else validate_loop case_insensitive expected' buf (S subj)
  end.

(** [nn_ws_validate_value (expected, subj, subj_len, case_insensitive)]
    with [subj] pointing at [buf + subj]. *)
Definition nn_ws_validate_value (expected buf : list ascii)
    (subj subj_len : nat) (case_insensitive : bool) : match_rc :=
  if negb (length expected =? subj_len)%nat then NN_WS_HANDSHAKE_NOMATCH
  else validate_loop case_insensitive expected buf subj.

Definition is_match (rc : match_rc) : bool :=
  match rc with
  | NN_WS_HANDSHAKE_MATCH => true
  | NN_WS_HANDSHAKE_NOMATCH => false
  end.

(** ** The handshake object *)

(** The SP socket types of the map. Their numbers are defined in headers
    outside this file; only their being distinct matters here.
    [NN_PROTO_UNKNOWN] stands for any other protocol number. *)
Inductive sp_id : Type :=
| NN_PAIR | NN_REQ | NN_REP | NN_PUB | NN_SUB
| NN_SURVEYOR | NN_RESPONDENT | NN_PUSH | NN_PULL | NN_BUS
| NN_PROTO_UNKNOWN (n : Z).

Definition sp_id_eq_dec (a b : sp_id) : {a = b} + {a <> b}.
Proof. decide equality. apply Z.eq_dec. Defined.

Definition NN_WS_HANDSHAKE_SP_MAP : list (sp_id * list ascii) :=
  [ (NN_PAIR, cs "x-nanomsg-pair");
    (NN_REQ, cs "x-nanomsg-req");
    (NN_REP, cs "x-nanomsg-rep");
    (NN_PUB, cs "x-nanomsg-pub");
    (NN_SUB, cs "x-nanomsg-sub");
    (NN_SURVEYOR, cs "x-nanomsg-surveyor");
    (NN_RESPONDENT, cs "x-nanomsg-respondent");
    (NN_PUSH, cs "x-nanomsg-push");
    (NN_PULL, cs "x-nanomsg-pull");
    (NN_BUS, cs "x-nanomsg-bus") ].

Definition NN_WS_HANDSHAKE_SP_MAP_LEN : nat := length NN_WS_HANDSHAKE_SP_MAP.

Inductive state_t : Type :=
| NN_WS_HANDSHAKE_STATE_IDLE
| NN_WS_HANDSHAKE_STATE_SERVER_RECV
| NN_WS_HANDSHAKE_STATE_SERVER_REPLY
| NN_WS_HANDSHAKE_STATE_CLIENT_SEND
| NN_WS_HANDSHAKE_STATE_CLIENT_RECV
| NN_WS_HANDSHAKE_STATE_HANDSHAKE_SENT
| NN_WS_HANDSHAKE_STATE_STOPPING_TIMER_ERROR
| NN_WS_HANDSHAKE_STATE_STOPPING_TIMER_DONE
| NN_WS_HANDSHAKE_STATE_DONE
| NN_WS_HANDSHAKE_STATE_STOPPING.

Inductive mode_t : Type :=
| NN_WS_CLIENT
| NN_WS_SERVER
| NN_WS_MODE_OTHER.

(** Modelled from the spec: the handshake timeout of ws_handshake.h, in
    milliseconds. *)
Definition NN_WS_HANDSHAKE_TIMEOUT : Z := 5000.

Inductive parse_rc : Type :=
| NN_WS_HANDSHAKE_VALID
| NN_WS_HANDSHAKE_RECV_MORE
| NN_WS_HANDSHAKE_INVALID.

Inductive response_code_t : Type :=
| NN_WS_HANDSHAKE_RESPONSE_NULL
| NN_WS_HANDSHAKE_RESPONSE_OK
| NN_WS_HANDSHAKE_RESPONSE_TOO_BIG
| NN_WS_HANDSHAKE_RESPONSE_UNUSED2
| NN_WS_HANDSHAKE_RESPONSE_WSPROTO
| NN_WS_HANDSHAKE_RESPONSE_WSVERSION
| NN_WS_HANDSHAKE_RESPONSE_NNPROTO
| NN_WS_HANDSHAKE_RESPONSE_NOTPEER
| NN_WS_HANDSHAKE_RESPONSE_UNKNOWNTYPE.

(** The parsed values of the object: [host]/[host_len], [origin]/
    [origin_len] and so on, one [slice] per name. *)
Inductive field : Type :=
| F_host | F_origin | F_key | F_upgrade | F_conn | F_version
| F_protocol | F_extensions | F_uri
| F_status_code | F_reason_phrase | F_server | F_accept_key.

Definition field_eq_dec (a b : field) : {a = b} + {a <> b}.
Proof. decide equality. Defined.

(** [nn_pipebase_ispeer (pipebase, sp)] and
    [pipebase->sock->socktype->protocol]. *)
Record nn_pipebase : Type := mk_pipebase {
  nn_pipebase_ispeer : sp_id -> bool;
  socktype_protocol : sp_id
}.

(** Modelled from the spec: the timer collaborator (aio/timer.c is not
    part of this file). [start] arms it, [stop] requests cancellation, and
    it is idle again once STOPPED has been posted. *)
Inductive timer_state : Type :=
| TIMER_IDLE
| TIMER_ACTIVE
| TIMER_STOPPING.

(** Modelled from the spec: the handshake object is declared in
    ws_handshake.h; the fields are those ws_handshake.c reads and writes.
    The sizes of [opening_hs], [response] and [expected_accept_key] are
    the lengths of the lists, so that [sizeof] is [length]. *)
Record nn_ws_handshake : Type := mk_handshake {
  hs_state : state_t;
  hs_timer : timer_state;
  hs_timeout : Z;
  hs_mode : mode_t;
  hs_resource : list ascii;
  hs_remote_host : list ascii;
  hs_pipebase : nn_pipebase;
  hs_usock_owned : bool;
  hs_opening_hs : list ascii;
  hs_response : list ascii;
  hs_retries : Z;
  hs_recv_pos : nat;
  hs_recv_len : nat;
  hs_slices : field -> slice;
  hs_expected_accept_key : list ascii;
  hs_response_code : response_code_t
}.

Definition set_state (v : state_t) (self : nn_ws_handshake)
    : nn_ws_handshake :=
  {| hs_state := v;
     hs_timer := hs_timer self;
     hs_timeout := hs_timeout self;
     hs_mode := hs_mode self;
     hs_resource := hs_resource self;
     hs_remote_host := hs_remote_host self;
     hs_pipebase := hs_pipebase self;
     hs_usock_owned := hs_usock_owned self;
     hs_opening_hs := hs_opening_hs self;
     hs_response := hs_response self;
     hs_retries := hs_retries self;
     hs_recv_pos := hs_recv_pos self;
     hs_recv_len := hs_recv_len self;
     hs_slices := hs_slices self;
     hs_expected_accept_key := hs_expected_accept_key self;
     hs_response_code := hs_response_code self |}.

Definition set_timer (v : timer_state) (self : nn_ws_handshake)
    : nn_ws_handshake :=
  {| hs_state := hs_state self;
     hs_timer := v;
     hs_timeout := hs_timeout self;
     hs_mode := hs_mode self;
     hs_resource := hs_resource self;
     hs_remote_host := hs_remote_host self;
     hs_pipebase := hs_pipebase self;
     hs_usock_owned := hs_usock_owned self;
     hs_opening_hs := hs_opening_hs self;
     hs_response := hs_response self;
     hs_retries := hs_retries self;
     hs_recv_pos := hs_recv_pos self;
     hs_recv_len := hs_recv_len self;
     hs_slices := hs_slices self;
     hs_expected_accept_key := hs_expected_accept_key self;
     hs_response_code := hs_response_code self |}.

Definition set_usock_owned (v : bool) (self : nn_ws_handshake)
    : nn_ws_handshake :=
  {| hs_state := hs_state self;
     hs_timer := hs_timer self;
     hs_timeout := hs_timeout self;
     hs_mode := hs_mode self;
     hs_resource := hs_resource self;
     hs_remote_host := hs_remote_host self;
     hs_pipebase := hs_pipebase self;
     hs_usock_owned := v;
     hs_opening_hs := hs_opening_hs self;
     hs_response := hs_response self;
     hs_retries := hs_retries self;
     hs_recv_pos := hs_recv_pos self;
     hs_recv_len := hs_recv_len self;
     hs_slices := hs_slices self;
     hs_expected_accept_key := hs_expected_accept_key self;
     hs_response_code := hs_response_code self |}.

Definition set_opening_hs (v : list ascii) (self : nn_ws_handshake)
    : nn_ws_handshake :=
  {| hs_state := hs_state self;
     hs_timer := hs_timer self;
     hs_timeout := hs_timeout self;
     hs_mode := hs_mode self;
     hs_resource := hs_resource self;
     hs_remote_host := hs_remote_host self;
     hs_pipebase := hs_pipebase self;
     hs_usock_owned := hs_usock_owned self;
     hs_opening_hs := v;
     hs_response := hs_response self;
     hs_retries := hs_retries self;
     hs_recv_pos := hs_recv_pos self;
     hs_recv_len := hs_recv_len self;
     hs_slices := hs_slices self;
     hs_expected_accept_key := hs_expected_accept_key self;
     hs_response_code := hs_response_code self |}.

Definition set_response (v : list ascii) (self : nn_ws_handshake)
    : nn_ws_handshake :=
  {| hs_state := hs_state self;
     hs_timer := hs_timer self;
     hs_timeout := hs_timeout self;
     hs_mode := hs_mode self;
     hs_resource := hs_resource self;
     hs_remote_host := hs_remote_host self;
     hs_pipebase := hs_pipebase self;
     hs_usock_owned := hs_usock_owned self;
     hs_opening_hs := hs_opening_hs self;
     hs_response := v;
     hs_retries := hs_retries self;
     hs_recv_pos := hs_recv_pos self;
     hs_recv_len := hs_recv_len self;
     hs_slices := hs_slices self;
     hs_expected_accept_key := hs_expected_accept_key self;
     hs_response_code := hs_response_code self |}.

Definition set_retries (v : Z) (self : nn_ws_handshake)
    : nn_ws_handshake :=
  {| hs_state := hs_state self;
     hs_timer := hs_timer self;
     hs_timeout := hs_timeout self;
     hs_mode := hs_mode self;
     hs_resource := hs_resource self;
     hs_remote_host := hs_remote_host self;
     hs_pipebase := hs_pipebase self;
     hs_usock_owned := hs_usock_owned self;
     hs_opening_hs := hs_opening_hs self;
     hs_response := hs_response self;
     hs_retries := v;
     hs_recv_pos := hs_recv_pos self;
     hs_recv_len := hs_recv_len self;
     hs_slices := hs_slices self;
     hs_expected_accept_key := hs_expected_accept_key self;
     hs_response_code := hs_response_code self |}.

Definition set_recv_pos (v : nat) (self : nn_ws_handshake)
    : nn_ws_handshake :=
  {| hs_state := hs_state self;
     hs_timer := hs_timer self;
     hs_timeout := hs_timeout self;
     hs_mode := hs_mode self;
     hs_resource := hs_resource self;
     hs_remote_host := hs_remote_host self;
     hs_pipebase := hs_pipebase self;
     hs_usock_owned := hs_usock_owned self;
     hs_opening_hs := hs_opening_hs self;
     hs_response := hs_response self;
     hs_retries := hs_retries self;
     hs_recv_pos := v;
     hs_recv_len := hs_recv_len self;
     hs_slices := hs_slices self;
     hs_expected_accept_key := hs_expected_accept_key self;
     hs_response_code := hs_response_code self |}.

Definition set_recv_len (v : nat) (self : nn_ws_handshake)
    : nn_ws_handshake :=
  {| hs_state := hs_state self;
     hs_timer := hs_timer self;
     hs_timeout := hs_timeout self;
     hs_mode := hs_mode self;
     hs_resource := hs_resource self;
     hs_remote_host := hs_remote_host self;
     hs_pipebase := hs_pipebase self;
     hs_usock_owned := hs_usock_owned self;
     hs_opening_hs := hs_opening_hs self;
     hs_response := hs_response self;
     hs_retries := hs_retries self;
     hs_recv_pos := hs_recv_pos self;
     hs_recv_len := v;
     hs_slices := hs_slices self;
     hs_expected_accept_key := hs_expected_accept_key self;
     hs_response_code := hs_response_code self |}.

Definition set_slices (v : field -> slice) (self : nn_ws_handshake)
    : nn_ws_handshake :=
  {| hs_state := hs_state self;
     hs_timer := hs_timer self;
     hs_timeout := hs_timeout self;
     hs_mode := hs_mode self;
     hs_resource := hs_resource self;
     hs_remote_host := hs_remote_host self;
     hs_pipebase := hs_pipebase self;
     hs_usock_owned := hs_usock_owned self;
     hs_opening_hs := hs_opening_hs self;
     hs_response := hs_response self;
     hs_retries := hs_retries self;
     hs_recv_pos := hs_recv_pos self;
     hs_recv_len := hs_recv_len self;
     hs_slices := v;
     hs_expected_accept_key := hs_expected_accept_key self;
     hs_response_code := hs_response_code self |}.

Definition set_expected_accept_key (v : list ascii) (self : nn_ws_handshake)
    : nn_ws_handshake :=
  {| hs_state := hs_state self;
     hs_timer := hs_timer self;
     hs_timeout := hs_timeout self;
     hs_mode := hs_mode self;
     hs_resource := hs_resource self;
     hs_remote_host := hs_remote_host self;
     hs_pipebase := hs_pipebase self;
     hs_usock_owned := hs_usock_owned self;
     hs_opening_hs := hs_opening_hs self;
     hs_response := hs_response self;
     hs_retries := hs_retries self;
     hs_recv_pos := hs_recv_pos self;
     hs_recv_len := hs_recv_len self;
     hs_slices := hs_slices self;
     hs_expected_accept_key := v;
     hs_response_code := hs_response_code self |}.

Definition set_response_code (v : response_code_t) (self : nn_ws_handshake)
    : nn_ws_handshake :=
  {| hs_state := hs_state self;
     hs_timer := hs_timer self;
     hs_timeout := hs_timeout self;
     hs_mode := hs_mode self;
     hs_resource := hs_resource self;
     hs_remote_host := hs_remote_host self;
     hs_pipebase := hs_pipebase self;
     hs_usock_owned := hs_usock_owned self;
     hs_opening_hs := hs_opening_hs self;
     hs_response := hs_response self;
     hs_retries := hs_retries self;
     hs_recv_pos := hs_recv_pos self;
     hs_recv_len := hs_recv_len self;
     hs_slices := hs_slices self;
     hs_expected_accept_key := hs_expected_accept_key self;
     hs_response_code := v |}.

(** [self->f = v.ptr; self->f_len = v.len;] *)
Definition set_slice (f : field) (v : slice) (self : nn_ws_handshake)
    : nn_ws_handshake :=
  set_slices
    (fun g => if field_eq_dec g f then v else hs_slices self g) self.

Definition ptr (self : nn_ws_handshake) (f : field) : option nat :=
  sl_ptr (hs_slices self f).
Definition len (self : nn_ws_handshake) (f : field) : nat :=
  sl_len (hs_slices self f).

Definition is_null (p : option nat) : bool :=
  match p with
  | None => true
  | Some _ => false
  end.

(** ** Request parser *)

Definition header_table : Type := list (list ascii * field).

Definition CLIENT_OPENING_HEADERS : header_table :=
  [ (cs "Host:", F_host);
    (cs "Origin:", F_origin);
    (cs "Sec-WebSocket-Key:", F_key);
    (cs "Upgrade:", F_upgrade);
    (cs "Connection:", F_conn);
    (cs "Sec-WebSocket-Version:", F_version);
    (cs "Sec-WebSocket-Protocol:", F_protocol);
    (cs "Sec-WebSocket-Extensions:", F_extensions) ].

Definition SERVER_RESPONSE_HEADERS : header_table :=
  [ (cs "Server:", F_server);
    (cs "Sec-WebSocket-Accept:", F_accept_key);
    (cs "Upgrade:", F_upgrade);
    (cs "Connection:", F_conn);
    (cs "Sec-WebSocket-Version-Server:", F_version);
    (cs "Sec-WebSocket-Protocol-Server:", F_protocol);
    (cs "Sec-WebSocket-Extensions:", F_extensions) ].

(** The slices each parser sets to NULL and 0 before it parses. *)
Definition CLIENT_OPENING_RESET : list field :=
  [F_host; F_origin; F_key; F_upgrade; F_conn; F_version; F_protocol; F_uri].

Definition SERVER_RESPONSE_RESET : list field :=
  [F_status_code; F_reason_phrase; F_server; F_accept_key; F_upgrade;
   F_conn; F_version; F_protocol].

Definition reset_slices (fs : list field) (self : nn_ws_handshake)
    : nn_ws_handshake :=
  fold_left (fun s f => set_slice f null_slice s) fs self.

(** The [if ... else if ...] chain over the recognised header names: the
    first name of the table that matches at [pos]. *)
Fixpoint match_header (hdrs : header_table) (buf : list ascii) (pos : nat)
    : option (field * nat) :=
  match hdrs with
  | [] => None
  | (token, f) :: hdrs' =>
    match nn_ws_match_token token buf pos true false with
    | (NN_WS_HANDSHAKE_MATCH, pos') => Some (f, pos')
    | (NN_WS_HANDSHAKE_NOMATCH, _) => match_header hdrs' buf pos
    end
  end.

Inductive loop_result : Type :=
| LOOP_RECV_MORE (self : nn_ws_handshake)
| LOOP_EXIT (pos : nat) (self : nn_ws_handshake)
| LOOP_FUEL.

(** [while (strlen (pos)) { ... }] over the header lines. Every turn that
    does not leave the loop moves [pos] past a CRLF, so [length buf] turns
    of fuel are enough ([header_loop_fuel]). *)
Fixpoint header_loop (fuel : nat) (hdrs : header_table) (buf : list ascii)
    (pos : nat) (self : nn_ws_handshake) : loop_result :=
  match fuel with
  | O => LOOP_FUEL
  | S fuel' =>
    if (strlen buf pos =? 0)%nat then LOOP_EXIT pos self
    else
      match match_header hdrs buf pos with
      | Some (f, pos) =>
        let '(rc, pos, v) :=
          nn_ws_match_value NN_WS_HANDSHAKE_CRLF buf pos true true in
        let self := set_slice f v self in
        if is_match rc then header_loop fuel' hdrs buf pos self
        else LOOP_RECV_MORE self
      | None =>
        match nn_ws_match_token NN_WS_HANDSHAKE_CRLF buf pos true false with
        | (NN_WS_HANDSHAKE_MATCH, pos) => LOOP_EXIT pos self
        | (NN_WS_HANDSHAKE_NOMATCH, _) =>
          let '(rc, pos, _) :=
            nn_ws_match_value NN_WS_HANDSHAKE_CRLF buf pos true true in
          if is_match rc then header_loop fuel' hdrs buf pos self
          else LOOP_RECV_MORE self
        end
      end
  end.

(** The loop over [NN_WS_HANDSHAKE_SP_MAP] in the request parser: the SP of
    the first entry whose token validates against the protocol value. *)
Fixpoint sp_map_lookup (map : list (sp_id * list ascii)) (buf : list ascii)
    (p l : nat) : option sp_id :=
  match map with
  | [] => None
  | (sp, ws_sp) :: map' =>
    if is_match (nn_ws_validate_value ws_sp buf p l true) then Some sp
    else sp_map_lookup map' buf p l
  end.

Definition reply (rc : parse_rc) (code : response_code_t)
    (self : nn_ws_handshake) : parse_rc * nn_ws_handshake :=
  (rc, set_response_code code self).

(** The validation part of [nn_ws_handshake_parse_client_opening], from
    the test of the required header fields to the end of the function. *)
Definition validate_client_opening (self : nn_ws_handshake)
    : parse_rc * nn_ws_handshake :=
  let buf := hs_opening_hs self in
  match ptr self F_host, ptr self F_upgrade, ptr self F_conn,
        ptr self F_key, ptr self F_version with
  | Some _, Some upgrade, Some conn, Some _, Some version =>
    if negb (is_match (nn_ws_validate_value (cs "13") buf version
                         (len self F_version) true))
    then reply NN_WS_HANDSHAKE_INVALID NN_WS_HANDSHAKE_RESPONSE_WSVERSION self
    else if negb (is_match (nn_ws_validate_value (cs "websocket") buf upgrade
                              (len self F_upgrade) true))
    then reply NN_WS_HANDSHAKE_INVALID NN_WS_HANDSHAKE_RESPONSE_WSPROTO self
    else if negb (is_match (nn_ws_validate_value (cs "Upgrade") buf conn
                              (len self F_conn) true))
    then reply NN_WS_HANDSHAKE_INVALID NN_WS_HANDSHAKE_RESPONSE_WSPROTO self
    else
      match ptr self F_protocol with
      | Some protocol =>
        match sp_map_lookup NN_WS_HANDSHAKE_SP_MAP buf protocol
                (len self F_protocol) with
        | Some sp =>
          if nn_pipebase_ispeer (hs_pipebase self) sp
          then reply NN_WS_HANDSHAKE_VALID NN_WS_HANDSHAKE_RESPONSE_OK self
          else reply NN_WS_HANDSHAKE_INVALID
                 NN_WS_HANDSHAKE_RESPONSE_NOTPEER self
        | None =>
          reply NN_WS_HANDSHAKE_INVALID
            NN_WS_HANDSHAKE_RESPONSE_UNKNOWNTYPE self
        end
      | None =>
        if nn_pipebase_ispeer (hs_pipebase self) NN_PAIR
        then reply NN_WS_HANDSHAKE_VALID NN_WS_HANDSHAKE_RESPONSE_OK self
        else reply NN_WS_HANDSHAKE_INVALID
               NN_WS_HANDSHAKE_RESPONSE_NOTPEER self
      end
  | _, _, _, _, _ =>
    reply NN_WS_HANDSHAKE_INVALID NN_WS_HANDSHAKE_RESPONSE_WSPROTO self
  end.

(** What the request parser does between the CRLFCRLF test and the
    validation: the request line and the header lines. *)
Definition scan_client_opening (self : nn_ws_handshake) : loop_result :=
  let buf := hs_opening_hs self in
  let pos := O in
  let self := reset_slices CLIENT_OPENING_RESET self in
  let self := set_response_code NN_WS_HANDSHAKE_RESPONSE_NULL self in
  match nn_ws_match_token (cs "GET ") buf pos false false with
  | (NN_WS_HANDSHAKE_NOMATCH, _) => LOOP_RECV_MORE self
  | (NN_WS_HANDSHAKE_MATCH, pos) =>
    let '(rc, pos, v) := nn_ws_match_value [SP] buf pos false false in
    let self := set_slice F_uri v self in
    if negb (is_match rc) then LOOP_RECV_MORE self
    else
      match nn_ws_match_token (cs "HTTP/1.1") buf pos false false with
      | (NN_WS_HANDSHAKE_NOMATCH, _) => LOOP_RECV_MORE self
      | (NN_WS_HANDSHAKE_MATCH, pos) =>
        match nn_ws_match_token NN_WS_HANDSHAKE_CRLF buf pos false false with
        | (NN_WS_HANDSHAKE_NOMATCH, _) => LOOP_RECV_MORE self
        | (NN_WS_HANDSHAKE_MATCH, pos) =>
          header_loop (S (length buf)) CLIENT_OPENING_HEADERS buf pos self
        end
      end
  end.

Definition nn_ws_handshake_parse_client_opening (self : nn_ws_handshake)
    : outcome (parse_rc * nn_ws_handshake) :=
  let buf := hs_opening_hs self in
  _ <- nn_assert (existsb is_nul buf) ASSERT_NO_NUL ;;
  _ <- nn_assert (strlen buf 0 <? length buf)%nat ASSERT_NO_NUL ;;
  match strstr buf 0 NN_WS_HANDSHAKE_TERMSEQ with
  | None => Done (NN_WS_HANDSHAKE_RECV_MORE, self)
  | Some _ =>
    match scan_client_opening self with
    | LOOP_RECV_MORE self => Done (NN_WS_HANDSHAKE_RECV_MORE, self)
    | LOOP_FUEL => Abort OUT_OF_FUEL
    | LOOP_EXIT pos self =>
      _ <- nn_assert (strlen buf pos =? 0)%nat ASSERT_TRAILING_DATA ;;
      Done (validate_client_opening self)
    end
  end.

(** ** Response parser *)

Definition validate_server_response (self : nn_ws_handshake) : parse_rc :=
  let buf := hs_response self in
  match ptr self F_status_code, ptr self F_upgrade, ptr self F_conn,
        ptr self F_accept_key with
  | Some status_code, Some upgrade, Some conn, Some accept_key =>
    if negb (is_match (nn_ws_validate_value (cs "101") buf status_code
                         (len self F_status_code) true))
    then NN_WS_HANDSHAKE_INVALID
    else if negb (is_match (nn_ws_validate_value (cs "websocket") buf upgrade
                              (len self F_upgrade) true))
    then NN_WS_HANDSHAKE_INVALID
    else if negb (is_match (nn_ws_validate_value (cs "Upgrade") buf conn
                              (len self F_conn) true))
    then NN_WS_HANDSHAKE_INVALID
    else if negb (is_match (nn_ws_validate_value
                              (cstring (hs_expected_accept_key self) 0) buf
                              accept_key (len self F_accept_key) true))
    then NN_WS_HANDSHAKE_INVALID
    else NN_WS_HANDSHAKE_VALID
  | _, _, _, _ => NN_WS_HANDSHAKE_INVALID
  end.

Definition scan_server_response (self : nn_ws_handshake) : loop_result :=
  let buf := hs_response self in
  let pos := O in
  let self := reset_slices SERVER_RESPONSE_RESET self in
  match nn_ws_match_token (cs "HTTP/1.1 ") buf pos false false with
  | (NN_WS_HANDSHAKE_NOMATCH, _) => LOOP_RECV_MORE self
  | (NN_WS_HANDSHAKE_MATCH, pos) =>
    let '(rc, pos, v) := nn_ws_match_value [SP] buf pos false false in
    let self := set_slice F_status_code v self in
    if negb (is_match rc) then LOOP_RECV_MORE self
    else
      let '(rc, pos, v) :=
        nn_ws_match_value NN_WS_HANDSHAKE_CRLF buf pos false false in
      let self := set_slice F_reason_phrase v self in
      if negb (is_match rc) then LOOP_RECV_MORE self
      else header_loop (S (length buf)) SERVER_RESPONSE_HEADERS buf pos self
  end.

Definition nn_ws_handshake_parse_server_response (self : nn_ws_handshake)
    : outcome (parse_rc * nn_ws_handshake) :=
  let buf := hs_response self in
  _ <- nn_assert (existsb is_nul buf) ASSERT_NO_NUL ;;
  _ <- nn_assert (strlen buf 0 <? length buf)%nat ASSERT_NO_NUL ;;
  match strstr buf 0 NN_WS_HANDSHAKE_TERMSEQ with
  | None => Done (NN_WS_HANDSHAKE_RECV_MORE, self)
  | Some _ =>
    match scan_server_response self with
    | LOOP_RECV_MORE self => Done (NN_WS_HANDSHAKE_RECV_MORE, self)
    | LOOP_FUEL => Abort OUT_OF_FUEL
    | LOOP_EXIT pos self =>
      _ <- nn_assert (strlen buf pos =? 0)%nat ASSERT_TRAILING_DATA ;;
      Done (validate_server_response self, self)
    end
  end.

(** ** Collaborators and effects *)

(** The two results of ws_handshake.h that the done event carries. *)
Inductive hs_result : Type :=
| NN_WS_HANDSHAKE_OK
| NN_WS_HANDSHAKE_ERROR.

(** What the handshake asks of its collaborators, in the order of the
    calls. [USOCK_RECV off n] is [nn_usock_recv (usock, buf + off, n)] on
    the receive buffer of the mode; [FSM_RAISE_DONE rc] is
    [nn_fsm_raise (&self->fsm, &self->done, rc)]. *)
Inductive effect : Type :=
| TIMER_START (timeout : Z)
| TIMER_STOP
| USOCK_SWAP_OWNER
| USOCK_RECV (off n : nat)
| USOCK_SEND (data : list ascii)
| FSM_RAISE_DONE (rc : hs_result)
| FSM_STOPPED.

(** What the code takes from the machine it runs on: its byte order, the
    content of the uninitialised local [struct sha1hash], and the octets
    that [nn_random_generate] delivers. *)
Record machine : Type := mk_machine {
  little_endian : bool;
  stack_hash : sha1hash;
  random_octets : list ascii
}.

Inductive action_t : Type := NN_FSM_START | NN_FSM_STOP | NN_FSM_ACTION_OTHER.
Inductive usock_t : Type :=
| NN_USOCK_SENT | NN_USOCK_RECEIVED | NN_USOCK_SHUTDOWN | NN_USOCK_ERROR
| NN_USOCK_OTHER.
Inductive timer_t : Type :=
| NN_TIMER_TIMEOUT | NN_TIMER_STOPPED | NN_TIMER_OTHER.

(** [(src, type)] of a handler call. *)
Inductive event : Type :=
| NN_FSM_ACTION (type : action_t)
| NN_WS_HANDSHAKE_SRC_USOCK (type : usock_t)
| NN_WS_HANDSHAKE_SRC_TIMER (type : timer_t)
| SRC_OTHER.

Definition nn_timer_start (self : nn_ws_handshake) : nn_ws_handshake :=
  set_timer TIMER_ACTIVE self.

Definition nn_timer_stop (self : nn_ws_handshake) : nn_ws_handshake :=
  match hs_timer self with
  | TIMER_ACTIVE => set_timer TIMER_STOPPING self
  | _ => self
  end.

Definition nn_timer_isidle (self : nn_ws_handshake) : bool :=
  match hs_timer self with
  | TIMER_IDLE => true
  | _ => false
  end.

(** ** Generators *)

(** [n] octets of memory at [buf + off]. *)
Definition mem (buf : list ascii) (off n : nat) : list ascii :=
  firstn n (skipn off buf).

(** [sprintf (buf, ...)] producing [text]: [text] and its NUL are stored at
    the head of [buf]. *)
Definition sprintf (buf text : list ascii) : outcome (list ascii) :=
  if (length text + 1 <=? length buf)%nat
  then Done (text ++ [NUL] ++ skipn (length text + 1) buf)
  else Abort BUFFER_OVERRUN.

(** The octets [p[0..n)] of a parsed value. *)
Definition slice_octets (buf : list ascii) (v : slice)
    : outcome (list ascii) :=
  match sl_ptr v with
  | Some p => Done (mem buf p (sl_len v))
  | None => if (sl_len v =? 0)%nat then Done [] else Abort NULL_DEREF
  end.

(** [strncpy (dst, p, n); dst[n] = 0;] read back as a string. *)
Definition slice_string (buf : list ascii) (v : slice)
    : outcome (list ascii) :=
  octets <- slice_octets buf v ;;
  Done (until_nul octets).

Definition failure_code (code : response_code_t)
    : outcome (list ascii) :=
  match code with
  | NN_WS_HANDSHAKE_RESPONSE_TOO_BIG =>
    Done (cs "400 Opening Handshake Too Long")
  | NN_WS_HANDSHAKE_RESPONSE_WSPROTO => Done (cs "400 Cannot Have Body")
  | NN_WS_HANDSHAKE_RESPONSE_WSVERSION =>
    Done (cs "400 Unsupported WebSocket Version")
  | NN_WS_HANDSHAKE_RESPONSE_NNPROTO =>
    Done (cs "400 Missing nanomsg Required Headers")
  | NN_WS_HANDSHAKE_RESPONSE_NOTPEER =>
    Done (cs "400 Incompatible Socket Type")
  | NN_WS_HANDSHAKE_RESPONSE_UNKNOWNTYPE =>
    Done (cs "400 Unrecognized Socket Type")
  | _ => Abort ASSERT_RESPONSE_CODE
  end.

Definition upgrade_reply (accept_key protocol : list ascii) : list ascii :=
  cs "HTTP/1.1 101 Switching Protocols" ++ NN_WS_HANDSHAKE_CRLF ++
  cs "Upgrade: websocket" ++ NN_WS_HANDSHAKE_CRLF ++
  cs "Connection: Upgrade" ++ NN_WS_HANDSHAKE_CRLF ++
  cs "Sec-WebSocket-Accept: " ++ accept_key ++ NN_WS_HANDSHAKE_CRLF ++
  cs "Sec-WebSocket-Protocol: " ++ protocol ++ NN_WS_HANDSHAKE_TERMSEQ.

Definition failure_reply (code version : list ascii) : list ascii :=
  cs "HTTP/1.1 " ++ code ++ NN_WS_HANDSHAKE_CRLF ++
  cs "Sec-WebSocket-Version: " ++ version ++ NN_WS_HANDSHAKE_CRLF.

Definition nn_ws_handshake_server_reply (m : machine)
    (self : nn_ws_handshake) : outcome (nn_ws_handshake * list effect) :=
  let self :=
    set_response (repeat NUL (length (hs_response self))) self in
  text <-
    match hs_response_code self with
    | NN_WS_HANDSHAKE_RESPONSE_OK =>
      key <- slice_octets (hs_opening_hs self) (hs_slices self F_key) ;;
      match nn_ws_handshake_hash_key (little_endian m) (stack_hash m) key
              (NN_WS_HANDSHAKE_ACCEPT_KEY_LEN + 1) with
      | B64_ENOBUFS => Abort ASSERT_KEY_LEN
      | B64_OK _ accept_key =>
        let accept_key := cstring accept_key 0 in
        _ <- nn_assert
               (length accept_key =? NN_WS_HANDSHAKE_ACCEPT_KEY_LEN)%nat
               ASSERT_KEY_LEN ;;
        protocol <-
          slice_string (hs_opening_hs self) (hs_slices self F_protocol) ;;
        Done (upgrade_reply accept_key protocol)
      end
    | code =>
      code <- failure_code code ;;
      version <-
        slice_string (hs_opening_hs self) (hs_slices self F_version) ;;
      Done (failure_reply code version)
    end ;;
  response <- sprintf (hs_response self) text ;;
  let self := set_response response self in
  Done (self, [USOCK_SEND (cstring (hs_response self) 0)]).

(** The loop over the map in the request generator. *)
Fixpoint sp_map_token (map : list (sp_id * list ascii)) (sp : sp_id)
    : option (list ascii) :=
  match map with
  | [] => None
  | (sp', ws_sp) :: map' =>
    if sp_id_eq_dec sp' sp then Some ws_sp else sp_map_token map' sp
  end.

Definition opening_request (resource host encoded_key ws_sp : list ascii)
    : list ascii :=
  cs "GET " ++ resource ++ cs " HTTP/1.1" ++ NN_WS_HANDSHAKE_CRLF ++
  cs "Host: " ++ host ++ NN_WS_HANDSHAKE_CRLF ++
  cs "Upgrade: websocket" ++ NN_WS_HANDSHAKE_CRLF ++
  cs "Connection: Upgrade" ++ NN_WS_HANDSHAKE_CRLF ++
  cs "Sec-WebSocket-Key: " ++ encoded_key ++ NN_WS_HANDSHAKE_CRLF ++
  cs "Sec-WebSocket-Version: 13" ++ NN_WS_HANDSHAKE_CRLF ++
  cs "Sec-WebSocket-Protocol: " ++ ws_sp ++ NN_WS_HANDSHAKE_TERMSEQ.

Definition nn_ws_handshake_client_request (m : machine)
    (self : nn_ws_handshake) : outcome (nn_ws_handshake * list effect) :=
  let rand_key := firstn 16 (random_octets m) in
  match base64_encode rand_key (24 + 1) with
  | B64_ENOBUFS => Abort ASSERT_KEY_LEN
  | B64_OK _ encoded_key =>
    let encoded_key := cstring encoded_key 0 in
    _ <- nn_assert (length encoded_key =? 24)%nat ASSERT_KEY_LEN ;;
    match nn_ws_handshake_hash_key (little_endian m) (stack_hash m)
            encoded_key (NN_WS_HANDSHAKE_ACCEPT_KEY_LEN + 1) with
    | B64_ENOBUFS => Abort ASSERT_KEY_LEN
    | B64_OK rc expected =>
      let self := set_expected_accept_key expected self in
      _ <- nn_assert (rc =? NN_WS_HANDSHAKE_ACCEPT_KEY_LEN)%nat
             ASSERT_KEY_LEN ;;
      match sp_map_token NN_WS_HANDSHAKE_SP_MAP
              (socktype_protocol (hs_pipebase self)) with
      | None => Abort ASSERT_SP_MAP
      | Some ws_sp =>
        opening_hs <-
          sprintf (hs_opening_hs self)
            (opening_request (hs_resource self) (hs_remote_host self)
               encoded_key ws_sp) ;;
        let self := set_opening_hs opening_hs self in
        Done (self, [USOCK_SEND (cstring (hs_opening_hs self) 0)])
      end
    end
  end.

(** ** State machine *)

(** [nn_ws_handshake_leave (self, rc)]. *)
Definition nn_ws_handshake_leave (self : nn_ws_handshake) (rc : hs_result)
    : nn_ws_handshake * list effect :=
  let self := set_usock_owned false self in
  let self := set_state NN_WS_HANDSHAKE_STATE_DONE self in
  (self, [USOCK_SWAP_OWNER; FSM_RAISE_DONE rc]).

(** [memcmp (a, b, n) == 0] on the octets themselves. *)
Definition memcmp_eq (a b : list ascii) : bool := ascii_list_eqb a b.

(** [for (i = NN_WS_HANDSHAKE_TERMSEQ_LEN; i >= 0; i--)] with its [break]:
    the first [i], counting down, for which the [i] octets before
    [buf + recv_pos] equal the first [i] octets of the terminator. The
    comparison of zero octets succeeds, so the loop is left at [i = 0] at
    the latest. *)
Fixpoint termseq_scan (i : nat) (buf : list ascii) (recv_pos : nat) : nat :=
  if memcmp_eq (firstn i NN_WS_HANDSHAKE_TERMSEQ) (mem buf (recv_pos - i) i)
  then i
  else match i with
       | O => O
       | S i' => termseq_scan i' buf recv_pos
       end.

(** The statements [nn_timer_stop (&timer); state = STOPPING_TIMER_x;]. *)
Definition stop_timer_and_enter (s : state_t) (self : nn_ws_handshake)
    : outcome (nn_ws_handshake * list effect) :=
  Done (set_state s (nn_timer_stop self), [TIMER_STOP]).

(** The [NN_WS_HANDSHAKE_RECV_MORE] case of the SERVER_RECV state up to the
    new [recv_len]. The CLIENT_RECV state does the same on [response]. *)
Definition recv_more (buf : list ascii) (self : nn_ws_handshake)
    : outcome nn_ws_handshake :=
  let self := set_recv_pos (hs_recv_pos self + hs_recv_len self)%nat self in
  _ <- nn_assert (hs_recv_pos self <? length buf)%nat ASSERT_RECV_POS ;;
  _ <- nn_assert (NN_WS_HANDSHAKE_TERMSEQ_LEN <=? hs_recv_pos self)%nat
         ASSERT_BACKTRACK ;;
  let i := termseq_scan NN_WS_HANDSHAKE_TERMSEQ_LEN buf (hs_recv_pos self) in
  _ <- nn_assert (i <? NN_WS_HANDSHAKE_TERMSEQ_LEN)%nat ASSERT_TERMSEQ ;;
  Done (set_recv_len (NN_WS_HANDSHAKE_TERMSEQ_LEN - i)%nat self).

(** The events shared by the sending and receiving states: SHUTDOWN is
    ignored, ERROR and TIMEOUT stop the timer and enter
    STOPPING_TIMER_ERROR, anything else is a bad action or source. *)
Definition common_events (self : nn_ws_handshake) (ev : event)
    : outcome (nn_ws_handshake * list effect) :=
  match ev with
  | NN_WS_HANDSHAKE_SRC_USOCK NN_USOCK_SHUTDOWN => Done (self, [])
  | NN_WS_HANDSHAKE_SRC_USOCK NN_USOCK_ERROR =>
    stop_timer_and_enter NN_WS_HANDSHAKE_STATE_STOPPING_TIMER_ERROR self
  | NN_WS_HANDSHAKE_SRC_USOCK _ => Abort FSM_BAD_ACTION
  | NN_WS_HANDSHAKE_SRC_TIMER NN_TIMER_TIMEOUT =>
    stop_timer_and_enter NN_WS_HANDSHAKE_STATE_STOPPING_TIMER_ERROR self
  | NN_WS_HANDSHAKE_SRC_TIMER _ => Abort FSM_BAD_ACTION
  | _ => Abort FSM_BAD_SOURCE
  end.

Definition nn_ws_handshake_handler (m : machine) (self : nn_ws_handshake)
    (ev : event) : outcome (nn_ws_handshake * list effect) :=
  match hs_state self with
  | NN_WS_HANDSHAKE_STATE_IDLE =>
    match ev with
    | NN_FSM_ACTION NN_FSM_START =>
      _ <- nn_assert (hs_recv_pos self =? 0)%nat ASSERT_START ;;
      _ <- nn_assert (NN_WS_HANDSHAKE_TERMSEQ_LEN <=? hs_recv_len self)%nat
             ASSERT_START ;;
      let armed := TIMER_START (hs_timeout self) in
      let self := nn_timer_start self in
      match hs_mode self with
      | NN_WS_CLIENT =>
        _ <- nn_assert (hs_recv_len self <=? length (hs_response self))%nat
               ASSERT_START ;;
        let self := set_state NN_WS_HANDSHAKE_STATE_CLIENT_SEND self in
        '(self, effs) <- nn_ws_handshake_client_request m self ;;
        Done (self, armed :: effs)
      | NN_WS_SERVER =>
        _ <- nn_assert (hs_recv_len self <=? length (hs_opening_hs self))%nat
               ASSERT_START ;;
        let self := set_state NN_WS_HANDSHAKE_STATE_SERVER_RECV self in
        Done (self, [armed; USOCK_RECV 0 (hs_recv_len self)])
      | NN_WS_MODE_OTHER => Abort ASSERT_MODE
      end
    | NN_FSM_ACTION _ => Abort FSM_BAD_ACTION
    | _ => Abort FSM_BAD_SOURCE
    end

  | NN_WS_HANDSHAKE_STATE_SERVER_RECV =>
    match ev with
    | NN_WS_HANDSHAKE_SRC_USOCK NN_USOCK_RECEIVED =>
      '(rc, self) <- nn_ws_handshake_parse_client_opening self ;;
      match rc with
      | NN_WS_HANDSHAKE_INVALID
      | NN_WS_HANDSHAKE_VALID =>
        let self := set_state NN_WS_HANDSHAKE_STATE_SERVER_REPLY self in
        nn_ws_handshake_server_reply m self
      | NN_WS_HANDSHAKE_RECV_MORE =>
        self <- recv_more (hs_opening_hs self) self ;;
        if (length (hs_opening_hs self)
              <? hs_recv_len self + hs_recv_pos self)%nat
        then
          let self :=
            set_response_code NN_WS_HANDSHAKE_RESPONSE_TOO_BIG self in
          let self := set_state NN_WS_HANDSHAKE_STATE_SERVER_REPLY self in
          nn_ws_handshake_server_reply m self
        else
          let self := set_retries (hs_retries self + 1) self in
          Done (self, [USOCK_RECV (hs_recv_pos self) (hs_recv_len self)])
      end
    | _ => common_events self ev
    end

  | NN_WS_HANDSHAKE_STATE_SERVER_REPLY
  | NN_WS_HANDSHAKE_STATE_HANDSHAKE_SENT =>
    match ev with
    | NN_WS_HANDSHAKE_SRC_USOCK NN_USOCK_SENT =>
      stop_timer_and_enter NN_WS_HANDSHAKE_STATE_STOPPING_TIMER_DONE self
    | _ => common_events self ev
    end

  | NN_WS_HANDSHAKE_STATE_CLIENT_SEND =>
    match ev with
    | NN_WS_HANDSHAKE_SRC_USOCK NN_USOCK_SENT =>
      let self := set_state NN_WS_HANDSHAKE_STATE_CLIENT_RECV self in
      Done (self, [USOCK_RECV 0 (hs_recv_len self)])
    | _ => common_events self ev
    end

  | NN_WS_HANDSHAKE_STATE_CLIENT_RECV =>
    match ev with
    | NN_WS_HANDSHAKE_SRC_USOCK NN_USOCK_RECEIVED =>
      '(rc, self) <- nn_ws_handshake_parse_server_response self ;;
      match rc with
      | NN_WS_HANDSHAKE_INVALID =>
        stop_timer_and_enter NN_WS_HANDSHAKE_STATE_STOPPING_TIMER_ERROR self
      | NN_WS_HANDSHAKE_VALID =>
        stop_timer_and_enter NN_WS_HANDSHAKE_STATE_STOPPING_TIMER_DONE self
      | NN_WS_HANDSHAKE_RECV_MORE =>
        self <- recv_more (hs_response self) self ;;
        if (length (hs_response self)
              <? hs_recv_len self + hs_recv_pos self)%nat
        then
          stop_timer_and_enter NN_WS_HANDSHAKE_STATE_STOPPING_TIMER_ERROR
            self
        else
          let self := set_retries (hs_retries self + 1) self in
          Done (self, [USOCK_RECV (hs_recv_pos self) (hs_recv_len self)])
      end
    | _ => common_events self ev
    end

  | NN_WS_HANDSHAKE_STATE_STOPPING_TIMER_ERROR =>
    match ev with
    | NN_WS_HANDSHAKE_SRC_USOCK _ => Done (self, [])
    | NN_WS_HANDSHAKE_SRC_TIMER NN_TIMER_STOPPED =>
      Done (nn_ws_handshake_leave self NN_WS_HANDSHAKE_ERROR)
    | NN_WS_HANDSHAKE_SRC_TIMER _ => Abort FSM_BAD_ACTION
    | _ => Abort FSM_BAD_SOURCE
    end

  | NN_WS_HANDSHAKE_STATE_STOPPING_TIMER_DONE =>
    match ev with
    | NN_WS_HANDSHAKE_SRC_USOCK _ => Done (self, [])
    | NN_WS_HANDSHAKE_SRC_TIMER NN_TIMER_STOPPED =>
      Done (nn_ws_handshake_leave self NN_WS_HANDSHAKE_OK)
    | NN_WS_HANDSHAKE_SRC_TIMER _ => Abort FSM_BAD_ACTION
    | _ => Abort FSM_BAD_SOURCE
    end

  | NN_WS_HANDSHAKE_STATE_DONE => Abort FSM_BAD_SOURCE

  | NN_WS_HANDSHAKE_STATE_STOPPING => Abort FSM_BAD_STATE
  end.

Definition state_eqb (a b : state_t) : bool :=
  match a, b with
  | NN_WS_HANDSHAKE_STATE_IDLE, NN_WS_HANDSHAKE_STATE_IDLE
  | NN_WS_HANDSHAKE_STATE_SERVER_RECV, NN_WS_HANDSHAKE_STATE_SERVER_RECV
  | NN_WS_HANDSHAKE_STATE_SERVER_REPLY, NN_WS_HANDSHAKE_STATE_SERVER_REPLY
  | NN_WS_HANDSHAKE_STATE_CLIENT_SEND, NN_WS_HANDSHAKE_STATE_CLIENT_SEND
  | NN_WS_HANDSHAKE_STATE_CLIENT_RECV, NN_WS_HANDSHAKE_STATE_CLIENT_RECV
  | NN_WS_HANDSHAKE_STATE_HANDSHAKE_SENT, NN_WS_HANDSHAKE_STATE_HANDSHAKE_SENT
  | NN_WS_HANDSHAKE_STATE_STOPPING_TIMER_ERROR,
    NN_WS_HANDSHAKE_STATE_STOPPING_TIMER_ERROR
  | NN_WS_HANDSHAKE_STATE_STOPPING_TIMER_DONE,
    NN_WS_HANDSHAKE_STATE_STOPPING_TIMER_DONE
  | NN_WS_HANDSHAKE_STATE_DONE, NN_WS_HANDSHAKE_STATE_DONE
  | NN_WS_HANDSHAKE_STATE_STOPPING, NN_WS_HANDSHAKE_STATE_STOPPING => true
  | _, _ => false
  end.

Definition nn_ws_handshake_shutdown (self : nn_ws_handshake) (ev : event)
    : outcome (nn_ws_handshake * list effect) :=
  let '(self, effs) :=
    match ev with
    | NN_FSM_ACTION NN_FSM_STOP =>
      (set_state NN_WS_HANDSHAKE_STATE_STOPPING (nn_timer_stop self),
       [TIMER_STOP])
    | _ => (self, [])
    end in
  if state_eqb (hs_state self) NN_WS_HANDSHAKE_STATE_STOPPING then
    if negb (nn_timer_isidle self) then Done (self, effs)
    else
      let self := set_state NN_WS_HANDSHAKE_STATE_IDLE self in
      Done (self, effs ++ [FSM_STOPPED])
  else Abort FSM_BAD_STATE.

(** ** Public functions *)

Definition nn_ws_handshake_init (self : nn_ws_handshake)
    : nn_ws_handshake :=
  {| hs_state := NN_WS_HANDSHAKE_STATE_IDLE;
     hs_timer := TIMER_IDLE;
     hs_timeout := NN_WS_HANDSHAKE_TIMEOUT;
     hs_mode := hs_mode self;
     hs_resource := hs_resource self;
     hs_remote_host := hs_remote_host self;
     hs_pipebase := hs_pipebase self;
     hs_usock_owned := false;
     hs_opening_hs := hs_opening_hs self;
     hs_response := hs_response self;
     hs_retries := hs_retries self;
     hs_recv_pos := hs_recv_pos self;
     hs_recv_len := hs_recv_len self;
     hs_slices := hs_slices self;
     hs_expected_accept_key := hs_expected_accept_key self;
     hs_response_code := hs_response_code self |}.

Definition nn_ws_handshake_term (self : nn_ws_handshake) : outcome unit :=
  nn_assert (state_eqb (hs_state self) NN_WS_HANDSHAKE_STATE_IDLE)
    ASSERT_IDLE.

Definition SERVER_MIN_OPENING : list ascii :=
  cs "GET x HTTP/1.1" ++ NN_WS_HANDSHAKE_CRLF ++
  cs "Upgrade: websocket" ++ NN_WS_HANDSHAKE_CRLF ++
  cs "Connection: Upgrade" ++ NN_WS_HANDSHAKE_CRLF ++
  cs "Host: x" ++ NN_WS_HANDSHAKE_CRLF ++
  cs "Origin: x" ++ NN_WS_HANDSHAKE_CRLF ++
  cs "Sec-WebSocket-Key: xxxxxxxxxxxxxxxxxxxxxxxx" ++ NN_WS_HANDSHAKE_CRLF ++
  cs "Sec-WebSocket-Version: xx" ++ NN_WS_HANDSHAKE_TERMSEQ.

Definition CLIENT_MIN_RESPONSE : list ascii :=
  cs "HTTP/1.1 xxx" ++ NN_WS_HANDSHAKE_TERMSEQ.

(** [nn_ws_handshake_start (self, usock, pipebase, mode, resource, host)];
    its last statement, [nn_fsm_start], delivers the START action to the
    handler. *)
Definition nn_ws_handshake_start (m : machine) (self : nn_ws_handshake)
    (pipebase : nn_pipebase) (mode : mode_t) (resource host : list ascii)
    : outcome (nn_ws_handshake * list effect) :=
  _ <- match mode with
       | NN_WS_CLIENT => nn_assert (1 <=? length resource)%nat ASSERT_RESOURCE
       | _ => Done tt
       end ;;
  _ <- nn_assert (negb (hs_usock_owned self)) ASSERT_OWNER ;;
  recv_len <-
    match mode with
    | NN_WS_SERVER => Done (length SERVER_MIN_OPENING)
    | NN_WS_CLIENT => Done (length CLIENT_MIN_RESPONSE)
    | NN_WS_MODE_OTHER => Abort ASSERT_MODE
    end ;;
  let self :=
    {| hs_state := hs_state self;
       hs_timer := hs_timer self;
       hs_timeout := hs_timeout self;
       hs_mode := mode;
       hs_resource := resource;
       hs_remote_host := host;
       hs_pipebase := pipebase;
       hs_usock_owned := true;
       hs_opening_hs := repeat NUL (length (hs_opening_hs self));
       hs_response := repeat NUL (length (hs_response self));
       hs_retries := 0;
       hs_recv_pos := O;
       hs_recv_len := recv_len;
       hs_slices := hs_slices self;
       hs_expected_accept_key := hs_expected_accept_key self;
       hs_response_code := hs_response_code self |} in
  '(self, effs) <- nn_ws_handshake_handler m self (NN_FSM_ACTION NN_FSM_START) ;;
  Done (self, USOCK_SWAP_OWNER :: effs).

(** [nn_ws_handshake_stop]: [nn_fsm_stop] hands the STOP action to the
    shutdown function. *)
Definition nn_ws_handshake_stop (self : nn_ws_handshake)
    : outcome (nn_ws_handshake * list effect) :=
  nn_ws_handshake_shutdown self (NN_FSM_ACTION NN_FSM_STOP).

(** ** Driving an instance *)

(** [memcpy (buf + off, data, length data)] inside the bounds of [buf]. *)
Fixpoint write_at (off : nat) (data buf : list ascii) : list ascii :=
  match data with
  | [] => buf
  | c :: data' => write_at (S off) data' (upd off c buf)
  end.

(** Modelled from the spec: the socket collaborator (aio/usock.c is not
    part of this file) completes [nn_usock_recv (usock, buf + recv_pos,
    recv_len)] by storing [recv_len] received octets there before it
    raises RECEIVED. The buffer is [opening_hs] for a server and [response]
    for a client. *)
Definition usock_deliver (self : nn_ws_handshake) (data : list ascii)
    : nn_ws_handshake :=
  let data := firstn (hs_recv_len self) data in
  match hs_mode self with
  | NN_WS_SERVER =>
    set_opening_hs (write_at (hs_recv_pos self) data (hs_opening_hs self))
      self
  | NN_WS_CLIENT =>
    set_response (write_at (hs_recv_pos self) data (hs_response self)) self
  | NN_WS_MODE_OTHER => self
  end.

(** What can happen to a started instance: the owner stops it, the socket
    raises an event (RECEIVED comes with the octets received), or the timer
    raises an event. *)
Inductive input : Type :=
| IN_STOP
| IN_USOCK (type : usock_t) (data : list ascii)
| IN_TIMER (type : timer_t).

(** Modelled from the spec: the generic state machine layer (aio/fsm.c is
    not part of this file) hands an event to the shutdown function while
    the object is stopping and to the handler otherwise. *)
Definition nn_fsm_feed (m : machine) (self : nn_ws_handshake) (ev : event)
    : outcome (nn_ws_handshake * list effect) :=
  if state_eqb (hs_state self) NN_WS_HANDSHAKE_STATE_STOPPING
  then nn_ws_handshake_shutdown self ev
  else nn_ws_handshake_handler m self ev.

Definition step (m : machine) (self : nn_ws_handshake) (i : input)
    : outcome (nn_ws_handshake * list effect) :=
  match i with
  | IN_STOP => nn_ws_handshake_stop self
  | IN_USOCK NN_USOCK_RECEIVED data =>
    nn_fsm_feed m (usock_deliver self data)
      (NN_WS_HANDSHAKE_SRC_USOCK NN_USOCK_RECEIVED)
  | IN_USOCK type _ => nn_fsm_feed m self (NN_WS_HANDSHAKE_SRC_USOCK type)
  | IN_TIMER NN_TIMER_STOPPED =>
    nn_fsm_feed m (set_timer TIMER_IDLE self)
      (NN_WS_HANDSHAKE_SRC_TIMER NN_TIMER_STOPPED)
  | IN_TIMER type => nn_fsm_feed m self (NN_WS_HANDSHAKE_SRC_TIMER type)
  end.

(** A run: the effects produced, in order, and how the run ended. An
    abort ends the run. *)
Fixpoint run (m : machine) (self : nn_ws_handshake) (inputs : list input)
    : list effect * outcome nn_ws_handshake :=
  match inputs with
  | [] => ([], Done self)
  | i :: inputs' =>
    match step m self i with
    | Abort why => ([], Abort why)
    | Done (self, effs) =>
      let '(trace, r) := run m self inputs' in (effs ++ trace, r)
    end
  end.

Definition is_raise_done (e : effect) : bool :=
  match e with
  | FSM_RAISE_DONE _ => true
  | _ => false
  end.

Definition is_timer_stop (e : effect) : bool :=
  match e with
  | TIMER_STOP => true
  | _ => false
  end.

(** The number of results published through the done event. *)
Definition published (trace : list effect) : nat :=
  length (filter is_raise_done trace).

(** A server fed with the octets a client sends: each completed receive
    takes the next [recv_len] octets of the stream; the run waits when the
    stream holds fewer. *)
Fixpoint server_feed (fuel : nat) (m : machine) (self : nn_ws_handshake)
    (stream : list ascii) : list effect * outcome nn_ws_handshake :=
  match fuel with
  | O => ([], Done self)
  | S fuel' =>
    if state_eqb (hs_state self) NN_WS_HANDSHAKE_STATE_SERVER_RECV
       && (hs_recv_len self <=? length stream)%nat
       && (1 <=? hs_recv_len self)%nat
    then
      match step m self
              (IN_USOCK NN_USOCK_RECEIVED
                 (firstn (hs_recv_len self) stream)) with
      | Abort why => ([], Abort why)
      | Done (self', effs) =>
        let '(trace, r) :=
          server_feed fuel' m self' (skipn (hs_recv_len self) stream) in
        (effs ++ trace, r)
      end
    else ([], Done self)
  end.

(** Storage for an instance with buffers of the given sizes, before
    [nn_ws_handshake_init]. *)
Definition blank (opening_size response_size : nat) : nn_ws_handshake :=
  {| hs_state := NN_WS_HANDSHAKE_STATE_IDLE;
     hs_timer := TIMER_IDLE;
     hs_timeout := 0;
     hs_mode := NN_WS_MODE_OTHER;
     hs_resource := [];
     hs_remote_host := [];
     hs_pipebase := mk_pipebase (fun _ => false) NN_PAIR;
     hs_usock_owned := false;
     hs_opening_hs := repeat NUL opening_size;
     hs_response := repeat NUL response_size;
     hs_retries := 0;
     hs_recv_pos := O;
     hs_recv_len := O;
     hs_slices := fun _ => null_slice;
     hs_expected_accept_key := repeat NUL 29;
     hs_response_code := NN_WS_HANDSHAKE_RESPONSE_NULL |}.

(** A fresh server instance, started, then fed with [stream]. *)
Definition serve (m : machine) (self : nn_ws_handshake)
    (pipebase : nn_pipebase) (stream : list ascii)
    : list effect * outcome nn_ws_handshake :=
  match nn_ws_handshake_start m (nn_ws_handshake_init self) pipebase
          NN_WS_SERVER [] [] with
  | Abort why => ([], Abort why)
  | Done (self, effs) =>
    let '(trace, r) := server_feed (S (length stream)) m self stream in
    (effs ++ trace, r)
  end.


(** ** RFC 4648 Base64, in the words of the standard

    Three octets give four characters of six bits each; a final group of
    one or two octets is padded with zero bits and the output is filled up
    with '='. Used to state what [base64_encode] computes. *)

Definition sextet1 (a : Z) : Z := Z.shiftr a 2.
Definition sextet2 (a b : Z) : Z :=
  Z.lor (Z.shiftl (Z.land a 3) 4) (Z.shiftr b 4).
Definition sextet3 (b c : Z) : Z :=
  Z.lor (Z.shiftl (Z.land b 15) 2) (Z.shiftr c 6).
Definition sextet4 (c : Z) : Z := Z.land c 63.

Fixpoint rfc4648_base64 (l : list ascii) : list ascii :=
  match l with
  | [] => []
  | [a] =>
    [encode_char (sextet1 (uint8 a)); encode_char (sextet2 (uint8 a) 0);
     "="%char; "="%char]
  | [a; b] =>
    [encode_char (sextet1 (uint8 a));
     encode_char (sextet2 (uint8 a) (uint8 b));
     encode_char (sextet3 (uint8 b) 0); "="%char]
  | a :: b :: c :: rest =>
    [encode_char (sextet1 (uint8 a));
     encode_char (sextet2 (uint8 a) (uint8 b));
     encode_char (sextet3 (uint8 b) (uint8 c));
     encode_char (sextet4 (uint8 c))] ++ rfc4648_base64 rest
  end.

(** ** Auxiliary definitions of the proofs *)

(** [next8 v a] and [next6 v s] are the updates of [v] in the two loops. *)
Definition next8 (v a : Z) : Z := u32 (Z.lor (Z.shiftl v 8) a).
Definition next6 (v s : Z) : Z := u32 (Z.lor (Z.shiftl v 6) s).

Definition alphabet_check (n : nat) : bool :=
  let c := encode_char (Z.of_nat n) in
  negb (isspace c) && negb (Ascii.eqb c "="%char)
  && (nth (Z.to_nat (uint8 c)) DECODEMAP 255 =? Z.of_nat n)
  && negb (Z.of_nat n =? 255).

(** What [base64_encode] does after its [for] loop. *)
Definition encode_finish (st : option (Z * nat * list ascii)) (out_len : nat)
    : b64_result :=
  match st with
  | None => B64_ENOBUFS
  | Some (v, rem, out) =>
    let tail :=
      if negb (rem =? 0)%nat then
        let v := u32 (Z.shiftl v (6 - Z.of_nat rem)) in
        if (out_len <=? length out)%nat then None
        else Some (out ++ [encode_char (Z.land v 63)])
      else Some out in
    match tail with
    | None => B64_ENOBUFS
    | Some out =>
      match encode_pad 4 out_len out with
      | None => B64_ENOBUFS
      | Some out =>
        if (out_len <=? length out)%nat then B64_ENOBUFS
        else B64_OK (length out) (out ++ [NUL])
      end
    end
  end.

(** Where the decoder stops: at the end of the input, at '=' or at an
    octet outside the alphabet. *)
Definition decode_stops (t : list ascii) : Prop :=
  match t with
  | [] => True
  | c :: _ =>
    isspace c = false /\
    (Ascii.eqb c "="%char = true \/
     nth (Z.to_nat (uint8 c)) DECODEMAP 255 = 255)
  end.

(** What [base64_decode] does after its [for] loop. *)
Definition decode_finish (st : option (Z * nat * list ascii)) (out_len : nat)
    : b64_result :=
  match st with
  | None => B64_ENOBUFS
  | Some (v, rem, out) =>
    if (8 <=? rem)%nat then
      let rem := (rem - 8)%nat in
      if (out_len <=? length out)%nat then B64_ENOBUFS
      else
        let out :=
          out ++ [to_uint8 (Z.land (Z.shiftr v (Z.of_nat rem)) 255)] in
        B64_OK (length out) out
    else B64_OK (length out) out
  end.

(** The shape of a [struct sha1hash] in use. *)
Definition sha1_wf (s : sha1hash) : Prop :=
  length (state s) = 5%nat /\ 0 <= buffer_offset s < 64.

(** The storage index that [sha1_add] writes for block offset [k]. *)
Definition lane (e k : Z) : Z := if negb (e =? 0) then Z.lxor k 3 else k.

Definition lane_check (n : nat) : bool :=
  let k := Z.of_nat n in
  (0 <=? Z.lxor k 3) && (Z.lxor k 3 <? 64) && (Z.lxor (Z.lxor k 3) 3 =? k).

Definition sha1_agree (s1 s2 : sha1hash) : Prop :=
  state s1 = state s2 /\
  bytes_hashed s1 = bytes_hashed s2 /\
  buffer_offset s1 = buffer_offset s2 /\
  is_little_endian s1 = is_little_endian s2 /\
  0 <= buffer_offset s1 < 64 /\
  length (buffer s1) = 64%nat /\
  length (buffer s2) = 64%nat /\
  forall k, 0 <= k < buffer_offset s1 ->
    nth (Z.to_nat (lane (is_little_endian s1) k)) (buffer s1) NUL =
    nth (Z.to_nat (lane (is_little_endian s1) k)) (buffer s2) NUL.

(** The RFC 6455 sample key and the accept key it must give. *)
Definition RFC6455_SAMPLE_KEY : list ascii := cs "dGhlIHNhbXBsZSBub25jZQ==".
Definition RFC6455_SAMPLE_ACCEPT : list ascii :=
  cs "s3pPLMBiTxaQ9kYGzzhZRbK+xOo=".

(** The digest [nn_ws_handshake_hash_key] encodes: SHA-1 fed with the key
    and then the magic GUID. *)
Definition key_digest (le : bool) (hash : sha1hash) (key : list ascii)
    : list ascii :=
  sha1_result le
    (fold_left (sha1_hashbyte le) (key ++ NN_WS_HANDSHAKE_MAGIC_GUID)
       (sha1_init le hash)).

(** A [struct sha1hash] with a zeroed block, to compute examples with. *)
Definition zero_hash : sha1hash := mk_sha1hash (repeat NUL 64) [] 0 0 0.

(** Equality of two octet strings up to the case of ASCII letters. *)
Definition ci_equal (expected value : list ascii) : Prop :=
  map tolower expected = map tolower value.

(** The octets of a parsed value; none for a null pointer. *)
Definition slice_value (buf : list ascii) (v : slice) : list ascii :=
  match sl_ptr v with
  | Some p => mem buf p (sl_len v)
  | None => []
  end.

Definition value (buf : list ascii) (self : nn_ws_handshake) (f : field)
    : list ascii :=
  slice_value buf (hs_slices self f).

(** A header value was captured: its pointer is not NULL. *)
Definition captured (self : nn_ws_handshake) (f : field) : Prop :=
  ptr self f <> None.

(** [t] occurs in [l]. *)
Definition occurs (t l : list ascii) : Prop :=
  exists pre post, l = pre ++ t ++ post.

(** The header fields RFC 6455 requires of a request and of a response. *)
Definition CLIENT_OPENING_REQUIRED : list field :=
  [F_host; F_upgrade; F_conn; F_key; F_version].
Definition SERVER_RESPONSE_REQUIRED : list field :=
  [F_status_code; F_upgrade; F_conn; F_accept_key].

(** The request parser got to its validation: the buffer holds a string
    with a CRLFCRLF, the request line and the header lines were parsed up
    to the empty line at [pos], leaving the object as [parsed], and nothing
    follows. *)
Definition client_opening_parsed (self : nn_ws_handshake) (pos : nat)
    (parsed : nn_ws_handshake) : Prop :=
  existsb is_nul (hs_opening_hs self) = true /\
  strstr (hs_opening_hs self) 0 NN_WS_HANDSHAKE_TERMSEQ <> None /\
  scan_client_opening self = LOOP_EXIT pos parsed /\
  strlen (hs_opening_hs self) pos = O.

Definition server_response_parsed (self : nn_ws_handshake) (pos : nat)
    (parsed : nn_ws_handshake) : Prop :=
  existsb is_nul (hs_response self) = true /\
  strstr (hs_response self) 0 NN_WS_HANDSHAKE_TERMSEQ <> None /\
  scan_server_response self = LOOP_EXIT pos parsed /\
  strlen (hs_response self) pos = O.

(** A parsed value lies inside the string held by the buffer. *)
Definition slice_in (buf : list ascii) (v : slice) : Prop :=
  match sl_ptr v with
  | None => sl_len v = O
  | Some p => (p + sl_len v <= strlen buf 0)%nat
  end.

(** The property of the slices that the parsers establish: every value
    of the list lies inside the string. *)
Definition slices_in (buf : list ascii) (fs : list field)
    (g : field -> slice) : Prop :=
  forall f, In f fs -> slice_in buf (g f).

Definition sp_map_check (e1 e2 : sp_id * list ascii) : bool :=
  negb (ascii_list_eqb (map tolower (snd e1)) (map tolower (snd e2)))
  || ((if sp_id_eq_dec (fst e1) (fst e2) then true else false)
      && ascii_list_eqb (snd e1) (snd e2)).

Definition tolower_check (n : nat) : bool :=
  let c := ascii_of_nat n in
  let l := tolower c in
  Ascii.eqb l c
  || ((97 <=? uint8 l) && (uint8 l <=? 122)).

(** The request passes the RFC 6455 checks of the parser. *)
Definition rfc6455_request_ok (buf : list ascii) (parsed : nn_ws_handshake)
    : Prop :=
  (forall f, In f CLIENT_OPENING_REQUIRED -> captured parsed f) /\
  ci_equal (cs "13") (value buf parsed F_version) /\
  ci_equal (cs "websocket") (value buf parsed F_upgrade) /\
  ci_equal (cs "Upgrade") (value buf parsed F_conn).

(** The response passes the checks of the response parser. *)
Definition rfc6455_response_ok (buf : list ascii) (self parsed : nn_ws_handshake)
    : Prop :=
  (forall f, In f SERVER_RESPONSE_REQUIRED -> captured parsed f) /\
  value buf parsed F_status_code = cs "101" /\
  ci_equal (cs "websocket") (value buf parsed F_upgrade) /\
  ci_equal (cs "Upgrade") (value buf parsed F_conn) /\
  ci_equal (cstring (hs_expected_accept_key self) 0)
    (value buf parsed F_accept_key).

(** The states in which the handshake is in progress, and the two states
    that wait for the timer to stop. *)
Definition working (s : state_t) : bool :=
  match s with
  | NN_WS_HANDSHAKE_STATE_SERVER_RECV
  | NN_WS_HANDSHAKE_STATE_SERVER_REPLY
  | NN_WS_HANDSHAKE_STATE_CLIENT_SEND
  | NN_WS_HANDSHAKE_STATE_CLIENT_RECV
  | NN_WS_HANDSHAKE_STATE_HANDSHAKE_SENT => true
  | _ => false
  end.

Definition stopping_timer (s : state_t) : bool :=
  match s with
  | NN_WS_HANDSHAKE_STATE_STOPPING_TIMER_ERROR
  | NN_WS_HANDSHAKE_STATE_STOPPING_TIMER_DONE => true
  | _ => false
  end.

(** In a trace, every result published through the done event comes after
    a request to stop the timer. *)
Definition stop_before_raise (trace : list effect) : Prop :=
  forall pre rc post,
    trace = pre ++ FSM_RAISE_DONE rc :: post -> In TIMER_STOP pre.

(** What holds of an instance and the trace of its effects so far. *)
Definition run_inv (self : nn_ws_handshake) (trace : list effect) : Prop :=
  (published trace <= 1)%nat /\
  stop_before_raise trace /\
  (working (hs_state self) = true -> published trace = O) /\
  (stopping_timer (hs_state self) = true ->
   published trace = O /\ In TIMER_STOP trace) /\
  (hs_state self = NN_WS_HANDSHAKE_STATE_DONE -> published trace = 1%nat).

Definition input_eq_stop (i : input) : {i = IN_STOP} + {i <> IN_STOP}.
Proof. destruct i; [left; reflexivity|right; discriminate..]. Defined.

(** The event that a step hands to the state machine, and the object it
    hands it to. *)
Definition fed_event (i : input) : event :=
  match i with
  | IN_STOP => NN_FSM_ACTION NN_FSM_STOP
  | IN_USOCK type _ => NN_WS_HANDSHAKE_SRC_USOCK type
  | IN_TIMER type => NN_WS_HANDSHAKE_SRC_TIMER type
  end.


(** ** Concrete machines, sockets and messages for the examples *)

Definition machine0 : machine :=
  mk_machine true zero_hash (repeat "a"%char 16).

(** A PAIR socket: its only peer is PAIR. *)
Definition pair_sock : nn_pipebase :=
  mk_pipebase (fun sp => if sp_id_eq_dec sp NN_PAIR then true else false)
    NN_PAIR.

(** An object in the given state and mode whose two buffers, of [size]
    octets each, start with [octets] and are zero after them. *)
Definition holding (st : state_t) (mode : mode_t) (octets : list ascii)
    (size : nat) : nn_ws_handshake :=
  {| hs_state := st;
     hs_timer := TIMER_ACTIVE;
     hs_timeout := NN_WS_HANDSHAKE_TIMEOUT;
     hs_mode := mode;
     hs_resource := cs "/";
     hs_remote_host := cs "a";
     hs_pipebase := pair_sock;
     hs_usock_owned := true;
     hs_opening_hs := write_at 0 octets (repeat NUL size);
     hs_response := write_at 0 octets (repeat NUL size);
     hs_retries := 0;
     hs_recv_pos := O;
     hs_recv_len := length octets;
     hs_slices := fun _ => null_slice;
     hs_expected_accept_key := RFC6455_SAMPLE_ACCEPT ++ [NUL];
     hs_response_code := NN_WS_HANDSHAKE_RESPONSE_NULL |}.

Definition server_holding (octets : list ascii) : nn_ws_handshake :=
  holding NN_WS_HANDSHAKE_STATE_SERVER_RECV NN_WS_SERVER octets 256.

Definition client_holding (octets : list ascii) : nn_ws_handshake :=
  holding NN_WS_HANDSHAKE_STATE_CLIENT_RECV NN_WS_CLIENT octets 256.

(** What the two scans leave behind, and where they stop. *)
Definition scanned (r : loop_result) (self : nn_ws_handshake)
    : nn_ws_handshake :=
  match r with
  | LOOP_EXIT _ parsed => parsed
  | LOOP_RECV_MORE parsed => parsed
  | LOOP_FUEL => self
  end.

Definition scan_end (r : loop_result) : nat :=
  match r with
  | LOOP_EXIT pos _ => pos
  | _ => O
  end.

Definition line (s : string) : list ascii := cs s ++ NN_WS_HANDSHAKE_CRLF.

(** The request of RFC 6455 section 1.3 with the given version and, when
    there is one, protocol line. *)
Definition sample_request (version : string) (protocol : list ascii)
    : list ascii :=
  line "GET /chat HTTP/1.1" ++ line "Host: a" ++ line "Upgrade: websocket" ++
  line "Connection: Upgrade" ++
  line "Sec-WebSocket-Key: dGhlIHNhbXBsZSBub25jZQ==" ++
  cs "Sec-WebSocket-Version: " ++ line version ++
  protocol ++ NN_WS_HANDSHAKE_CRLF.

Definition sample_response : list ascii :=
  line "HTTP/1.1 101 Switching Protocols" ++ line "Upgrade: WebSocket" ++
  line "Connection: upgrade" ++
  line "Sec-WebSocket-Accept: s3pPLMBiTxaQ9kYGzzhZRbK+xOo=" ++
  NN_WS_HANDSHAKE_CRLF.

(** A stream of the length of the first receive that ends in CRLFCRLF but
    is no GET request. *)
Definition not_a_request : list ascii :=
  repeat "A"%char 147 ++ NN_WS_HANDSHAKE_TERMSEQ.

(** 4096 octets without NUL and without CRLFCRLF, cut so that the
    receives end exactly at the end of a 4096-octet buffer. *)
Definition filling_stream : list ascii :=
  repeat "A"%char 148 ++ [CR; LF; CR] ++ repeat "A"%char 3945.

Definition is_recv_within (size : nat) (e : effect) : bool :=
  match e with
  | USOCK_RECV off n => (off + n <=? size)%nat
  | _ => true
  end.

(** ** Further definitions: Base64 *)

(** An octet that is an ASCII character: as a [char] it is not negative,
    whatever the signedness of [char]. *)
Definition ascii7 (c : ascii) : Prop := uint8 c < 128.

Definition not_space (c : ascii) : bool := negb (isspace c).

(** ** Further definitions: what the matchers decide *)

(** The comparison of two octets in the matchers. *)
Definition same_octet (ci : bool) (a b : ascii) : bool :=
  if ci then Ascii.eqb (tolower a) (tolower b) else Ascii.eqb a b.

(** [token] stands at the head of [s], up to the case of letters when [ci]
    is set. *)
Fixpoint starts_with (ci : bool) (token s : list ascii) : bool :=
  match token, s with
  | [], _ => true
  | _ :: _, [] => false
  | a :: token', b :: s' => same_octet ci a b && starts_with ci token' s'
  end.

(** [l] without its leading spaces, and without its trailing spaces. *)
Fixpoint drop_sp (l : list ascii) : list ascii :=
  match l with
  | c :: l' => if Ascii.eqb c SP then drop_sp l' else l
  | [] => []
  end.

Definition drop_trailing_sp (l : list ascii) : list ascii :=
  rev (drop_sp (rev l)).

(** The value that [nn_ws_match_value] reports for the text [v] that stands
    before the terminating sequence. *)
Definition trimmed (lead trail : bool) (v : list ascii) : list ascii :=
  let v := if lead then drop_sp v else v in
  if trail then drop_trailing_sp v else v.

(** ** Further definitions: what the parsers leave alone *)

(** Two objects that differ at most in their parsed values and in the
    response code. *)
Definition same_but_parsed (a b : nn_ws_handshake) : Prop :=
  forall g c,
    set_response_code c (set_slices g a)
    = set_response_code c (set_slices g b).

(** The response codes with which the request parser rejects a request. *)
Definition PARSE_FAILURE_CODES : list response_code_t :=
  [ NN_WS_HANDSHAKE_RESPONSE_WSPROTO; NN_WS_HANDSHAKE_RESPONSE_WSVERSION;
    NN_WS_HANDSHAKE_RESPONSE_NOTPEER; NN_WS_HANDSHAKE_RESPONSE_UNKNOWNTYPE ].

(** ** Further definitions: the state graph and the socket's owner *)

(** The states a handler step can lead to. *)
Definition successors (mode : mode_t) (s : state_t) : list state_t :=
  match s with
  | NN_WS_HANDSHAKE_STATE_IDLE =>
    match mode with
    | NN_WS_CLIENT => [NN_WS_HANDSHAKE_STATE_CLIENT_SEND]
    | NN_WS_SERVER => [NN_WS_HANDSHAKE_STATE_SERVER_RECV]
    | NN_WS_MODE_OTHER => []
    end
  | NN_WS_HANDSHAKE_STATE_SERVER_RECV =>
    [NN_WS_HANDSHAKE_STATE_SERVER_RECV; NN_WS_HANDSHAKE_STATE_SERVER_REPLY;
     NN_WS_HANDSHAKE_STATE_STOPPING_TIMER_ERROR]
  | NN_WS_HANDSHAKE_STATE_SERVER_REPLY =>
    [NN_WS_HANDSHAKE_STATE_SERVER_REPLY;
     NN_WS_HANDSHAKE_STATE_STOPPING_TIMER_DONE;
     NN_WS_HANDSHAKE_STATE_STOPPING_TIMER_ERROR]
  | NN_WS_HANDSHAKE_STATE_CLIENT_SEND =>
    [NN_WS_HANDSHAKE_STATE_CLIENT_SEND; NN_WS_HANDSHAKE_STATE_CLIENT_RECV;
     NN_WS_HANDSHAKE_STATE_STOPPING_TIMER_ERROR]
  | NN_WS_HANDSHAKE_STATE_CLIENT_RECV =>
    [NN_WS_HANDSHAKE_STATE_CLIENT_RECV;
     NN_WS_HANDSHAKE_STATE_STOPPING_TIMER_DONE;
     NN_WS_HANDSHAKE_STATE_STOPPING_TIMER_ERROR]
  | NN_WS_HANDSHAKE_STATE_HANDSHAKE_SENT =>
    [NN_WS_HANDSHAKE_STATE_HANDSHAKE_SENT;
     NN_WS_HANDSHAKE_STATE_STOPPING_TIMER_DONE;
     NN_WS_HANDSHAKE_STATE_STOPPING_TIMER_ERROR]
  | NN_WS_HANDSHAKE_STATE_STOPPING_TIMER_ERROR =>
    [NN_WS_HANDSHAKE_STATE_STOPPING_TIMER_ERROR; NN_WS_HANDSHAKE_STATE_DONE]
  | NN_WS_HANDSHAKE_STATE_STOPPING_TIMER_DONE =>
    [NN_WS_HANDSHAKE_STATE_STOPPING_TIMER_DONE; NN_WS_HANDSHAKE_STATE_DONE]
  | NN_WS_HANDSHAKE_STATE_DONE => []
  | NN_WS_HANDSHAKE_STATE_STOPPING => []
  end.

(** The states a started instance of the given mode can be in. *)
Definition visited (mode : mode_t) : list state_t :=
  match mode with
  | NN_WS_SERVER =>
    [NN_WS_HANDSHAKE_STATE_SERVER_RECV; NN_WS_HANDSHAKE_STATE_SERVER_REPLY]
  | NN_WS_CLIENT =>
    [NN_WS_HANDSHAKE_STATE_CLIENT_SEND; NN_WS_HANDSHAKE_STATE_CLIENT_RECV]
  | NN_WS_MODE_OTHER => []
  end ++
  [NN_WS_HANDSHAKE_STATE_STOPPING_TIMER_ERROR;
   NN_WS_HANDSHAKE_STATE_STOPPING_TIMER_DONE;
   NN_WS_HANDSHAKE_STATE_DONE;
   NN_WS_HANDSHAKE_STATE_STOPPING;
   NN_WS_HANDSHAKE_STATE_IDLE].

Definition is_swap_owner (e : effect) : bool :=
  match e with
  | USOCK_SWAP_OWNER => true
  | _ => false
  end.

(** The number of times the owner of the socket was swapped. *)
Definition swaps (trace : list effect) : nat :=
  length (filter is_swap_owner trace).

Definition is_usock_input (i : input) : bool :=
  match i with
  | IN_USOCK _ _ => true
  | _ => false
  end.

(** What holds of a started instance of the given mode and the trace of
    its effects: the socket was taken once and is given back with the
    result. *)
Definition owner_inv (mode : mode_t) (self : nn_ws_handshake)
    (trace : list effect) : Prop :=
  hs_mode self = mode /\
  In (hs_state self) (visited mode) /\
  swaps trace = (1 + published trace)%nat /\
  hs_usock_owned self = (published trace =? 0)%nat.

(** ** Further definitions: texts and lines *)

(** No octet of [l] is [c]. *)
Definition free_of (c : ascii) (l : list ascii) : bool :=
  forallb (fun x => negb (Ascii.eqb x c)) l.

(** Whether [token] stands at the head of every string that starts with
    [lit], when [lit] is long enough to tell. *)
Fixpoint decide_start (ci : bool) (token lit : list ascii) : option bool :=
  match token, lit with
  | [], _ => Some true
  | _ :: _, [] => None
  | a :: token', b :: lit' =>
    if same_octet ci a b then decide_start ci token' lit' else Some false
  end.

(** The header of the table that [lit] names, when [lit] is long enough
    to tell: the outcome of [match_header] on every string that starts
    with [lit]. *)
Fixpoint header_decide (hdrs : header_table) (lit : list ascii)
    : option (option (field * nat)) :=
  match hdrs with
  | [] => Some None
  | (token, f) :: hdrs' =>
    match decide_start true token lit with
    | Some true => Some (Some (f, length token))
    | Some false => header_decide hdrs' lit
    | None => None
    end
  end.

(** The characters of the Base64 alphabet and the padding character are
    neither [c]. *)
Definition outside_base64 (c : ascii) : bool :=
  negb (Ascii.eqb "="%char c)
  && forallb (fun n => negb (Ascii.eqb (encode_char (Z.of_nat n)) c))
       (seq 0 64).

(** A token of the SP map holds no NUL, CR or space. *)
Definition plain_token (e : sp_id * list ascii) : bool :=
  free_of NUL (snd e) && free_of CR (snd e) && free_of SP (snd e).

(** ** Further definitions: the request as the server reads it *)

(** The values that the request parser captures from the request that the
    generator writes for the given resource, host, key and SP token. *)
Definition request_values (resource host key ws_sp : list ascii)
    : list (field * list ascii) :=
  [ (F_uri, resource);
    (F_host, trimmed true true host);
    (F_upgrade, cs "websocket");
    (F_conn, cs "Upgrade");
    (F_key, trimmed true true key);
    (F_version, cs "13");
    (F_protocol, trimmed true true ws_sp) ].

(** The values that the response parser captures from the 101 reply. *)
Definition reply_values (accept_key : list ascii)
    : list (field * list ascii) :=
  [ (F_status_code, cs "101");
    (F_reason_phrase, cs "Switching Protocols");
    (F_upgrade, cs "websocket");
    (F_conn, cs "Upgrade");
    (F_accept_key, trimmed true true accept_key) ].
(** ** Further definitions: SHA-1 on the two byte orders *)

(** Two block buffers that hold the same sixteen words, the first in
    little-endian storage and the second in big-endian storage. *)
Definition mirrored (b1 b2 : list ascii) : Prop :=
  length b1 = 64%nat /\ length b2 = 64%nat /\
  forall i r, (i < 16)%nat -> (r < 4)%nat ->
    rd b1 (4 * i + r) = rd b2 (4 * i + (3 - r)).

(** The same computation in progress on a little-endian machine and on
    a big-endian one. *)
Definition sha1_mirror (s1 s2 : sha1hash) : Prop :=
  state s1 = state s2 /\
  bytes_hashed s1 = bytes_hashed s2 /\
  buffer_offset s1 = buffer_offset s2 /\
  is_little_endian s1 = 1 /\
  is_little_endian s2 = 0 /\
  0 <= buffer_offset s1 < 64 /\
  mirrored (buffer s1) (buffer s2).

Definition lxor3_check (n : nat) : bool :=
  let k := Z.of_nat n in
  Z.lxor k 3 =? 4 * (k / 4) + (3 - k mod 4).
(** * Proofs *)

(** ** Octets *)

Lemma uint8_range (c : ascii) : 0 <= uint8 c < 256.
Proof.
  unfold uint8. pose proof (N_ascii_bounded c). lia.
Qed.

Lemma to_uint8_uint8 (c : ascii) : to_uint8 (uint8 c) = c.
Proof.
  unfold to_uint8. rewrite Z.mod_small by apply uint8_range.
  unfold uint8. rewrite N2Z.id. apply ascii_N_embedding.
Qed.

Lemma uint8_to_uint8 (z : Z) : uint8 (to_uint8 z) = z mod 256.
Proof.
  unfold to_uint8, uint8.
  assert (0 <= z mod 256 < 256) by (apply Z.mod_pos_bound; lia).
  rewrite N_ascii_embedding by lia. lia.
Qed.

(** ** Bit-level facts *)

Ltac octet a :=
  match goal with
  | H : 0 <= a < 256 |- _ =>
    rewrite <- (Z.mod_small a (2 ^ 8)) by (exact H)
  end.

Ltac bits_step :=
  repeat match goal with
         | |- context [Z.testbit ?x ?i] =>
           rewrite (Z.testbit_neg_r x i) by lia
         | |- context [Z.testbit (?x mod 2 ^ ?n) ?i] =>
           rewrite (Z.mod_pow2_bits_low x n i) by lia
         | |- context [Z.testbit (?x mod 2 ^ ?n) ?i] =>
           rewrite (Z.mod_pow2_bits_high x n i) by lia
         end;
  rewrite ?andb_true_l, ?andb_true_r, ?orb_false_l, ?orb_false_r,
    ?andb_false_l, ?andb_false_r.

Ltac bits :=
  unfold u32;
  change 4294967296 with (2 ^ 32);
  change 255 with (Z.ones 8); change 63 with (Z.ones 6);
  change 15 with (Z.ones 4); change 3 with (Z.ones 2);
  Z.bitblast;
  repeat (progress bits_step);
  try reflexivity;
  try (f_equal; lia).

Lemma enc_sextet1 v a :
  0 <= a < 256 -> Z.land (Z.shiftr (next8 v a) 2) 63 = sextet1 a.
Proof. intros Ha. unfold next8, sextet1. octet a. bits. Qed.

Lemma enc_sextet2 v a b :
  0 <= a < 256 -> 0 <= b < 256 ->
  Z.land (Z.shiftr (next8 (next8 v a) b) 4) 63 = sextet2 a b.
Proof. intros Ha Hb. unfold next8, sextet2. octet a. octet b. bits. Qed.

Lemma enc_sextet3 v b c :
  0 <= b < 256 -> 0 <= c < 256 ->
  Z.land (Z.shiftr (next8 (next8 v b) c) 6) 63 = sextet3 b c.
Proof. intros Hb Hc. unfold next8, sextet3. octet b. octet c. bits. Qed.

Lemma enc_sextet4 v c :
  0 <= c < 256 -> Z.land (Z.shiftr (next8 v c) 0) 63 = sextet4 c.
Proof. intros Hc. unfold next8, sextet4. octet c. bits. Qed.

Lemma enc_tail1 v a :
  0 <= a < 256 -> Z.land (u32 (Z.shiftl (next8 v a) 4)) 63 = sextet2 a 0.
Proof. intros Ha. unfold next8, sextet2. octet a. bits. Qed.

Lemma enc_tail2 v b :
  0 <= b < 256 -> Z.land (u32 (Z.shiftl (next8 v b) 2)) 63 = sextet3 b 0.
Proof. intros Hb. unfold next8, sextet3. octet b. bits. Qed.

Lemma dec_octet1 v a b :
  0 <= a < 256 -> 0 <= b < 256 ->
  Z.land (Z.shiftr (next6 (next6 v (sextet1 a)) (sextet2 a b)) 4) 255 = a.
Proof.
  intros Ha Hb. unfold next6, sextet1, sextet2. octet a. octet b. bits.
Qed.

Lemma dec_octet2 v a b c :
  0 <= a < 256 -> 0 <= b < 256 -> 0 <= c < 256 ->
  Z.land (Z.shiftr (next6 (next6 v (sextet2 a b)) (sextet3 b c)) 2) 255 = b.
Proof.
  intros Ha Hb Hc. unfold next6, sextet2, sextet3.
  octet a. octet b. octet c. bits.
Qed.

Lemma dec_octet3 v b c :
  0 <= b < 256 -> 0 <= c < 256 ->
  Z.land (Z.shiftr (next6 (next6 v (sextet3 b c)) (sextet4 c)) 0) 255 = c.
Proof.
  intros Hb Hc. unfold next6, sextet3, sextet4. octet b. octet c. bits.
Qed.

Lemma land63_range (x : Z) : 0 <= Z.land x 63 < 64.
Proof.
  change 63 with (Z.ones 6). rewrite Z.land_ones by lia.
  apply Z.mod_pos_bound. lia.
Qed.

Lemma sextet1_range a : 0 <= a < 256 -> 0 <= sextet1 a < 64.
Proof.
  intros Ha. rewrite <- (enc_sextet1 0 a Ha). apply land63_range.
Qed.

Lemma sextet2_range a b :
  0 <= a < 256 -> 0 <= b < 256 -> 0 <= sextet2 a b < 64.
Proof.
  intros Ha Hb. rewrite <- (enc_sextet2 0 a b Ha Hb). apply land63_range.
Qed.

Lemma sextet3_range b c :
  0 <= b < 256 -> 0 <= c < 256 -> 0 <= sextet3 b c < 64.
Proof.
  intros Hb Hc. rewrite <- (enc_sextet3 0 b c Hb Hc). apply land63_range.
Qed.

Lemma sextet4_range c : 0 <= sextet4 c < 64.
Proof. apply land63_range. Qed.

(** ** The alphabet *)

Lemma alphabet_checked : forallb alphabet_check (seq 0 64) = true.
Proof. vm_compute. reflexivity. Qed.

Lemma alphabet_ok (s : Z) :
  0 <= s < 64 ->
  isspace (encode_char s) = false /\
  Ascii.eqb (encode_char s) "="%char = false /\
  nth (Z.to_nat (uint8 (encode_char s))) DECODEMAP 255 = s /\
  (s =? 255) = false.
Proof.
  intros Hs.
  pose proof alphabet_checked as H.
  rewrite forallb_forall in H.
  specialize (H (Z.to_nat s)).
  assert (Hin : In (Z.to_nat s) (seq 0 64)) by (apply in_seq; lia).
  specialize (H Hin). unfold alphabet_check in H.
  rewrite Z2Nat.id in H by lia.
  repeat (apply andb_true_iff in H; destruct H as [H ?]).
  repeat split.
  - now apply negb_true_iff.
  - now apply negb_true_iff.
  - now apply Z.eqb_eq.
  - now apply negb_true_iff.
Qed.

(** ** [base64_encode] computes RFC 4648 *)

Lemma list_ind3 {A : Type} (P : list A -> Prop) :
  P [] -> (forall a, P [a]) -> (forall a b, P [a; b]) ->
  (forall a b c l, P l -> P (a :: b :: c :: l)) ->
  forall l, P l.
Proof.
  intros H0 H1 H2 H3.
  fix IH 1.
  intros [|a [|b [|c l]]];
    [exact H0 | apply H1 | apply H2 | apply H3; apply IH].
Qed.

Ltac len_norm := rewrite ?length_app; cbn [length].

Lemma encode_drain_step fuel v rem out_len out :
  (6 <= rem)%nat -> (length out < out_len)%nat ->
  encode_drain (S fuel) v rem out_len out =
  encode_drain fuel v (rem - 6) out_len
    (out ++ [encode_char (Z.land (Z.shiftr v (Z.of_nat (rem - 6))) 63)]).
Proof.
  intros Hrem Hout. cbn [encode_drain].
  destruct (6 <=? rem)%nat eqn:E; [|apply Nat.leb_gt in E; lia].
  destruct (out_len <=? length out)%nat eqn:E'; [apply Nat.leb_le in E'; lia|].
  reflexivity.
Qed.

Lemma encode_drain_stop fuel v rem out_len out :
  (rem < 6)%nat -> encode_drain fuel v rem out_len out = Some (rem, out).
Proof.
  intros Hrem. destruct fuel; cbn [encode_drain]; [reflexivity|].
  destruct (6 <=? rem)%nat eqn:E; [apply Nat.leb_le in E; lia|reflexivity].
Qed.

Lemma encode_loop_first a rest v n out :
  (length out < n)%nat ->
  encode_loop (a :: rest) v 0 n out =
  encode_loop rest (next8 v (uint8 a)) 2 n
    (out ++ [encode_char (sextet1 (uint8 a))]).
Proof.
  intros Hout. cbn [encode_loop]. fold (next8 v (uint8 a)).
  change (0 + 8)%nat with 8%nat.
  rewrite encode_drain_step by lia.
  rewrite encode_drain_stop by (simpl; lia).
  change (8 - 6)%nat with 2%nat. change (Z.of_nat 2) with 2.
  rewrite enc_sextet1 by apply uint8_range. reflexivity.
Qed.

Lemma encode_loop_second a b rest v n out :
  (length out < n)%nat ->
  encode_loop (b :: rest) (next8 v (uint8 a)) 2 n out =
  encode_loop rest (next8 (next8 v (uint8 a)) (uint8 b)) 4 n
    (out ++ [encode_char (sextet2 (uint8 a) (uint8 b))]).
Proof.
  intros Hout. cbn [encode_loop].
  fold (next8 (next8 v (uint8 a)) (uint8 b)).
  change (2 + 8)%nat with 10%nat.
  rewrite encode_drain_step by lia.
  rewrite encode_drain_stop by (simpl; lia).
  change (10 - 6)%nat with 4%nat. change (Z.of_nat 4) with 4.
  rewrite enc_sextet2 by apply uint8_range. reflexivity.
Qed.

Lemma encode_loop_third b c rest v n out :
  (length out + 2 <= n)%nat ->
  encode_loop (c :: rest) (next8 v (uint8 b)) 4 n out =
  encode_loop rest (next8 (next8 v (uint8 b)) (uint8 c)) 0 n
    (out ++ [encode_char (sextet3 (uint8 b) (uint8 c));
             encode_char (sextet4 (uint8 c))]).
Proof.
  intros Hout. cbn [encode_loop].
  fold (next8 (next8 v (uint8 b)) (uint8 c)).
  change (4 + 8)%nat with 12%nat.
  rewrite encode_drain_step by lia.
  change (12 - 6)%nat with 6%nat.
  rewrite encode_drain_step by (len_norm; lia).
  rewrite encode_drain_stop by (simpl; lia).
  change (6 - 6)%nat with 0%nat.
  change (Z.of_nat 6) with 6. change (Z.of_nat 0) with 0.
  rewrite enc_sextet3, enc_sextet4 by apply uint8_range.
  rewrite <- app_assoc. reflexivity.
Qed.

Lemma base64_encode_finish inp out_len :
  base64_encode inp out_len =
  encode_finish (encode_loop inp 0 0 out_len []) out_len.
Proof. reflexivity. Qed.

Lemma land3 (n : nat) : Z.land (Z.of_nat n) 3 = Z.of_nat (n mod 4).
Proof.
  change 3 with (Z.ones 2). rewrite Z.land_ones by lia.
  rewrite Nat2Z.inj_mod. reflexivity.
Qed.

Lemma encode_pad_stop fuel n out :
  (length out mod 4 = 0)%nat -> encode_pad (S fuel) n out = Some out.
Proof.
  intros H. cbn [encode_pad]. rewrite land3, H. reflexivity.
Qed.

Lemma encode_pad_step fuel n out :
  (length out mod 4 <> 0)%nat -> (length out < n)%nat ->
  encode_pad (S fuel) n out = encode_pad fuel n (out ++ ["="%char]).
Proof.
  intros H Hn. cbn [encode_pad]. rewrite land3.
  destruct (Z.of_nat (length out mod 4) =? 0) eqn:E;
    [apply Z.eqb_eq in E; lia|].
  destruct (n <=? length out)%nat eqn:E'; [apply Nat.leb_le in E'; lia|].
  reflexivity.
Qed.

Lemma mod4_eq (n k r : nat) :
  n = (4 * k + r)%nat -> (r < 4)%nat -> (n mod 4 = r)%nat.
Proof.
  intros -> Hr. rewrite Nat.add_comm, Nat.mul_comm, Nat.Div0.mod_add.
  apply Nat.mod_small; lia.
Qed.

Lemma encode_loop_rfc4648 :
  forall x v out n k,
    length out = (4 * k)%nat ->
    (length out + length (rfc4648_base64 x) < n)%nat ->
    encode_finish (encode_loop x v 0 n out) n =
    B64_OK (length out + length (rfc4648_base64 x))
      ((out ++ rfc4648_base64 x) ++ [NUL]).
Proof.
  induction x as [|a|a b|a b c x IH] using list_ind3; intros v out n k Hk Hn.
  - cbn [encode_loop rfc4648_base64 encode_finish] in *.
    simpl negb. cbv iota.
    rewrite encode_pad_stop by (apply (mod4_eq _ k 0); lia).
    simpl in Hn.
    destruct (n <=? length out)%nat eqn:E; [apply Nat.leb_le in E; lia|].
    rewrite app_nil_r, Nat.add_0_r. reflexivity.
  - cbn [rfc4648_base64 length] in Hn |- *.
    rewrite encode_loop_first by lia.
    cbn [encode_loop encode_finish]. simpl negb. cbv iota.
    rewrite length_app. cbn [length].
    destruct (n <=? length out + 1)%nat eqn:E; [apply Nat.leb_le in E; lia|].
    change (6 - Z.of_nat 2) with 4.
    rewrite enc_tail1 by apply uint8_range.
    rewrite encode_pad_step;
      [|len_norm; rewrite (mod4_eq _ k 2); lia
       |len_norm; lia].
    rewrite encode_pad_step;
      [|len_norm; rewrite (mod4_eq _ k 3); lia
       |len_norm; lia].
    rewrite encode_pad_stop
      by (len_norm; apply (mod4_eq _ (S k) 0); lia).
    rewrite !length_app. cbn [length].
    destruct (n <=? length out + 1 + 1 + 1 + 1)%nat eqn:E';
      [apply Nat.leb_le in E'; lia|].
    rewrite <- !app_assoc. cbn [app].
    f_equal. lia.
  - cbn [rfc4648_base64 length] in Hn |- *.
    rewrite encode_loop_first by lia.
    rewrite encode_loop_second by (len_norm; lia).
    cbn [encode_loop encode_finish]. simpl negb. cbv iota.
    rewrite !length_app. cbn [length].
    destruct (n <=? length out + 1 + 1)%nat eqn:E;
      [apply Nat.leb_le in E; lia|].
    change (6 - Z.of_nat 4) with 2.
    rewrite enc_tail2 by apply uint8_range.
    rewrite encode_pad_step;
      [|len_norm; rewrite (mod4_eq _ k 3); lia
       |len_norm; lia].
    rewrite encode_pad_stop
      by (len_norm; apply (mod4_eq _ (S k) 0); lia).
    rewrite !length_app. cbn [length].
    destruct (n <=? length out + 1 + 1 + 1 + 1)%nat eqn:E';
      [apply Nat.leb_le in E'; lia|].
    rewrite <- !app_assoc. cbn [app].
    f_equal. lia.
  - cbn [rfc4648_base64] in Hn |- *.
    rewrite length_app in Hn. cbn [length] in Hn.
    rewrite encode_loop_first by lia.
    rewrite encode_loop_second by (len_norm; lia).
    rewrite encode_loop_third by (len_norm; lia).
    rewrite (IH _ _ n (S k));
      [|len_norm; lia
       |len_norm; lia].
    rewrite !length_app. cbn [length].
    rewrite <- !app_assoc. cbn [app].
    f_equal. lia.
Qed.

Lemma rfc4648_base64_length x :
  length (rfc4648_base64 x) = (4 * ((length x + 2) / 3))%nat.
Proof.
  induction x as [|a|a b|a b c x IH] using list_ind3; try reflexivity.
  cbn [rfc4648_base64]. rewrite length_app, IH. cbn [length].
  replace (S (S (S (length x))) + 2)%nat with (length x + 2 + 1 * 3)%nat
    by lia.
  rewrite Nat.div_add by lia. lia.
Qed.

Lemma base64_encode_rfc4648 x n :
  (length (rfc4648_base64 x) < n)%nat ->
  base64_encode x n =
  B64_OK (length (rfc4648_base64 x)) (rfc4648_base64 x ++ [NUL]).
Proof.
  intros Hn. rewrite base64_encode_finish.
  rewrite (encode_loop_rfc4648 x 0 [] n 0) by (simpl; lia).
  reflexivity.
Qed.

(** ** [base64_decode] inverts RFC 4648 *)

Lemma decode_loop_char s rest v rem n out :
  0 <= s < 64 ->
  decode_loop (encode_char s :: rest) v rem n out =
  if (8 <=? rem + 6)%nat then
    if (n <=? length out)%nat then None
    else decode_loop rest (next6 v s) (rem + 6 - 8) n
           (out ++ [to_uint8 (Z.land (Z.shiftr (next6 v s)
                                        (Z.of_nat (rem + 6 - 8))) 255)])
  else decode_loop rest (next6 v s) (rem + 6) n out.
Proof.
  intros Hs. destruct (alphabet_ok s Hs) as (Hsp & Heq & Hmap & Hff).
  cbn [decode_loop]. rewrite Hsp, Heq, Hmap, Hff. reflexivity.
Qed.

Lemma decode_loop_stop t v rem n out :
  decode_stops t -> decode_loop t v rem n out = Some (v, rem, out).
Proof.
  destruct t as [|c t]; intros H; cbn [decode_loop]; [reflexivity|].
  destruct H as [Hsp [Heq|Hmap]].
  - rewrite Hsp, Heq. reflexivity.
  - rewrite Hsp, Hmap. destruct (Ascii.eqb c "="%char); reflexivity.
Qed.

Lemma decode_loop_group a b c rest v n out :
  (length out + 3 <= n)%nat ->
  decode_loop
    (encode_char (sextet1 (uint8 a)) ::
     encode_char (sextet2 (uint8 a) (uint8 b)) ::
     encode_char (sextet3 (uint8 b) (uint8 c)) ::
     encode_char (sextet4 (uint8 c)) :: rest) v 0 n out =
  decode_loop rest
    (next6 (next6 (next6 (next6 v (sextet1 (uint8 a)))
                     (sextet2 (uint8 a) (uint8 b)))
              (sextet3 (uint8 b) (uint8 c))) (sextet4 (uint8 c)))
    0 n (out ++ [a; b; c]).
Proof.
  intros Hn.
  pose proof (uint8_range a) as Ha. pose proof (uint8_range b) as Hb.
  pose proof (uint8_range c) as Hc.
  rewrite decode_loop_char by (apply sextet1_range; assumption).
  cbn [Nat.add Nat.leb].
  rewrite decode_loop_char by (apply sextet2_range; assumption).
  cbn [Nat.add Nat.leb Nat.sub].
  destruct (n <=? length out)%nat eqn:E1; [apply Nat.leb_le in E1; lia|].
  change (Z.of_nat 4) with 4.
  rewrite dec_octet1 by assumption. rewrite to_uint8_uint8.
  rewrite decode_loop_char by (apply sextet3_range; assumption).
  cbn [Nat.add Nat.leb Nat.sub]. len_norm.
  destruct (n <=? length out + 1)%nat eqn:E2; [apply Nat.leb_le in E2; lia|].
  change (Z.of_nat 2) with 2.
  rewrite (dec_octet2 _ (uint8 a)) by assumption. rewrite to_uint8_uint8.
  rewrite decode_loop_char by (apply sextet4_range).
  cbn [Nat.add Nat.leb Nat.sub]. len_norm.
  destruct (n <=? length out + 1 + 1)%nat eqn:E3;
    [apply Nat.leb_le in E3; lia|].
  change (Z.of_nat 0) with 0.
  rewrite dec_octet3 by assumption. rewrite to_uint8_uint8.
  rewrite <- !app_assoc. reflexivity.
Qed.

Lemma base64_decode_finish inp out_len :
  base64_decode inp out_len =
  decode_finish (decode_loop inp 0 0 out_len []) out_len.
Proof. reflexivity. Qed.

Lemma pad_stops t : decode_stops ("="%char :: t).
Proof. split; [reflexivity|left; reflexivity]. Qed.

Lemma decode_loop_rfc4648 :
  forall x t v out n,
    decode_stops t ->
    (length out + length x <= n)%nat ->
    decode_finish (decode_loop (rfc4648_base64 x ++ t) v 0 n out) n =
    B64_OK (length out + length x) (out ++ x).
Proof.
  induction x as [|a|a b|a b c x IH] using list_ind3;
    intros t v out n Ht Hn; cbn [length] in Hn.
  - cbn [rfc4648_base64 app]. rewrite decode_loop_stop by assumption.
    cbn [decode_finish Nat.leb length].
    rewrite app_nil_r, Nat.add_0_r. reflexivity.
  - cbn [rfc4648_base64 app].
    pose proof (uint8_range a) as Ha.
    rewrite decode_loop_char by (apply sextet1_range; assumption).
    cbn [Nat.add Nat.leb].
    rewrite decode_loop_char by (apply sextet2_range; lia).
    cbn [Nat.add Nat.leb Nat.sub].
    destruct (n <=? length out)%nat eqn:E1; [apply Nat.leb_le in E1; lia|].
    change (Z.of_nat 4) with 4.
    rewrite dec_octet1 by lia. rewrite to_uint8_uint8.
    rewrite decode_loop_stop by apply pad_stops.
    cbn [decode_finish Nat.leb]. len_norm. f_equal.
  - cbn [rfc4648_base64 app].
    pose proof (uint8_range a) as Ha. pose proof (uint8_range b) as Hb.
    rewrite decode_loop_char by (apply sextet1_range; assumption).
    cbn [Nat.add Nat.leb].
    rewrite decode_loop_char by (apply sextet2_range; lia).
    cbn [Nat.add Nat.leb Nat.sub].
    destruct (n <=? length out)%nat eqn:E1; [apply Nat.leb_le in E1; lia|].
    change (Z.of_nat 4) with 4.
    rewrite dec_octet1 by lia. rewrite to_uint8_uint8.
    rewrite decode_loop_char by (apply sextet3_range; lia).
    cbn [Nat.add Nat.leb Nat.sub]. len_norm.
    destruct (n <=? length out + 1)%nat eqn:E2;
      [apply Nat.leb_le in E2; lia|].
    change (Z.of_nat 2) with 2.
    rewrite (dec_octet2 _ (uint8 a)) by lia. rewrite to_uint8_uint8.
    rewrite decode_loop_stop by apply pad_stops.
    cbn [decode_finish Nat.leb]. len_norm.
    rewrite <- !app_assoc. cbn [app]. f_equal. lia.
  - cbn [rfc4648_base64]. rewrite <- app_assoc. cbn [app].
    rewrite decode_loop_group by lia.
    rewrite IH by (try assumption; len_norm; lia).
    len_norm. rewrite <- !app_assoc. cbn [app]. f_equal. lia.
Qed.

Lemma base64_decode_rfc4648 x t n :
  decode_stops t -> (length x <= n)%nat ->
  base64_decode (rfc4648_base64 x ++ t) n = B64_OK (length x) x.
Proof.
  intros Ht Hn. rewrite base64_decode_finish.
  rewrite decode_loop_rfc4648 by (try assumption; simpl; lia).
  reflexivity.
Qed.

(** ** Arrays *)

Lemma length_upd {A : Type} (k : nat) (v : A) (l : list A) :
  length (upd k v l) = length l.
Proof.
  revert k; induction l as [|h t IH]; intros [|k]; simpl; auto.
Qed.

Lemma nth_upd_eq {A : Type} (k : nat) (v d : A) (l : list A) :
  (k < length l)%nat -> nth k (upd k v l) d = v.
Proof.
  revert k; induction l as [|h t IH]; intros [|k] H; simpl in *;
    try lia; auto.
  apply IH. lia.
Qed.

Lemma nth_upd_neq {A : Type} (k j : nat) (v d : A) (l : list A) :
  k <> j -> nth j (upd k v l) d = nth j l d.
Proof.
  revert k j; induction l as [|h t IH]; intros [|k] [|j] H; simpl;
    try reflexivity; try congruence.
  apply IH. congruence.
Qed.

(** ** SHA-1: shape of the state *)

Lemma length_word_octets le w : length (word_octets le w) = 4%nat.
Proof. destruct le; reflexivity. Qed.

Lemma length_store32 le mem i w : length (store32 le mem i w) = length mem.
Proof.
  unfold store32. destruct le; cbn [word_octets]; rewrite !length_upd;
    reflexivity.
Qed.

Lemma length_sha1_round le i mem r :
  length (fst (sha1_round le i mem r)) = length mem.
Proof.
  unfold sha1_round. destruct r as [a b c d e].
  destruct (16 <=? i); cbn [fst]; [apply length_store32|reflexivity].
Qed.

Lemma length_sha1_rounds le n :
  forall i mem r, length (fst (sha1_rounds le n i mem r)) = length mem.
Proof.
  induction n as [|n IH]; intros i mem r; cbn [sha1_rounds]; [reflexivity|].
  pose proof (length_sha1_round le i mem r) as H.
  destruct (sha1_round le i mem r) as [mem' r']. cbn [fst] in H.
  rewrite IH. exact H.
Qed.

Lemma sha1_init_wf le s : sha1_wf (sha1_init le s).
Proof. split; simpl; [reflexivity|lia]. Qed.

Lemma sha1_add_offset le s data :
  0 <= buffer_offset s < 64 ->
  buffer_offset (sha1_add le s data) = (buffer_offset s + 1) mod 64.
Proof.
  intros H. unfold sha1_add, SHA1_BLOCK_LEN.
  rewrite (Z.mod_small (buffer_offset s + 1) 256) by lia.
  destruct (buffer_offset s + 1 =? 64) eqn:E.
  - apply Z.eqb_eq in E. rewrite E.
    destruct (sha1_rounds _ _ _ _ _) as [mem [a b c d e]]. reflexivity.
  - apply Z.eqb_neq in E. cbn [buffer_offset].
    rewrite Z.mod_small by lia. reflexivity.
Qed.

Lemma sha1_add_wf le s data : sha1_wf s -> sha1_wf (sha1_add le s data).
Proof.
  intros [Hst Hoff]. split.
  - unfold sha1_add. destruct (_ =? SHA1_BLOCK_LEN).
    + destruct (sha1_rounds _ _ _ _ _) as [mem [a b c d e]]. reflexivity.
    + exact Hst.
  - rewrite sha1_add_offset by assumption. apply Z.mod_pos_bound. lia.
Qed.

Lemma sha1_hashbyte_wf le s data :
  sha1_wf s -> sha1_wf (sha1_hashbyte le s data).
Proof. intros [H1 H2]. apply sha1_add_wf. split; assumption. Qed.

Lemma fold_sha1_hashbyte_wf le l :
  forall s, sha1_wf s -> sha1_wf (fold_left (sha1_hashbyte le) l s).
Proof.
  induction l as [|c l IH]; intros s H; cbn [fold_left]; [assumption|].
  apply IH, sha1_hashbyte_wf, H.
Qed.

Lemma sha1_pad_zero_wf fuel le :
  forall s, sha1_wf s -> sha1_wf (sha1_pad_zero fuel le s).
Proof.
  induction fuel as [|fuel IH]; intros s H; cbn [sha1_pad_zero];
    [assumption|].
  destruct (negb _); [apply IH, sha1_add_wf, H|assumption].
Qed.

(** The padding loop ends by its own test: 64 turns are never used up. *)
Lemma sha1_pad_zero_exit le :
  forall fuel s,
    0 <= buffer_offset s < 64 ->
    (56 - buffer_offset s) mod 64 < Z.of_nat fuel ->
    buffer_offset (sha1_pad_zero fuel le s) = 56.
Proof.
  induction fuel as [|fuel IH]; intros s Hoff Hfuel.
  - pose proof (Z.mod_pos_bound (56 - buffer_offset s) 64). lia.
  - cbn [sha1_pad_zero].
    destruct (buffer_offset s =? 56) eqn:E; cbn [negb].
    + apply Z.eqb_eq in E. exact E.
    + apply Z.eqb_neq in E. apply IH.
      * rewrite sha1_add_offset by assumption. apply Z.mod_pos_bound. lia.
      * rewrite sha1_add_offset by assumption.
        assert (H1 : (56 - (buffer_offset s + 1) mod 64) mod 64
                     = (56 - buffer_offset s) mod 64 - 1).
        { destruct (Z.eq_dec (buffer_offset s) 63) as [->|Hn].
          - reflexivity.
          - rewrite (Z.mod_small (buffer_offset s + 1)) by lia.
            destruct (Z_lt_le_dec (buffer_offset s) 56).
            + rewrite !Z.mod_small by lia. lia.
            + replace (56 - (buffer_offset s + 1))
                with (120 - (buffer_offset s + 1) + (-1) * 64) by lia.
              replace (56 - buffer_offset s)
                with (120 - buffer_offset s + (-1) * 64) by lia.
              rewrite !Z.mod_add by lia.
              rewrite !Z.mod_small by lia. lia. }
        rewrite H1. lia.
Qed.

Lemma sha1_pad_zero_64_exit le s :
  0 <= buffer_offset s < 64 ->
  buffer_offset (sha1_pad_zero 64 le s) = 56.
Proof.
  intros H. apply sha1_pad_zero_exit; [assumption|].
  pose proof (Z.mod_pos_bound (56 - buffer_offset s) 64).
  change (Z.of_nat 64) with 64. lia.
Qed.

Lemma length_flat_map_word_octets le ws :
  length (flat_map (word_octets le) ws) = (4 * length ws)%nat.
Proof.
  induction ws as [|w ws IH]; cbn [flat_map]; [reflexivity|].
  rewrite length_app, length_word_octets, IH. simpl. lia.
Qed.

Lemma length_sha1_result le s :
  sha1_wf s -> length (sha1_result le s) = 20%nat.
Proof.
  intros H. unfold sha1_result.
  match goal with
  | |- context [state ?t] =>
    assert (Hwf : sha1_wf t)
      by (repeat apply sha1_add_wf; apply sha1_pad_zero_wf, sha1_add_wf, H)
  end.
  destruct Hwf as [Hst _].
  rewrite length_flat_map_word_octets.
  destruct (negb _); rewrite ?length_map, Hst; reflexivity.
Qed.

(** ** SHA-1: the uninitialised block buffer does not matter

    [sha1_init] leaves [buffer] as it finds it. Two objects that agree on
    everything but the octets of the block not written yet stay in
    agreement, and give the same digest. *)

Lemma lane_checked : forallb lane_check (seq 0 64) = true.
Proof. vm_compute. reflexivity. Qed.

Lemma lane_spec e k :
  0 <= k < 64 -> 0 <= lane e k < 64 /\ lane e (lane e k) = k.
Proof.
  intros Hk. unfold lane. destruct (negb (e =? 0)); [|lia].
  pose proof lane_checked as H. rewrite forallb_forall in H.
  assert (Hin : In (Z.to_nat k) (seq 0 64)) by (apply in_seq; lia).
  specialize (H _ Hin). unfold lane_check in H.
  rewrite Z2Nat.id in H by lia.
  apply andb_true_iff in H. destruct H as [H H3].
  apply andb_true_iff in H. destruct H as [H1 H2].
  apply Z.leb_le in H1. apply Z.ltb_lt in H2. apply Z.eqb_eq in H3.
  lia.
Qed.

Lemma lane_inj e j k :
  0 <= j < 64 -> 0 <= k < 64 -> lane e j = lane e k -> j = k.
Proof.
  intros Hj Hk H.
  destruct (lane_spec e j Hj) as [_ <-].
  destruct (lane_spec e k Hk) as [_ <-].
  rewrite H. reflexivity.
Qed.

Lemma sha1_agree_full_block e (b1 b2 : list ascii) :
  length b1 = 64%nat -> length b2 = 64%nat ->
  (forall k, 0 <= k < 64 ->
     nth (Z.to_nat (lane e k)) b1 NUL = nth (Z.to_nat (lane e k)) b2 NUL) ->
  b1 = b2.
Proof.
  intros H1 H2 H. apply (nth_ext _ _ NUL NUL); [congruence|].
  intros n Hn. rewrite H1 in Hn.
  assert (Hk : 0 <= Z.of_nat n < 64) by lia.
  destruct (lane_spec e _ Hk) as [Hr Hinv].
  specialize (H _ Hr). rewrite Hinv, Nat2Z.id in H. exact H.
Qed.

Lemma sha1_add_agree le s1 s2 data :
  sha1_agree s1 s2 -> sha1_agree (sha1_add le s1 data) (sha1_add le s2 data).
Proof.
  intros (Hst & Hbh & Hoff & Hle & Hr & Hl1 & Hl2 & Hag).
  assert (Hidx :
    (if negb (is_little_endian s1 =? 0)
     then Z.lxor (buffer_offset s1) 3 else buffer_offset s1)
    = lane (is_little_endian s1) (buffer_offset s1)) by reflexivity.
  destruct (lane_spec (is_little_endian s1) _ Hr) as [Hlr _].
  set (i := Z.to_nat (lane (is_little_endian s1) (buffer_offset s1))) in *.
  assert (Hnew : forall k, 0 <= k < buffer_offset s1 + 1 ->
    nth (Z.to_nat (lane (is_little_endian s1) k)) (upd i data (buffer s1)) NUL
    = nth (Z.to_nat (lane (is_little_endian s1) k))
        (upd i data (buffer s2)) NUL).
  { intros k Hk. destruct (Z.eq_dec k (buffer_offset s1)) as [->|Hne].
    - fold i. rewrite !nth_upd_eq by (subst i; lia). reflexivity.
    - assert (Hki : i <> Z.to_nat (lane (is_little_endian s1) k)).
      { subst i. intros Heq.
        destruct (lane_spec (is_little_endian s1) k) as [Hkr _]; [lia|].
        apply Z2Nat.inj in Heq; try lia.
        apply lane_inj in Heq; lia. }
      rewrite !nth_upd_neq by assumption. apply Hag. lia. }
  unfold sha1_add, SHA1_BLOCK_LEN.
  rewrite <- Hoff, <- Hle, <- Hst, <- Hbh, Hidx. fold i.
  rewrite (Z.mod_small (buffer_offset s1 + 1) 256) by lia.
  destruct (buffer_offset s1 + 1 =? 64) eqn:E.
  - apply Z.eqb_eq in E.
    assert (Heq : upd i data (buffer s1) = upd i data (buffer s2)).
    { apply (sha1_agree_full_block (is_little_endian s1));
        rewrite ?length_upd; try assumption.
      intros k Hk. apply Hnew. lia. }
    rewrite <- Heq.
    pose proof (length_sha1_rounds le 80 0 (upd i data (buffer s1))
                  (mk_regs (st (state s1) 0) (st (state s1) 1)
                     (st (state s1) 2) (st (state s1) 3) (st (state s1) 4)))
      as Hlen.
    destruct (sha1_rounds _ _ _ _ _) as [mem [a b c d e]].
    cbn [fst] in Hlen. rewrite length_upd in Hlen.
    repeat split; cbn; try reflexivity; try lia.
  - apply Z.eqb_neq in E.
    repeat split; cbn; rewrite ?length_upd; try reflexivity;
      try assumption; try lia.
Qed.

Lemma sha1_hashbyte_agree le s1 s2 data :
  sha1_agree s1 s2 ->
  sha1_agree (sha1_hashbyte le s1 data) (sha1_hashbyte le s2 data).
Proof.
  intros (Hst & Hbh & Hoff & Hle & Hr & Hl1 & Hl2 & Hag).
  apply sha1_add_agree. repeat split; cbn; try assumption; try lia.
  congruence.
Qed.

Lemma fold_sha1_hashbyte_agree le l :
  forall s1 s2, sha1_agree s1 s2 ->
    sha1_agree (fold_left (sha1_hashbyte le) l s1)
               (fold_left (sha1_hashbyte le) l s2).
Proof.
  induction l as [|c l IH]; intros s1 s2 H; cbn [fold_left]; [assumption|].
  apply IH, sha1_hashbyte_agree, H.
Qed.

Lemma sha1_pad_zero_agree le fuel :
  forall s1 s2, sha1_agree s1 s2 ->
    sha1_agree (sha1_pad_zero fuel le s1) (sha1_pad_zero fuel le s2).
Proof.
  induction fuel as [|fuel IH]; intros s1 s2 H; cbn [sha1_pad_zero];
    [assumption|].
  pose proof H as (_ & _ & Hoff & _). rewrite <- Hoff.
  destruct (negb _); [apply IH, sha1_add_agree, H|assumption].
Qed.

Lemma sha1_result_agree le s1 s2 :
  sha1_agree s1 s2 -> sha1_result le s1 = sha1_result le s2.
Proof.
  intros H. unfold sha1_result.
  apply (sha1_add_agree le _ _ (to_uint8 128)) in H.
  apply (sha1_pad_zero_agree le 64) in H.
  do 3 apply (sha1_add_agree le _ _ (to_uint8 0)) in H.
  set (t1 := sha1_add le _ _) in H at 1. fold t1.
  set (t2 := sha1_add le _ _) in H. fold t2.
  assert (Hb : bytes_hashed t1 = bytes_hashed t2) by apply H.
  apply (sha1_add_agree le _ _ (to_uint8 (Z.shiftr (bytes_hashed t1) 29)))
    in H.
  rewrite Hb in H at 2.
  clearbody t1 t2.
  set (u1 := sha1_add le t1 _) in *. set (u2 := sha1_add le t2 _) in *.
  assert (Hb' : bytes_hashed u1 = bytes_hashed u2) by apply H.
  apply (sha1_add_agree le _ _ (to_uint8 (Z.shiftr (bytes_hashed u1) 21)))
    in H.
  rewrite Hb' in H at 2. clearbody u1 u2. clear Hb t1 t2.
  set (t1 := sha1_add le u1 _) in *. set (t2 := sha1_add le u2 _) in *.
  assert (Hb : bytes_hashed t1 = bytes_hashed t2) by apply H.
  apply (sha1_add_agree le _ _ (to_uint8 (Z.shiftr (bytes_hashed t1) 13)))
    in H.
  rewrite Hb in H at 2. clearbody t1 t2. clear Hb' u1 u2.
  set (u1 := sha1_add le t1 _) in *. set (u2 := sha1_add le t2 _) in *.
  assert (Hb' : bytes_hashed u1 = bytes_hashed u2) by apply H.
  apply (sha1_add_agree le _ _ (to_uint8 (Z.shiftr (bytes_hashed u1) 5)))
    in H.
  rewrite Hb' in H at 2. clearbody u1 u2. clear Hb t1 t2.
  set (t1 := sha1_add le u1 _) in *. set (t2 := sha1_add le u2 _) in *.
  assert (Hb : bytes_hashed t1 = bytes_hashed t2) by apply H.
  apply (sha1_add_agree le _ _
           (to_uint8 (u32 (Z.shiftl (bytes_hashed t1) 3)))) in H.
  rewrite Hb in H at 2.
  destruct H as (Hst & _ & _ & Hle & _).
  rewrite Hst, Hle. reflexivity.
Qed.

Lemma sha1_init_agree le s1 s2 :
  length (buffer s1) = 64%nat -> length (buffer s2) = 64%nat ->
  sha1_agree (sha1_init le s1) (sha1_init le s2).
Proof.
  intros H1 H2. repeat split; cbn; try assumption; try lia.
Qed.

(** ** The accept key *)

Lemma hash_key_digest le hash key hashed_len :
  nn_ws_handshake_hash_key le hash key hashed_len =
  base64_encode (key_digest le hash key) hashed_len.
Proof.
  unfold nn_ws_handshake_hash_key, key_digest.
  rewrite fold_left_app. reflexivity.
Qed.

Lemma length_key_digest le hash key : length (key_digest le hash key) = 20%nat.
Proof.
  apply length_sha1_result, fold_sha1_hashbyte_wf, sha1_init_wf.
Qed.

Lemma key_digest_any_block le hash1 hash2 key :
  length (buffer hash1) = 64%nat -> length (buffer hash2) = 64%nat ->
  key_digest le hash1 key = key_digest le hash2 key.
Proof.
  intros H1 H2. unfold key_digest.
  apply sha1_result_agree, fold_sha1_hashbyte_agree, sha1_init_agree;
    assumption.
Qed.

Lemma sample_key_digest le :
  rfc4648_base64 (key_digest le zero_hash RFC6455_SAMPLE_KEY)
  = RFC6455_SAMPLE_ACCEPT.
Proof. destruct le; vm_compute; reflexivity. Qed.

(** C1. For every key, [nn_ws_handshake_hash_key] feeds the key and then
    the 36-octet magic GUID to SHA-1 and Base64-encodes the 20-octet
    digest; with the callers' 29-octet output buffer (or a larger one) it
    returns 28 and stores 28 characters and a NUL. On either byte order and
    whatever the uninitialised SHA-1 block holds, the RFC 6455 sample key
    gives "s3pPLMBiTxaQ9kYGzzhZRbK+xOo=". *)
Theorem hash_key_accept (le : bool) (hash : sha1hash) (key : list ascii)
    (hashed_len : nat) :
  (NN_WS_HANDSHAKE_ACCEPT_KEY_LEN + 1 <= hashed_len)%nat ->
  let digest := key_digest le hash key in
  length NN_WS_HANDSHAKE_MAGIC_GUID = 36%nat /\
  length digest = 20%nat /\
  length (rfc4648_base64 digest) = 28%nat /\
  nn_ws_handshake_hash_key le hash key hashed_len
    = B64_OK 28 (rfc4648_base64 digest ++ [NUL]) /\
  (length (buffer hash) = 64%nat -> key = RFC6455_SAMPLE_KEY ->
   rfc4648_base64 digest = RFC6455_SAMPLE_ACCEPT).
Proof.
  intros Hlen digest.
  assert (Hd : length digest = 20%nat) by apply length_key_digest.
  assert (He : length (rfc4648_base64 digest) = 28%nat)
    by (rewrite rfc4648_base64_length, Hd; reflexivity).
  repeat split; try assumption.
  - rewrite hash_key_digest. fold digest.
    rewrite base64_encode_rfc4648
      by (rewrite He; unfold NN_WS_HANDSHAKE_ACCEPT_KEY_LEN in Hlen; lia).
    rewrite He. reflexivity.
  - intros Hbuf ->. subst digest.
    rewrite (key_digest_any_block le hash zero_hash) by (auto; reflexivity).
    apply sample_key_digest.
Qed.

Lemma hash_key_accept_witness :
  nn_ws_handshake_hash_key true zero_hash RFC6455_SAMPLE_KEY 29
  = B64_OK 28 (RFC6455_SAMPLE_ACCEPT ++ [NUL]).
Proof.
  destruct (hash_key_accept true zero_hash RFC6455_SAMPLE_KEY 29)
    as (_ & _ & _ & Hk & Hs).
  - unfold NN_WS_HANDSHAKE_ACCEPT_KEY_LEN. lia.
  - rewrite Hk, Hs; reflexivity.
Defined.

(** ** Base64 round trip *)

(** C8. For every octet string [x], with an output buffer that holds the
    encoding and its NUL and a decode buffer that holds [x]:
    [base64_encode] stores the RFC 4648 encoding of [x] and a NUL, and
    [base64_decode] applied to that output, with or without the NUL counted
    in [in_len], stores exactly [x] and returns its length. The decoder
    takes '=' (or any octet outside the alphabet) as the end of its input,
    whatever follows. *)
Theorem base64_roundtrip (x : list ascii) (enc_len dec_len : nat) :
  (4 * ((length x + 2) / 3) < enc_len)%nat ->
  (length x <= dec_len)%nat ->
  let enc := rfc4648_base64 x in
  base64_encode x enc_len = B64_OK (length enc) (enc ++ [NUL]) /\
  base64_decode enc dec_len = B64_OK (length x) x /\
  base64_decode (enc ++ [NUL]) dec_len = B64_OK (length x) x /\
  (forall t, base64_decode (enc ++ "="%char :: t) dec_len
             = B64_OK (length x) x).
Proof.
  intros Henc Hdec enc. repeat split.
  - apply base64_encode_rfc4648. subst enc.
    rewrite rfc4648_base64_length. exact Henc.
  - rewrite <- (app_nil_r enc).
    apply base64_decode_rfc4648; [exact I|exact Hdec].
  - apply base64_decode_rfc4648; [|exact Hdec].
    split; [reflexivity|right; reflexivity].
  - intros t. apply base64_decode_rfc4648; [apply pad_stops|exact Hdec].
Qed.

Lemma base64_roundtrip_witness :
  base64_encode (cs "foob") 9 = B64_OK 8 (cs "Zm9vYg==" ++ [NUL]) /\
  base64_decode (cs "Zm9vYg==") 4 = B64_OK 4 (cs "foob").
Proof.
  destruct (base64_roundtrip (cs "foob") 9 4) as (He & Hd & _).
  - simpl. lia.
  - simpl. lia.
  - split; [exact He|exact Hd].
Defined.

(** ** C strings *)

Lemma is_nul_spec c : is_nul c = true <-> c = NUL.
Proof. unfold is_nul. apply Ascii.eqb_eq. Qed.

Lemma length_until_nul l : (length (until_nul l) <= length l)%nat.
Proof.
  induction l as [|c l IH]; cbn [until_nul]; [lia|].
  destruct (is_nul c); simpl; lia.
Qed.

Lemma until_nul_nth l i :
  (i < length (until_nul l))%nat ->
  nth i l NUL = nth i (until_nul l) NUL /\ is_nul (nth i l NUL) = false.
Proof.
  revert i; induction l as [|c l IH]; intros i Hi; cbn [until_nul] in *.
  - simpl in Hi. lia.
  - destruct (is_nul c) eqn:E; [simpl in Hi; lia|].
    destruct i as [|i]; cbn [nth]; [auto|].
    apply IH. simpl in Hi. lia.
Qed.

Lemma until_nul_end l : is_nul (nth (length (until_nul l)) l NUL) = true.
Proof.
  induction l as [|c l IH]; cbn [until_nul]; [reflexivity|].
  destruct (is_nul c) eqn:E; cbn [length nth]; assumption.
Qed.

Lemma until_nul_skipn l p :
  (p <= length (until_nul l))%nat ->
  until_nul (skipn p l) = skipn p (until_nul l).
Proof.
  revert p; induction l as [|c l IH]; intros p Hp.
  - destruct p; reflexivity.
  - destruct p as [|p]; [reflexivity|].
    cbn [until_nul] in *. destruct (is_nul c); [simpl in Hp; lia|].
    cbn [skipn]. apply IH. simpl in Hp. lia.
Qed.

Lemma until_nul_firstn l :
  firstn (length (until_nul l)) l = until_nul l.
Proof.
  induction l as [|c l IH]; cbn [until_nul]; [reflexivity|].
  destruct (is_nul c); cbn [length firstn]; [reflexivity|].
  rewrite IH. reflexivity.
Qed.

Lemma until_nul_no_nul l : existsb is_nul (until_nul l) = false.
Proof.
  induction l as [|c l IH]; cbn [until_nul]; [reflexivity|].
  destruct (is_nul c) eqn:E; [reflexivity|].
  cbn [existsb]. rewrite E, IH. reflexivity.
Qed.

Lemma until_nul_id l : existsb is_nul l = false -> until_nul l = l.
Proof.
  induction l as [|c l IH]; cbn [until_nul existsb]; [reflexivity|].
  intros H. apply orb_false_iff in H. destruct H as [H1 H2].
  rewrite H1, IH by assumption. reflexivity.
Qed.

Lemma until_nul_app l r :
  existsb is_nul l = false -> until_nul (l ++ NUL :: r) = l.
Proof.
  induction l as [|c l IH]; cbn [until_nul existsb app]; [reflexivity|].
  intros H. apply orb_false_iff in H. destruct H as [H1 H2].
  rewrite H1, IH by assumption. reflexivity.
Qed.

Lemma strlen_le buf : (strlen buf 0 <= length buf)%nat.
Proof. apply length_until_nul. Qed.

Lemma cstring_skipn buf p :
  (p <= strlen buf 0)%nat -> cstring buf p = skipn p (cstring buf 0).
Proof. intros H. apply until_nul_skipn. exact H. Qed.

Lemma strlen_from buf p :
  (p <= strlen buf 0)%nat -> strlen buf p = (strlen buf 0 - p)%nat.
Proof.
  intros H. unfold strlen at 1. rewrite cstring_skipn by assumption.
  apply length_skipn.
Qed.

Lemma rd_in_string buf i :
  (i < strlen buf 0)%nat -> is_nul (rd buf i) = false.
Proof. intros H. apply until_nul_nth. exact H. Qed.

Lemma rd_string_end buf : is_nul (rd buf (strlen buf 0)) = true.
Proof. apply until_nul_end. Qed.

Lemma rd_not_nul_lt buf i :
  (i <= strlen buf 0)%nat -> is_nul (rd buf i) = false ->
  (i < strlen buf 0)%nat.
Proof.
  intros Hle H.
  destruct (Nat.eq_dec i (strlen buf 0)) as [->|]; [|lia].
  rewrite rd_string_end in H. discriminate.
Qed.

Lemma prefixb_length t l : prefixb t l = true -> (length t <= length l)%nat.
Proof.
  revert l; induction t as [|a t IH]; intros [|b l] H; simpl in *;
    try lia; try discriminate.
  apply andb_true_iff in H. destruct H as [_ H]. apply IH in H. lia.
Qed.

Lemma find_sub_bound t l k :
  find_sub t l = Some k -> (k + length t <= length l)%nat.
Proof.
  revert k; induction l as [|c l IH]; intros k H; cbn [find_sub] in H.
  - destruct (prefixb t []) eqn:E; [|discriminate].
    injection H as <-. apply prefixb_length in E. simpl in *. lia.
  - destruct (prefixb t (c :: l)) eqn:E.
    + injection H as <-. apply prefixb_length in E. simpl in *. lia.
    + destruct (find_sub t l) as [k'|]; [|discriminate].
      injection H as <-. specialize (IH k' eq_refl). simpl. lia.
Qed.

Lemma strstr_bound buf p t e :
  (p <= strlen buf 0)%nat -> strstr buf p t = Some e ->
  (p <= e /\ e + length t <= strlen buf 0)%nat.
Proof.
  intros Hp H. unfold strstr in H.
  destruct (find_sub t (cstring buf p)) as [k|] eqn:E; [|discriminate].
  injection H as <-. apply find_sub_bound in E.
  fold (strlen buf p) in E. rewrite strlen_from in E by assumption. lia.
Qed.

(** ** The matchers *)

Lemma skip_sp_bound l : (skip_sp l <= length (until_nul l))%nat.
Proof.
  induction l as [|c l IH]; cbn [skip_sp until_nul]; [lia|].
  destruct (is_nul c) eqn:E.
  - rewrite andb_false_r. simpl. lia.
  - rewrite andb_true_r. destruct (Ascii.eqb c SP); simpl; lia.
Qed.

(** The comparison loop is left with octets of the token unread only at
    the NUL of the subject: the source's [nn_assert (!*token)] holds. *)
Lemma token_loop_exit ci token buf pos token' pos' :
  token_loop ci token buf pos = Some (token', pos') ->
  token' = [] \/ is_nul (rd buf pos') = true.
Proof.
  revert pos; induction token as [|t token IH]; intros pos H;
    cbn [token_loop] in H.
  - injection H as <- <-. left. reflexivity.
  - destruct (is_nul (rd buf pos)) eqn:E.
    + injection H as <- <-. right. exact E.
    + destruct (if ci then _ else _); [discriminate|].
      apply IH in H. exact H.
Qed.

Lemma token_loop_bound ci token buf pos token' pos' :
  (pos <= strlen buf 0)%nat ->
  token_loop ci token buf pos = Some (token', pos') ->
  (pos <= pos' <= strlen buf 0)%nat.
Proof.
  revert pos; induction token as [|t token IH]; intros pos Hp H;
    cbn [token_loop] in H.
  - injection H as <- <-. lia.
  - destruct (is_nul (rd buf pos)) eqn:E.
    + injection H as <- <-. lia.
    + destruct (if ci then _ else _); [discriminate|].
      apply rd_not_nul_lt in E; [|assumption].
      apply IH in H; lia.
Qed.

Lemma match_token_nomatch token buf subj ci sp subj' :
  nn_ws_match_token token buf subj ci sp = (NN_WS_HANDSHAKE_NOMATCH, subj') ->
  subj' = subj.
Proof.
  unfold nn_ws_match_token.
  destruct (token_loop _ _ _ _) as [[tok pos]|].
  - destruct (_ && _); intros H; inversion H; reflexivity.
  - intros H; inversion H; reflexivity.
Qed.

Lemma match_token_bound token buf subj ci sp subj' :
  (subj <= strlen buf 0)%nat ->
  nn_ws_match_token token buf subj ci sp = (NN_WS_HANDSHAKE_MATCH, subj') ->
  (subj <= subj' <= strlen buf 0)%nat.
Proof.
  intros Hs. unfold nn_ws_match_token.
  assert (Hskip :
    (subj <= (if sp then subj + skip_sp (skipn subj buf) else subj)
          <= strlen buf 0)%nat).
  { destruct sp; [|lia].
    pose proof (skip_sp_bound (skipn subj buf)) as H.
    fold (cstring buf subj) in H. fold (strlen buf subj) in H.
    rewrite strlen_from in H by assumption. lia. }
  destruct (token_loop _ _ _ _) as [[tok pos]|] eqn:E; [|discriminate].
  destruct (_ && _); [discriminate|].
  intros H. injection H as <-.
  apply token_loop_bound in E; lia.
Qed.

Lemma trim_leading_bound n buf start :
  (start <= trim_leading n buf start <= start + n)%nat.
Proof.
  revert start; induction n as [|n IH]; intros start; cbn [trim_leading];
    [lia|].
  destruct (Ascii.eqb _ _); [|lia].
  specialize (IH (S start)). lia.
Qed.

Lemma trim_trailing_bound n buf e :
  (e - n <= trim_trailing n buf e <= e)%nat.
Proof.
  revert e; induction n as [|n IH]; intros e; cbn [trim_trailing]; [lia|].
  destruct (Ascii.eqb _ _); [|lia].
  specialize (IH (e - 1)%nat). lia.
Qed.

Lemma match_value_nomatch termseq buf subj a b subj' v :
  nn_ws_match_value termseq buf subj a b
    = (NN_WS_HANDSHAKE_NOMATCH, subj', v) ->
  subj' = subj /\ v = null_slice.
Proof.
  unfold nn_ws_match_value.
  destruct (strstr _ _ _) as [e|].
  - destruct (_ =? _)%nat; intros H; inversion H.
  - intros H; inversion H; auto.
Qed.

Lemma match_value_bound termseq buf subj a b rc subj' v :
  (subj <= strlen buf 0)%nat ->
  nn_ws_match_value termseq buf subj a b = (rc, subj', v) ->
  slice_in buf v /\
  (rc = NN_WS_HANDSHAKE_MATCH ->
   (subj + length termseq <= subj' <= strlen buf 0)%nat).
Proof.
  intros Hs. unfold nn_ws_match_value.
  destruct (strstr buf subj termseq) as [e|] eqn:E.
  - apply strstr_bound in E; [|assumption].
    set (start := if a then trim_leading (e - subj) buf subj else subj).
    assert (Hstart : (subj <= start <= e)%nat).
    { subst start. destruct a; [|lia].
      pose proof (trim_leading_bound (e - subj) buf subj). lia. }
    destruct (start =? e)%nat eqn:Ee.
    + intros H. injection H as <- <- <-. split; [|lia].
      unfold slice_in. cbn [sl_ptr sl_len]. lia.
    + intros H. injection H as <- <- <-. split; [|lia].
      unfold slice_in. cbn [sl_ptr sl_len].
      destruct b; [|lia].
      pose proof (trim_trailing_bound (e - start) buf e). lia.
  - intros H. injection H as <- <- <-. split; [reflexivity|discriminate].
Qed.

(** ** The header loop *)

Lemma set_slices_set_slices g g' self :
  set_slices g (set_slices g' self) = set_slices g self.
Proof. reflexivity. Qed.

Lemma set_slices_set_slice g f v self :
  set_slices g (set_slice f v self) = set_slices g self.
Proof. reflexivity. Qed.

Lemma set_slices_set_response_code g c self :
  set_slices g (set_response_code c self)
  = set_response_code c (set_slices g self).
Proof. reflexivity. Qed.

Lemma hs_slices_set_slice f v self g :
  hs_slices (set_slice f v self) g
  = if field_eq_dec g f then v else hs_slices self g.
Proof. reflexivity. Qed.

Lemma match_header_bound hdrs buf pos f pos' :
  (pos <= strlen buf 0)%nat ->
  match_header hdrs buf pos = Some (f, pos') ->
  (pos <= pos' <= strlen buf 0)%nat.
Proof.
  intros Hp. induction hdrs as [|[token g] hdrs IH]; cbn [match_header];
    [discriminate|].
  destruct (nn_ws_match_token token buf pos true false) as [[|] p] eqn:E.
  - exact IH.
  - intros H. injection H as <- <-.
    apply match_token_bound in E; assumption.
Qed.

(** What the header loop keeps: it only stores values that lie inside the
    string, it touches nothing but the slices, and its fuel is enough. *)
Lemma header_loop_inv hdrs buf (P : (field -> slice) -> Prop) :
  (forall g f v, P g -> slice_in buf v ->
     P (fun x => if field_eq_dec x f then v else g x)) ->
  forall fuel pos self,
    (pos <= strlen buf 0)%nat -> P (hs_slices self) ->
    match header_loop fuel hdrs buf pos self with
    | LOOP_EXIT pos' self' =>
      (pos' <= strlen buf 0)%nat /\
      self' = set_slices (hs_slices self') self /\ P (hs_slices self')
    | LOOP_RECV_MORE self' =>
      self' = set_slices (hs_slices self') self /\ P (hs_slices self')
    | LOOP_FUEL => (fuel <= strlen buf 0 - pos)%nat
    end.
Proof.
  intros HP. induction fuel as [|fuel IH]; intros pos self Hp HPs;
    cbn [header_loop]; [lia|].
  destruct (strlen buf pos =? 0)%nat eqn:E0.
  { repeat split; try assumption. destruct self; reflexivity. }
  apply Nat.eqb_neq in E0. rewrite strlen_from in E0 by assumption.
  destruct (match_header hdrs buf pos) as [[f p]|] eqn:Eh.
  - apply match_header_bound in Eh; [|assumption].
    destruct (nn_ws_match_value NN_WS_HANDSHAKE_CRLF buf p true true)
      as [[rc p'] v] eqn:Ev.
    apply match_value_bound in Ev; [|lia]. destruct Ev as [Hv Hp'].
    assert (HP' : P (hs_slices (set_slice f v self))).
    { apply HP; assumption. }
    destruct rc; cbn [is_match].
    + split; [reflexivity|exact HP'].
    + specialize (Hp' eq_refl). cbn [NN_WS_HANDSHAKE_CRLF length] in Hp'.
      specialize (IH p' (set_slice f v self)).
      destruct (header_loop fuel hdrs buf p' (set_slice f v self)).
      * destruct IH as [H1 H2]; try assumption; try lia. split; assumption.
      * destruct IH as (H1 & H2 & H3); try assumption; try lia.
        repeat split; assumption.
      * assert (fuel <= strlen buf 0 - p')%nat by (apply IH; [lia|assumption]).
        lia.
  - destruct (nn_ws_match_token NN_WS_HANDSHAKE_CRLF buf pos true false)
      as [[|] p] eqn:Et.
    + destruct (nn_ws_match_value NN_WS_HANDSHAKE_CRLF buf pos true true)
        as [[rc p'] v] eqn:Ev.
      apply match_value_bound in Ev; [|lia]. destruct Ev as [Hv Hp'].
      destruct rc; cbn [is_match].
      * split; [destruct self; reflexivity|exact HPs].
      * specialize (Hp' eq_refl). cbn [NN_WS_HANDSHAKE_CRLF length] in Hp'.
        specialize (IH p' self).
        destruct (header_loop fuel hdrs buf p' self).
        -- apply IH; [lia|assumption].
        -- apply IH; [lia|assumption].
        -- assert (fuel <= strlen buf 0 - p')%nat
             by (apply IH; [lia|assumption]).
           lia.
    + apply match_token_bound in Et; [|assumption].
      repeat split; try assumption; try lia. destruct self; reflexivity.
Qed.

Lemma header_loop_fuel hdrs buf pos self :
  (pos <= strlen buf 0)%nat ->
  header_loop (S (length buf)) hdrs buf pos self <> LOOP_FUEL.
Proof.
  intros Hp H.
  pose proof (header_loop_inv hdrs buf (fun _ => True) (fun _ _ _ _ _ => I)
                (S (length buf)) pos self Hp I) as Hinv.
  rewrite H in Hinv. pose proof (strlen_le buf). lia.
Qed.

(** ** Validation against an expected value *)

Lemma mem_cons buf p n :
  (p < length buf)%nat -> mem buf p (S n) = rd buf p :: mem buf (S p) n.
Proof.
  unfold mem, rd. revert p; induction buf as [|c buf IH]; intros p Hp.
  - simpl in Hp. lia.
  - destruct p as [|p]; [reflexivity|].
    cbn [skipn nth]. apply IH. simpl in Hp. lia.
Qed.

Lemma length_mem buf p n :
  (p + n <= length buf)%nat -> length (mem buf p n) = n.
Proof.
  intros H. unfold mem. rewrite length_firstn, length_skipn. lia.
Qed.

Lemma validate_loop_ci expected buf :
  forall p,
    (p + length expected <= strlen buf 0)%nat ->
    is_match (validate_loop true expected buf p) = true <->
    ci_equal expected (mem buf p (length expected)).
Proof.
  unfold ci_equal.
  induction expected as [|e es IH]; intros p Hp; cbn [validate_loop length].
  - split; reflexivity.
  - cbn [length] in Hp. pose proof (strlen_le buf) as Hle.
    rewrite rd_in_string by lia.
    rewrite mem_cons by lia. cbn [map].
    destruct (Ascii.eqb (tolower e) (tolower (rd buf p))) eqn:E; cbn [negb].
    + apply Ascii.eqb_eq in E. rewrite IH by lia.
      split; [intros ->; rewrite E; reflexivity|].
      intros H. injection H as _ H. exact H.
    + apply Ascii.eqb_neq in E. split; [discriminate|].
      intros H. injection H as H _. contradiction.
Qed.

Lemma validate_value_ci expected buf p l :
  (p + l <= strlen buf 0)%nat ->
  is_match (nn_ws_validate_value expected buf p l true) = true <->
  ci_equal expected (mem buf p l).
Proof.
  intros Hp. unfold nn_ws_validate_value.
  destruct (length expected =? l)%nat eqn:E; cbn [negb].
  - apply Nat.eqb_eq in E. subst l. apply validate_loop_ci. exact Hp.
  - apply Nat.eqb_neq in E. split; [discriminate|].
    unfold ci_equal. intros H. apply (f_equal (@length ascii)) in H.
    rewrite !length_map, length_mem in H
      by (pose proof (strlen_le buf); lia).
    contradiction.
Qed.

Lemma validate_field_ci expected buf self f p :
  slice_in buf (hs_slices self f) -> ptr self f = Some p ->
  is_match (nn_ws_validate_value expected buf p (len self f) true) = true <->
  ci_equal expected (value buf self f).
Proof.
  unfold slice_in, ptr, len, value, slice_value. intros Hin Hp.
  rewrite Hp in *. apply validate_value_ci. exact Hin.
Qed.

(** [tolower] changes an octet only into a lower-case letter. *)
Lemma tolower_checked : forallb tolower_check (seq 0 256) = true.
Proof. vm_compute. reflexivity. Qed.

Lemma tolower_cases c :
  tolower c = c \/ 97 <= uint8 (tolower c) <= 122.
Proof.
  pose proof tolower_checked as H. rewrite forallb_forall in H.
  specialize (H (nat_of_ascii c)).
  assert (Hin : In (nat_of_ascii c) (seq 0 256)).
  { apply in_seq. pose proof (nat_ascii_bounded c). lia. }
  specialize (H Hin). unfold tolower_check in H.
  rewrite ascii_nat_embedding in H.
  apply orb_true_iff in H. destruct H as [H|H].
  - left. apply Ascii.eqb_eq. exact H.
  - right. apply andb_true_iff in H. destruct H as [H1 H2].
    apply Z.leb_le in H1. apply Z.leb_le in H2. lia.
Qed.

(** For a string of octets that are neither letters nor outside what
    [tolower] leaves alone, equality up to case is equality. *)
Lemma ci_equal_digits expected v :
  Forall (fun c => tolower c = c /\ ~ 97 <= uint8 c <= 122) expected ->
  ci_equal expected v -> v = expected.
Proof.
  unfold ci_equal. intros H. revert v.
  induction H as [|e es [He1 He2] _ IH]; intros [|c v] Hv; cbn [map] in Hv;
    try discriminate; [reflexivity|].
  injection Hv as Hc Hv. f_equal; [|apply IH; exact Hv].
  rewrite He1 in Hc.
  destruct (tolower_cases c) as [Hc'|Hc']; [congruence|].
  rewrite <- Hc in Hc'. contradiction.
Qed.

Lemma ci_equal_101 v : ci_equal (cs "101") v <-> v = cs "101".
Proof.
  split.
  - apply ci_equal_digits.
    repeat constructor; try reflexivity; vm_compute; intros [H1 H2];
      try (apply H1; reflexivity); try (apply H2; reflexivity).
  - intros ->. reflexivity.
Qed.

(** ** What the parsers keep *)

Lemma nul_strlen buf : existsb is_nul buf = true -> (strlen buf 0 < length buf)%nat.
Proof.
  unfold strlen, cstring. cbn [skipn].
  induction buf as [|c buf IH]; cbn [existsb until_nul]; [discriminate|].
  destruct (is_nul c); cbn [orb length]; [lia|].
  intros H. apply IH in H. lia.
Qed.

Lemma reset_slices_frame fs :
  forall self,
    reset_slices fs self
    = set_slices (hs_slices (reset_slices fs self)) self.
Proof.
  unfold reset_slices.
  induction fs as [|f fs IH]; intros self; cbn [fold_left].
  - destruct self; reflexivity.
  - rewrite IH at 1. reflexivity.
Qed.

Lemma reset_client_null self f :
  In f CLIENT_OPENING_RESET ->
  hs_slices (reset_slices CLIENT_OPENING_RESET self) f = null_slice.
Proof.
  intros H. cbn [CLIENT_OPENING_RESET In] in H.
  repeat (destruct H as [<-|H]; [reflexivity|]). contradiction.
Qed.

Lemma reset_server_null self f :
  In f SERVER_RESPONSE_RESET ->
  hs_slices (reset_slices SERVER_RESPONSE_RESET self) f = null_slice.
Proof.
  intros H. cbn [SERVER_RESPONSE_RESET In] in H.
  repeat (destruct H as [<-|H]; [reflexivity|]). contradiction.
Qed.

Lemma slices_in_set buf fs g f v :
  slices_in buf fs g -> slice_in buf v ->
  slices_in buf fs (fun x => if field_eq_dec x f then v else g x).
Proof.
  intros Hg Hv x Hx. destruct (field_eq_dec x f); [exact Hv|apply Hg, Hx].
Qed.

Lemma hs_slices_set_response_code c self :
  hs_slices (set_response_code c self) = hs_slices self.
Proof. reflexivity. Qed.

Lemma client_reset_frame self g :
  set_slices g (set_response_code NN_WS_HANDSHAKE_RESPONSE_NULL
                  (reset_slices CLIENT_OPENING_RESET self))
  = set_slices g (set_response_code NN_WS_HANDSHAKE_RESPONSE_NULL self).
Proof. rewrite (reset_slices_frame _ self). reflexivity. Qed.

Lemma server_reset_frame self g :
  set_slices g (reset_slices SERVER_RESPONSE_RESET self) = set_slices g self.
Proof. rewrite (reset_slices_frame _ self). reflexivity. Qed.

Lemma client_reset_in buf self f :
  In f CLIENT_OPENING_RESET ->
  slice_in buf
    (hs_slices (set_response_code NN_WS_HANDSHAKE_RESPONSE_NULL
                  (reset_slices CLIENT_OPENING_RESET self)) f).
Proof.
  intros Hf. rewrite hs_slices_set_response_code.
  rewrite reset_client_null by assumption. reflexivity.
Qed.

Lemma server_reset_in buf self f :
  In f SERVER_RESPONSE_RESET ->
  slice_in buf (hs_slices (reset_slices SERVER_RESPONSE_RESET self) f).
Proof.
  intros Hf. rewrite reset_server_null by assumption. reflexivity.
Qed.

Lemma scan_client_opening_inv self :
  let buf := hs_opening_hs self in
  let self0 := set_response_code NN_WS_HANDSHAKE_RESPONSE_NULL self in
  match scan_client_opening self with
  | LOOP_EXIT pos parsed =>
    (pos <= strlen buf 0)%nat /\
    parsed = set_slices (hs_slices parsed) self0 /\
    slices_in buf CLIENT_OPENING_RESET (hs_slices parsed)
  | LOOP_RECV_MORE parsed => parsed = set_slices (hs_slices parsed) self0
  | LOOP_FUEL => False
  end.
Proof.
  intros buf self0. unfold scan_client_opening. fold buf.
  remember (set_response_code NN_WS_HANDSHAKE_RESPONSE_NULL
              (reset_slices CLIENT_OPENING_RESET self)) as s1 eqn:Hs1.
  assert (F1 : forall g, set_slices g s1 = set_slices g self0).
  { intros g. rewrite Hs1. apply client_reset_frame. }
  assert (P1 : slices_in buf CLIENT_OPENING_RESET (hs_slices s1)).
  { intros f Hf. rewrite Hs1. apply client_reset_in. exact Hf. }
  clear Hs1.
  assert (E1 : s1 = set_slices (hs_slices s1) self0).
  { rewrite <- F1. destruct s1; reflexivity. }
  destruct (nn_ws_match_token (cs "GET ") buf 0 false false)
    as [[|] p1] eqn:T1; [exact E1|].
  apply match_token_bound in T1; [|lia].
  destruct (nn_ws_match_value [SP] buf p1 false false) as [[rc p2] v] eqn:V.
  apply match_value_bound in V; [|lia]. destruct V as [Hv Hp2].
  remember (set_slice F_uri v s1) as s2 eqn:Hs2.
  assert (EF : forall g, set_slices g s2 = set_slices g self0).
  { intros g. rewrite Hs2, set_slices_set_slice. apply F1. }
  assert (P2 : slices_in buf CLIENT_OPENING_RESET (hs_slices s2)).
  { rewrite Hs2. apply slices_in_set; assumption. }
  clear Hs2.
  assert (E2 : s2 = set_slices (hs_slices s2) self0).
  { rewrite <- EF. destruct s2; reflexivity. }
  destruct rc; cbn [is_match negb]; [exact E2|].
  specialize (Hp2 eq_refl).
  destruct (nn_ws_match_token (cs "HTTP/1.1") buf p2 false false)
    as [[|] p3] eqn:T2; [exact E2|].
  apply match_token_bound in T2; [|lia].
  destruct (nn_ws_match_token NN_WS_HANDSHAKE_CRLF buf p3 false false)
    as [[|] p4] eqn:T3; [exact E2|].
  apply match_token_bound in T3; [|lia].
  pose proof (header_loop_inv CLIENT_OPENING_HEADERS buf
                (slices_in buf CLIENT_OPENING_RESET)
                (slices_in_set buf CLIENT_OPENING_RESET)
                (S (length buf)) p4 s2) as Hl.
  pose proof (header_loop_fuel CLIENT_OPENING_HEADERS buf p4 s2) as Hf.
  destruct (header_loop _ _ _ _ _) as [parsed|pos parsed|].
  - destruct Hl as [Hl1 Hl2]; [lia|assumption|].
    rewrite Hl1 at 1. rewrite EF. reflexivity.
  - destruct Hl as (Hl1 & Hl2 & Hl3); [lia|assumption|].
    split; [exact Hl1|]. split; [|exact Hl3].
    rewrite Hl2 at 1. rewrite EF. reflexivity.
  - apply Hf; [lia|reflexivity].
Qed.

Lemma scan_server_response_inv self :
  let buf := hs_response self in
  match scan_server_response self with
  | LOOP_EXIT pos parsed =>
    (pos <= strlen buf 0)%nat /\
    parsed = set_slices (hs_slices parsed) self /\
    slices_in buf SERVER_RESPONSE_RESET (hs_slices parsed)
  | LOOP_RECV_MORE parsed => parsed = set_slices (hs_slices parsed) self
  | LOOP_FUEL => False
  end.
Proof.
  intros buf. unfold scan_server_response. fold buf.
  remember (reset_slices SERVER_RESPONSE_RESET self) as s1 eqn:Hs1.
  assert (F1 : forall g, set_slices g s1 = set_slices g self).
  { intros g. rewrite Hs1. apply server_reset_frame. }
  assert (P1 : slices_in buf SERVER_RESPONSE_RESET (hs_slices s1)).
  { intros f Hf. rewrite Hs1. apply server_reset_in. exact Hf. }
  clear Hs1.
  assert (E1 : s1 = set_slices (hs_slices s1) self).
  { rewrite <- F1. destruct s1; reflexivity. }
  destruct (nn_ws_match_token (cs "HTTP/1.1 ") buf 0 false false)
    as [[|] p1] eqn:T1; [exact E1|].
  apply match_token_bound in T1; [|lia].
  destruct (nn_ws_match_value [SP] buf p1 false false) as [[rc p2] v] eqn:V.
  apply match_value_bound in V; [|lia]. destruct V as [Hv Hp2].
  remember (set_slice F_status_code v s1) as s2 eqn:Hs2.
  assert (F2 : forall g, set_slices g s2 = set_slices g self).
  { intros g. rewrite Hs2, set_slices_set_slice. apply F1. }
  assert (P2 : slices_in buf SERVER_RESPONSE_RESET (hs_slices s2)).
  { rewrite Hs2. apply slices_in_set; assumption. }
  clear Hs2.
  assert (E2 : s2 = set_slices (hs_slices s2) self).
  { rewrite <- F2. destruct s2; reflexivity. }
  destruct rc; cbn [is_match negb]; [exact E2|].
  specialize (Hp2 eq_refl).
  destruct (nn_ws_match_value NN_WS_HANDSHAKE_CRLF buf p2 false false)
    as [[rc p3] v3] eqn:V3.
  apply match_value_bound in V3; [|lia]. destruct V3 as [Hv3 Hp3].
  remember (set_slice F_reason_phrase v3 s2) as s3 eqn:Hs3.
  assert (EF : forall g, set_slices g s3 = set_slices g self).
  { intros g. rewrite Hs3, set_slices_set_slice. apply F2. }
  assert (P3 : slices_in buf SERVER_RESPONSE_RESET (hs_slices s3)).
  { rewrite Hs3. apply slices_in_set; assumption. }
  clear Hs3.
  assert (E3 : s3 = set_slices (hs_slices s3) self).
  { rewrite <- EF. destruct s3; reflexivity. }
  destruct rc; cbn [is_match negb]; [exact E3|].
  specialize (Hp3 eq_refl).
  pose proof (header_loop_inv SERVER_RESPONSE_HEADERS buf
                (slices_in buf SERVER_RESPONSE_RESET)
                (slices_in_set buf SERVER_RESPONSE_RESET)
                (S (length buf)) p3 s3) as Hl.
  pose proof (header_loop_fuel SERVER_RESPONSE_HEADERS buf p3 s3) as Hf.
  destruct (header_loop _ _ _ _ _) as [parsed|pos parsed|].
  - destruct Hl as [Hl1 Hl2]; [lia|assumption|].
    rewrite Hl1 at 1. rewrite EF. reflexivity.
  - destruct Hl as (Hl1 & Hl2 & Hl3); [lia|assumption|].
    split; [exact Hl1|]. split; [|exact Hl3].
    rewrite Hl2 at 1. rewrite EF. reflexivity.
  - apply Hf; [lia|reflexivity].
Qed.

(** The parsers never run out of fuel, and when they get to their
    validation the result is the result of the validation. *)
Lemma parse_client_opening_parsed self pos parsed :
  client_opening_parsed self pos parsed ->
  nn_ws_handshake_parse_client_opening self
  = Done (validate_client_opening parsed).
Proof.
  intros (Hnul & Hterm & Hscan & Hend).
  unfold nn_ws_handshake_parse_client_opening.
  rewrite Hnul. cbn [nn_assert bind].
  pose proof (nul_strlen _ Hnul) as Hlt. apply Nat.ltb_lt in Hlt.
  rewrite Hlt. cbn [nn_assert bind].
  destruct (strstr _ _ _); [|contradiction].
  rewrite Hscan, Hend. reflexivity.
Qed.

Lemma parse_server_response_parsed self pos parsed :
  server_response_parsed self pos parsed ->
  nn_ws_handshake_parse_server_response self
  = Done (validate_server_response parsed, parsed).
Proof.
  intros (Hnul & Hterm & Hscan & Hend).
  unfold nn_ws_handshake_parse_server_response.
  rewrite Hnul. cbn [nn_assert bind].
  pose proof (nul_strlen _ Hnul) as Hlt. apply Nat.ltb_lt in Hlt.
  rewrite Hlt. cbn [nn_assert bind].
  destruct (strstr _ _ _); [|contradiction].
  rewrite Hscan, Hend. reflexivity.
Qed.

Lemma parse_client_opening_fuel self :
  nn_ws_handshake_parse_client_opening self <> Abort OUT_OF_FUEL.
Proof.
  unfold nn_ws_handshake_parse_client_opening.
  destruct (existsb _ _); cbn [nn_assert bind]; [|discriminate].
  destruct (_ <? _)%nat; cbn [nn_assert bind]; [|discriminate].
  destruct (strstr _ _ _); [|discriminate].
  pose proof (scan_client_opening_inv self) as H.
  destruct (scan_client_opening self); [discriminate| |contradiction].
  destruct (_ =? _)%nat; discriminate.
Qed.

Lemma parse_server_response_fuel self :
  nn_ws_handshake_parse_server_response self <> Abort OUT_OF_FUEL.
Proof.
  unfold nn_ws_handshake_parse_server_response.
  destruct (existsb _ _); cbn [nn_assert bind]; [|discriminate].
  destruct (_ <? _)%nat; cbn [nn_assert bind]; [|discriminate].
  destruct (strstr _ _ _); [|discriminate].
  pose proof (scan_server_response_inv self) as H.
  destruct (scan_server_response self); [discriminate| |contradiction].
  destruct (_ =? _)%nat; discriminate.
Qed.

(** ** The validation of a request *)

Lemma parsed_frame_client self pos parsed :
  scan_client_opening self = LOOP_EXIT pos parsed ->
  hs_opening_hs parsed = hs_opening_hs self /\
  hs_pipebase parsed = hs_pipebase self /\
  slices_in (hs_opening_hs self) CLIENT_OPENING_RESET (hs_slices parsed).
Proof.
  intros H. pose proof (scan_client_opening_inv self) as Hinv.
  cbv zeta in Hinv. rewrite H in Hinv. destruct Hinv as (_ & Hf & Hin).
  repeat split; try assumption; rewrite Hf; reflexivity.
Qed.

Lemma not_match_ci expected buf self f p :
  slice_in buf (hs_slices self f) -> ptr self f = Some p ->
  negb (is_match (nn_ws_validate_value expected buf p (len self f) true))
    = true <->
  ~ ci_equal expected (value buf self f).
Proof.
  intros Hin Hp. rewrite negb_true_iff, <- not_true_iff_false.
  rewrite (validate_field_ci expected buf self f p Hin Hp). reflexivity.
Qed.

Ltac in_reset := cbn [CLIENT_OPENING_RESET SERVER_RESPONSE_RESET In]; tauto.

(** C2. Once the request parser has got to its validation, the checks
    run in a fixed order and the first failure decides: a required header
    that was not captured gives INVALID with WSPROTO; otherwise a version
    other than "13" gives INVALID with WSVERSION; otherwise an upgrade
    other than "websocket" gives INVALID with WSPROTO; otherwise a
    connection other than "Upgrade" gives INVALID with WSPROTO. The
    comparisons ignore the case of letters. *)
Theorem client_validation_order (self parsed : nn_ws_handshake) (pos : nat) :
  client_opening_parsed self pos parsed ->
  let buf := hs_opening_hs self in
  let fails code :=
    nn_ws_handshake_parse_client_opening self
    = Done (NN_WS_HANDSHAKE_INVALID, set_response_code code parsed) in
  ((exists f, In f CLIENT_OPENING_REQUIRED /\ ptr parsed f = None) ->
   fails NN_WS_HANDSHAKE_RESPONSE_WSPROTO) /\
  ((forall f, In f CLIENT_OPENING_REQUIRED -> captured parsed f) ->
   (~ ci_equal (cs "13") (value buf parsed F_version) ->
    fails NN_WS_HANDSHAKE_RESPONSE_WSVERSION) /\
   (ci_equal (cs "13") (value buf parsed F_version) ->
    ~ ci_equal (cs "websocket") (value buf parsed F_upgrade) ->
    fails NN_WS_HANDSHAKE_RESPONSE_WSPROTO) /\
   (ci_equal (cs "13") (value buf parsed F_version) ->
    ci_equal (cs "websocket") (value buf parsed F_upgrade) ->
    ~ ci_equal (cs "Upgrade") (value buf parsed F_conn) ->
    fails NN_WS_HANDSHAKE_RESPONSE_WSPROTO)).
Proof.
  intros Hparsed buf fails. subst fails. cbv beta.
  rewrite (parse_client_opening_parsed self pos parsed Hparsed).
  destruct Hparsed as (_ & _ & Hscan & _).
  destruct (parsed_frame_client self pos parsed Hscan) as (Hbuf & _ & Hin).
  fold buf in Hin. unfold validate_client_opening. rewrite Hbuf. fold buf.
  split.
  - intros (f & Hf & Hnone).
    cbn [CLIENT_OPENING_REQUIRED In] in Hf.
    destruct Hf as [<-|[<-|[<-|[<-|[<-|[]]]]]]; rewrite Hnone;
      repeat match goal with
             | |- context [match ptr parsed ?g with _ => _ end] =>
               destruct (ptr parsed g)
             end; reflexivity.
  - intros Hcap.
    assert (Hc : forall f, In f CLIENT_OPENING_REQUIRED ->
                   exists p, ptr parsed f = Some p).
    { intros f Hf. specialize (Hcap f Hf). unfold captured in Hcap.
      destruct (ptr parsed f) as [p|]; [exists p; reflexivity|contradiction]. }
    destruct (Hc F_host) as [ph Hh]; [cbn; tauto|].
    destruct (Hc F_upgrade) as [pu Hu]; [cbn; tauto|].
    destruct (Hc F_conn) as [pc Hcn]; [cbn; tauto|].
    destruct (Hc F_key) as [pk Hk]; [cbn; tauto|].
    destruct (Hc F_version) as [pv Hv]; [cbn; tauto|].
    rewrite Hh, Hu, Hcn, Hk, Hv.
    pose proof (not_match_ci (cs "13") buf parsed F_version pv
                  (Hin F_version ltac:(in_reset)) Hv) as Cv.
    pose proof (not_match_ci (cs "websocket") buf parsed F_upgrade pu
                  (Hin F_upgrade ltac:(in_reset)) Hu) as Cu.
    pose proof (not_match_ci (cs "Upgrade") buf parsed F_conn pc
                  (Hin F_conn ltac:(in_reset)) Hcn) as Cc.
    destruct (negb (is_match (nn_ws_validate_value (cs "13") _ _ _ _))) eqn:Ev.
    { split; [reflexivity|].
      split; intros H; exfalso; apply Cv in H; auto. }
    destruct (negb (is_match (nn_ws_validate_value (cs "websocket") _ _ _ _)))
      eqn:Eu.
    { split; [intros H; apply Cv in H; discriminate|].
      split; [reflexivity|].
      intros _ H. exfalso. apply Cu in H; auto. }
    destruct (negb (is_match (nn_ws_validate_value (cs "Upgrade") _ _ _ _)))
      eqn:Ec.
    { split; [intros H; apply Cv in H; discriminate|].
      split; [intros _ H; apply Cu in H; discriminate|].
      reflexivity. }
    split; [intros H; apply Cv in H; discriminate|].
    split; [intros _ H; apply Cu in H; discriminate|].
    intros _ _ H. apply Cc in H. discriminate.
Qed.

(** ** The SP map *)

Lemma ascii_list_eqb_eq a b : ascii_list_eqb a b = true <-> a = b.
Proof.
  unfold ascii_list_eqb. destruct (list_eq_dec ascii_dec a b); split;
    auto; discriminate.
Qed.

Lemma sp_map_checked :
  forallb (fun e1 => forallb (sp_map_check e1) NN_WS_HANDSHAKE_SP_MAP)
    NN_WS_HANDSHAKE_SP_MAP = true.
Proof. vm_compute. reflexivity. Qed.

(** No two tokens of the map are equal up to case. *)
Lemma sp_map_distinct e1 e2 :
  In e1 NN_WS_HANDSHAKE_SP_MAP -> In e2 NN_WS_HANDSHAKE_SP_MAP ->
  map tolower (snd e1) = map tolower (snd e2) -> e1 = e2.
Proof.
  intros H1 H2 Heq. pose proof sp_map_checked as H.
  rewrite forallb_forall in H. specialize (H e1 H1).
  rewrite forallb_forall in H. specialize (H e2 H2).
  unfold sp_map_check in H. apply orb_true_iff in H. destruct H as [H|H].
  - apply negb_true_iff in H. apply not_true_iff_false in H.
    exfalso. apply H. apply ascii_list_eqb_eq. exact Heq.
  - apply andb_true_iff in H. destruct H as [Hs Ht].
    apply ascii_list_eqb_eq in Ht.
    destruct (sp_id_eq_dec (fst e1) (fst e2)) as [Hs'|]; [|discriminate].
    destruct e1, e2. cbn in *. congruence.
Qed.

Lemma sp_map_lookup_some map buf p l sp :
  sp_map_lookup map buf p l = Some sp ->
  exists ws_sp, In (sp, ws_sp) map /\
    is_match (nn_ws_validate_value ws_sp buf p l true) = true.
Proof.
  induction map as [|[sp' tok] map IH]; cbn [sp_map_lookup];
    [discriminate|].
  destruct (is_match _) eqn:E.
  - intros H. injection H as <-. exists tok. split; [left; reflexivity|exact E].
  - intros H. destruct (IH H) as (t & Hin & Hm).
    exists t. split; [right; exact Hin|exact Hm].
Qed.

Lemma sp_map_lookup_none map buf p l :
  sp_map_lookup map buf p l = None ->
  forall sp ws_sp, In (sp, ws_sp) map ->
    is_match (nn_ws_validate_value ws_sp buf p l true) = false.
Proof.
  induction map as [|[sp' tok] map IH]; cbn [sp_map_lookup];
    [intros _ sp t []|].
  destruct (is_match _) eqn:E; [discriminate|].
  intros H sp t [Hin|Hin]; [injection Hin as <- <-; exact E|].
  apply (IH H sp t Hin).
Qed.

(** C3. After the RFC 6455 checks have passed: a protocol header whose
    value equals, up to case, a token of the ten-entry SP map gives VALID
    with OK when the peer check accepts the SP of that entry and INVALID
    with NOTPEER when it does not; a protocol header that equals no token
    gives INVALID with UNKNOWNTYPE; without a protocol header the parser
    asks the peer check about PAIR, with the same two outcomes. *)
Theorem client_protocol_check (self parsed : nn_ws_handshake) (pos : nat) :
  client_opening_parsed self pos parsed ->
  let buf := hs_opening_hs self in
  rfc6455_request_ok buf parsed ->
  let outcome_for sp :=
    if nn_pipebase_ispeer (hs_pipebase self) sp
    then Done (NN_WS_HANDSHAKE_VALID,
               set_response_code NN_WS_HANDSHAKE_RESPONSE_OK parsed)
    else Done (NN_WS_HANDSHAKE_INVALID,
               set_response_code NN_WS_HANDSHAKE_RESPONSE_NOTPEER parsed) in
  NN_WS_HANDSHAKE_SP_MAP_LEN = 10%nat /\
  (captured parsed F_protocol ->
   (forall sp ws_sp,
      In (sp, ws_sp) NN_WS_HANDSHAKE_SP_MAP ->
      ci_equal ws_sp (value buf parsed F_protocol) ->
      nn_ws_handshake_parse_client_opening self = outcome_for sp) /\
   ((forall sp ws_sp,
       In (sp, ws_sp) NN_WS_HANDSHAKE_SP_MAP ->
       ~ ci_equal ws_sp (value buf parsed F_protocol)) ->
    nn_ws_handshake_parse_client_opening self
    = Done (NN_WS_HANDSHAKE_INVALID,
            set_response_code NN_WS_HANDSHAKE_RESPONSE_UNKNOWNTYPE parsed))) /\
  (ptr parsed F_protocol = None ->
   nn_ws_handshake_parse_client_opening self = outcome_for NN_PAIR).
Proof.
  intros Hparsed buf (Hcap & Hver & Hupg & Hconn) outcome_for.
  split; [reflexivity|].
  rewrite (parse_client_opening_parsed self pos parsed Hparsed).
  destruct Hparsed as (_ & _ & Hscan & _).
  destruct (parsed_frame_client self pos parsed Hscan) as (Hbuf & Hpipe & Hin).
  fold buf in Hin. subst outcome_for. cbv beta.
  unfold validate_client_opening. rewrite Hbuf, Hpipe. fold buf.
  assert (Hc : forall f, In f CLIENT_OPENING_REQUIRED ->
                 exists p, ptr parsed f = Some p).
  { intros f Hf. specialize (Hcap f Hf). unfold captured in Hcap.
    destruct (ptr parsed f) as [p|]; [exists p; reflexivity|contradiction]. }
  destruct (Hc F_host) as [ph Hh]; [cbn; tauto|].
  destruct (Hc F_upgrade) as [pu Hu]; [cbn; tauto|].
  destruct (Hc F_conn) as [pc Hcn]; [cbn; tauto|].
  destruct (Hc F_key) as [pk Hk]; [cbn; tauto|].
  destruct (Hc F_version) as [pv Hv]; [cbn; tauto|].
  rewrite Hh, Hu, Hcn, Hk, Hv.
  apply (validate_field_ci (cs "13") buf parsed F_version pv
           (Hin F_version ltac:(in_reset)) Hv) in Hver.
  apply (validate_field_ci (cs "websocket") buf parsed F_upgrade pu
           (Hin F_upgrade ltac:(in_reset)) Hu) in Hupg.
  apply (validate_field_ci (cs "Upgrade") buf parsed F_conn pc
           (Hin F_conn ltac:(in_reset)) Hcn) in Hconn.
  rewrite Hver, Hupg, Hconn. cbn [negb].
  split.
  - intros Hp. unfold captured in Hp.
    destruct (ptr parsed F_protocol) as [pp|] eqn:Hpp; [|contradiction].
    assert (Hci : forall tok,
      is_match (nn_ws_validate_value tok buf pp (len parsed F_protocol) true)
        = true <-> ci_equal tok (value buf parsed F_protocol)).
    { intros tok. apply validate_field_ci;
        [apply Hin; in_reset|exact Hpp]. }
    split.
    + intros sp tok Hmap Heq.
      destruct (sp_map_lookup NN_WS_HANDSHAKE_SP_MAP buf pp
                  (len parsed F_protocol)) as [sp'|] eqn:El.
      * apply sp_map_lookup_some in El. destruct El as (tok' & Hmap' & Hm).
        apply Hci in Hm.
        assert (He : (sp', tok') = (sp, tok)).
        { apply sp_map_distinct; try assumption.
          cbn [snd]. unfold ci_equal in *. congruence. }
        injection He as -> ->.
        destruct (nn_pipebase_ispeer _ sp); reflexivity.
      * pose proof (sp_map_lookup_none _ _ _ _ El sp tok Hmap) as Hn.
        apply Hci in Heq. congruence.
    + intros Hnone.
      destruct (sp_map_lookup NN_WS_HANDSHAKE_SP_MAP buf pp
                  (len parsed F_protocol)) as [sp'|] eqn:El; [|reflexivity].
      apply sp_map_lookup_some in El. destruct El as (tok' & Hmap' & Hm).
      apply Hci in Hm. exfalso. apply (Hnone sp' tok'); assumption.
  - intros Hp. rewrite Hp.
    destruct (nn_pipebase_ispeer _ NN_PAIR); reflexivity.
Qed.

(** ** The validation of a response *)

Lemma parsed_frame_server self pos parsed :
  scan_server_response self = LOOP_EXIT pos parsed ->
  hs_response parsed = hs_response self /\
  hs_expected_accept_key parsed = hs_expected_accept_key self /\
  slices_in (hs_response self) SERVER_RESPONSE_RESET (hs_slices parsed).
Proof.
  intros H. pose proof (scan_server_response_inv self) as Hinv.
  cbv zeta in Hinv. rewrite H in Hinv. destruct Hinv as (_ & Hf & Hin).
  repeat split; try assumption; rewrite Hf; reflexivity.
Qed.

Lemma validate_server_response_cases parsed :
  validate_server_response parsed = NN_WS_HANDSHAKE_VALID \/
  validate_server_response parsed = NN_WS_HANDSHAKE_INVALID.
Proof.
  unfold validate_server_response.
  repeat match goal with
         | |- context [match ptr parsed ?g with _ => _ end] =>
           destruct (ptr parsed g)
         | |- context [if ?b then _ else _] => destruct b
         end; auto.
Qed.

Lemma validate_server_response_ok parsed :
  slices_in (hs_response parsed) SERVER_RESPONSE_RESET (hs_slices parsed) ->
  validate_server_response parsed = NN_WS_HANDSHAKE_VALID <->
  rfc6455_response_ok (hs_response parsed) parsed parsed.
Proof.
  intros Hin. set (buf := hs_response parsed) in *.
  unfold validate_server_response, rfc6455_response_ok. fold buf.
  split.
  - intros H.
    destruct (ptr parsed F_status_code) as [ps|] eqn:Hs; [|discriminate].
    destruct (ptr parsed F_upgrade) as [pu|] eqn:Hu; [|discriminate].
    destruct (ptr parsed F_conn) as [pc|] eqn:Hc; [|discriminate].
    destruct (ptr parsed F_accept_key) as [pa|] eqn:Ha; [|discriminate].
    destruct (is_match (nn_ws_validate_value (cs "101") _ _ _ _)) eqn:E1;
      [|discriminate].
    destruct (is_match (nn_ws_validate_value (cs "websocket") _ _ _ _))
      eqn:E2; [|discriminate].
    destruct (is_match (nn_ws_validate_value (cs "Upgrade") _ _ _ _)) eqn:E3;
      [|discriminate].
    destruct (is_match (nn_ws_validate_value (cstring _ _) _ _ _ _)) eqn:E4;
      [|discriminate].
    apply (validate_field_ci _ buf parsed F_status_code ps
             (Hin F_status_code ltac:(in_reset)) Hs) in E1.
    apply (validate_field_ci _ buf parsed F_upgrade pu
             (Hin F_upgrade ltac:(in_reset)) Hu) in E2.
    apply (validate_field_ci _ buf parsed F_conn pc
             (Hin F_conn ltac:(in_reset)) Hc) in E3.
    apply (validate_field_ci _ buf parsed F_accept_key pa
             (Hin F_accept_key ltac:(in_reset)) Ha) in E4.
    apply ci_equal_101 in E1.
    repeat split; try assumption.
    intros f Hf. unfold captured. cbn [SERVER_RESPONSE_REQUIRED In] in Hf.
    destruct Hf as [<-|[<-|[<-|[<-|[]]]]]; congruence.
  - intros (Hcap & H1 & H2 & H3 & H4).
    assert (Hc : forall f, In f SERVER_RESPONSE_REQUIRED ->
                   exists p, ptr parsed f = Some p).
    { intros f Hf. specialize (Hcap f Hf). unfold captured in Hcap.
      destruct (ptr parsed f) as [p|]; [exists p; reflexivity|contradiction]. }
    destruct (Hc F_status_code) as [ps Hs]; [cbn; tauto|].
    destruct (Hc F_upgrade) as [pu Hu]; [cbn; tauto|].
    destruct (Hc F_conn) as [pc Hcn]; [cbn; tauto|].
    destruct (Hc F_accept_key) as [pa Ha]; [cbn; tauto|].
    rewrite Hs, Hu, Hcn, Ha.
    apply ci_equal_101 in H1.
    apply (validate_field_ci _ buf parsed F_status_code ps
             (Hin F_status_code ltac:(in_reset)) Hs) in H1.
    apply (validate_field_ci _ buf parsed F_upgrade pu
             (Hin F_upgrade ltac:(in_reset)) Hu) in H2.
    apply (validate_field_ci _ buf parsed F_conn pc
             (Hin F_conn ltac:(in_reset)) Hcn) in H3.
    apply (validate_field_ci _ buf parsed F_accept_key pa
             (Hin F_accept_key ltac:(in_reset)) Ha) in H4.
    rewrite H1, H2, H3, H4. reflexivity.
Qed.

(** C4. The response parser returns VALID exactly when it has fully
    parsed a response that holds CRLFCRLF and status code, upgrade,
    connection and accept key were all captured, the status code is "101",
    the upgrade is "websocket" and the connection is "Upgrade" up to case,
    and the accept key equals the expected accept key compared octet by
    octet up to case. A fully parsed response that fails one of these
    checks gives INVALID. *)
Theorem server_response_validation (self parsed : nn_ws_handshake) :
  let buf := hs_response self in
  (nn_ws_handshake_parse_server_response self
   = Done (NN_WS_HANDSHAKE_VALID, parsed) <->
   exists pos, server_response_parsed self pos parsed /\
               rfc6455_response_ok buf self parsed) /\
  (forall pos,
     server_response_parsed self pos parsed ->
     ~ rfc6455_response_ok buf self parsed ->
     nn_ws_handshake_parse_server_response self
     = Done (NN_WS_HANDSHAKE_INVALID, parsed)).
Proof.
  intros buf.
  assert (Hok : forall pos, scan_server_response self = LOOP_EXIT pos parsed ->
    (validate_server_response parsed = NN_WS_HANDSHAKE_VALID <->
     rfc6455_response_ok buf self parsed)).
  { intros pos Hscan.
    destruct (parsed_frame_server self pos parsed Hscan) as (Hb & He & Hin).
    rewrite <- Hb in Hin. rewrite (validate_server_response_ok parsed Hin).
    unfold rfc6455_response_ok. rewrite Hb, He. reflexivity. }
  split; [split|].
  - unfold nn_ws_handshake_parse_server_response.
    destruct (existsb is_nul (hs_response self)) eqn:Hnul;
      cbn [nn_assert bind]; [|discriminate].
    destruct (_ <? _)%nat; cbn [nn_assert bind]; [|discriminate].
    destruct (strstr _ _ _) as [e|] eqn:Hterm; [|discriminate].
    destruct (scan_server_response self) as [p|pos p|] eqn:Hscan;
      try discriminate.
    destruct (strlen (hs_response self) pos =? 0)%nat eqn:Hend;
      cbn [nn_assert bind]; [|discriminate].
    intros H. injection H as Hv <-.
    exists pos. split.
    + repeat split; try assumption; try congruence.
      apply Nat.eqb_eq. exact Hend.
    + apply (Hok pos eq_refl). exact Hv.
  - intros (pos & Hparsed & Hchecks).
    rewrite (parse_server_response_parsed self pos parsed Hparsed).
    destruct Hparsed as (_ & _ & Hscan & _).
    apply (Hok pos Hscan) in Hchecks. rewrite Hchecks. reflexivity.
  - intros pos Hparsed Hchecks.
    rewrite (parse_server_response_parsed self pos parsed Hparsed).
    destruct Hparsed as (_ & _ & Hscan & _).
    destruct (validate_server_response_cases parsed) as [H|H];
      [|rewrite H; reflexivity].
    apply (Hok pos Hscan) in H. contradiction.
Qed.

(** ** Matching that fails changes nothing *)

Lemma prefixb_app t post : prefixb t (t ++ post) = true.
Proof.
  induction t as [|a t IH]; cbn [prefixb app]; [reflexivity|].
  rewrite Ascii.eqb_refl, IH. reflexivity.
Qed.

Lemma prefixb_split t l : prefixb t l = true -> exists post, l = t ++ post.
Proof.
  revert l; induction t as [|a t IH]; intros l H.
  - exists l. reflexivity.
  - destruct l as [|b l]; [discriminate|]. cbn [prefixb] in H.
    apply andb_true_iff in H. destruct H as [Hab H].
    apply Ascii.eqb_eq in Hab. subst b.
    destruct (IH l H) as [post ->]. exists post. reflexivity.
Qed.

Lemma find_sub_occurs t l k : find_sub t l = Some k -> occurs t l.
Proof.
  revert k; induction l as [|c l IH]; intros k H; cbn [find_sub] in H.
  - destruct (prefixb t []) eqn:E; [|discriminate].
    apply prefixb_split in E. destruct E as [post E].
    exists [], post. exact E.
  - destruct (prefixb t (c :: l)) eqn:E.
    + apply prefixb_split in E. destruct E as [post E].
      exists [], post. exact E.
    + destruct (find_sub t l) as [k'|]; [|discriminate].
      destruct (IH k' eq_refl) as (pre & post & ->).
      exists (c :: pre), post. reflexivity.
Qed.

Lemma find_sub_none t l : find_sub t l = None -> ~ occurs t l.
Proof.
  induction l as [|c l IH]; cbn [find_sub]; intros H (pre & post & Heq).
  - destruct (prefixb t []) eqn:E; [discriminate|].
    destruct pre; [|discriminate]. cbn [app] in Heq.
    rewrite Heq, prefixb_app in E. discriminate.
  - destruct (prefixb t (c :: l)) eqn:E; [discriminate|].
    destruct pre as [|c' pre].
    + cbn [app] in Heq. rewrite Heq, prefixb_app in E. discriminate.
    + destruct (find_sub t l) eqn:F; [discriminate|].
      apply IH; [reflexivity|]. injection Heq as _ ->.
      exists pre, post. reflexivity.
Qed.

Lemma strstr_occurs buf t e : strstr buf 0 t = Some e -> occurs t buf.
Proof.
  unfold strstr. destruct (find_sub t (cstring buf 0)) as [k|] eqn:E;
    [|discriminate].
  intros _. apply find_sub_occurs in E. destruct E as (pre & post & E).
  unfold cstring in E. cbn [skipn] in E.
  exists pre, (post ++ skipn (length (until_nul buf)) buf).
  rewrite <- (firstn_skipn (length (until_nul buf)) buf) at 1.
  rewrite until_nul_firstn, E, <- !app_assoc. reflexivity.
Qed.

(** C9, evaluated at a failing input, with what holds of the claim. The
    matchers leave the cursor where it was whenever they return NOMATCH,
    and for every receive buffer that holds a NUL and no CRLFCRLF the
    request parser returns RECV_MORE and leaves the whole object, its
    parsed slices included, as it was. But the receive loop can fill the
    buffer: a server with a 4096-octet buffer that is sent 4096 octets
    without NUL and without CRLFCRLF asks, after 4092 of them, for the
    last four; with these the buffer holds no CRLFCRLF and no NUL, and
    the parser does not return RECV_MORE: its assertion that the buffer
    holds a NUL fails, and the handler's step with it. *)
Theorem nomatch_frame :
  (forall token buf subj ci sp,
     fst (nn_ws_match_token token buf subj ci sp) = NN_WS_HANDSHAKE_NOMATCH ->
     snd (nn_ws_match_token token buf subj ci sp) = subj) /\
  (forall termseq buf subj lead trail,
     fst (fst (nn_ws_match_value termseq buf subj lead trail))
       = NN_WS_HANDSHAKE_NOMATCH ->
     snd (fst (nn_ws_match_value termseq buf subj lead trail)) = subj) /\
  (forall self,
     existsb is_nul (hs_opening_hs self) = true ->
     ~ occurs NN_WS_HANDSHAKE_TERMSEQ (hs_opening_hs self) ->
     nn_ws_handshake_parse_client_opening self
     = Done (NN_WS_HANDSHAKE_RECV_MORE, self)) /\
  (exists waiting,
     snd (serve machine0 (blank 4096 512) pair_sock
            (firstn 4092 filling_stream)) = Done waiting /\
     hs_state waiting = NN_WS_HANDSHAKE_STATE_SERVER_RECV /\
     hs_recv_pos waiting = 4092%nat /\
     hs_recv_len waiting = 4%nat /\
     let last4 := skipn 4092 filling_stream in
     let full := usock_deliver waiting last4 in
     hs_opening_hs full = filling_stream /\
     existsb is_nul (hs_opening_hs full) = false /\
     ~ occurs NN_WS_HANDSHAKE_TERMSEQ (hs_opening_hs full) /\
     nn_ws_handshake_parse_client_opening full = Abort ASSERT_NO_NUL /\
     step machine0 waiting (IN_USOCK NN_USOCK_RECEIVED last4)
     = Abort ASSERT_NO_NUL).
Proof.
  split; [|split; [|split]].
  - intros token buf subj ci sp H.
    destruct (nn_ws_match_token token buf subj ci sp) as [rc p] eqn:E.
    cbn [fst snd] in *. subst rc. apply match_token_nomatch in E. exact E.
  - intros termseq buf subj lead trail H.
    destruct (nn_ws_match_value termseq buf subj lead trail)
      as [[rc p] v] eqn:E.
    cbn [fst snd] in *. subst rc. apply match_value_nomatch in E. apply E.
  - intros self Hnul Hno.
    unfold nn_ws_handshake_parse_client_opening.
    rewrite Hnul. cbn [nn_assert bind].
    pose proof (nul_strlen _ Hnul) as Hlt. apply Nat.ltb_lt in Hlt.
    rewrite Hlt. cbn [nn_assert bind].
    destruct (strstr _ _ _) as [e|] eqn:E; [|reflexivity].
    apply strstr_occurs in E. contradiction.
  - eexists. split; [vm_compute; reflexivity|].
    split; [reflexivity|]. split; [reflexivity|]. split; [reflexivity|].
    cbv zeta.
    match goal with
    | |- hs_opening_hs ?full = _ /\ _ =>
      assert (Hbuf : hs_opening_hs full = filling_stream)
        by (vm_compute; reflexivity)
    end.
    split; [exact Hbuf|]. rewrite Hbuf.
    split; [vm_compute; reflexivity|].
    split; [apply find_sub_none; vm_compute; reflexivity|].
    split; vm_compute; reflexivity.
Qed.

(** ** The reply to a request without a protocol header *)

Lemma encode_char_no_nul s : 0 <= s < 64 -> is_nul (encode_char s) = false.
Proof.
  intros Hs. destruct (alphabet_ok s Hs) as (_ & _ & Hmap & Hff).
  destruct (is_nul (encode_char s)) eqn:E; [|reflexivity].
  apply is_nul_spec in E. rewrite E in Hmap. cbn in Hmap.
  apply Z.eqb_neq in Hff. congruence.
Qed.

Lemma rfc4648_no_nul x : existsb is_nul (rfc4648_base64 x) = false.
Proof.
  induction x as [|a|a b|a b c x IH] using list_ind3;
    cbn [rfc4648_base64 existsb app]; try reflexivity;
    pose proof (uint8_range a) as Ha;
    try pose proof (uint8_range b) as Hb;
    try pose proof (uint8_range c) as Hc;
    rewrite ?encode_char_no_nul
      by first [apply sextet1_range; lia | apply sextet2_range; lia
               | apply sextet3_range; lia | apply sextet4_range];
    try reflexivity.
  exact IH.
Qed.

Lemma hash_key_ok le hash key hashed_len :
  (NN_WS_HANDSHAKE_ACCEPT_KEY_LEN + 1 <= hashed_len)%nat ->
  length (rfc4648_base64 (key_digest le hash key)) = 28%nat /\
  nn_ws_handshake_hash_key le hash key hashed_len
  = B64_OK 28 (rfc4648_base64 (key_digest le hash key) ++ [NUL]).
Proof.
  intros Hlen.
  assert (He : length (rfc4648_base64 (key_digest le hash key)) = 28%nat)
    by (rewrite rfc4648_base64_length, length_key_digest; reflexivity).
  split; [exact He|].
  rewrite hash_key_digest.
  rewrite base64_encode_rfc4648
    by (rewrite He; unfold NN_WS_HANDSHAKE_ACCEPT_KEY_LEN in Hlen; lia).
  rewrite He. reflexivity.
Qed.

Lemma existsb_nul_app a b :
  existsb is_nul (a ++ b) = existsb is_nul a || existsb is_nul b.
Proof. apply existsb_app. Qed.

Lemma upgrade_reply_no_nul accept protocol :
  existsb is_nul accept = false -> existsb is_nul protocol = false ->
  existsb is_nul (upgrade_reply accept protocol) = false.
Proof.
  intros Ha Hp. unfold upgrade_reply.
  rewrite !existsb_nul_app, Ha, Hp. reflexivity.
Qed.

Lemma length_upgrade_reply accept protocol :
  length (upgrade_reply accept protocol)
  = (127 + length accept + length protocol)%nat.
Proof.
  unfold upgrade_reply. rewrite !length_app. cbn [length cs
    list_ascii_of_string NN_WS_HANDSHAKE_CRLF NN_WS_HANDSHAKE_TERMSEQ].
  lia.
Qed.

(** A request parser result other than RECV_MORE comes from the
    validation. *)
Lemma parse_client_opening_decided self rc parsed :
  nn_ws_handshake_parse_client_opening self = Done (rc, parsed) ->
  rc <> NN_WS_HANDSHAKE_RECV_MORE ->
  exists pos scanned,
    client_opening_parsed self pos scanned /\
    validate_client_opening scanned = (rc, parsed).
Proof.
  unfold nn_ws_handshake_parse_client_opening.
  destruct (existsb is_nul (hs_opening_hs self)) eqn:Hnul;
    cbn [nn_assert bind]; [|discriminate].
  destruct (_ <? _)%nat; cbn [nn_assert bind]; [|discriminate].
  destruct (strstr _ _ _) as [e|] eqn:Hterm;
    [|intros H Hrc; injection H as <- _; contradiction].
  destruct (scan_client_opening self) as [p|pos p|] eqn:Hscan;
    [intros H Hrc; injection H as <- _; contradiction| |discriminate].
  destruct (strlen (hs_opening_hs self) pos =? 0)%nat eqn:Hend;
    cbn [nn_assert bind]; [|discriminate].
  intros H _. injection H as H. exists pos, p. split; [|exact H].
  repeat split; try assumption; try congruence.
  apply Nat.eqb_eq. exact Hend.
Qed.

Lemma validate_client_opening_valid scanned parsed :
  validate_client_opening scanned = (NN_WS_HANDSHAKE_VALID, parsed) ->
  parsed = set_response_code NN_WS_HANDSHAKE_RESPONSE_OK scanned /\
  captured scanned F_key /\
  (ptr scanned F_protocol = None ->
   nn_pipebase_ispeer (hs_pipebase scanned) NN_PAIR = true).
Proof.
  unfold validate_client_opening, captured, reply.
  destruct (ptr scanned F_host); [|discriminate].
  destruct (ptr scanned F_upgrade); [|discriminate].
  destruct (ptr scanned F_conn); [|discriminate].
  destruct (ptr scanned F_key); [|discriminate].
  destruct (ptr scanned F_version); [|discriminate].
  destruct (negb _); [discriminate|].
  destruct (negb _); [discriminate|].
  destruct (negb _); [discriminate|].
  destruct (ptr scanned F_protocol).
  - destruct (sp_map_lookup _ _ _ _); [|discriminate].
    destruct (nn_pipebase_ispeer _ _); [|discriminate].
    intros H. injection H as <-. repeat split; discriminate.
  - destruct (nn_pipebase_ispeer _ _) eqn:E; [|discriminate].
    intros H. injection H as <-. repeat split; auto; discriminate.
Qed.

(** C10. When the server accepts a request that carried no
    Sec-WebSocket-Protocol header (the peer check accepted PAIR), the 101
    reply it sends still ends with a "Sec-WebSocket-Protocol: " line, and
    the value on that line is empty: the absent protocol slice has length
    zero when it is copied into the reply. *)
Theorem reply_without_protocol (m : machine) (self parsed : nn_ws_handshake) :
  hs_state self = NN_WS_HANDSHAKE_STATE_SERVER_RECV ->
  nn_ws_handshake_parse_client_opening self
    = Done (NN_WS_HANDSHAKE_VALID, parsed) ->
  ptr parsed F_protocol = None ->
  (156 <= length (hs_response parsed))%nat ->
  nn_pipebase_ispeer (hs_pipebase self) NN_PAIR = true /\
  len parsed F_protocol = O /\
  exists accept_key self',
    length accept_key = NN_WS_HANDSHAKE_ACCEPT_KEY_LEN /\
    nn_ws_handshake_handler m self
      (NN_WS_HANDSHAKE_SRC_USOCK NN_USOCK_RECEIVED)
    = Done (self', [USOCK_SEND (upgrade_reply accept_key [])]) /\
    hs_state self' = NN_WS_HANDSHAKE_STATE_SERVER_REPLY /\
    upgrade_reply accept_key []
    = cs "HTTP/1.1 101 Switching Protocols" ++ NN_WS_HANDSHAKE_CRLF ++
      cs "Upgrade: websocket" ++ NN_WS_HANDSHAKE_CRLF ++
      cs "Connection: Upgrade" ++ NN_WS_HANDSHAKE_CRLF ++
      cs "Sec-WebSocket-Accept: " ++ accept_key ++ NN_WS_HANDSHAKE_CRLF ++
      cs "Sec-WebSocket-Protocol: " ++ NN_WS_HANDSHAKE_CRLF ++
      NN_WS_HANDSHAKE_CRLF.
Proof.
  intros Hstate Hparse Hproto Hsize.
  assert (Hhandler : forall r,
    nn_ws_handshake_server_reply m
      (set_state NN_WS_HANDSHAKE_STATE_SERVER_REPLY parsed) = r ->
    nn_ws_handshake_handler m self
      (NN_WS_HANDSHAKE_SRC_USOCK NN_USOCK_RECEIVED) = r).
  { intros r <-. unfold nn_ws_handshake_handler.
    rewrite Hstate, Hparse. reflexivity. }
  destruct (parse_client_opening_decided _ _ _ Hparse ltac:(discriminate))
    as (pos & scanned & Hparsed & Hval).
  destruct (validate_client_opening_valid _ _ Hval) as (-> & Hkey & Hpair).
  destruct Hparsed as (_ & _ & Hscan & _).
  destruct (parsed_frame_client self pos scanned Hscan) as (Hbuf & Hpipe & Hin).
  change (ptr scanned F_protocol = None) in Hproto.
  assert (Hlen : len scanned F_protocol = O).
  { specialize (Hin F_protocol ltac:(in_reset)).
    unfold slice_in in Hin. unfold ptr in Hproto. rewrite Hproto in Hin.
    exact Hin. }
  split; [rewrite <- Hpipe; apply Hpair; exact Hproto|].
  split; [exact Hlen|].
  unfold captured in Hkey.
  destruct (ptr scanned F_key) as [pk|] eqn:Hpk; [|contradiction].
  set (key := mem (hs_opening_hs scanned) pk (len scanned F_key)).
  set (accept := rfc4648_base64
                   (key_digest (little_endian m) (stack_hash m) key)).
  destruct (hash_key_ok (little_endian m) (stack_hash m) key
              (NN_WS_HANDSHAKE_ACCEPT_KEY_LEN + 1) (le_n _)) as [Hal Hhash].
  fold accept in Hal, Hhash.
  assert (Hnn : existsb is_nul accept = false) by apply rfc4648_no_nul.
  assert (Htl : length (upgrade_reply accept []) = 155%nat)
    by (rewrite length_upgrade_reply, Hal; reflexivity).
  exists accept.
  eexists. split; [exact Hal|].
  split; [apply Hhandler | split; [|reflexivity]].
  - unfold nn_ws_handshake_server_reply.
    cbn [hs_response_code set_response set_state set_response_code
         hs_opening_hs hs_slices hs_response].
    unfold slice_octets. fold (ptr scanned F_key). rewrite Hpk.
    fold (len scanned F_key). cbn [bind]. fold key.
    rewrite Hhash.
    unfold cstring. cbn [skipn]. rewrite until_nul_app by exact Hnn.
    rewrite Hal. cbn [Nat.eqb NN_WS_HANDSHAKE_ACCEPT_KEY_LEN nn_assert bind].
    unfold slice_string, slice_octets.
    fold (ptr scanned F_protocol). fold (len scanned F_protocol).
    rewrite Hproto, Hlen. cbn [Nat.eqb bind until_nul].
    unfold sprintf. rewrite repeat_length, Htl.
    change (hs_response (set_response_code NN_WS_HANDSHAKE_RESPONSE_OK scanned))
      with (hs_response scanned) in Hsize.
    destruct (155 + 1 <=? length (hs_response scanned))%nat eqn:E;
      [|apply Nat.leb_gt in E; lia].
    cbn [bind hs_response set_response]. cbn [app].
    rewrite (until_nul_app (upgrade_reply accept []))
      by (apply upgrade_reply_no_nul; [exact Hnn|reflexivity]).
    reflexivity.
  - reflexivity.
Qed.

(** ** The state machine: what one step can do *)

Lemma parse_client_opening_state self rc parsed :
  nn_ws_handshake_parse_client_opening self = Done (rc, parsed) ->
  hs_state parsed = hs_state self /\
  hs_opening_hs parsed = hs_opening_hs self.
Proof.
  unfold nn_ws_handshake_parse_client_opening.
  destruct (existsb _ _); cbn [nn_assert bind]; [|discriminate].
  destruct (_ <? _)%nat; cbn [nn_assert bind]; [|discriminate].
  destruct (strstr _ _ _); [|intros H; injection H as _ <-; auto].
  pose proof (scan_client_opening_inv self) as Hinv. cbv zeta in Hinv.
  destruct (scan_client_opening self) as [p|pos p|]; [| |discriminate].
  - intros H. injection H as _ <-. rewrite Hinv. auto.
  - destruct (_ =? _)%nat; cbn [nn_assert bind]; [|discriminate].
    destruct Hinv as (_ & Hp & _).
    intros H. injection H as H.
    assert (Hs : hs_state (snd (validate_client_opening p)) = hs_state p /\
                 hs_opening_hs (snd (validate_client_opening p))
                 = hs_opening_hs p).
    { unfold validate_client_opening, reply.
      repeat match goal with
             | |- context [match ptr p ?g with _ => _ end] =>
               destruct (ptr p g)
             | |- context [match sp_map_lookup ?a ?b ?c ?d with _ => _ end] =>
               destruct (sp_map_lookup a b c d)
             | |- context [if ?b then _ else _] => destruct b
             end; auto. }
    rewrite H in Hs. cbn [snd] in Hs. rewrite Hp in Hs. exact Hs.
Qed.

Lemma parse_server_response_state self rc parsed :
  nn_ws_handshake_parse_server_response self = Done (rc, parsed) ->
  hs_state parsed = hs_state self /\ hs_response parsed = hs_response self.
Proof.
  unfold nn_ws_handshake_parse_server_response.
  destruct (existsb _ _); cbn [nn_assert bind]; [|discriminate].
  destruct (_ <? _)%nat; cbn [nn_assert bind]; [|discriminate].
  destruct (strstr _ _ _); [|intros H; injection H as _ <-; auto].
  pose proof (scan_server_response_inv self) as Hinv. cbv zeta in Hinv.
  destruct (scan_server_response self) as [p|pos p|]; [| |discriminate].
  - intros H. injection H as _ <-. rewrite Hinv. auto.
  - destruct (_ =? _)%nat; cbn [nn_assert bind]; [|discriminate].
    destruct Hinv as (_ & Hp & _).
    intros H. injection H as _ <-. rewrite Hp. auto.
Qed.

Lemma server_reply_effects m self self' effs :
  nn_ws_handshake_server_reply m self = Done (self', effs) ->
  hs_state self' = hs_state self /\ exists data, effs = [USOCK_SEND data].
Proof.
  unfold nn_ws_handshake_server_reply.
  match goal with
  | |- bind ?t _ = _ -> _ => destruct t as [text|]; [|discriminate]
  end.
  cbn [bind]. destruct (sprintf _ _) as [r|]; [|discriminate].
  cbn [bind]. intros H. injection H as <- <-.
  split; [reflexivity|eexists; reflexivity].
Qed.

Lemma client_request_effects m self self' effs :
  nn_ws_handshake_client_request m self = Done (self', effs) ->
  hs_state self' = hs_state self /\ exists data, effs = [USOCK_SEND data].
Proof.
  unfold nn_ws_handshake_client_request.
  destruct (base64_encode _ _) as [|n k]; [discriminate|].
  destruct (nn_assert _ _); cbn [bind]; [|discriminate].
  destruct (nn_ws_handshake_hash_key _ _ _ _) as [|n' e]; [discriminate|].
  destruct (nn_assert _ _); cbn [bind]; [|discriminate].
  destruct (sp_map_token _ _); [|discriminate].
  destruct (sprintf _ _); cbn [bind]; [|discriminate].
  intros H. injection H as <- <-.
  split; [reflexivity|eexists; reflexivity].
Qed.

Lemma recv_more_state buf self self' :
  recv_more buf self = Done self' -> hs_state self' = hs_state self.
Proof.
  unfold recv_more.
  destruct (nn_assert _ _); cbn [bind]; [|discriminate].
  destruct (nn_assert _ _); cbn [bind]; [|discriminate].
  destruct (nn_assert _ _); cbn [bind]; [|discriminate].
  intros H. injection H as <-. reflexivity.
Qed.

Lemma stop_timer_and_enter_spec s self self' effs :
  stop_timer_and_enter s self = Done (self', effs) ->
  hs_state self' = s /\ effs = [TIMER_STOP].
Proof.
  unfold stop_timer_and_enter. intros H. injection H as <- <-.
  split; reflexivity.
Qed.

Lemma common_events_spec self ev self' effs :
  common_events self ev = Done (self', effs) ->
  (self' = self /\ effs = []) \/
  (hs_state self' = NN_WS_HANDSHAKE_STATE_STOPPING_TIMER_ERROR /\
   effs = [TIMER_STOP]).
Proof.
  unfold common_events.
  destruct ev as [a|u|t|]; try discriminate;
    [destruct u|destruct t]; try discriminate; intros H;
    try (apply stop_timer_and_enter_spec in H; right; exact H).
  injection H as <- <-. left. split; reflexivity.
Qed.

(** A step taken in a working state publishes nothing; it stays in a
    working state or stops the timer and enters a state that waits for
    it. *)
Lemma handler_working m self ev self' effs :
  working (hs_state self) = true ->
  nn_ws_handshake_handler m self ev = Done (self', effs) ->
  published effs = O /\
  (working (hs_state self') = true \/
   (stopping_timer (hs_state self') = true /\ In TIMER_STOP effs)).
Proof.
  intros Hw H.
  assert (Hcommon : forall s e s' f,
    working (hs_state s) = true ->
    common_events s e = Done (s', f) ->
    published f = O /\
    (working (hs_state s') = true \/
     (stopping_timer (hs_state s') = true /\ In TIMER_STOP f))).
  { intros s e s' f Hs Hc. apply common_events_spec in Hc.
    destruct Hc as [[-> ->]|[Hst ->]].
    - split; [reflexivity|left; exact Hs].
    - split; [reflexivity|right]. rewrite Hst.
      split; [reflexivity|left; reflexivity]. }
  assert (Hstop : forall st s s' f,
    stopping_timer st = true ->
    stop_timer_and_enter st s = Done (s', f) ->
    published f = O /\
    (working (hs_state s') = true \/
     (stopping_timer (hs_state s') = true /\ In TIMER_STOP f))).
  { intros st s s' f Hst Hc. apply stop_timer_and_enter_spec in Hc.
    destruct Hc as [Hs ->]. split; [reflexivity|right]. rewrite Hs.
    split; [exact Hst|left; reflexivity]. }
  unfold nn_ws_handshake_handler in H.
  destruct (hs_state self) eqn:Est; try discriminate Hw.
  - (* SERVER_RECV *)
    destruct ev as [a|[]|t|];
      try (apply Hcommon in H; [exact H|rewrite Est; reflexivity]).
    destruct (nn_ws_handshake_parse_client_opening self) as [[rc p]|] eqn:Ep;
      [|discriminate].
    apply parse_client_opening_state in Ep. destruct Ep as [Ep _].
    cbn [bind] in H.
    destruct rc.
    + apply server_reply_effects in H. destruct H as [Hs [d ->]].
      split; [reflexivity|left]. rewrite Hs. reflexivity.
    + destruct (recv_more (hs_opening_hs p) p) as [q|] eqn:Er;
        [|discriminate].
      apply recv_more_state in Er. cbn [bind] in H.
      destruct (_ <? _)%nat.
      * apply server_reply_effects in H. destruct H as [Hs [d ->]].
        split; [reflexivity|left]. rewrite Hs. reflexivity.
      * injection H as <- <-. split; [reflexivity|left].
        cbn [hs_state set_retries]. rewrite Er, Ep, Est. reflexivity.
    + apply server_reply_effects in H. destruct H as [Hs [d ->]].
      split; [reflexivity|left]. rewrite Hs. reflexivity.
  - (* SERVER_REPLY *)
    destruct ev as [a|[]|t|];
      try (apply Hcommon in H; [exact H|rewrite Est; reflexivity]).
    apply Hstop in H; [exact H|reflexivity].
  - (* CLIENT_SEND *)
    destruct ev as [a|[]|t|];
      try (apply Hcommon in H; [exact H|rewrite Est; reflexivity]).
    injection H as <- <-. split; [reflexivity|left; reflexivity].
  - (* CLIENT_RECV *)
    destruct ev as [a|[]|t|];
      try (apply Hcommon in H; [exact H|rewrite Est; reflexivity]).
    destruct (nn_ws_handshake_parse_server_response self) as [[rc p]|] eqn:Ep;
      [|discriminate].
    apply parse_server_response_state in Ep. destruct Ep as [Ep _].
    cbn [bind] in H.
    destruct rc.
    + apply Hstop in H; [exact H|reflexivity].
    + destruct (recv_more (hs_response p) p) as [q|] eqn:Er; [|discriminate].
      apply recv_more_state in Er. cbn [bind] in H.
      destruct (_ <? _)%nat.
      * apply Hstop in H; [exact H|reflexivity].
      * injection H as <- <-. split; [reflexivity|left].
        cbn [hs_state set_retries]. rewrite Er, Ep, Est. reflexivity.
    + apply Hstop in H; [exact H|reflexivity].
  - (* HANDSHAKE_SENT *)
    destruct ev as [a|[]|t|];
      try (apply Hcommon in H; [exact H|rewrite Est; reflexivity]).
    apply Hstop in H; [exact H|reflexivity].
Qed.

(** In a state that waits for the timer, socket events are ignored and
    the timer's STOPPED publishes the result and enters DONE: ERROR from
    STOPPING_TIMER_ERROR, OK from STOPPING_TIMER_DONE. *)
Lemma handler_stopping_timer m self ev self' effs :
  stopping_timer (hs_state self) = true ->
  nn_ws_handshake_handler m self ev = Done (self', effs) ->
  (self' = self /\ effs = []) \/
  (ev = NN_WS_HANDSHAKE_SRC_TIMER NN_TIMER_STOPPED /\
   hs_state self' = NN_WS_HANDSHAKE_STATE_DONE /\
   exists rc,
     effs = [USOCK_SWAP_OWNER; FSM_RAISE_DONE rc] /\
     ((hs_state self = NN_WS_HANDSHAKE_STATE_STOPPING_TIMER_ERROR /\
       rc = NN_WS_HANDSHAKE_ERROR) \/
      (hs_state self = NN_WS_HANDSHAKE_STATE_STOPPING_TIMER_DONE /\
       rc = NN_WS_HANDSHAKE_OK))).
Proof.
  intros Hs H. unfold nn_ws_handshake_handler in H.
  destruct (hs_state self) eqn:Est; try discriminate Hs.
  - destruct ev as [a|u|[]|]; try discriminate.
    + injection H as <- <-. left. split; reflexivity.
    + injection H as <- <-. right. split; [reflexivity|].
      split; [reflexivity|]. eexists. split; [reflexivity|].
      left. split; reflexivity.
  - destruct ev as [a|u|[]|]; try discriminate.
    + injection H as <- <-. left. split; reflexivity.
    + injection H as <- <-. right. split; [reflexivity|].
      split; [reflexivity|]. eexists. split; [reflexivity|].
      right. split; reflexivity.
Qed.

(** In IDLE only the START action is accepted. DONE and STOPPING accept
    nothing. *)
Lemma handler_idle m self ev self' effs :
  hs_state self = NN_WS_HANDSHAKE_STATE_IDLE ->
  nn_ws_handshake_handler m self ev = Done (self', effs) ->
  ev = NN_FSM_ACTION NN_FSM_START.
Proof.
  intros Hs H. unfold nn_ws_handshake_handler in H. rewrite Hs in H.
  destruct ev as [[]|u|t|]; try discriminate. reflexivity.
Qed.

Lemma handler_done m self ev :
  hs_state self = NN_WS_HANDSHAKE_STATE_DONE ->
  nn_ws_handshake_handler m self ev = Abort FSM_BAD_SOURCE.
Proof.
  intros Hs. unfold nn_ws_handshake_handler. rewrite Hs. reflexivity.
Qed.

Lemma shutdown_effects self ev self' effs :
  nn_ws_handshake_shutdown self ev = Done (self', effs) ->
  published effs = O /\
  (hs_state self' = NN_WS_HANDSHAKE_STATE_STOPPING \/
   hs_state self' = NN_WS_HANDSHAKE_STATE_IDLE).
Proof.
  unfold nn_ws_handshake_shutdown.
  destruct (match ev with
            | NN_FSM_ACTION NN_FSM_STOP => _
            | _ => _
            end) as [s f] eqn:E.
  assert (Hf : published f = O).
  { destruct ev as [[]|u|t|]; injection E as <- <-; reflexivity. }
  destruct (state_eqb (hs_state s) NN_WS_HANDSHAKE_STATE_STOPPING) eqn:Es;
    [|discriminate].
  destruct (negb (nn_timer_isidle s)).
  - intros H. injection H as <- <-. split; [exact Hf|left].
    destruct (hs_state s); try discriminate Es. reflexivity.
  - intros H. injection H as <- <-. split; [|right; reflexivity].
    unfold published in *. rewrite filter_app, length_app, Hf. reflexivity.
Qed.

(** ** The state machine: runs *)

Lemma published_app a b : published (a ++ b) = (published a + published b)%nat.
Proof. unfold published. rewrite filter_app, length_app. reflexivity. Qed.

Lemma published_zero_no_raise effs rc :
  published effs = O -> ~ In (FSM_RAISE_DONE rc) effs.
Proof.
  unfold published. induction effs as [|e effs IH]; intros H Hin;
    [contradiction|].
  destruct Hin as [->|Hin]; [discriminate H|].
  destruct e; cbn [filter is_raise_done length] in H; try discriminate H;
    exact (IH H Hin).
Qed.

Lemma stop_before_raise_quiet trace effs :
  stop_before_raise trace -> published effs = O ->
  stop_before_raise (trace ++ effs).
Proof.
  intros Ht Hq pre rc post Heq.
  apply app_eq_app in Heq. destruct Heq as (l & [[H1 H2]|[H1 H2]]).
  - destruct l as [|x l]; cbn [app] in H2.
    + exfalso. apply (published_zero_no_raise effs rc Hq).
      rewrite <- H2. left. reflexivity.
    + injection H2 as <- _. apply (Ht pre rc l). exact H1.
  - exfalso. apply (published_zero_no_raise effs rc Hq).
    rewrite H2. apply in_or_app. right. left. reflexivity.
Qed.

Lemma stop_before_raise_publish trace rc :
  published trace = O -> In TIMER_STOP trace ->
  stop_before_raise (trace ++ [USOCK_SWAP_OWNER; FSM_RAISE_DONE rc]).
Proof.
  intros Hq Hstop pre rc' post Heq.
  apply app_eq_app in Heq. destruct Heq as (l & [[H1 H2]|[H1 H2]]).
  - destruct l as [|x l]; cbn [app] in H2; [discriminate|].
    injection H2 as <- _. exfalso.
    apply (published_zero_no_raise trace rc' Hq).
    rewrite H1. apply in_or_app. right. left. reflexivity.
  - rewrite H1. apply in_or_app. left. exact Hstop.
Qed.

Lemma run_inv_quiet self self' trace effs :
  run_inv self trace -> published effs = O ->
  (working (hs_state self') = true -> working (hs_state self) = true) ->
  (stopping_timer (hs_state self') = true ->
   (stopping_timer (hs_state self) = true \/ working (hs_state self) = true)
   /\ (In TIMER_STOP effs \/ In TIMER_STOP trace)) ->
  (hs_state self' = NN_WS_HANDSHAKE_STATE_DONE ->
   hs_state self = NN_WS_HANDSHAKE_STATE_DONE) ->
  run_inv self' (trace ++ effs).
Proof.
  intros (H1 & H2 & H3 & H4 & H5) Hq Hw Hs Hd.
  unfold run_inv. rewrite published_app, Hq, Nat.add_0_r.
  split; [exact H1|].
  split; [apply stop_before_raise_quiet; assumption|].
  split; [intros H; apply H3, Hw, H|].
  split; [|intros H; apply H5, Hd, H].
  intros H. destruct (Hs H) as [[Hst|Hwk] Hin].
  - destruct (H4 Hst) as [Hp Ht].
    split; [exact Hp|]. apply in_or_app. left. exact Ht.
  - split; [apply H3, Hwk|].
    apply in_or_app. destruct Hin; [right|left]; assumption.
Qed.

Lemma run_inv_state self1 self2 trace :
  hs_state self1 = hs_state self2 -> run_inv self1 trace ->
  run_inv self2 trace.
Proof. unfold run_inv. intros <-. tauto. Qed.

Lemma usock_deliver_state self data :
  hs_state (usock_deliver self data) = hs_state self.
Proof. unfold usock_deliver. destruct (hs_mode self); reflexivity. Qed.

Lemma step_feed m self i :
  i <> IN_STOP ->
  exists self0,
    hs_state self0 = hs_state self /\
    step m self i = nn_fsm_feed m self0 (fed_event i).
Proof.
  intros Hi. destruct i as [|[] data|[]]; try contradiction;
    cbn [step fed_event];
    try (exists self; split; reflexivity).
  - exists (usock_deliver self data).
    split; [apply usock_deliver_state|reflexivity].
  - exists (set_timer TIMER_IDLE self). split; reflexivity.
Qed.

Lemma fed_event_not_start i : fed_event i <> NN_FSM_ACTION NN_FSM_START.
Proof. destruct i; discriminate. Qed.

Lemma state_cases (s : state_t) :
  working s = true \/ stopping_timer s = true \/
  s = NN_WS_HANDSHAKE_STATE_IDLE \/ s = NN_WS_HANDSHAKE_STATE_DONE \/
  s = NN_WS_HANDSHAKE_STATE_STOPPING.
Proof. destruct s; cbn; tauto. Qed.

(** One step keeps the invariant of runs. *)
Lemma step_run_inv m self i self' effs trace :
  run_inv self trace -> step m self i = Done (self', effs) ->
  run_inv self' (trace ++ effs).
Proof.
  intros Hinv Hstep.
  assert (Hshut : forall s ev,
    hs_state s = hs_state self ->
    nn_ws_handshake_shutdown s ev = Done (self', effs) ->
    run_inv self' (trace ++ effs)).
  { intros s ev _ H. apply shutdown_effects in H. destruct H as [Hq Hs].
    apply (run_inv_quiet self); try assumption;
      destruct Hs as [Hs|Hs]; rewrite Hs; discriminate. }
  destruct (input_eq_stop i) as [->|Hi].
  { apply (Hshut self _ eq_refl Hstep). }
  destruct (step_feed m self i Hi) as (s0 & Hs0 & Heq).
  rewrite Heq in Hstep. clear Heq. unfold nn_fsm_feed in Hstep.
  destruct (state_eqb (hs_state s0) NN_WS_HANDSHAKE_STATE_STOPPING) eqn:Est.
  { apply (Hshut s0 _ Hs0 Hstep). }
  apply (run_inv_state self s0) in Hinv; [|symmetry; exact Hs0].
  clear Hs0 Hshut.
  destruct (state_cases (hs_state s0)) as [Hw|[Ht|[Hidle|[Hdone|Hstopping]]]].
  - destruct (handler_working m s0 _ _ _ Hw Hstep) as [Hq Hnext].
    apply (run_inv_quiet s0); try assumption.
    + intros _. exact Hw.
    + intros Hst. destruct Hnext as [Hw'|[_ Hin]].
      * destruct (hs_state self'); discriminate.
      * split; [right; exact Hw|left; exact Hin].
    + intros Hd. destruct Hnext as [Hw'|[Hst' _]];
        rewrite Hd in *; discriminate.
  - destruct (handler_stopping_timer m s0 _ _ _ Ht Hstep)
      as [[-> ->]|(_ & Hd & rc & -> & _)].
    + rewrite app_nil_r. exact Hinv.
    + destruct Hinv as (H1 & H2 & H3 & H4 & H5).
      destruct (H4 Ht) as [Hp Hin].
      unfold run_inv. rewrite published_app, Hp, Hd.
      split; [cbn; lia|].
      split; [apply stop_before_raise_publish; assumption|].
      split; [discriminate|]. split; [discriminate|]. reflexivity.
  - apply (handler_idle m s0) in Hstep; [|exact Hidle].
    exfalso. apply (fed_event_not_start i). exact Hstep.
  - rewrite (handler_done m s0) in Hstep by exact Hdone. discriminate.
  - rewrite Hstopping in Est. discriminate.
Qed.

(** A step publishes a result only when it delivers the timer's STOPPED
    to an instance that waits for it. *)
Lemma step_publishes m self i self' effs rc :
  step m self i = Done (self', effs) -> In (FSM_RAISE_DONE rc) effs ->
  i = IN_TIMER NN_TIMER_STOPPED /\
  hs_state self' = NN_WS_HANDSHAKE_STATE_DONE /\
  ((hs_state self = NN_WS_HANDSHAKE_STATE_STOPPING_TIMER_ERROR /\
    rc = NN_WS_HANDSHAKE_ERROR) \/
   (hs_state self = NN_WS_HANDSHAKE_STATE_STOPPING_TIMER_DONE /\
    rc = NN_WS_HANDSHAKE_OK)).
Proof.
  intros Hstep Hin.
  destruct (input_eq_stop i) as [->|Hi].
  { cbn [step] in Hstep. unfold nn_ws_handshake_stop in Hstep.
    apply shutdown_effects in Hstep. destruct Hstep as [Hq _].
    exfalso. apply (published_zero_no_raise _ rc Hq Hin). }
  destruct (step_feed m self i Hi) as (s0 & Hs0 & Heq).
  rewrite Heq in Hstep. clear Heq. unfold nn_fsm_feed in Hstep.
  destruct (state_eqb (hs_state s0) NN_WS_HANDSHAKE_STATE_STOPPING) eqn:Est.
  { apply shutdown_effects in Hstep. destruct Hstep as [Hq _].
    exfalso. apply (published_zero_no_raise _ rc Hq Hin). }
  destruct (state_cases (hs_state s0)) as [Hw|[Ht|[Hidle|[Hdone|Hstopping]]]].
  - destruct (handler_working m s0 _ _ _ Hw Hstep) as [Hq _].
    exfalso. apply (published_zero_no_raise _ rc Hq Hin).
  - destruct (handler_stopping_timer m s0 _ _ _ Ht Hstep)
      as [[-> ->]|(Hev & Hd & rc' & -> & Hrc)]; [contradiction|].
    destruct Hin as [Hin|[Hin|[]]]; [discriminate|]. injection Hin as ->.
    rewrite <- Hs0. split; [|split; assumption].
    destruct i as [|[] data|[]]; try discriminate; try contradiction.
    reflexivity.
  - apply (handler_idle m s0) in Hstep; [|exact Hidle].
    exfalso. apply (fed_event_not_start i). exact Hstep.
  - rewrite (handler_done m s0) in Hstep by exact Hdone. discriminate.
  - rewrite Hstopping in Est. discriminate.
Qed.

Lemma run_keeps_inv m inputs :
  forall self trace,
    run_inv self trace ->
    (published (trace ++ fst (run m self inputs)) <= 1)%nat /\
    stop_before_raise (trace ++ fst (run m self inputs)) /\
    (forall self',
       snd (run m self inputs) = Done self' ->
       run_inv self' (trace ++ fst (run m self inputs))).
Proof.
  induction inputs as [|i inputs IH]; intros self trace Hinv; cbn [run].
  - cbn [fst snd]. rewrite app_nil_r.
    split; [apply Hinv|]. split; [apply Hinv|].
    intros self' H. injection H as <-. exact Hinv.
  - destruct (step m self i) as [[s1 effs]|why] eqn:Hstep.
    + pose proof (step_run_inv m self i s1 effs trace Hinv Hstep) as H1.
      specialize (IH s1 (trace ++ effs) H1).
      destruct (run m s1 inputs) as [tr r]. cbn [fst snd] in *.
      rewrite app_assoc. exact IH.
    + cbn [fst snd]. rewrite app_nil_r.
      split; [apply Hinv|]. split; [apply Hinv|]. discriminate.
Qed.

Lemma start_run_inv m self pipebase mode resource host self1 effs :
  nn_ws_handshake_start m self pipebase mode resource host
    = Done (self1, effs) ->
  run_inv self1 effs.
Proof.
  unfold nn_ws_handshake_start.
  destruct (match mode with NN_WS_CLIENT => _ | _ => _ end);
    cbn [bind]; [|discriminate].
  destruct (nn_assert _ ASSERT_OWNER); cbn [bind]; [|discriminate].
  destruct (match mode with NN_WS_SERVER => _ | _ => _ end) as [rl|];
    cbn [bind]; [|discriminate].
  match goal with
  | |- bind (nn_ws_handshake_handler m ?s _) _ = _ -> _ =>
    set (s0 := s); assert (Hmode : hs_mode s0 = mode) by reflexivity;
    clearbody s0
  end.
  assert (Hquiet : forall s t e,
    published [USOCK_SWAP_OWNER; TIMER_START t; e] = O ->
    working (hs_state s) = true ->
    run_inv s [USOCK_SWAP_OWNER; TIMER_START t; e]).
  { intros s t e Hq Hw. unfold run_inv. rewrite Hq.
    split; [lia|]. split.
    - intros pre rc post Heq. exfalso.
      apply (published_zero_no_raise _ rc Hq). rewrite Heq.
      apply in_or_app. right. left. reflexivity.
    - split; [reflexivity|].
      split; intros H; destruct (hs_state s); discriminate. }
  unfold nn_ws_handshake_handler.
  destruct (hs_state s0); try (cbn [bind]; discriminate).
  destruct (nn_assert _ _); cbn [bind]; [|discriminate].
  destruct (nn_assert _ _); cbn [bind]; [|discriminate].
  cbn [hs_mode nn_timer_start set_timer]. rewrite Hmode.
  destruct mode; try discriminate.
  - destruct (nn_assert _ _); cbn [bind]; [|discriminate].
    destruct (nn_ws_handshake_client_request _ _) as [[s2 e2]|] eqn:Ec;
      cbn [bind]; [|discriminate].
    apply client_request_effects in Ec. destruct Ec as [Hs [d ->]].
    intros H. injection H as <- <-.
    apply Hquiet; [reflexivity|]. rewrite Hs. reflexivity.
  - destruct (nn_assert _ _); cbn [bind]; [|discriminate].
    intros H. injection H as <- <-.
    apply Hquiet; reflexivity.
Qed.

(** ** The claims about the parsers at concrete messages *)

Lemma client_validation_order_witness :
  let self := server_holding (sample_request "8" []) in
  nn_ws_handshake_parse_client_opening self
  = Done (NN_WS_HANDSHAKE_INVALID,
          set_response_code NN_WS_HANDSHAKE_RESPONSE_WSVERSION
            (scanned (scan_client_opening self) self)).
Proof.
  intros self.
  destruct (client_validation_order self
              (scanned (scan_client_opening self) self)
              (scan_end (scan_client_opening self))) as [_ H].
  - repeat split; vm_compute; try reflexivity; discriminate.
  - destruct H as [H _].
    + intros f Hf. cbn [CLIENT_OPENING_REQUIRED In] in Hf.
      destruct Hf as [<-|[<-|[<-|[<-|[<-|[]]]]]]; vm_compute; discriminate.
    + apply H. vm_compute. discriminate.
Defined.

Lemma client_protocol_check_witness :
  let self :=
    server_holding
      (sample_request "13" (line "Sec-WebSocket-Protocol: X-NanoMsg-Pair")) in
  nn_ws_handshake_parse_client_opening self
  = Done (NN_WS_HANDSHAKE_VALID,
          set_response_code NN_WS_HANDSHAKE_RESPONSE_OK
            (scanned (scan_client_opening self) self)).
Proof.
  intros self.
  destruct (client_protocol_check self
              (scanned (scan_client_opening self) self)
              (scan_end (scan_client_opening self))) as (_ & H & _).
  - repeat split; vm_compute; try reflexivity; discriminate.
  - split; [|repeat split; vm_compute; reflexivity].
    intros f Hf. cbn [CLIENT_OPENING_REQUIRED In] in Hf.
    destruct Hf as [<-|[<-|[<-|[<-|[<-|[]]]]]]; vm_compute; discriminate.
  - destruct H as [H _]; [vm_compute; discriminate|].
    apply (H NN_PAIR (cs "x-nanomsg-pair"));
      [left; reflexivity|vm_compute; reflexivity].
Defined.

Lemma server_response_validation_witness :
  let self := client_holding sample_response in
  nn_ws_handshake_parse_server_response self
  = Done (NN_WS_HANDSHAKE_VALID, scanned (scan_server_response self) self).
Proof.
  intros self.
  destruct (server_response_validation self
              (scanned (scan_server_response self) self)) as [[_ H] _].
  apply H. exists (scan_end (scan_server_response self)). split.
  - repeat split; vm_compute; try reflexivity; discriminate.
  - split; [|repeat split; vm_compute; reflexivity].
    intros f Hf. cbn [SERVER_RESPONSE_REQUIRED In] in Hf.
    destruct Hf as [<-|[<-|[<-|[<-|[]]]]]; vm_compute; discriminate.
Defined.

Lemma nomatch_frame_witness :
  let self := server_holding (line "GET /chat HTTP/1.1" ++ line "Host: a") in
  nn_ws_handshake_parse_client_opening self
  = Done (NN_WS_HANDSHAKE_RECV_MORE, self).
Proof.
  intros self. destruct nomatch_frame as (_ & _ & H & _). apply H.
  - vm_compute. reflexivity.
  - apply find_sub_none. vm_compute. reflexivity.
Defined.

Lemma reply_without_protocol_witness :
  let self := server_holding (sample_request "13" []) in
  let parsed :=
    set_response_code NN_WS_HANDSHAKE_RESPONSE_OK
      (scanned (scan_client_opening self) self) in
  nn_pipebase_ispeer (hs_pipebase self) NN_PAIR = true /\
  len parsed F_protocol = O /\
  exists accept_key self',
    length accept_key = NN_WS_HANDSHAKE_ACCEPT_KEY_LEN /\
    nn_ws_handshake_handler machine0 self
      (NN_WS_HANDSHAKE_SRC_USOCK NN_USOCK_RECEIVED)
    = Done (self', [USOCK_SEND (upgrade_reply accept_key [])]) /\
    hs_state self' = NN_WS_HANDSHAKE_STATE_SERVER_REPLY /\
    upgrade_reply accept_key []
    = cs "HTTP/1.1 101 Switching Protocols" ++ NN_WS_HANDSHAKE_CRLF ++
      cs "Upgrade: websocket" ++ NN_WS_HANDSHAKE_CRLF ++
      cs "Connection: Upgrade" ++ NN_WS_HANDSHAKE_CRLF ++
      cs "Sec-WebSocket-Accept: " ++ accept_key ++ NN_WS_HANDSHAKE_CRLF ++
      cs "Sec-WebSocket-Protocol: " ++ NN_WS_HANDSHAKE_CRLF ++
      NN_WS_HANDSHAKE_CRLF.
Proof.
  intros self parsed.
  apply (reply_without_protocol machine0 self parsed).
  - reflexivity.
  - vm_compute. reflexivity.
  - vm_compute. reflexivity.
  - vm_compute. lia.
Defined.

(** ** The claims about the state machine *)

(** C7, as the code has it. For every sequence of inputs that drives a
    started instance: at most one result is published through the done
    event; each publication comes after a request to stop the timer;
    an instance that is in DONE has published exactly one result; and a
    step publishes only when it delivers the timer's STOPPED to an instance
    in STOPPING_TIMER_ERROR (the result is ERROR) or STOPPING_TIMER_DONE
    (the result is OK), which then enters DONE. An instance that is still
    working, or waiting for the timer's STOPPED, has published nothing. *)
Theorem done_published_at_most_once (m : machine) (self : nn_ws_handshake)
    (pipebase : nn_pipebase) (mode : mode_t) (resource host : list ascii)
    (started : nn_ws_handshake) (effs0 : list effect)
    (inputs : list input) :
  nn_ws_handshake_start m (nn_ws_handshake_init self) pipebase mode
    resource host = Done (started, effs0) ->
  let trace := effs0 ++ fst (run m started inputs) in
  (published trace <= 1)%nat /\
  stop_before_raise trace /\
  (forall final,
     snd (run m started inputs) = Done final ->
     (hs_state final = NN_WS_HANDSHAKE_STATE_DONE ->
      published trace = 1%nat) /\
     (working (hs_state final) = true \/
      stopping_timer (hs_state final) = true -> published trace = O)) /\
  (forall s i s' effs rc,
     step m s i = Done (s', effs) -> In (FSM_RAISE_DONE rc) effs ->
     i = IN_TIMER NN_TIMER_STOPPED /\
     hs_state s' = NN_WS_HANDSHAKE_STATE_DONE /\
     ((hs_state s = NN_WS_HANDSHAKE_STATE_STOPPING_TIMER_ERROR /\
       rc = NN_WS_HANDSHAKE_ERROR) \/
      (hs_state s = NN_WS_HANDSHAKE_STATE_STOPPING_TIMER_DONE /\
       rc = NN_WS_HANDSHAKE_OK))).
Proof.
  intros Hstart trace.
  apply start_run_inv in Hstart.
  destruct (run_keeps_inv m inputs started effs0 Hstart) as (H1 & H2 & H3).
  split; [exact H1|]. split; [exact H2|]. split.
  - intros final Hfinal. destruct (H3 final Hfinal) as (_ & _ & Hw & Hs & Hd).
    split; [exact Hd|]. intros [H|H]; [apply Hw, H|apply Hs, H].
  - intros s i s' effs rc. apply step_publishes.
Qed.

Lemma done_published_at_most_once_witness :
  exists started effs0,
    nn_ws_handshake_start machine0 (nn_ws_handshake_init (blank 256 256))
      pair_sock NN_WS_SERVER [] [] = Done (started, effs0) /\
    published
      (effs0 ++
       fst (run machine0 started
              [IN_USOCK NN_USOCK_ERROR []; IN_TIMER NN_TIMER_STOPPED]))
    = 1%nat.
Proof.
  eexists. eexists. split; [vm_compute; reflexivity|].
  match goal with
  | |- published (?e ++ fst (run _ ?s ?i)) = _ =>
    destruct (done_published_at_most_once machine0 (blank 256 256) pair_sock
                NN_WS_SERVER [] [] s e i) as (_ & _ & H & _);
      [vm_compute; reflexivity|]
  end.
  eapply H; vm_compute; reflexivity.
Defined.

(** C7, counterexample to the claim as stated: the owner stops a started
    server and the timer acknowledges. The run ends in IDLE, and nothing
    was published through the done event. *)
Lemma done_published_counterexample :
  exists started effs0 final,
    nn_ws_handshake_start machine0 (nn_ws_handshake_init (blank 256 256))
      pair_sock NN_WS_SERVER [] [] = Done (started, effs0) /\
    snd (run machine0 started [IN_STOP; IN_TIMER NN_TIMER_STOPPED])
    = Done final /\
    hs_state final = NN_WS_HANDSHAKE_STATE_IDLE /\
    effs0 ++ fst (run machine0 started [IN_STOP; IN_TIMER NN_TIMER_STOPPED])
    = [USOCK_SWAP_OWNER; TIMER_START 5000; USOCK_RECV 0 151; TIMER_STOP;
       FSM_STOPPED] /\
    published
      (effs0 ++
       fst (run machine0 started [IN_STOP; IN_TIMER NN_TIMER_STOPPED]))
    = O.
Proof.
  eexists. eexists. eexists. split; [vm_compute; reflexivity|].
  split; [vm_compute; reflexivity|].
  repeat split; vm_compute; reflexivity.
Qed.

(** A receive that the server schedules lies inside its buffer. *)
Lemma server_recv_within_buffer m self ev self' effs off n :
  hs_state self = NN_WS_HANDSHAKE_STATE_SERVER_RECV ->
  nn_ws_handshake_handler m self ev = Done (self', effs) ->
  In (USOCK_RECV off n) effs ->
  (off + n <= length (hs_opening_hs self'))%nat /\
  off = hs_recv_pos self' /\ n = hs_recv_len self'.
Proof.
  intros Hs H Hin. unfold nn_ws_handshake_handler in H. rewrite Hs in H.
  assert (Hcommon : forall s e s' f,
    common_events s e = Done (s', f) -> ~ In (USOCK_RECV off n) f).
  { intros s e s' f Hc. apply common_events_spec in Hc.
    destruct Hc as [[_ ->]|[_ ->]]; cbn; intuition discriminate. }
  destruct ev as [a|[]|t|]; try (exfalso; apply (Hcommon _ _ _ _ H Hin)).
  destruct (nn_ws_handshake_parse_client_opening self) as [[rc p]|];
    [|discriminate].
  cbn [bind] in H.
  assert (Hreply : forall s s' f,
    nn_ws_handshake_server_reply m s = Done (s', f) ->
    ~ In (USOCK_RECV off n) f).
  { intros s s' f Hr. apply server_reply_effects in Hr.
    destruct Hr as [_ [d ->]]. cbn. intuition discriminate. }
  destruct rc; try (exfalso; apply (Hreply _ _ _ H Hin)).
  destruct (recv_more (hs_opening_hs p) p) as [q|] eqn:Er; [|discriminate].
  cbn [bind] in H.
  destruct (length (hs_opening_hs q) <? hs_recv_len q + hs_recv_pos q)%nat
    eqn:E; [exfalso; apply (Hreply _ _ _ H Hin)|].
  apply Nat.ltb_ge in E. injection H as <- <-.
  destruct Hin as [Hin|[]]. injection Hin as <- <-.
  cbn [hs_opening_hs hs_recv_pos hs_recv_len set_retries].
  repeat split. lia.
Qed.

(** C5, evaluated at a failing input. A server with a 4096-octet buffer
    receives its first 151 octets: 147 times 'A', then CRLFCRLF. The parser
    finds the CRLFCRLF, fails on the request line and returns RECV_MORE;
    the backward scan then matches all four octets of the terminator, and
    the assertion that the matched length is smaller than four fails. *)
Theorem termseq_assertion_fails :
  exists started effs0 parsed,
    nn_ws_handshake_start machine0 (nn_ws_handshake_init (blank 4096 512))
      pair_sock NN_WS_SERVER [] [] = Done (started, effs0) /\
    hs_recv_len started = length not_a_request /\
    nn_ws_handshake_parse_client_opening (usock_deliver started not_a_request)
    = Done (NN_WS_HANDSHAKE_RECV_MORE, parsed) /\
    termseq_scan NN_WS_HANDSHAKE_TERMSEQ_LEN (hs_opening_hs parsed)
      (hs_recv_pos parsed + hs_recv_len parsed) = 4%nat /\
    step machine0 started (IN_USOCK NN_USOCK_RECEIVED not_a_request)
    = Abort ASSERT_TERMSEQ.
Proof.
  eexists. eexists. eexists. split; [vm_compute; reflexivity|].
  split; [vm_compute; reflexivity|].
  split; [vm_compute; reflexivity|].
  split; vm_compute; reflexivity.
Qed.

(** C6, evaluated at a failing input. A server with a 4096-octet buffer is
    sent 4096 octets without NUL and without CRLFCRLF. Every receive it
    schedules lies inside the buffer, the last one ends exactly at its end,
    and the parser then finds no NUL in the buffer: its assertion fails. *)
Theorem full_buffer_has_no_nul :
  let r := serve machine0 (blank 4096 512) pair_sock filling_stream in
  forallb (is_recv_within 4096) (fst r) = true /\
  last (fst r) USOCK_SWAP_OWNER = USOCK_RECV 4092 4 /\
  existsb is_nul filling_stream = false /\
  length filling_stream = 4096%nat /\
  snd r = Abort ASSERT_NO_NUL.
Proof.
  vm_compute. repeat split; reflexivity.
Qed.

(** ** Base64: room, white space, stops *)

Lemma encode_drain_mono fuel v n n' :
  (n <= n')%nat ->
  forall rem out r,
    encode_drain fuel v rem n out = Some r ->
    encode_drain fuel v rem n' out = Some r.
Proof.
  intros Hn. induction fuel as [|fuel IH]; intros rem out r H.
  - exact H.
  - cbn [encode_drain] in *.
    destruct (6 <=? rem)%nat; [|exact H].
    destruct (n <=? length out)%nat eqn:E; [discriminate|].
    apply Nat.leb_gt in E.
    destruct (n' <=? length out)%nat eqn:E';
      [apply Nat.leb_le in E'; lia|].
    apply IH. exact H.
Qed.

Lemma encode_loop_mono n n' :
  (n <= n')%nat ->
  forall inp v rem out r,
    encode_loop inp v rem n out = Some r ->
    encode_loop inp v rem n' out = Some r.
Proof.
  intros Hn. induction inp as [|ch inp IH]; intros v rem out r H.
  - exact H.
  - cbn [encode_loop] in *.
    destruct (encode_drain (rem + 8) (u32 (Z.lor (Z.shiftl v 8) (uint8 ch)))
                (rem + 8) n out) as [[rem1 out1]|] eqn:E; [|discriminate].
    rewrite (encode_drain_mono _ _ _ _ Hn _ _ _ E).
    apply IH. exact H.
Qed.

Lemma encode_pad_mono n n' :
  (n <= n')%nat ->
  forall fuel out r,
    encode_pad fuel n out = Some r -> encode_pad fuel n' out = Some r.
Proof.
  intros Hn. induction fuel as [|fuel IH]; intros out r H.
  - exact H.
  - cbn [encode_pad] in *.
    destruct (negb (Z.land (Z.of_nat (length out)) 3 =? 0)); [|exact H].
    destruct (n <=? length out)%nat eqn:E; [discriminate|].
    apply Nat.leb_gt in E.
    destruct (n' <=? length out)%nat eqn:E';
      [apply Nat.leb_le in E'; lia|].
    apply IH. exact H.
Qed.

Lemma base64_encode_mono inp n n' rc w :
  (n <= n')%nat ->
  base64_encode inp n = B64_OK rc w -> base64_encode inp n' = B64_OK rc w.
Proof.
  intros Hn H. unfold base64_encode in *.
  destruct (encode_loop inp 0 0 n []) as [[[v rem] out]|] eqn:E;
    [|discriminate].
  rewrite (encode_loop_mono _ _ Hn _ _ _ _ _ E).
  destruct (negb (rem =? 0)%nat).
  - destruct (n <=? length out)%nat eqn:E1; [discriminate|].
    apply Nat.leb_gt in E1.
    destruct (n' <=? length out)%nat eqn:E1';
      [apply Nat.leb_le in E1'; lia|].
    destruct (encode_pad 4 n _) as [out2|] eqn:E2; [|discriminate].
    rewrite (encode_pad_mono _ _ Hn _ _ _ E2).
    destruct (n <=? length out2)%nat eqn:E3; [discriminate|].
    apply Nat.leb_gt in E3.
    destruct (n' <=? length out2)%nat eqn:E3';
      [apply Nat.leb_le in E3'; lia|].
    exact H.
  - destruct (encode_pad 4 n out) as [out2|] eqn:E2; [|discriminate].
    rewrite (encode_pad_mono _ _ Hn _ _ _ E2).
    destruct (n <=? length out2)%nat eqn:E3; [discriminate|].
    apply Nat.leb_gt in E3.
    destruct (n' <=? length out2)%nat eqn:E3';
      [apply Nat.leb_le in E3'; lia|].
    exact H.
Qed.

Lemma base64_encode_ok_room inp n rc w :
  base64_encode inp n = B64_OK rc w -> (rc < n)%nat.
Proof.
  unfold base64_encode.
  destruct (encode_loop inp 0 0 n []) as [[[v rem] out]|]; [|discriminate].
  destruct (if negb (rem =? 0)%nat then _ else _) as [out1|]; [|discriminate].
  destruct (encode_pad 4 n out1) as [out2|]; [|discriminate].
  destruct (n <=? length out2)%nat eqn:E; [discriminate|].
  apply Nat.leb_gt in E. intros H. injection H as <- _. exact E.
Qed.

(** X1. [base64_encode] needs room for the text and its NUL: it returns
    -ENOBUFS exactly when [out_len] is at most the length of the encoding,
    four characters for every three octets begun; otherwise it returns that
    length and has written the RFC 4648 encoding followed by NUL. *)
Theorem base64_encode_room (x : list ascii) (out_len : nat) :
  let need := (4 * ((length x + 2) / 3))%nat in
  (base64_encode x out_len = B64_ENOBUFS <-> (out_len <= need)%nat) /\
  ((need < out_len)%nat ->
   base64_encode x out_len = B64_OK need (rfc4648_base64 x ++ [NUL])).
Proof.
  intros need.
  assert (Hlen : length (rfc4648_base64 x) = need)
    by apply rfc4648_base64_length.
  assert (Hok : (need < out_len)%nat ->
    base64_encode x out_len = B64_OK need (rfc4648_base64 x ++ [NUL])).
  { intros H. rewrite base64_encode_rfc4648 by lia. rewrite Hlen.
    reflexivity. }
  split; [|exact Hok]. split.
  - intros H. destruct (Nat.le_gt_cases out_len need) as [Hle|Hgt];
      [exact Hle|]. rewrite Hok in H by exact Hgt. discriminate.
  - intros Hle.
    destruct (base64_encode x out_len) as [|rc w] eqn:E; [reflexivity|].
    exfalso.
    pose proof (base64_encode_ok_room _ _ _ _ E) as Hroom.
    apply (base64_encode_mono _ _ (S need)) in E; [|lia].
    rewrite base64_encode_rfc4648 in E by lia.
    injection E as E _. lia.
Qed.

Lemma decode_loop_mono n n' :
  (n <= n')%nat ->
  forall inp v rem out r,
    decode_loop inp v rem n out = Some r ->
    decode_loop inp v rem n' out = Some r.
Proof.
  intros Hn. induction inp as [|c inp IH]; intros v rem out r H.
  - exact H.
  - cbn [decode_loop] in *.
    destruct (isspace c); [apply IH; exact H|].
    destruct (Ascii.eqb c "="%char); [exact H|].
    destruct (nth (Z.to_nat (uint8 c)) DECODEMAP 255 =? 255); [exact H|].
    destruct (8 <=? rem + 6)%nat; [|apply IH; exact H].
    destruct (n <=? length out)%nat eqn:E; [discriminate|].
    apply Nat.leb_gt in E.
    destruct (n' <=? length out)%nat eqn:E';
      [apply Nat.leb_le in E'; lia|].
    apply IH. exact H.
Qed.

(** What the decoding loop keeps: fewer than eight bits are pending, an
    octet is stored only inside the buffer, and every octet stored took
    eight of the six bits that each character read brought. *)
Lemma decode_loop_bounds n :
  forall inp v rem out v' rem' out',
    (rem < 8)%nat ->
    decode_loop inp v rem n out = Some (v', rem', out') ->
    (rem' < 8)%nat /\
    (length out <= length out')%nat /\
    (length out < length out' -> length out' <= n)%nat /\
    (8 * length out' + rem' <= 8 * length out + rem + 6 * length inp)%nat.
Proof.
  induction inp as [|c inp IH]; intros v rem out v' rem' out' Hrem H.
  - cbn [decode_loop] in H. injection H as <- <- <-. cbn [length]. lia.
  - cbn [decode_loop] in H. cbn [length].
    destruct (isspace c).
    { apply IH in H; [|exact Hrem]. lia. }
    destruct (Ascii.eqb c "="%char).
    { injection H as <- <- <-. lia. }
    destruct (nth (Z.to_nat (uint8 c)) DECODEMAP 255 =? 255).
    { injection H as <- <- <-. lia. }
    destruct (8 <=? rem + 6)%nat eqn:E8.
    + apply Nat.leb_le in E8.
      destruct (n <=? length out)%nat eqn:E; [discriminate|].
      apply Nat.leb_gt in E.
      apply IH in H; [|lia]. rewrite length_app in H. cbn [length] in H.
      lia.
    + apply Nat.leb_gt in E8. apply IH in H; [|lia]. lia.
Qed.

Lemma base64_decode_mono inp n n' rc w :
  (n <= n')%nat ->
  base64_decode inp n = B64_OK rc w -> base64_decode inp n' = B64_OK rc w.
Proof.
  intros Hn H. unfold base64_decode in *.
  destruct (decode_loop inp 0 0 n []) as [[[v rem] out]|] eqn:E;
    [|discriminate].
  rewrite (decode_loop_mono _ _ Hn _ _ _ _ _ E).
  apply decode_loop_bounds in E; [|lia].
  destruct (8 <=? rem)%nat eqn:E8; [apply Nat.leb_le in E8; lia|].
  exact H.
Qed.

(** X2. What [base64_decode] returns on an input of ASCII characters.
    On success: the count of the octets it stored, which is at most
    [out_len] and at most three for every four octets of input; and
    decoding an encoding fails with -ENOBUFS exactly when [out_len] is
    smaller than the encoded data. *)
Theorem base64_decode_bounds (inp : list ascii) (out_len : nat) :
  Forall ascii7 inp ->
  (forall rc w,
     base64_decode inp out_len = B64_OK rc w ->
     rc = length w /\ (rc <= out_len)%nat /\
     (4 * rc <= 3 * length inp)%nat) /\
  (forall x t,
     decode_stops t -> inp = rfc4648_base64 x ++ t ->
     (base64_decode inp out_len = B64_ENOBUFS <->
      (out_len < length x)%nat)).
Proof.
  intros _. split.
  - intros rc w H. unfold base64_decode in H.
    destruct (decode_loop inp 0 0 out_len []) as [[[v rem] out]|] eqn:E;
      [|discriminate].
    apply decode_loop_bounds in E; [|lia]. cbn [length] in E.
    destruct (8 <=? rem)%nat eqn:E8; [apply Nat.leb_le in E8; lia|].
    injection H as <- <-. lia.
  - intros x t Ht ->. split.
    + intros H. destruct (Nat.lt_ge_cases out_len (length x)) as [Hlt|Hge];
        [exact Hlt|].
      rewrite base64_decode_rfc4648 in H by assumption. discriminate.
    + intros Hlt.
      destruct (base64_decode (rfc4648_base64 x ++ t) out_len) as [|rc w]
        eqn:E; [reflexivity|]. exfalso.
      assert (Hrc : (rc <= out_len)%nat).
      { unfold base64_decode in E.
        destruct (decode_loop _ 0 0 out_len []) as [[[v rem] out]|] eqn:E1;
          [|discriminate].
        apply decode_loop_bounds in E1; [|lia]. cbn [length] in E1.
        destruct (8 <=? rem)%nat eqn:E8; [apply Nat.leb_le in E8; lia|].
        injection E as <- <-. lia. }
      apply (base64_decode_mono _ _ (length x)) in E; [|lia].
      rewrite base64_decode_rfc4648 in E by (assumption || lia).
      injection E as E _. lia.
Qed.

Lemma base64_decode_bounds_witness :
  base64_decode (cs "Zm9vYg==") 3 = B64_ENOBUFS /\
  base64_decode (cs "Zm9vYg==") 4 <> B64_ENOBUFS.
Proof.
  assert (H7 : Forall ascii7 (cs "Zm9vYg=="))
    by (repeat constructor; unfold ascii7; vm_compute; reflexivity).
  assert (Heq : cs "Zm9vYg==" = rfc4648_base64 (cs "foob") ++ [])
    by (vm_compute; reflexivity).
  split.
  - apply (proj2 (base64_decode_bounds (cs "Zm9vYg==") 3 H7)
             (cs "foob") [] I Heq).
    vm_compute. lia.
  - intros H.
    apply (proj2 (base64_decode_bounds (cs "Zm9vYg==") 4 H7)
             (cs "foob") [] I Heq) in H.
    vm_compute in H. lia.
Defined.

Lemma decode_loop_filter n :
  forall inp v rem out,
    decode_loop (filter not_space inp) v rem n out
    = decode_loop inp v rem n out.
Proof.
  induction inp as [|c inp IH]; intros v rem out; [reflexivity|].
  cbn [filter]. unfold not_space at 1.
  destruct (isspace c) eqn:E; cbn [negb].
  - cbn [decode_loop]. rewrite E. apply IH.
  - cbn [decode_loop]. rewrite E.
    destruct (Ascii.eqb c "="%char); [reflexivity|].
    destruct (nth (Z.to_nat (uint8 c)) DECODEMAP 255 =? 255); [reflexivity|].
    destruct (8 <=? rem + 6)%nat; [|apply IH].
    destruct (n <=? length out)%nat; [reflexivity|apply IH].
Qed.

(** X3. [base64_decode] passes over white space wherever it stands: an
    input of ASCII characters decodes as the same input with its white
    space removed, so an encoding broken into lines decodes to the data. *)
Theorem base64_decode_skips_space (inp : list ascii) (out_len : nat) :
  Forall ascii7 inp ->
  base64_decode inp out_len = base64_decode (filter not_space inp) out_len /\
  (forall x,
     filter not_space inp = rfc4648_base64 x -> (length x <= out_len)%nat ->
     base64_decode inp out_len = B64_OK (length x) x).
Proof.
  intros _.
  assert (H : base64_decode inp out_len
              = base64_decode (filter not_space inp) out_len).
  { unfold base64_decode. rewrite decode_loop_filter. reflexivity. }
  split; [exact H|].
  intros x Hx Hlen. rewrite H, Hx.
  rewrite <- (app_nil_r (rfc4648_base64 x)).
  apply base64_decode_rfc4648; [exact I|exact Hlen].
Qed.

Lemma base64_decode_skips_space_witness :
  base64_decode (cs "Zm9v" ++ [CR; LF] ++ cs "Yg==") 4
  = B64_OK 4 (cs "foob").
Proof.
  apply (proj2 (base64_decode_skips_space
                  (cs "Zm9v" ++ [CR; LF] ++ cs "Yg==") 4
                  ltac:(repeat constructor; unfold ascii7; vm_compute;
                        reflexivity)) (cs "foob")).
  - vm_compute. reflexivity.
  - vm_compute. lia.
Defined.

Lemma decode_loop_stop_app n t :
  decode_stops t ->
  forall a v rem out,
    decode_loop (a ++ t) v rem n out = decode_loop a v rem n out.
Proof.
  intros Ht. induction a as [|c a IH]; intros v rem out.
  - cbn [app decode_loop]. apply decode_loop_stop. exact Ht.
  - cbn [app decode_loop].
    destruct (isspace c); [apply IH|].
    destruct (Ascii.eqb c "="%char); [reflexivity|].
    destruct (nth (Z.to_nat (uint8 c)) DECODEMAP 255 =? 255); [reflexivity|].
    destruct (8 <=? rem + 6)%nat; [|apply IH].
    destruct (n <=? length out)%nat; [reflexivity|apply IH].
Qed.

(** X4. In an input that is ASCII up to there, [base64_decode] stops at
    the first '=' and at the first ASCII character outside the alphabet
    that is no white space: what follows is never looked at, and the
    octets decoded so far are returned as a success, not as an error. *)
Theorem base64_decode_stops_early (a t : list ascii) (c : ascii)
    (out_len : nat) :
  Forall ascii7 a -> ascii7 c -> isspace c = false ->
  c = "="%char \/ nth (Z.to_nat (uint8 c)) DECODEMAP 255 = 255 ->
  base64_decode (a ++ c :: t) out_len = base64_decode a out_len.
Proof.
  intros _ _ Hsp Hc. unfold base64_decode.
  rewrite decode_loop_stop_app; [reflexivity|].
  cbn [decode_stops]. split; [exact Hsp|].
  destruct Hc as [->|Hc]; [left; reflexivity|right; exact Hc].
Qed.

Lemma base64_decode_stops_early_witness :
  base64_decode (cs "Zm9v" ++ "*"%char :: cs "Yg==") 4
  = base64_decode (cs "Zm9v") 4.
Proof.
  apply (base64_decode_stops_early (cs "Zm9v") (cs "Yg==") "*"%char 4).
  - repeat constructor; unfold ascii7; vm_compute; reflexivity.
  - unfold ascii7. vm_compute. reflexivity.
  - vm_compute. reflexivity.
  - right. vm_compute. reflexivity.
Defined.

(** ** The matchers, in terms of the text under the cursor *)

Lemma cstring_unfold buf pos :
  cstring buf pos =
  if is_nul (rd buf pos) then [] else rd buf pos :: cstring buf (S pos).
Proof.
  unfold cstring, rd. revert buf. induction pos as [|pos IH]; intros buf.
  - destruct buf as [|c buf]; [reflexivity|].
    cbn [skipn until_nul nth]. destruct (is_nul c); reflexivity.
  - destruct buf as [|c buf]; [reflexivity|].
    cbn [skipn nth]. apply IH.
Qed.

Lemma token_loop_spec ci :
  forall token buf pos,
    if starts_with ci token (cstring buf pos)
    then token_loop ci token buf pos = Some ([], pos + length token)%nat
    else token_loop ci token buf pos = None \/
         exists t p, token_loop ci token buf pos = Some (t, p) /\
                     t <> [] /\ is_nul (rd buf p) = true.
Proof.
  induction token as [|a token IH]; intros buf pos.
  - cbn [starts_with token_loop length]. rewrite Nat.add_0_r. reflexivity.
  - rewrite (cstring_unfold buf pos). cbn [token_loop].
    destruct (is_nul (rd buf pos)) eqn:En.
    + cbn [starts_with]. right. exists (a :: token), pos.
      repeat split; [discriminate|exact En].
    + cbn [starts_with]. unfold same_octet.
      assert (Hd : (if ci
                    then negb (Ascii.eqb (tolower a) (tolower (rd buf pos)))
                    else negb (Ascii.eqb a (rd buf pos)))
                   = negb (if ci
                           then Ascii.eqb (tolower a) (tolower (rd buf pos))
                           else Ascii.eqb a (rd buf pos)))
        by (destruct ci; reflexivity).
      rewrite Hd. clear Hd.
      set (same := if ci
                   then Ascii.eqb (tolower a) (tolower (rd buf pos))
                   else Ascii.eqb a (rd buf pos)).
      destruct same; cbn [negb andb].
      * specialize (IH buf (S pos)).
        destruct (starts_with ci token (cstring buf (S pos))).
        -- rewrite IH. cbn [length]. rewrite <- Nat.add_succ_comm.
           reflexivity.
        -- exact IH.
      * left. reflexivity.
Qed.

Lemma skip_sp_drop l :
  until_nul (skipn (skip_sp l) l) = drop_sp (until_nul l) /\
  skip_sp l = (length (until_nul l) - length (drop_sp (until_nul l)))%nat.
Proof.
  induction l as [|c l IH]; [split; reflexivity|].
  cbn [skip_sp].
  destruct (Ascii.eqb c SP) eqn:E.
  - apply Ascii.eqb_eq in E. subst c.
    change (is_nul SP) with false. cbn [negb andb skipn until_nul].
    change (is_nul SP) with false. cbv iota. cbn [drop_sp].
    change (Ascii.eqb SP SP) with true. cbv iota.
    destruct IH as [IH1 IH2]. split; [exact IH1|].
    cbn [length]. rewrite IH2.
    assert (H : forall x, (length (drop_sp x) <= length x)%nat).
    { clear. induction x as [|c x IH]; [apply Nat.le_refl|].
      cbn [drop_sp]. destruct (Ascii.eqb c SP); cbn [length]; lia. }
    specialize (H (until_nul l)). lia.
  - cbn [andb skipn until_nul].
    destruct (is_nul c); [split; reflexivity|].
    cbn [drop_sp]. rewrite E. split; [reflexivity|]. lia.
Qed.

Lemma match_token_plain token buf subj ci :
  nn_ws_match_token token buf subj ci false =
  if starts_with ci token (cstring buf subj)
  then (NN_WS_HANDSHAKE_MATCH, (subj + length token)%nat)
  else (NN_WS_HANDSHAKE_NOMATCH, subj).
Proof.
  unfold nn_ws_match_token.
  pose proof (token_loop_spec ci token buf subj) as H.
  destruct (starts_with ci token (cstring buf subj)).
  - rewrite H. unfold ascii_list_eqb.
    destruct (list_eq_dec ascii_dec [] []) as [_|N]; [|contradiction].
    cbn [negb]. rewrite andb_false_r. reflexivity.
  - destruct H as [->|(t & p & -> & Ht & Hn)]; [reflexivity|].
    rewrite Hn. unfold ascii_list_eqb.
    destruct (list_eq_dec ascii_dec t []) as [E|_]; [contradiction|].
    reflexivity.
Qed.

(** X5. [nn_ws_match_token] decides whether the token stands at the head of
    the string under the cursor (after its leading spaces when they are to
    be ignored), comparing letters without regard to case when asked to.
    On MATCH the cursor has moved past the spaces and the token; on
    NOMATCH, which includes a subject that ends before the token does, it
    has not moved. *)
Theorem match_token_spec (token buf : list ascii) (subj : nat)
    (case_insensitive ignore_leading_sp : bool) :
  let s := cstring buf subj in
  let s' := if ignore_leading_sp then drop_sp s else s in
  nn_ws_match_token token buf subj case_insensitive ignore_leading_sp =
  if starts_with case_insensitive token s'
  then (NN_WS_HANDSHAKE_MATCH,
        (subj + (length s - length s') + length token)%nat)
  else (NN_WS_HANDSHAKE_NOMATCH, subj).
Proof.
  intros s s'. unfold nn_ws_match_token.
  set (pos := if ignore_leading_sp
              then (subj + skip_sp (skipn subj buf))%nat else subj).
  assert (Hpos : cstring buf pos = s' /\
                 pos = (subj + (length s - length s'))%nat).
  { subst pos s' s. destruct ignore_leading_sp.
    - unfold cstring. destruct (skip_sp_drop (skipn subj buf)) as [H1 H2].
      split; [|rewrite <- H2; reflexivity].
      rewrite <- H1, skipn_skipn.
      rewrite (Nat.add_comm (skip_sp _) subj). reflexivity.
    - split; [reflexivity|]. lia. }
  destruct Hpos as [Hs' Hp].
  pose proof (token_loop_spec case_insensitive token buf pos) as H.
  rewrite Hs' in H.
  destruct (starts_with case_insensitive token s').
  - rewrite H. cbn [ascii_list_eqb]. unfold ascii_list_eqb.
    destruct (list_eq_dec ascii_dec [] []) as [_|N]; [|contradiction].
    cbn [negb]. rewrite andb_false_r. rewrite Hp. reflexivity.
  - destruct H as [->|(t & p & -> & Ht & Hn)]; [reflexivity|].
    rewrite Hn. unfold ascii_list_eqb.
    destruct (list_eq_dec ascii_dec t []) as [E|_]; [contradiction|].
    reflexivity.
Qed.

Lemma length_drop_sp l : (length (drop_sp l) <= length l)%nat.
Proof.
  induction l as [|c l IH]; [apply Nat.le_refl|].
  cbn [drop_sp]. destruct (Ascii.eqb c SP); cbn [length]; lia.
Qed.

Lemma drop_sp_skipn l : skipn (length l - length (drop_sp l)) l = drop_sp l.
Proof.
  induction l as [|c l IH]; [reflexivity|].
  cbn [drop_sp]. destruct (Ascii.eqb c SP).
  - pose proof (length_drop_sp l). cbn [length].
    replace (S (length l) - length (drop_sp l))%nat
      with (S (length l - length (drop_sp l))) by lia.
    cbn [skipn]. exact IH.
  - rewrite Nat.sub_diag. reflexivity.
Qed.

Lemma length_drop_trailing_sp l :
  (length (drop_trailing_sp l) <= length l)%nat.
Proof.
  unfold drop_trailing_sp. rewrite length_rev.
  pose proof (length_drop_sp (rev l)) as H. rewrite length_rev in H. exact H.
Qed.

Lemma drop_trailing_sp_snoc l c :
  drop_trailing_sp (l ++ [c]) =
  if Ascii.eqb c SP then drop_trailing_sp l else l ++ [c].
Proof.
  unfold drop_trailing_sp. rewrite rev_app_distr. cbn [rev app drop_sp].
  destruct (Ascii.eqb c SP); [reflexivity|].
  cbn [rev]. rewrite rev_involutive. reflexivity.
Qed.

Lemma drop_trailing_sp_firstn l :
  firstn (length (drop_trailing_sp l)) l = drop_trailing_sp l.
Proof.
  induction l as [|c l IH] using rev_ind; [reflexivity|].
  rewrite drop_trailing_sp_snoc. destruct (Ascii.eqb c SP).
  - pose proof (length_drop_trailing_sp l).
    rewrite firstn_app.
    replace (length (drop_trailing_sp l) - length l)%nat with O by lia.
    cbn [firstn]. rewrite app_nil_r. exact IH.
  - apply firstn_all.
Qed.

Lemma trim_leading_spec buf :
  forall v p,
    (forall i, (i < length v)%nat -> rd buf (p + i) = nth i v NUL) ->
    trim_leading (length v) buf p
    = (p + (length v - length (drop_sp v)))%nat.
Proof.
  induction v as [|c v IH]; intros p H.
  - cbn [length trim_leading drop_sp]. lia.
  - cbn [length trim_leading drop_sp].
    pose proof (H O ltac:(cbn [length]; lia)) as H0.
    rewrite Nat.add_0_r in H0. cbn [nth] in H0. rewrite H0.
    destruct (Ascii.eqb c SP).
    + rewrite IH.
      * pose proof (length_drop_sp v). lia.
      * intros i Hi. specialize (H (S i) ltac:(cbn [length]; lia)).
        cbn [nth] in H. rewrite <- H. f_equal. lia.
    + cbn [length]. lia.
Qed.

Lemma trim_trailing_spec buf :
  forall v p,
    (forall i, (i < length v)%nat -> rd buf (p + i) = nth i v NUL) ->
    trim_trailing (length v) buf (p + length v)
    = (p + length (drop_trailing_sp v))%nat.
Proof.
  induction v as [|c v IH] using rev_ind; intros p H.
  - cbn [length trim_trailing]. reflexivity.
  - rewrite length_app in *. cbn [length] in *.
    rewrite Nat.add_1_r. cbn [trim_trailing].
    replace (p + S (length v) - 1)%nat with (p + length v)%nat by lia.
    pose proof (H (length v) ltac:(lia)) as Hc.
    rewrite app_nth2, Nat.sub_diag in Hc by lia. cbn [nth] in Hc.
    rewrite Hc, drop_trailing_sp_snoc.
    destruct (Ascii.eqb c SP).
    + apply IH. intros i Hi. rewrite H by lia.
      rewrite app_nth1 by lia. reflexivity.
    + rewrite length_app. cbn [length]. lia.
Qed.

Lemma rd_cstring buf subj i :
  (i < length (cstring buf subj))%nat ->
  rd buf (subj + i) = nth i (cstring buf subj) NUL.
Proof.
  unfold cstring, rd. intros H.
  rewrite <- (firstn_skipn subj buf) at 1.
  destruct (Nat.le_gt_cases (length buf) subj) as [Hle|Hgt].
  - rewrite skipn_all2 in H by exact Hle. cbn in H. lia.
  - rewrite app_nth2; rewrite length_firstn, Nat.min_l by lia; [|lia].
    replace (subj + i - subj)%nat with i by lia.
    apply until_nul_nth. exact H.
Qed.

Lemma mem_cstring buf subj a n :
  (a + n <= length (cstring buf subj))%nat ->
  mem buf (subj + a) n = firstn n (skipn a (cstring buf subj)).
Proof.
  unfold mem, cstring. intros H.
  rewrite (Nat.add_comm subj a), <- skipn_skipn.
  set (l := skipn subj buf) in *.
  rewrite <- (until_nul_firstn l).
  rewrite <- (firstn_skipn (length (until_nul l)) l) at 1.
  rewrite skipn_app.
  rewrite length_firstn.
  pose proof (length_until_nul l).
  rewrite Nat.min_l by lia.
  replace (a - length (until_nul l))%nat with O by lia.
  cbn [skipn]. rewrite firstn_app, length_skipn, length_firstn.
  rewrite Nat.min_l by lia.
  replace (n - (length (until_nul l) - a))%nat with O by lia.
  cbn [firstn]. rewrite app_nil_r. reflexivity.
Qed.

(** What [nn_ws_match_value] returns, in terms of the string under the
    cursor. *)
Lemma match_value_reports (termseq buf : list ascii) (subj : nat)
    (ignore_leading_sp ignore_trailing_sp : bool) :
  let s := cstring buf subj in
  match find_sub termseq s with
  | None =>
    nn_ws_match_value termseq buf subj ignore_leading_sp ignore_trailing_sp
    = (NN_WS_HANDSHAKE_NOMATCH, subj, null_slice)
  | Some k =>
    exists v,
      let before := firstn k s in
      let value := trimmed ignore_leading_sp ignore_trailing_sp before in
      nn_ws_match_value termseq buf subj ignore_leading_sp ignore_trailing_sp
      = (NN_WS_HANDSHAKE_MATCH, (subj + k + length termseq)%nat, v) /\
      sl_ptr v =
        Some (if ignore_leading_sp
              then subj + (length before - length (drop_sp before))
              else subj)%nat /\
      sl_len v = length value /\
      slice_value buf v = value
  end.
Proof.
  intros s. unfold nn_ws_match_value, strstr. fold s.
  destruct (find_sub termseq s) as [k|] eqn:Ek; [|reflexivity].
  cbn [option_map].
  pose proof (find_sub_bound _ _ _ Ek) as Hk.
  set (before := firstn k s).
  assert (Hlb : length before = k)
    by (subst before; rewrite length_firstn; lia).
  assert (Hrd : forall i, (i < length before)%nat ->
                  rd buf (subj + i) = nth i before NUL).
  { intros i Hi. subst before. rewrite rd_cstring by (fold s; lia).
    fold s. rewrite <- (firstn_skipn k s) at 1.
    rewrite app_nth1 by exact Hi. reflexivity. }
  replace (subj + k - subj)%nat with (length before) by lia.
  set (a := if ignore_leading_sp
            then (length before - length (drop_sp before))%nat else O).
  set (v1 := if ignore_leading_sp then drop_sp before else before).
  assert (Hstart : (if ignore_leading_sp
                    then trim_leading (length before) buf subj else subj)
                   = (subj + a)%nat).
  { subst a. destruct ignore_leading_sp.
    - apply trim_leading_spec. exact Hrd.
    - lia. }
  rewrite Hstart.
  pose proof (length_drop_sp before) as Hds.
  assert (Hv1 : v1 = skipn a before).
  { subst v1 a. destruct ignore_leading_sp.
    - symmetry. apply drop_sp_skipn.
    - reflexivity. }
  assert (Hlv1 : (a + length v1 = k)%nat).
  { rewrite Hv1, length_skipn. subst a.
    destruct ignore_leading_sp; lia. }
  assert (Hptr : Some (subj + a)%nat =
                 Some (if ignore_leading_sp
                       then subj + (length before - length (drop_sp before))
                       else subj)%nat).
  { subst a. destruct ignore_leading_sp; f_equal; lia. }
  assert (Hmem : forall n, (n <= length v1)%nat ->
                   mem buf (subj + a) n = firstn n v1).
  { intros n Hn. rewrite mem_cstring by (fold s; lia). fold s.
    rewrite Hv1. subst before.
    rewrite <- (firstn_skipn k s) at 1.
    rewrite skipn_app, length_firstn, Nat.min_l by lia.
    replace (a - k)%nat with O by lia. cbn [skipn].
    rewrite firstn_app.
    replace (n - length (skipn a (firstn k s)))%nat with O.
    - cbn [firstn]. rewrite app_nil_r. reflexivity.
    - rewrite <- Hv1. lia. }
  unfold trimmed. fold v1.
  destruct (subj + a =? subj + k)%nat eqn:E.
  - apply Nat.eqb_eq in E.
    assert (Hnil : v1 = []) by (apply length_zero_iff_nil; lia).
    eexists. split; [reflexivity|]. cbn [sl_ptr sl_len].
    split; [exact Hptr|].
    rewrite Hnil. unfold slice_value. cbn [sl_ptr sl_len].
    destruct ignore_trailing_sp; cbn; repeat split;
      unfold mem; reflexivity.
  - apply Nat.eqb_neq in E.
    set (e := if ignore_trailing_sp
              then trim_trailing (subj + k - (subj + a)) buf (subj + k)
              else (subj + k)%nat).
    set (v2 := if ignore_trailing_sp then drop_trailing_sp v1 else v1).
    assert (He : e = (subj + a + length v2)%nat).
    { subst e v2. destruct ignore_trailing_sp; [|lia].
      replace (subj + k - (subj + a))%nat with (length v1) by lia.
      replace (subj + k)%nat with (subj + a + length v1)%nat by lia.
      apply trim_trailing_spec. intros i Hi.
      rewrite <- Nat.add_assoc, Hrd by lia.
      rewrite Hv1, nth_skipn. reflexivity. }
    eexists. split; [reflexivity|]. cbn [sl_ptr sl_len].
    split; [exact Hptr|].
    rewrite He.
    replace (subj + a + length v2 - (subj + a))%nat with (length v2) by lia.
    split; [reflexivity|].
    unfold slice_value. cbn [sl_ptr sl_len].
    rewrite Hmem.
    + subst v2. destruct ignore_trailing_sp.
      * apply drop_trailing_sp_firstn.
      * apply firstn_all.
    + subst v2. destruct ignore_trailing_sp;
        [apply length_drop_trailing_sp|apply Nat.le_refl].
Qed.

Lemma find_sub_first t :
  forall s k j,
    find_sub t s = Some k -> (j < k)%nat -> prefixb t (skipn j s) = false.
Proof.
  induction s as [|c s IH]; intros k j H Hj.
  - cbn [find_sub] in H. destruct (prefixb t []); [|discriminate].
    injection H as <-. lia.
  - cbn [find_sub] in H. destruct (prefixb t (c :: s)) eqn:E.
    + injection H as <-. lia.
    + destruct (find_sub t s) as [k'|] eqn:E'; [|discriminate].
      injection H as <-. destruct j as [|j]; [exact E|].
      cbn [skipn]. apply (IH k'); [reflexivity|lia].
Qed.

Lemma find_sub_at t :
  forall v rest,
    (forall j, (j < length v)%nat ->
       prefixb t (skipn j (v ++ t ++ rest)) = false) ->
    find_sub t (v ++ t ++ rest) = Some (length v).
Proof.
  induction v as [|c v IH]; intros rest H.
  - cbn [app length].
    destruct (t ++ rest) as [|a l] eqn:E; cbn [find_sub];
      rewrite <- E, prefixb_app; reflexivity.
  - cbn [app length find_sub].
    pose proof (H O ltac:(cbn [length]; lia)) as H0. cbn [skipn app] in H0.
    rewrite H0, IH; [reflexivity|].
    intros j Hj. apply (H (S j)). cbn [length]. lia.
Qed.

Lemma occurs_sublist t (l : list ascii) a n :
  occurs t (firstn n (skipn a l)) -> occurs t l.
Proof.
  intros (pre & post & H).
  exists (firstn a l ++ pre), (post ++ skipn n (skipn a l)).
  rewrite <- (firstn_skipn a l) at 1.
  rewrite <- (firstn_skipn n (skipn a l)) at 1.
  rewrite H, <- !app_assoc. reflexivity.
Qed.

Lemma no_occurrence_before t s k :
  t <> [] -> find_sub t s = Some k -> ~ occurs t (firstn k s).
Proof.
  intros Ht Hk (pre & post & H).
  assert (Hlen : (length pre + length t <= k)%nat).
  { apply (f_equal (@length ascii)) in H.
    rewrite length_firstn, !length_app in H. lia. }
  assert (Hj : (length pre < k)%nat).
  { destruct t; [contradiction|]. cbn [length] in Hlen. lia. }
  pose proof (find_sub_first t s k (length pre) Hk Hj) as Hn.
  rewrite <- (firstn_skipn k s), H in Hn.
  rewrite <- !app_assoc in Hn.
  rewrite skipn_app, skipn_all, Nat.sub_diag in Hn.
  cbn [skipn app] in Hn. rewrite prefixb_app in Hn. discriminate.
Qed.

Lemma drop_trailing_sp_cons c l :
  Ascii.eqb c SP = false ->
  drop_trailing_sp (c :: l) = c :: drop_trailing_sp l.
Proof.
  intros Hc. induction l as [|d l IH] using rev_ind.
  - unfold drop_trailing_sp. cbn [rev app drop_sp]. rewrite Hc. reflexivity.
  - change (c :: l ++ [d]) with ((c :: l) ++ [d]).
    rewrite !drop_trailing_sp_snoc.
    destruct (Ascii.eqb d SP); [exact IH|reflexivity].
Qed.

Lemma drop_sp_head l : hd NUL (drop_sp l) <> SP.
Proof.
  induction l as [|c l IH]; [discriminate|].
  cbn [drop_sp]. destruct (Ascii.eqb c SP) eqn:E; [exact IH|].
  cbn [hd]. apply Ascii.eqb_neq. exact E.
Qed.

Lemma drop_trailing_sp_head l :
  hd NUL l <> SP -> hd NUL (drop_trailing_sp l) <> SP.
Proof.
  destruct l as [|c l]; [intros _; discriminate|].
  cbn [hd]. intros Hc. apply Ascii.eqb_neq in Hc.
  rewrite drop_trailing_sp_cons by exact Hc. cbn [hd].
  apply Ascii.eqb_neq. exact Hc.
Qed.

Lemma drop_trailing_sp_last l : last (drop_trailing_sp l) NUL <> SP.
Proof.
  induction l as [|c l IH] using rev_ind; [discriminate|].
  rewrite drop_trailing_sp_snoc. destruct (Ascii.eqb c SP) eqn:E;
    [exact IH|].
  rewrite last_last. apply Ascii.eqb_neq. exact E.
Qed.

Lemma trimmed_sublist lead trail v :
  exists a n, trimmed lead trail v = firstn n (skipn a v).
Proof.
  unfold trimmed.
  set (v1 := if lead then drop_sp v else v).
  assert (H1 : exists a, v1 = skipn a v).
  { subst v1. destruct lead.
    - eexists. symmetry. apply drop_sp_skipn.
    - exists O. reflexivity. }
  destruct H1 as [a ->].
  destruct trail.
  - exists a, (length (drop_trailing_sp (skipn a v))).
    symmetry. apply drop_trailing_sp_firstn.
  - exists a, (length (skipn a v)). symmetry. apply firstn_all.
Qed.

(** X6. [nn_ws_match_value] reports the text that stands between the
    cursor and the first occurrence of the terminating sequence in the
    string, without its leading and trailing spaces when they are to be
    ignored; the cursor moves just past that occurrence. Without an
    occurrence it returns NOMATCH, stores NULL and 0 and leaves the cursor.
    On MATCH the address stored is never NULL, also for an empty value; the
    value holds no terminating sequence, and it neither starts nor ends
    with a space that was to be ignored. *)
Theorem match_value_spec (termseq buf : list ascii) (subj : nat)
    (ignore_leading_sp ignore_trailing_sp : bool) :
  let s := cstring buf subj in
  match find_sub termseq s with
  | None =>
    nn_ws_match_value termseq buf subj ignore_leading_sp ignore_trailing_sp
    = (NN_WS_HANDSHAKE_NOMATCH, subj, null_slice)
  | Some k =>
    exists v,
      let value :=
        trimmed ignore_leading_sp ignore_trailing_sp (firstn k s) in
      nn_ws_match_value termseq buf subj ignore_leading_sp ignore_trailing_sp
      = (NN_WS_HANDSHAKE_MATCH, (subj + k + length termseq)%nat, v) /\
      sl_ptr v <> None /\
      sl_len v = length value /\
      slice_value buf v = value /\
      (termseq <> [] -> ~ occurs termseq value) /\
      (ignore_leading_sp = true -> hd NUL value <> SP) /\
      (ignore_trailing_sp = true -> last value NUL <> SP)
  end.
Proof.
  intros s.
  pose proof (match_value_reports termseq buf subj ignore_leading_sp
                ignore_trailing_sp) as H.
  cbv zeta in H. fold s in H.
  destruct (find_sub termseq s) as [k|] eqn:Ek; [|exact H].
  destruct H as (v & Hv & Hp & Hl & Hval).
  exists v. cbv zeta.
  split; [exact Hv|]. split; [rewrite Hp; discriminate|].
  split; [exact Hl|]. split; [exact Hval|].
  split; [|split].
  - intros Ht Hocc.
    destruct (trimmed_sublist ignore_leading_sp ignore_trailing_sp
                (firstn k s)) as (a & n & E).
    rewrite E in Hocc. apply occurs_sublist in Hocc.
    exact (no_occurrence_before _ _ _ Ht Ek Hocc).
  - intros ->. unfold trimmed. destruct ignore_trailing_sp.
    + apply drop_trailing_sp_head, drop_sp_head.
    + apply drop_sp_head.
  - intros ->. unfold trimmed. apply drop_trailing_sp_last.
Qed.

(** ** Value validation and the SP map *)

Lemma validate_loop_cs expected buf :
  forall p,
    (p + length expected <= strlen buf 0)%nat ->
    is_match (validate_loop false expected buf p) = true <->
    expected = mem buf p (length expected).
Proof.
  induction expected as [|e es IH]; intros p Hp; cbn [validate_loop length].
  - split; reflexivity.
  - cbn [length] in Hp. pose proof (strlen_le buf) as Hle.
    rewrite rd_in_string by lia.
    rewrite mem_cons by lia.
    destruct (Ascii.eqb e (rd buf p)) eqn:E; cbn [negb].
    + apply Ascii.eqb_eq in E. rewrite IH by lia.
      split; [intros <-; rewrite E; reflexivity|].
      intros H. injection H as _ H. exact H.
    + apply Ascii.eqb_neq in E. split; [discriminate|].
      intros H. injection H as H _. contradiction.
Qed.

(** X7. For an expected string of ASCII characters, [nn_ws_validate_value]
    returns MATCH exactly when the [subj_len] octets at [subj], which hold
    no NUL, are the expected string: the same octets, or the same up to
    the case of letters when the comparison is to ignore case. A value of
    another length never matches. *)
Theorem validate_value_spec (expected buf : list ascii) (subj subj_len : nat)
    (case_insensitive : bool) :
  Forall ascii7 expected ->
  (subj + subj_len <= strlen buf 0)%nat ->
  nn_ws_validate_value expected buf subj subj_len case_insensitive
    = NN_WS_HANDSHAKE_MATCH <->
  if case_insensitive
  then map tolower expected = map tolower (mem buf subj subj_len)
  else expected = mem buf subj subj_len.
Proof.
  intros _ Hp.
  assert (Hm : forall rc, rc = NN_WS_HANDSHAKE_MATCH <-> is_match rc = true)
    by (intros []; cbn; split; congruence).
  rewrite Hm. destruct case_insensitive.
  - apply validate_value_ci. exact Hp.
  - unfold nn_ws_validate_value.
    destruct (length expected =? subj_len)%nat eqn:E; cbn [negb].
    + apply Nat.eqb_eq in E. subst subj_len.
      apply validate_loop_cs. exact Hp.
    + apply Nat.eqb_neq in E. split; [discriminate|].
      intros H. apply (f_equal (@length ascii)) in H.
      rewrite length_mem in H by (pose proof (strlen_le buf); lia).
      contradiction.
Qed.

Lemma validate_value_spec_witness :
  nn_ws_validate_value (cs "websocket") (cs "WebSocket" ++ [NUL]) 0 9 true
  = NN_WS_HANDSHAKE_MATCH.
Proof.
  apply (validate_value_spec (cs "websocket") (cs "WebSocket" ++ [NUL])
           0 9 true).
  - repeat constructor; unfold ascii7; vm_compute; reflexivity.
  - vm_compute. lia.
  - vm_compute. reflexivity.
Defined.

Lemma sp_map_token_in map sp tok :
  sp_map_token map sp = Some tok -> In (sp, tok) map.
Proof.
  induction map as [|[sp' t] map IH]; cbn [sp_map_token]; [discriminate|].
  destruct (sp_id_eq_dec sp' sp) as [->|_].
  - intros H. injection H as ->. left. reflexivity.
  - intros H. right. apply IH. exact H.
Qed.

Lemma sp_map_token_none map sp tok :
  sp_map_token map sp = None -> ~ In (sp, tok) map.
Proof.
  induction map as [|[sp' t] map IH]; cbn [sp_map_token In]; [tauto|].
  destruct (sp_id_eq_dec sp' sp) as [->|N]; [discriminate|].
  intros H [E|Hin]; [injection E as E _; contradiction|].
  exact (IH H Hin).
Qed.

Lemma sp_map_lookup_found buf p l sp tok :
  In (sp, tok) NN_WS_HANDSHAKE_SP_MAP ->
  (p + l <= strlen buf 0)%nat ->
  ci_equal tok (mem buf p l) ->
  sp_map_lookup NN_WS_HANDSHAKE_SP_MAP buf p l = Some sp.
Proof.
  intros Hin Hp Heq.
  destruct (sp_map_lookup NN_WS_HANDSHAKE_SP_MAP buf p l) as [sp'|] eqn:E.
  - apply sp_map_lookup_some in E. destruct E as (tok' & Hin' & Hm).
    apply validate_value_ci in Hm; [|exact Hp].
    unfold ci_equal in *.
    assert (H : (sp', tok') = (sp, tok)).
    { apply sp_map_distinct; [exact Hin'|exact Hin|].
      cbn [snd]. congruence. }
    injection H as -> _. reflexivity.
  - exfalso. pose proof (sp_map_lookup_none _ _ _ _ E sp tok Hin) as H.
    apply validate_value_ci in Heq; [|exact Hp]. congruence.
Qed.

Lemma sp_map_token_unique sp tok :
  In (sp, tok) NN_WS_HANDSHAKE_SP_MAP ->
  sp_map_token NN_WS_HANDSHAKE_SP_MAP sp = Some tok.
Proof.
  intros Hin. cbn [NN_WS_HANDSHAKE_SP_MAP In] in Hin.
  repeat (destruct Hin as [Hin|Hin];
          [injection Hin as <- <-; vm_compute; reflexivity|]).
  contradiction.
Qed.

(** X8. The table of SP socket types serves the request generator and the
    request parser alike: the token the generator finds for a socket type
    is recognised by the parser, in any case of its letters, as that same
    socket type; whatever the parser recognises is the token of the socket
    type it reports; and the generator finds no token exactly for a socket
    type that is none of the ten. *)
Theorem sp_map_roundtrip :
  (forall sp tok buf p l,
     sp_map_token NN_WS_HANDSHAKE_SP_MAP sp = Some tok ->
     (p + l <= strlen buf 0)%nat ->
     ci_equal tok (mem buf p l) ->
     sp_map_lookup NN_WS_HANDSHAKE_SP_MAP buf p l = Some sp) /\
  (forall sp buf p l,
     (p + l <= strlen buf 0)%nat ->
     sp_map_lookup NN_WS_HANDSHAKE_SP_MAP buf p l = Some sp ->
     exists tok,
       sp_map_token NN_WS_HANDSHAKE_SP_MAP sp = Some tok /\
       ci_equal tok (mem buf p l)) /\
  (forall sp,
     sp_map_token NN_WS_HANDSHAKE_SP_MAP sp = None <->
     exists n, sp = NN_PROTO_UNKNOWN n).
Proof.
  split; [|split].
  - intros sp tok buf p l Htok Hp Heq.
    apply sp_map_lookup_found with tok; [|exact Hp|exact Heq].
    apply sp_map_token_in. exact Htok.
  - intros sp buf p l Hp H. apply sp_map_lookup_some in H.
    destruct H as (tok & Hin & Hm). exists tok. split.
    + apply sp_map_token_unique. exact Hin.
    + apply validate_value_ci in Hm; [exact Hm|exact Hp].
  - intros sp. split.
    + destruct sp; try (vm_compute; discriminate).
      intros _. eexists. reflexivity.
    + intros [n ->]. reflexivity.
Qed.

(** ** The parsers: bounds, frame, verdicts and aborts *)

Lemma same_but_parsed_refl self : same_but_parsed self self.
Proof. intros g c. reflexivity. Qed.

Lemma same_but_parsed_scanned G c0 self :
  same_but_parsed (set_slices G (set_response_code c0 self)) self.
Proof. intros g c. destruct self. reflexivity. Qed.

Lemma same_but_parsed_code c self self0 :
  same_but_parsed self self0 ->
  same_but_parsed (set_response_code c self) self0.
Proof.
  intros H g c'. rewrite <- (H g c'). destruct self. reflexivity.
Qed.

Lemma same_but_parsed_slices G self :
  same_but_parsed (set_slices G self) self.
Proof. intros g c. destruct self. reflexivity. Qed.

Lemma validate_client_opening_codes scanned :
  (fst (validate_client_opening scanned) = NN_WS_HANDSHAKE_VALID /\
   snd (validate_client_opening scanned)
   = set_response_code NN_WS_HANDSHAKE_RESPONSE_OK scanned) \/
  (fst (validate_client_opening scanned) = NN_WS_HANDSHAKE_INVALID /\
   exists c, In c PARSE_FAILURE_CODES /\
     snd (validate_client_opening scanned) = set_response_code c scanned).
Proof.
  unfold validate_client_opening, reply, PARSE_FAILURE_CODES.
  repeat match goal with
         | |- context [match ptr scanned ?g with _ => _ end] =>
           destruct (ptr scanned g)
         | |- context [match sp_map_lookup ?a ?b ?c ?d with _ => _ end] =>
           destruct (sp_map_lookup a b c d)
         | |- context [if ?b then _ else _] => destruct b
         end; cbn [fst snd];
    first [left; split; reflexivity
          |right; split; [reflexivity|eexists; split; [|reflexivity];
                          cbn [In]; tauto]].
Qed.

Lemma hs_response_code_set c self :
  hs_response_code (set_response_code c self) = c.
Proof. reflexivity. Qed.

(** X9. The request parser is safe and keeps to its own fields. Whenever it
    returns, the object differs from what it was at most in the parsed
    values and the response code. When it returns VALID or INVALID, every
    value it may have captured lies inside the string held by the buffer,
    VALID comes with the response code OK, and INVALID with one of WSPROTO,
    WSVERSION, NOTPEER and UNKNOWNTYPE. It stops the process in two cases
    only: the buffer holds no NUL, or octets follow the empty line that
    ends the header block. *)
Theorem parse_client_opening_safe (self : nn_ws_handshake) :
  let buf := hs_opening_hs self in
  match nn_ws_handshake_parse_client_opening self with
  | Done (rc, parsed) =>
    same_but_parsed parsed self /\
    match rc with
    | NN_WS_HANDSHAKE_RECV_MORE => True
    | NN_WS_HANDSHAKE_VALID =>
      slices_in buf CLIENT_OPENING_RESET (hs_slices parsed) /\
      hs_response_code parsed = NN_WS_HANDSHAKE_RESPONSE_OK
    | NN_WS_HANDSHAKE_INVALID =>
      slices_in buf CLIENT_OPENING_RESET (hs_slices parsed) /\
      In (hs_response_code parsed) PARSE_FAILURE_CODES
    end
  | Abort why =>
    (why = ASSERT_NO_NUL /\ existsb is_nul buf = false) \/
    (why = ASSERT_TRAILING_DATA /\ existsb is_nul buf = true /\
     occurs NN_WS_HANDSHAKE_TERMSEQ buf /\
     exists pos parsed,
       scan_client_opening self = LOOP_EXIT pos parsed /\
       (0 < strlen buf pos)%nat)
  end.
Proof.
  intros buf. unfold nn_ws_handshake_parse_client_opening. fold buf.
  destruct (existsb is_nul buf) eqn:Hnul; cbn [nn_assert bind];
    [|left; split; reflexivity].
  pose proof (nul_strlen buf Hnul) as Hlt.
  apply Nat.ltb_lt in Hlt. rewrite Hlt. cbn [nn_assert bind].
  destruct (strstr buf 0 NN_WS_HANDSHAKE_TERMSEQ) as [e|] eqn:Hterm;
    [|split; [apply same_but_parsed_refl|exact I]].
  pose proof (scan_client_opening_inv self) as Hinv. cbv zeta in Hinv.
  fold buf in Hinv.
  destruct (scan_client_opening self) as [p|pos p|] eqn:Hscan;
    [|
     |contradiction].
  - split; [|exact I]. rewrite Hinv. apply same_but_parsed_scanned.
  - destruct Hinv as (Hpos & Hp & Hin).
    destruct (strlen buf pos =? 0)%nat eqn:Hend; cbn [nn_assert bind].
    + pose proof (validate_client_opening_codes p) as Hv.
      destruct (validate_client_opening p) as [rc parsed].
      cbn [fst snd] in Hv.
      assert (Hsl : forall c, parsed = set_response_code c p ->
                same_but_parsed parsed self /\
                slices_in buf CLIENT_OPENING_RESET (hs_slices parsed)).
      { intros c ->. split.
        - apply same_but_parsed_code. rewrite Hp.
          apply same_but_parsed_scanned.
        - rewrite hs_slices_set_response_code. exact Hin. }
      destruct Hv as [[-> Hp']|[-> (c & Hc & Hp')]].
      * destruct (Hsl _ Hp') as [H1 H2]. split; [exact H1|].
        split; [exact H2|]. rewrite Hp'. reflexivity.
      * destruct (Hsl _ Hp') as [H1 H2]. split; [exact H1|].
        split; [exact H2|]. rewrite Hp', hs_response_code_set. exact Hc.
    + right. split; [reflexivity|]. split; [reflexivity|].
      split; [apply (strstr_occurs _ _ _ Hterm)|].
      exists pos, p. split; [reflexivity|].
      apply Nat.eqb_neq in Hend. lia.
Qed.

(** X10. The response parser is safe and keeps to its own fields. Whenever
    it returns, the object differs from what it was at most in the parsed
    values; when it returns VALID or INVALID, every value it may have
    captured lies inside the string held by the buffer. It stops the
    process in two cases only: the buffer holds no NUL, or octets follow
    the empty line that ends the header block. *)
Theorem parse_server_response_safe (self : nn_ws_handshake) :
  let buf := hs_response self in
  match nn_ws_handshake_parse_server_response self with
  | Done (rc, parsed) =>
    same_but_parsed parsed self /\
    hs_response_code parsed = hs_response_code self /\
    (rc <> NN_WS_HANDSHAKE_RECV_MORE ->
     slices_in buf SERVER_RESPONSE_RESET (hs_slices parsed))
  | Abort why =>
    (why = ASSERT_NO_NUL /\ existsb is_nul buf = false) \/
    (why = ASSERT_TRAILING_DATA /\ existsb is_nul buf = true /\
     occurs NN_WS_HANDSHAKE_TERMSEQ buf /\
     exists pos parsed,
       scan_server_response self = LOOP_EXIT pos parsed /\
       (0 < strlen buf pos)%nat)
  end.
Proof.
  intros buf. unfold nn_ws_handshake_parse_server_response. fold buf.
  destruct (existsb is_nul buf) eqn:Hnul; cbn [nn_assert bind];
    [|left; split; reflexivity].
  pose proof (nul_strlen buf Hnul) as Hlt.
  apply Nat.ltb_lt in Hlt. rewrite Hlt. cbn [nn_assert bind].
  destruct (strstr buf 0 NN_WS_HANDSHAKE_TERMSEQ) as [e|] eqn:Hterm;
    [|split; [apply same_but_parsed_refl|split; [reflexivity|]];
      intros H; contradiction].
  pose proof (scan_server_response_inv self) as Hinv. cbv zeta in Hinv.
  fold buf in Hinv.
  destruct (scan_server_response self) as [p|pos p|] eqn:Hscan;
    [|
     |contradiction].
  - rewrite Hinv. split; [apply same_but_parsed_slices|].
    split; [reflexivity|]. intros H. contradiction.
  - destruct Hinv as (Hpos & Hp & Hin).
    destruct (strlen buf pos =? 0)%nat eqn:Hend; cbn [nn_assert bind].
    + split; [rewrite Hp; apply same_but_parsed_slices|].
      split; [rewrite Hp; reflexivity|]. intros _. exact Hin.
    + right. split; [reflexivity|]. split; [reflexivity|].
      split; [apply (strstr_occurs _ _ _ Hterm)|].
      exists pos, p. split; [reflexivity|].
      apply Nat.eqb_neq in Hend. lia.
Qed.

(** ** The state machine: transitions, failures, ownership *)

Lemma same_but_parsed_fields a b :
  same_but_parsed a b ->
  hs_state a = hs_state b /\ hs_mode a = hs_mode b /\
  hs_usock_owned a = hs_usock_owned b /\ hs_timer a = hs_timer b /\
  hs_opening_hs a = hs_opening_hs b /\ hs_response a = hs_response b /\
  hs_recv_pos a = hs_recv_pos b /\ hs_recv_len a = hs_recv_len b /\
  hs_pipebase a = hs_pipebase b /\
  hs_expected_accept_key a = hs_expected_accept_key b.
Proof.
  intros H.
  specialize (H (fun _ => null_slice) NN_WS_HANDSHAKE_RESPONSE_NULL).
  repeat split.
  - apply (f_equal hs_state) in H. exact H.
  - apply (f_equal hs_mode) in H. exact H.
  - apply (f_equal hs_usock_owned) in H. exact H.
  - apply (f_equal hs_timer) in H. exact H.
  - apply (f_equal hs_opening_hs) in H. exact H.
  - apply (f_equal hs_response) in H. exact H.
  - apply (f_equal hs_recv_pos) in H. exact H.
  - apply (f_equal hs_recv_len) in H. exact H.
  - apply (f_equal hs_pipebase) in H. exact H.
  - apply (f_equal hs_expected_accept_key) in H. exact H.
Qed.

Lemma parse_client_opening_frame self rc parsed :
  nn_ws_handshake_parse_client_opening self = Done (rc, parsed) ->
  same_but_parsed parsed self.
Proof.
  unfold nn_ws_handshake_parse_client_opening.
  destruct (existsb _ _); cbn [nn_assert bind]; [|discriminate].
  destruct (_ <? _)%nat; cbn [nn_assert bind]; [|discriminate].
  destruct (strstr _ _ _);
    [|intros H; injection H as _ <-; apply same_but_parsed_refl].
  pose proof (scan_client_opening_inv self) as Hinv. cbv zeta in Hinv.
  destruct (scan_client_opening self) as [p|pos p|]; [| |discriminate].
  - intros H. injection H as _ <-. rewrite Hinv.
    apply same_but_parsed_scanned.
  - destruct (_ =? _)%nat; cbn [nn_assert bind]; [|discriminate].
    destruct Hinv as (_ & Hp & _).
    intros H. injection H as H.
    pose proof (validate_client_opening_codes p) as Hv.
    rewrite H in Hv. cbn [fst snd] in Hv.
    assert (Hc : exists c, parsed = set_response_code c p).
    { destruct Hv as [[_ ->]|[_ (c & _ & ->)]]; eexists; reflexivity. }
    destruct Hc as [c ->]. apply same_but_parsed_code. rewrite Hp.
    apply same_but_parsed_scanned.
Qed.

Lemma parse_server_response_frame self rc parsed :
  nn_ws_handshake_parse_server_response self = Done (rc, parsed) ->
  same_but_parsed parsed self.
Proof.
  unfold nn_ws_handshake_parse_server_response.
  destruct (existsb _ _); cbn [nn_assert bind]; [|discriminate].
  destruct (_ <? _)%nat; cbn [nn_assert bind]; [|discriminate].
  destruct (strstr _ _ _);
    [|intros H; injection H as _ <-; apply same_but_parsed_refl].
  pose proof (scan_server_response_inv self) as Hinv. cbv zeta in Hinv.
  destruct (scan_server_response self) as [p|pos p|]; [| |discriminate].
  - intros H. injection H as _ <-. rewrite Hinv.
    apply same_but_parsed_slices.
  - destruct (_ =? _)%nat; cbn [nn_assert bind]; [|discriminate].
    destruct Hinv as (_ & Hp & _).
    intros H. injection H as _ <-. rewrite Hp.
    apply same_but_parsed_slices.
Qed.

(** The fields that say whose instance this is: they are the same in [a]
    and [b]. *)
Lemma server_reply_role m self self' effs :
  nn_ws_handshake_server_reply m self = Done (self', effs) ->
  hs_mode self' = hs_mode self /\
  hs_usock_owned self' = hs_usock_owned self.
Proof.
  unfold nn_ws_handshake_server_reply.
  match goal with
  | |- bind ?t _ = _ -> _ => destruct t as [text|]; [|discriminate]
  end.
  cbn [bind]. destruct (sprintf _ _) as [r|]; [|discriminate].
  cbn [bind]. intros H. injection H as <- _. split; reflexivity.
Qed.

Lemma client_request_role m self self' effs :
  nn_ws_handshake_client_request m self = Done (self', effs) ->
  hs_mode self' = hs_mode self /\
  hs_usock_owned self' = hs_usock_owned self.
Proof.
  unfold nn_ws_handshake_client_request.
  destruct (base64_encode _ _) as [|n k]; [discriminate|].
  destruct (nn_assert _ _); cbn [bind]; [|discriminate].
  destruct (nn_ws_handshake_hash_key _ _ _ _) as [|n' e]; [discriminate|].
  destruct (nn_assert _ _); cbn [bind]; [|discriminate].
  destruct (sp_map_token _ _); [|discriminate].
  destruct (sprintf _ _); cbn [bind]; [|discriminate].
  intros H. injection H as <- _. split; reflexivity.
Qed.

Lemma recv_more_role buf self self' :
  recv_more buf self = Done self' ->
  hs_mode self' = hs_mode self /\
  hs_usock_owned self' = hs_usock_owned self.
Proof.
  unfold recv_more.
  destruct (nn_assert _ _); cbn [bind]; [|discriminate].
  destruct (nn_assert _ _); cbn [bind]; [|discriminate].
  destruct (nn_assert _ _); cbn [bind]; [|discriminate].
  intros H. injection H as <-. split; reflexivity.
Qed.

Lemma nn_timer_stop_role self :
  hs_mode (nn_timer_stop self) = hs_mode self /\
  hs_usock_owned (nn_timer_stop self) = hs_usock_owned self /\
  hs_state (nn_timer_stop self) = hs_state self.
Proof. unfold nn_timer_stop. destruct (hs_timer self); auto. Qed.

Lemma stop_timer_and_enter_role s self self' effs :
  stop_timer_and_enter s self = Done (self', effs) ->
  hs_mode self' = hs_mode self /\
  hs_usock_owned self' = hs_usock_owned self /\
  hs_state self' = s /\ effs = [TIMER_STOP].
Proof.
  unfold stop_timer_and_enter. intros H. injection H as <- <-.
  destruct (nn_timer_stop_role self) as (H1 & H2 & _).
  cbn [hs_mode hs_usock_owned hs_state set_state]. auto.
Qed.

Lemma common_events_role self ev self' effs :
  common_events self ev = Done (self', effs) ->
  hs_mode self' = hs_mode self /\
  hs_usock_owned self' = hs_usock_owned self /\
  ((hs_state self' = hs_state self /\ effs = []) \/
   (hs_state self' = NN_WS_HANDSHAKE_STATE_STOPPING_TIMER_ERROR /\
    effs = [TIMER_STOP])).
Proof.
  unfold common_events.
  destruct ev as [a|u|t|]; try discriminate;
    [destruct u|destruct t]; try discriminate; intros H;
    try (apply stop_timer_and_enter_role in H;
         destruct H as (H1 & H2 & H3 & H4); auto).
  injection H as <- <-. auto.
Qed.

(** What a handler step does to the mode, the state, the ownership of
    the socket and the trace. *)
Lemma handler_step m self ev self' effs :
  nn_ws_handshake_handler m self ev = Done (self', effs) ->
  hs_mode self' = hs_mode self /\
  In (hs_state self') (successors (hs_mode self) (hs_state self)) /\
  swaps effs = published effs /\
  hs_usock_owned self' = hs_usock_owned self && (published effs =? 0)%nat.
Proof.
  intros H.
  assert (Hquiet : forall (s' : nn_ws_handshake) f,
    hs_usock_owned s' = hs_usock_owned self ->
    swaps f = O -> published f = O ->
    swaps f = published f /\
    hs_usock_owned s' = hs_usock_owned self && (published f =? 0)%nat).
  { intros s' f H1 H2 H3. rewrite H2, H3, H1, andb_true_r. auto. }
  assert (Hcommon : forall s' f,
    common_events self ev = Done (s', f) ->
    In (hs_state self) (successors (hs_mode self) (hs_state self)) ->
    In NN_WS_HANDSHAKE_STATE_STOPPING_TIMER_ERROR
      (successors (hs_mode self) (hs_state self)) ->
    hs_mode s' = hs_mode self /\
    In (hs_state s') (successors (hs_mode self) (hs_state self)) /\
    swaps f = published f /\
    hs_usock_owned s' = hs_usock_owned self && (published f =? 0)%nat).
  { intros s' f Hc Hself Herr. apply common_events_role in Hc.
    destruct Hc as (H1 & H2 & [[H3 ->]|[H3 ->]]); rewrite H3;
      (split; [exact H1|]); (split; [assumption|]);
      apply Hquiet; auto. }
  assert (Hstop : forall st s s' f,
    stop_timer_and_enter st s = Done (s', f) ->
    hs_mode s = hs_mode self -> hs_usock_owned s = hs_usock_owned self ->
    In st (successors (hs_mode self) (hs_state self)) ->
    hs_mode s' = hs_mode self /\
    In (hs_state s') (successors (hs_mode self) (hs_state self)) /\
    swaps f = published f /\
    hs_usock_owned s' = hs_usock_owned self && (published f =? 0)%nat).
  { intros st s s' f Hc Hm Ho Hin. apply stop_timer_and_enter_role in Hc.
    destruct Hc as (H1 & H2 & H3 & ->). rewrite H3.
    split; [congruence|]. split; [exact Hin|].
    apply Hquiet; [congruence|reflexivity|reflexivity]. }
  assert (Hreply : forall s s' f,
    nn_ws_handshake_server_reply m s = Done (s', f) ->
    hs_mode s = hs_mode self -> hs_usock_owned s = hs_usock_owned self ->
    In (hs_state s) (successors (hs_mode self) (hs_state self)) ->
    hs_mode s' = hs_mode self /\
    In (hs_state s') (successors (hs_mode self) (hs_state self)) /\
    swaps f = published f /\
    hs_usock_owned s' = hs_usock_owned self && (published f =? 0)%nat).
  { intros s s' f Hc Hm Ho Hin.
    destruct (server_reply_role _ _ _ _ Hc) as [H1 H2].
    apply server_reply_effects in Hc. destruct Hc as [H3 [d ->]].
    rewrite H3. split; [congruence|]. split; [exact Hin|].
    apply Hquiet; [congruence|reflexivity|reflexivity]. }
  unfold nn_ws_handshake_handler in H, Hcommon.
  destruct (hs_state self) eqn:Est.
  - (* IDLE *)
    destruct ev as [[]|u|t|]; try discriminate.
    destruct (nn_assert _ _); cbn [bind] in H; [|discriminate].
    destruct (nn_assert _ _); cbn [bind] in H; [|discriminate].
    change (hs_mode (nn_timer_start self)) with (hs_mode self) in H.
    destruct (hs_mode self) eqn:Em; [| |discriminate].
    + destruct (nn_assert _ _); cbn [bind] in H; [|discriminate].
      match type of H with
      | bind ?t _ = _ => destruct t as [[s1 f1]|] eqn:Ec; [|discriminate]
      end.
      cbn [bind] in H. injection H as <- <-.
      destruct (client_request_role _ _ _ _ Ec) as [H1 H2].
      apply client_request_effects in Ec. destruct Ec as [H3 [d ->]].
      rewrite H3. cbn [hs_state set_state].
      split; [rewrite H1; exact Em|]. split; [left; reflexivity|].
      apply Hquiet; [rewrite H2; reflexivity|reflexivity|reflexivity].
    + destruct (nn_assert _ _); cbn [bind] in H; [|discriminate].
      injection H as <- <-. cbn [hs_state set_state].
      split; [exact Em|]. split; [left; reflexivity|].
      apply Hquiet; reflexivity.
  - (* SERVER_RECV *)
    destruct ev as [a|[]|t|];
      try (apply Hcommon; [exact H|cbn; tauto|cbn; tauto]).
    destruct (nn_ws_handshake_parse_client_opening self) as [[rc p]|] eqn:Ep;
      [|discriminate].
    apply parse_client_opening_frame, same_but_parsed_fields in Ep.
    destruct Ep as (Ps & Pm & Po & _).
    cbn [bind] in H.
    destruct rc.
    + apply (Hreply _ _ _ H); cbn [hs_mode hs_usock_owned hs_state set_state];
        [exact Pm|exact Po|cbn; tauto].
    + destruct (recv_more (hs_opening_hs p) p) as [q|] eqn:Er;
        [|discriminate].
      destruct (recv_more_role _ _ _ Er) as [Qm Qo].
      apply recv_more_state in Er. cbn [bind] in H.
      destruct (_ <? _)%nat.
      * apply (Hreply _ _ _ H);
          cbn [hs_mode hs_usock_owned hs_state set_state set_response_code];
          [congruence|congruence|cbn; tauto].
      * injection H as <- <-.
        cbn [hs_mode hs_usock_owned hs_state set_retries].
        split; [congruence|].
        split; [rewrite Er, Ps, Est; cbn; tauto|].
        apply Hquiet; [cbn [hs_usock_owned set_retries]; congruence
                      |reflexivity|reflexivity].
    + apply (Hreply _ _ _ H); cbn [hs_mode hs_usock_owned hs_state set_state];
        [exact Pm|exact Po|cbn; tauto].
  - (* SERVER_REPLY *)
    destruct ev as [a|[]|t|];
      try (apply Hcommon; [exact H|cbn; tauto|cbn; tauto]).
    apply (Hstop _ _ _ _ H); [reflexivity|reflexivity|cbn; tauto].
  - (* CLIENT_SEND *)
    destruct ev as [a|[]|t|];
      try (apply Hcommon; [exact H|cbn; tauto|cbn; tauto]).
    injection H as <- <-. cbn [hs_mode hs_state set_state].
    split; [reflexivity|]. split; [cbn; tauto|].
    apply Hquiet; reflexivity.
  - (* CLIENT_RECV *)
    destruct ev as [a|[]|t|];
      try (apply Hcommon; [exact H|cbn; tauto|cbn; tauto]).
    destruct (nn_ws_handshake_parse_server_response self) as [[rc p]|] eqn:Ep;
      [|discriminate].
    apply parse_server_response_frame, same_but_parsed_fields in Ep.
    destruct Ep as (Ps & Pm & Po & _).
    cbn [bind] in H.
    destruct rc.
    + apply (Hstop _ _ _ _ H); [exact Pm|exact Po|cbn; tauto].
    + destruct (recv_more (hs_response p) p) as [q|] eqn:Er; [|discriminate].
      destruct (recv_more_role _ _ _ Er) as [Qm Qo].
      apply recv_more_state in Er. cbn [bind] in H.
      destruct (_ <? _)%nat.
      * apply (Hstop _ _ _ _ H); [congruence|congruence|cbn; tauto].
      * injection H as <- <-.
        cbn [hs_mode hs_usock_owned hs_state set_retries].
        split; [congruence|].
        split; [rewrite Er, Ps, Est; cbn; tauto|].
        apply Hquiet; [cbn [hs_usock_owned set_retries]; congruence
                      |reflexivity|reflexivity].
    + apply (Hstop _ _ _ _ H); [exact Pm|exact Po|cbn; tauto].
  - (* HANDSHAKE_SENT *)
    destruct ev as [a|[]|t|];
      try (apply Hcommon; [exact H|cbn; tauto|cbn; tauto]).
    apply (Hstop _ _ _ _ H); [reflexivity|reflexivity|cbn; tauto].
  - (* STOPPING_TIMER_ERROR *)
    destruct ev as [a|u|[]|]; try discriminate.
    + injection H as <- <-. rewrite Est.
      split; [reflexivity|]. split; [cbn; tauto|]. apply Hquiet; reflexivity.
    + injection H as <- <-. cbn [hs_mode hs_state hs_usock_owned
                                  set_state set_usock_owned].
      split; [reflexivity|]. split; [cbn; tauto|].
      split; [reflexivity|]. cbn. rewrite andb_false_r. reflexivity.
  - (* STOPPING_TIMER_DONE *)
    destruct ev as [a|u|[]|]; try discriminate.
    + injection H as <- <-. rewrite Est.
      split; [reflexivity|]. split; [cbn; tauto|]. apply Hquiet; reflexivity.
    + injection H as <- <-. cbn [hs_mode hs_state hs_usock_owned
                                  set_state set_usock_owned].
      split; [reflexivity|]. split; [cbn; tauto|].
      split; [reflexivity|]. cbn. rewrite andb_false_r. reflexivity.
  - discriminate.
  - discriminate.
Qed.

(** X11. The handler keeps to the state graph of the source. A step leaves
    the mode alone and leads only to a state that the graph allows from the
    state it was taken in: a receiving or sending state to itself, to the
    next state of its mode or to STOPPING_TIMER_ERROR; a state that waits
    for the timer to itself or to DONE; DONE and STOPPING accept no event.
    No step enters HANDSHAKE_SENT from another state. *)
Theorem handler_state_graph (m : machine) (self self' : nn_ws_handshake)
    (ev : event) (effs : list effect) :
  nn_ws_handshake_handler m self ev = Done (self', effs) ->
  hs_mode self' = hs_mode self /\
  In (hs_state self') (successors (hs_mode self) (hs_state self)) /\
  (hs_state self' = NN_WS_HANDSHAKE_STATE_HANDSHAKE_SENT ->
   hs_state self = NN_WS_HANDSHAKE_STATE_HANDSHAKE_SENT).
Proof.
  intros H. destruct (handler_step _ _ _ _ _ H) as (Hm & Hin & _).
  split; [exact Hm|]. split; [exact Hin|].
  intros Hs. rewrite Hs in Hin.
  destruct (hs_state self); try reflexivity;
    try (destruct (hs_mode self)); cbn in Hin;
    repeat (destruct Hin as [Hin|Hin]; try discriminate Hin);
    try contradiction.
Qed.

Lemma handler_state_graph_witness :
  exists self' effs,
    nn_ws_handshake_handler machine0 (server_holding [])
      (NN_WS_HANDSHAKE_SRC_TIMER NN_TIMER_TIMEOUT) = Done (self', effs) /\
    In (hs_state self')
       (successors NN_WS_SERVER NN_WS_HANDSHAKE_STATE_SERVER_RECV).
Proof.
  eexists. eexists.
  match goal with
  | |- ?h = Done (?s, ?f) /\ _ =>
    assert (E : h = Done (s, f)) by (vm_compute; reflexivity)
  end.
  split; [exact E|].
  exact (proj1 (proj2 (handler_state_graph _ _ _ _ _ E))).
Defined.

(** ** Runs: who owns the socket, and how failures end *)

Lemma swaps_app a b : swaps (a ++ b) = (swaps a + swaps b)%nat.
Proof. unfold swaps. rewrite filter_app, length_app. reflexivity. Qed.

Lemma visited_closed mode s s' :
  In s (visited mode) -> In s' (successors mode s) -> In s' (visited mode).
Proof.
  destruct mode, s; cbn; intros H H';
    repeat (destruct H as [H|H]; try discriminate H); try contradiction;
    repeat (destruct H' as [H'|H']; [rewrite <- H'; tauto|]);
    try contradiction.
Qed.

Lemma shutdown_role self ev self' effs :
  nn_ws_handshake_shutdown self ev = Done (self', effs) ->
  hs_mode self' = hs_mode self /\
  hs_usock_owned self' = hs_usock_owned self /\
  swaps effs = O /\ published effs = O /\
  (hs_state self' = NN_WS_HANDSHAKE_STATE_STOPPING \/
   hs_state self' = NN_WS_HANDSHAKE_STATE_IDLE).
Proof.
  intros H. destruct (shutdown_effects _ _ _ _ H) as [Hp Hs].
  unfold nn_ws_handshake_shutdown in H.
  destruct (match ev with
            | NN_FSM_ACTION NN_FSM_STOP => _
            | _ => _
            end) as [s f] eqn:E.
  assert (Hf : hs_mode s = hs_mode self /\
               hs_usock_owned s = hs_usock_owned self /\ swaps f = O).
  { destruct (nn_timer_stop_role self) as (H1 & H2 & _).
    destruct ev as [[]|u|t|]; injection E as <- <-;
      cbn [hs_mode hs_usock_owned set_state]; auto. }
  destruct Hf as (H1 & H2 & H3).
  destruct (state_eqb (hs_state s) NN_WS_HANDSHAKE_STATE_STOPPING);
    [|discriminate].
  destruct (negb (nn_timer_isidle s)); injection H as <- <-.
  - auto.
  - cbn [hs_mode hs_usock_owned set_state]. rewrite swaps_app, H3. auto.
Qed.

Lemma step_feed_role m self i :
  i <> IN_STOP ->
  exists self0,
    hs_state self0 = hs_state self /\ hs_mode self0 = hs_mode self /\
    hs_usock_owned self0 = hs_usock_owned self /\
    step m self i = nn_fsm_feed m self0 (fed_event i).
Proof.
  intros Hi. destruct i as [|[] data|[]]; try contradiction;
    cbn [step fed_event];
    try (exists self; repeat split; reflexivity).
  - exists (usock_deliver self data).
    split; [apply usock_deliver_state|].
    unfold usock_deliver. destruct (hs_mode self) eqn:E;
      cbn [hs_mode hs_usock_owned set_opening_hs set_response];
      repeat split; auto.
  - exists (set_timer TIMER_IDLE self). repeat split; reflexivity.
Qed.

Lemma step_owner_inv m mode self i self' effs trace :
  owner_inv mode self trace -> step m self i = Done (self', effs) ->
  owner_inv mode self' (trace ++ effs).
Proof.
  intros (Hm & Hv & Hsw & Ho) Hstep.
  assert (Hvis : In NN_WS_HANDSHAKE_STATE_STOPPING (visited mode) /\
                 In NN_WS_HANDSHAKE_STATE_IDLE (visited mode)).
  { unfold visited. split; apply in_or_app; right; cbn; tauto. }
  assert (Hshut : forall s ev,
    hs_mode s = hs_mode self -> hs_usock_owned s = hs_usock_owned self ->
    nn_ws_handshake_shutdown s ev = Done (self', effs) ->
    owner_inv mode self' (trace ++ effs)).
  { intros s ev Hsm Hso H. apply shutdown_role in H.
    destruct H as (H1 & H2 & H3 & H4 & H5).
    unfold owner_inv. rewrite swaps_app, published_app, H3, H4, !Nat.add_0_r.
    split; [congruence|].
    split; [destruct H5 as [->| ->]; apply Hvis|].
    split; [exact Hsw|congruence]. }
  destruct (input_eq_stop i) as [->|Hi].
  { apply (Hshut self _ eq_refl eq_refl Hstep). }
  destruct (step_feed_role m self i Hi) as (s0 & Hs0 & Hm0 & Ho0 & Heq).
  rewrite Heq in Hstep. clear Heq. unfold nn_fsm_feed in Hstep.
  destruct (state_eqb (hs_state s0) NN_WS_HANDSHAKE_STATE_STOPPING).
  { apply (Hshut s0 _ Hm0 Ho0 Hstep). }
  apply handler_step in Hstep. destruct Hstep as (H1 & H2 & H3 & H4).
  unfold owner_inv. rewrite swaps_app, published_app, H3.
  split; [congruence|].
  split; [apply (visited_closed mode (hs_state self));
          [exact Hv|rewrite <- Hs0, <- Hm, <- Hm0; exact H2]|].
  split; [lia|].
  rewrite H4, Ho0, Ho.
  destruct (published trace), (published effs); reflexivity.
Qed.

Lemma run_owner_inv m mode inputs :
  forall self trace,
    owner_inv mode self trace ->
    swaps (trace ++ fst (run m self inputs))
    = (1 + published (trace ++ fst (run m self inputs)))%nat /\
    (forall self',
       snd (run m self inputs) = Done self' ->
       owner_inv mode self' (trace ++ fst (run m self inputs))).
Proof.
  induction inputs as [|i inputs IH]; intros self trace Hinv; cbn [run].
  - cbn [fst snd]. rewrite app_nil_r.
    split; [apply Hinv|]. intros self' H. injection H as <-. exact Hinv.
  - destruct (step m self i) as [[s1 effs]|why] eqn:Hstep.
    + pose proof (step_owner_inv m mode self i s1 effs trace Hinv Hstep)
        as H1.
      specialize (IH s1 (trace ++ effs) H1).
      destruct (run m s1 inputs) as [tr r]. cbn [fst snd] in *.
      rewrite app_assoc. exact IH.
    + cbn [fst snd]. rewrite app_nil_r.
      split; [apply Hinv|]. discriminate.
Qed.

Lemma start_owner_inv m self pipebase mode resource host self1 effs :
  nn_ws_handshake_start m self pipebase mode resource host
    = Done (self1, effs) ->
  owner_inv mode self1 effs.
Proof.
  intros Hstart. pose proof (start_run_inv _ _ _ _ _ _ _ _ Hstart) as Hrun.
  unfold nn_ws_handshake_start in Hstart.
  destruct (match mode with NN_WS_CLIENT => _ | _ => _ end);
    cbn [bind] in Hstart; [|discriminate].
  destruct (nn_assert _ ASSERT_OWNER); cbn [bind] in Hstart; [|discriminate].
  destruct (match mode with NN_WS_SERVER => _ | _ => _ end) as [rl|];
    cbn [bind] in Hstart; [|discriminate].
  match type of Hstart with
  | bind (nn_ws_handshake_handler m ?s _) _ = _ =>
    set (s0 := s) in *;
    assert (Hmode : hs_mode s0 = mode) by reflexivity;
    assert (Hown : hs_usock_owned s0 = true) by reflexivity;
    clearbody s0
  end.
  destruct (nn_ws_handshake_handler m s0 (NN_FSM_ACTION NN_FSM_START))
    as [[s1 e1]|] eqn:Eh; cbn [bind] in Hstart; [|discriminate].
  injection Hstart as <- <-.
  assert (Hidle : hs_state s0 = NN_WS_HANDSHAKE_STATE_IDLE).
  { unfold nn_ws_handshake_handler in Eh.
    destruct (hs_state s0); try discriminate; reflexivity. }
  apply handler_step in Eh. destruct Eh as (H1 & H2 & H3 & H4).
  rewrite Hidle, Hmode in H2.
  assert (Hw : working (hs_state s1) = true).
  { destruct mode; cbn in H2; try contradiction;
      destruct H2 as [<-|[]]; reflexivity. }
  assert (Hp : published (USOCK_SWAP_OWNER :: e1) = O).
  { destruct Hrun as (_ & _ & Hq & _). apply Hq. exact Hw. }
  assert (Hp1 : published e1 = O) by exact Hp.
  unfold owner_inv.
  split; [congruence|].
  split; [unfold visited; apply in_or_app; left;
          destruct mode; cbn in H2 |- *; tauto|].
  split.
  - change (swaps (USOCK_SWAP_OWNER :: e1)) with (S (swaps e1)).
    rewrite H3, Hp, Hp1. reflexivity.
  - rewrite H4, Hown, Hp, Hp1. reflexivity.
Qed.

(** X12. The socket changes hands once when the instance is started and
    once more with each result it publishes, and at no other time. In
    every run of a started instance the owner was swapped one more time
    than results were published; the instance holds the socket exactly
    until it has published its result; and it stays in its mode and in the
    states of that mode (never HANDSHAKE_SENT). An instance its owner stops
    before it is done keeps the socket. *)
Theorem socket_ownership (m : machine) (self : nn_ws_handshake)
    (pipebase : nn_pipebase) (mode : mode_t) (resource host : list ascii)
    (started : nn_ws_handshake) (effs0 : list effect)
    (inputs : list input) :
  nn_ws_handshake_start m (nn_ws_handshake_init self) pipebase mode
    resource host = Done (started, effs0) ->
  let trace := effs0 ++ fst (run m started inputs) in
  swaps trace = (1 + published trace)%nat /\
  (forall final,
     snd (run m started inputs) = Done final ->
     hs_mode final = mode /\
     In (hs_state final) (visited mode) /\
     hs_state final <> NN_WS_HANDSHAKE_STATE_HANDSHAKE_SENT /\
     hs_usock_owned final = (published trace =? 0)%nat).
Proof.
  intros Hstart trace.
  apply start_owner_inv in Hstart.
  destruct (run_owner_inv m mode inputs started effs0 Hstart) as [H1 H2].
  split; [exact H1|].
  intros final Hfinal. destruct (H2 final Hfinal) as (Hm & Hv & _ & Ho).
  split; [exact Hm|]. split; [exact Hv|]. split; [|exact Ho].
  intros E. rewrite E in Hv. destruct mode; cbn in Hv;
    repeat (destruct Hv as [Hv|Hv]; try discriminate Hv);
    try contradiction.
Qed.

Lemma socket_ownership_witness :
  exists started effs0,
    nn_ws_handshake_start machine0 (nn_ws_handshake_init (blank 256 256))
      pair_sock NN_WS_SERVER [] [] = Done (started, effs0) /\
    swaps (effs0 ++
           fst (run machine0 started
                  [IN_USOCK NN_USOCK_ERROR []; IN_TIMER NN_TIMER_STOPPED]))
    = 2%nat.
Proof.
  eexists. eexists. split; [vm_compute; reflexivity|].
  match goal with
  | |- swaps (?e ++ fst (run _ ?s ?i)) = _ =>
    destruct (socket_ownership machine0 (blank 256 256) pair_sock
                NN_WS_SERVER [] [] s e i) as [H _];
      [vm_compute; reflexivity|]
  end.
  rewrite H. vm_compute. reflexivity.
Defined.

Lemma run_cons m self i inputs s1 effs :
  step m self i = Done (s1, effs) ->
  run m self (i :: inputs)
  = (effs ++ fst (run m s1 inputs), snd (run m s1 inputs)).
Proof.
  intros H. cbn [run]. rewrite H. destruct (run m s1 inputs). reflexivity.
Qed.

(** Once the timer was told to stop, socket events change nothing, and
    the timer's STOPPED publishes the result of the state. *)
Lemma run_waiting m rc :
  forall noise self,
    (hs_state self = NN_WS_HANDSHAKE_STATE_STOPPING_TIMER_ERROR /\
     rc = NN_WS_HANDSHAKE_ERROR) \/
    (hs_state self = NN_WS_HANDSHAKE_STATE_STOPPING_TIMER_DONE /\
     rc = NN_WS_HANDSHAKE_OK) ->
    forallb is_usock_input noise = true ->
    exists final,
      run m self (noise ++ [IN_TIMER NN_TIMER_STOPPED])
      = ([USOCK_SWAP_OWNER; FSM_RAISE_DONE rc], Done final) /\
      hs_state final = NN_WS_HANDSHAKE_STATE_DONE /\
      hs_usock_owned final = false.
Proof.
  induction noise as [|i noise IH]; intros self Hs Hn.
  - cbn [app]. eexists.
    rewrite (run_cons m self _ []
               (fst (nn_ws_handshake_leave (set_timer TIMER_IDLE self) rc))
               [USOCK_SWAP_OWNER; FSM_RAISE_DONE rc]).
    + cbn [run fst snd app]. split; [reflexivity|]. split; reflexivity.
    + cbn [step]. unfold nn_fsm_feed, nn_ws_handshake_handler.
      cbn [hs_state set_timer].
      destruct Hs as [[-> ->]|[-> ->]]; reflexivity.
  - cbn [forallb] in Hn. apply andb_true_iff in Hn. destruct Hn as [Hi Hn].
    destruct i as [|t d|]; try discriminate Hi.
    assert (Hstep : exists s1, step m self (IN_USOCK t d) = Done (s1, []) /\
                               hs_state s1 = hs_state self).
    { assert (H : forall s0, hs_state s0 = hs_state self ->
                nn_fsm_feed m s0 (NN_WS_HANDSHAKE_SRC_USOCK t)
                = Done (s0, [])).
      { intros s0 E. unfold nn_fsm_feed, nn_ws_handshake_handler.
        rewrite E. destruct Hs as [[-> _]|[-> _]]; reflexivity. }
      destruct t; cbn [step];
        try (exists self; split; [apply H|]; reflexivity).
      exists (usock_deliver self d).
      split; [apply H|]; apply usock_deliver_state. }
    destruct Hstep as (s1 & Hstep & Hs1).
    destruct (IH s1) as (final & Hrun & Hf); [rewrite Hs1; exact Hs|exact Hn|].
    exists final. cbn [app]. rewrite (run_cons _ _ _ _ _ _ Hstep), Hrun.
    split; [reflexivity|exact Hf].
Qed.

(** X13. A failure ends in ERROR from every state in which the handshake
    is in progress. When the socket reports an error or the timer runs out,
    the handler asks the timer to stop; socket events that still arrive
    are ignored; and the timer's STOPPED publishes ERROR, enters DONE and
    gives the socket back. *)
Theorem failure_ends_in_error (m : machine) (self : nn_ws_handshake)
    (first : input) (noise : list input) :
  working (hs_state self) = true ->
  (exists d, first = IN_USOCK NN_USOCK_ERROR d) \/
  first = IN_TIMER NN_TIMER_TIMEOUT ->
  forallb is_usock_input noise = true ->
  exists final,
    run m self (first :: noise ++ [IN_TIMER NN_TIMER_STOPPED])
    = ([TIMER_STOP; USOCK_SWAP_OWNER;
        FSM_RAISE_DONE NN_WS_HANDSHAKE_ERROR], Done final) /\
    hs_state final = NN_WS_HANDSHAKE_STATE_DONE /\
    hs_usock_owned final = false.
Proof.
  intros Hw Hfirst Hn.
  assert (Hstep : step m self first
                  = Done (set_state NN_WS_HANDSHAKE_STATE_STOPPING_TIMER_ERROR
                            (nn_timer_stop self), [TIMER_STOP])).
  { destruct Hfirst as [[d ->]| ->]; cbn [step];
      unfold nn_fsm_feed, nn_ws_handshake_handler;
      destruct (hs_state self); try discriminate Hw; reflexivity. }
  destruct (run_waiting m NN_WS_HANDSHAKE_ERROR noise
              (set_state NN_WS_HANDSHAKE_STATE_STOPPING_TIMER_ERROR
                 (nn_timer_stop self)))
    as (final & Hrun & Hf); [left; split; reflexivity|exact Hn|].
  exists final. rewrite (run_cons _ _ _ _ _ _ Hstep), Hrun.
  split; [reflexivity|exact Hf].
Qed.

Lemma failure_ends_in_error_witness :
  exists final,
    run machine0 (server_holding [])
      [IN_TIMER NN_TIMER_TIMEOUT; IN_USOCK NN_USOCK_SHUTDOWN [];
       IN_TIMER NN_TIMER_STOPPED]
    = ([TIMER_STOP; USOCK_SWAP_OWNER;
        FSM_RAISE_DONE NN_WS_HANDSHAKE_ERROR], Done final) /\
    hs_state final = NN_WS_HANDSHAKE_STATE_DONE /\
    hs_usock_owned final = false.
Proof.
  apply (failure_ends_in_error machine0 (server_holding [])
           (IN_TIMER NN_TIMER_TIMEOUT) [IN_USOCK NN_USOCK_SHUTDOWN []]).
  - reflexivity.
  - right. reflexivity.
  - reflexivity.
Defined.

(** ** The server's answer to a request it rejects *)

Lemma no_nul_sublist (l : list ascii) a n :
  existsb is_nul l = false ->
  existsb is_nul (firstn n (skipn a l)) = false.
Proof.
  intros H. apply not_true_iff_false. intros E.
  apply existsb_exists in E. destruct E as (c & Hin & Hc).
  apply not_true_iff_false in H. apply H. apply existsb_exists.
  exists c. split; [|exact Hc].
  rewrite <- (firstn_skipn a l). apply in_or_app. right.
  rewrite <- (firstn_skipn n (skipn a l)). apply in_or_app. left.
  exact Hin.
Qed.

Lemma slice_value_no_nul buf v :
  slice_in buf v -> existsb is_nul (slice_value buf v) = false.
Proof.
  unfold slice_in, slice_value. destruct (sl_ptr v) as [p|]; [|reflexivity].
  intros H. rewrite <- (Nat.add_0_l p), mem_cstring by exact H.
  apply no_nul_sublist, until_nul_no_nul.
Qed.

Lemma slice_string_in buf v :
  slice_in buf v -> slice_string buf v = Done (slice_value buf v).
Proof.
  intros H. pose proof (slice_value_no_nul buf v H) as Hn.
  unfold slice_string, slice_octets, slice_value, slice_in in *.
  destruct (sl_ptr v) as [p|].
  - cbn [bind]. rewrite until_nul_id by exact Hn. reflexivity.
  - rewrite H. reflexivity.
Qed.

Lemma failure_code_text c code :
  failure_code c = Done code ->
  existsb is_nul code = false /\ c <> NN_WS_HANDSHAKE_RESPONSE_OK /\
  prefixb (cs "400 ") code = true.
Proof.
  destruct c; cbn [failure_code]; try discriminate;
    intros H; injection H as <-; repeat split; discriminate.
Qed.

Lemma failure_reply_no_nul code version :
  existsb is_nul code = false -> existsb is_nul version = false ->
  existsb is_nul (failure_reply code version) = false.
Proof.
  intros Hc Hv. unfold failure_reply.
  rewrite !existsb_nul_app, Hc, Hv. reflexivity.
Qed.

Lemma server_reply_failure m s code :
  failure_code (hs_response_code s) = Done code ->
  slice_in (hs_opening_hs s) (hs_slices s F_version) ->
  let text :=
    failure_reply code (slice_value (hs_opening_hs s) (hs_slices s F_version))
  in
  if (length text + 1 <=? length (hs_response s))%nat
  then exists s1,
         nn_ws_handshake_server_reply m s = Done (s1, [USOCK_SEND text]) /\
         hs_state s1 = hs_state s /\
         firstn (length text + 1) (hs_response s1) = text ++ [NUL]
  else nn_ws_handshake_server_reply m s = Abort BUFFER_OVERRUN.
Proof.
  intros Hcode Hin text.
  destruct (failure_code_text _ _ Hcode) as (Hcn & Hok & _).
  assert (Htn : existsb is_nul text = false).
  { apply failure_reply_no_nul; [exact Hcn|].
    apply slice_value_no_nul. exact Hin. }
  unfold nn_ws_handshake_server_reply.
  cbn [hs_response_code set_response hs_opening_hs hs_slices hs_response].
  destruct (hs_response_code s) eqn:Ec; try contradiction;
    try discriminate Hcode;
    rewrite Hcode; cbn [bind];
    rewrite slice_string_in by exact Hin; cbn [bind];
    fold text; unfold sprintf; rewrite repeat_length;
    (destruct (length text + 1 <=? length (hs_response s))%nat;
     [|reflexivity]);
    cbn [bind hs_response set_response];
    (eexists; split;
     [unfold cstring; cbn [skipn app];
      rewrite (until_nul_app text) by exact Htn; reflexivity
     |split; [reflexivity|];
      cbn [hs_response set_response];
      change (text ++ NUL :: ?r) with (text ++ [NUL] ++ r);
      rewrite app_assoc;
      rewrite firstn_app, firstn_all2
        by (rewrite length_app; cbn [length]; lia);
      replace (length text + 1 - length (text ++ [NUL]))%nat with O
        by (rewrite length_app; cbn [length]; lia);
      cbn [firstn]; rewrite app_nil_r; reflexivity]).
Qed.

(** X14. A request that the parser rejects is answered with the 400 reply
    for its response code, which quotes the client's version value and
    does not end in an empty line. The text is stored without a check of
    its length: it overruns [response] when that buffer cannot take it and
    its NUL. And once the reply is sent, the handshake ends like an
    accepted one: the timer's STOPPED publishes OK, not ERROR. *)
Theorem rejected_request_ends_ok (m : machine)
    (self parsed : nn_ws_handshake) :
  hs_state self = NN_WS_HANDSHAKE_STATE_SERVER_RECV ->
  nn_ws_handshake_parse_client_opening self
    = Done (NN_WS_HANDSHAKE_INVALID, parsed) ->
  exists code,
    failure_code (hs_response_code parsed) = Done code /\
    prefixb (cs "400 ") code = true /\
    let text :=
      cs "HTTP/1.1 " ++ code ++ NN_WS_HANDSHAKE_CRLF ++
      cs "Sec-WebSocket-Version: " ++
      value (hs_opening_hs self) parsed F_version ++ NN_WS_HANDSHAKE_CRLF in
    if (length text + 1 <=? length (hs_response self))%nat
    then
      exists replied,
        nn_ws_handshake_handler m self
          (NN_WS_HANDSHAKE_SRC_USOCK NN_USOCK_RECEIVED)
        = Done (replied, [USOCK_SEND text]) /\
        hs_state replied = NN_WS_HANDSHAKE_STATE_SERVER_REPLY /\
        forall d noise,
          forallb is_usock_input noise = true ->
          exists final,
            run m replied
              (IN_USOCK NN_USOCK_SENT d ::
               noise ++ [IN_TIMER NN_TIMER_STOPPED])
            = ([TIMER_STOP; USOCK_SWAP_OWNER;
                FSM_RAISE_DONE NN_WS_HANDSHAKE_OK], Done final) /\
            hs_state final = NN_WS_HANDSHAKE_STATE_DONE
    else
      nn_ws_handshake_handler m self
        (NN_WS_HANDSHAKE_SRC_USOCK NN_USOCK_RECEIVED)
      = Abort BUFFER_OVERRUN.
Proof.
  intros Hstate Hparse.
  pose proof (parse_client_opening_frame _ _ _ Hparse) as Hframe.
  apply same_but_parsed_fields in Hframe.
  destruct Hframe as (_ & _ & _ & _ & Hbuf & Hresp & _).
  destruct (parse_client_opening_decided _ _ _ Hparse ltac:(discriminate))
    as (pos & scanned & Hparsed & Hval).
  destruct Hparsed as (_ & _ & Hscan & _).
  destruct (parsed_frame_client self pos scanned Hscan) as (_ & _ & Hin).
  pose proof (validate_client_opening_codes scanned) as Hcodes.
  rewrite Hval in Hcodes. cbn [fst snd] in Hcodes.
  destruct Hcodes as [[E _]|[_ (c & Hc & Hp)]]; [discriminate E|].
  assert (Hcode : exists code, failure_code c = Done code).
  { cbn [PARSE_FAILURE_CODES In] in Hc.
    destruct Hc as [<-|[<-|[<-|[<-|[]]]]]; eexists; reflexivity. }
  destruct Hcode as [code Hcode].
  assert (Hrc : hs_response_code parsed = c) by (rewrite Hp; reflexivity).
  assert (Hsl : hs_slices parsed = hs_slices scanned)
    by (rewrite Hp; apply hs_slices_set_response_code).
  exists code. rewrite Hrc. split; [exact Hcode|].
  split; [apply (failure_code_text _ _ Hcode)|].
  set (replying := set_state NN_WS_HANDSHAKE_STATE_SERVER_REPLY parsed).
  assert (Hh : nn_ws_handshake_handler m self
                 (NN_WS_HANDSHAKE_SRC_USOCK NN_USOCK_RECEIVED)
               = nn_ws_handshake_server_reply m replying).
  { unfold nn_ws_handshake_handler. rewrite Hstate, Hparse. reflexivity. }
  pose proof (server_reply_failure m replying code) as Hreply.
  cbn [hs_response_code hs_opening_hs hs_slices hs_response hs_state
       replying set_state] in Hreply.
  rewrite Hrc, Hbuf, Hresp, Hsl in Hreply.
  specialize (Hreply Hcode (Hin F_version ltac:(cbn; tauto))).
  cbv zeta in Hreply |- *.
  unfold value. rewrite Hsl. unfold failure_reply in Hreply.
  destruct (_ <=? _)%nat.
  - destruct Hreply as (s1 & Hr & Hs1 & _).
    exists s1. rewrite Hh. split; [exact Hr|]. split; [exact Hs1|].
    intros d noise Hn.
    assert (Hstep : step m s1 (IN_USOCK NN_USOCK_SENT d)
                    = Done (set_state
                              NN_WS_HANDSHAKE_STATE_STOPPING_TIMER_DONE
                              (nn_timer_stop s1), [TIMER_STOP])).
    { cbn [step]. unfold nn_fsm_feed, nn_ws_handshake_handler.
      rewrite Hs1. reflexivity. }
    destruct (run_waiting m NN_WS_HANDSHAKE_OK noise
                (set_state NN_WS_HANDSHAKE_STATE_STOPPING_TIMER_DONE
                   (nn_timer_stop s1)))
      as (final & Hrun & Hf & _); [right; split; reflexivity|exact Hn|].
    exists final. rewrite (run_cons _ _ _ _ _ _ Hstep), Hrun.
    split; [reflexivity|exact Hf].
  - rewrite Hh. exact Hreply.
Qed.

Lemma rejected_request_ends_ok_witness :
  exists code,
    failure_code NN_WS_HANDSHAKE_RESPONSE_WSVERSION = Done code /\
    prefixb (cs "400 ") code = true.
Proof.
  pose (self := server_holding (sample_request "12" [])).
  pose (parsed := set_response_code NN_WS_HANDSHAKE_RESPONSE_WSVERSION
                    (scanned (scan_client_opening self) self)).
  destruct (rejected_request_ends_ok machine0 self parsed)
    as (code & Hc & Hp & _).
  - reflexivity.
  - vm_compute. reflexivity.
  - exists code. split; [exact Hc|exact Hp].
Defined.

(** ** The size of the next receive *)

Lemma termseq_scan_spec buf pos :
  forall i,
    let r := termseq_scan i buf pos in
    (r <= i)%nat /\
    firstn r NN_WS_HANDSHAKE_TERMSEQ = mem buf (pos - r) r /\
    forall j, (r < j <= i)%nat ->
      firstn j NN_WS_HANDSHAKE_TERMSEQ <> mem buf (pos - j) j.
Proof.
  induction i as [|i IH]; cbn [termseq_scan]; unfold memcmp_eq.
  - cbn [firstn ascii_list_eqb]. unfold mem, ascii_list_eqb.
    cbn [firstn]. destruct (list_eq_dec ascii_dec [] []); [|contradiction].
    split; [lia|]. split; [reflexivity|]. intros j Hj. lia.
  - destruct (ascii_list_eqb _ _) eqn:E.
    + apply ascii_list_eqb_eq in E. split; [lia|]. split; [exact E|].
      intros j Hj. lia.
    + cbv zeta in IH. destruct IH as (H1 & H2 & H3).
      split; [lia|]. split; [exact H2|].
      intros j Hj. destruct (Nat.eq_dec j (S i)) as [->|Hne].
      * intros Heq. apply ascii_list_eqb_eq in Heq. congruence.
      * apply H3. lia.
Qed.

Lemma mem_firstn buf pos j :
  (j <= pos)%nat ->
  mem buf (pos - j) j = skipn (pos - j) (firstn pos buf).
Proof.
  intros Hj. unfold mem. rewrite firstn_skipn_comm.
  replace (pos - j + j)%nat with pos by lia. reflexivity.
Qed.

Lemma occurs_within (t received more pre post : list ascii) :
  pre ++ t ++ post = received ++ more ->
  (length pre + length t <= length received)%nat ->
  occurs t received.
Proof.
  intros Heq Hlen.
  apply (f_equal (firstn (length received))) in Heq.
  rewrite (firstn_app _ received), firstn_all, Nat.sub_diag in Heq.
  cbn [firstn] in Heq. rewrite app_nil_r in Heq.
  rewrite app_assoc, firstn_app in Heq.
  rewrite firstn_all2 in Heq by (rewrite length_app; lia).
  exists pre, (firstn (length received - length (pre ++ t)) post).
  rewrite app_assoc. symmetry. exact Heq.
Qed.

(** X15. How much the handler receives next. When the octets received so
    far hold no CRLFCRLF, the handler finds the longest end of them that
    is a beginning of CRLFCRLF and asks for as many octets as are missing
    from it, between one and four. So the next receive cannot run past the
    end of the header block: no CRLFCRLF can be complete before its last
    octet; and it is not too short either: if the stream brings the rest
    of the terminator, the receive ends exactly with it. None of the three
    assertions on the way fails. *)
Theorem next_receive_stops_at_terminator (buf : list ascii)
    (self : nn_ws_handshake) :
  let pos := (hs_recv_pos self + hs_recv_len self)%nat in
  let received := firstn pos buf in
  (NN_WS_HANDSHAKE_TERMSEQ_LEN <= pos < length buf)%nat ->
  ~ occurs NN_WS_HANDSHAKE_TERMSEQ received ->
  exists self',
    recv_more buf self = Done self' /\
    hs_recv_pos self' = pos /\
    (1 <= hs_recv_len self' <= NN_WS_HANDSHAKE_TERMSEQ_LEN)%nat /\
    (forall more,
       (length more < hs_recv_len self')%nat ->
       ~ occurs NN_WS_HANDSHAKE_TERMSEQ (received ++ more)) /\
    (exists pre,
       received ++
       skipn (NN_WS_HANDSHAKE_TERMSEQ_LEN - hs_recv_len self')
         NN_WS_HANDSHAKE_TERMSEQ
       = pre ++ NN_WS_HANDSHAKE_TERMSEQ).
Proof.
  intros pos received Hpos Hno.
  change NN_WS_HANDSHAKE_TERMSEQ_LEN with 4%nat in *.
  assert (Hlr : length received = pos)
    by (subst received; rewrite length_firstn; lia).
  pose proof (termseq_scan_spec buf pos 4) as Hscan. cbv zeta in Hscan.
  set (r := termseq_scan 4 buf pos) in *.
  destruct Hscan as (Hr4 & Hr & Hmax).
  rewrite mem_firstn in Hr by lia. fold received in Hr.
  assert (Hsplit : received = firstn (pos - r) received
                              ++ firstn r NN_WS_HANDSHAKE_TERMSEQ).
  { rewrite Hr. symmetry. apply firstn_skipn. }
  assert (Hr3 : (r < 4)%nat).
  { destruct (Nat.eq_dec r 4) as [E|]; [|lia]. exfalso. apply Hno.
    exists (firstn (pos - r) received), []. rewrite app_nil_r.
    rewrite E in Hsplit at 2. exact Hsplit. }
  unfold recv_more. cbn [hs_recv_pos set_recv_pos]. fold pos.
  change NN_WS_HANDSHAKE_TERMSEQ_LEN with 4%nat. fold r.
  destruct (pos <? length buf)%nat eqn:E1; [|apply Nat.ltb_ge in E1; lia].
  destruct (4 <=? pos)%nat eqn:E2; [|apply Nat.leb_gt in E2; lia].
  destruct (r <? 4)%nat eqn:E3; [|apply Nat.ltb_ge in E3; lia].
  cbn [nn_assert bind]. eexists. split; [reflexivity|].
  cbn [hs_recv_pos hs_recv_len set_recv_len set_recv_pos].
  split; [reflexivity|]. split; [lia|]. split.
  - intros more Hmore (pre & post & Heq). symmetry in Heq.
    destruct (Nat.le_gt_cases (length pre + 4) pos) as [Hin|Hout].
    { apply Hno. apply (occurs_within _ _ _ _ _ Heq).
      change (length NN_WS_HANDSHAKE_TERMSEQ) with 4%nat. lia. }
    assert (Hall : (length pre + 4 <= pos + length more)%nat).
    { apply (f_equal (@length ascii)) in Heq.
      rewrite !length_app in Heq.
      change (length NN_WS_HANDSHAKE_TERMSEQ) with 4%nat in Heq. lia. }
    set (j := (pos - length pre)%nat).
    apply (Hmax j); [lia|].
    rewrite mem_firstn by lia. fold received.
    replace (pos - j)%nat with (length pre) by lia.
    apply (f_equal (skipn (length pre))) in Heq.
    rewrite skipn_app, skipn_all, Nat.sub_diag in Heq.
    cbn [skipn app] in Heq.
    rewrite skipn_app in Heq.
    replace (length pre - length received)%nat with O in Heq by lia.
    cbn [skipn] in Heq.
    apply (f_equal (firstn j)) in Heq.
    rewrite firstn_app in Heq.
    change (length NN_WS_HANDSHAKE_TERMSEQ) with 4%nat in Heq.
    replace (j - 4)%nat with O in Heq by lia.
    cbn [firstn] in Heq. rewrite app_nil_r in Heq.
    rewrite Heq, firstn_app.
    rewrite firstn_all2 by (rewrite length_skipn; lia).
    replace (j - length (skipn (length pre) received))%nat with O
      by (rewrite length_skipn; lia).
    cbn [firstn]. rewrite app_nil_r. reflexivity.
  - exists (firstn (pos - r) received).
    replace (4 - (4 - r))%nat with r by lia.
    rewrite Hsplit at 1. rewrite <- app_assoc, firstn_skipn. reflexivity.
Qed.

Lemma next_receive_stops_at_terminator_witness :
  exists self',
    recv_more (hs_opening_hs (server_holding (cs "GET / HTTP/1.1" ++ [CR])))
      (set_recv_len 15 (set_recv_pos 0
         (server_holding (cs "GET / HTTP/1.1" ++ [CR])))) = Done self' /\
    hs_recv_len self' = 3%nat.
Proof.
  destruct (next_receive_stops_at_terminator
              (hs_opening_hs (server_holding (cs "GET / HTTP/1.1" ++ [CR])))
              (set_recv_len 15 (set_recv_pos 0
                 (server_holding (cs "GET / HTTP/1.1" ++ [CR])))))
    as (self' & Hr & _).
  - vm_compute. lia.
  - apply find_sub_none. vm_compute. reflexivity.
  - exists self'. split; [exact Hr|].
    vm_compute in Hr. injection Hr as <-. reflexivity.
Defined.

(** ** Reading a known text *)

Lemma free_of_spec c l : free_of c l = true <-> Forall (fun x => x <> c) l.
Proof.
  unfold free_of. rewrite forallb_forall, Forall_forall.
  split; intros H x Hx; specialize (H x Hx).
  - apply negb_true_iff, Ascii.eqb_neq in H. exact H.
  - apply negb_true_iff, Ascii.eqb_neq. exact H.
Qed.

Lemma free_of_app c a b : free_of c (a ++ b) = free_of c a && free_of c b.
Proof. unfold free_of. apply forallb_app. Qed.

Lemma free_of_nul l : free_of NUL l = negb (existsb is_nul l).
Proof.
  induction l as [|x l IH]; [reflexivity|].
  unfold free_of in *. cbn [forallb existsb]. rewrite IH.
  unfold is_nul. destruct (Ascii.eqb x NUL); reflexivity.
Qed.

Lemma cstring_app_skip buf pos a b :
  cstring buf pos = a ++ b -> cstring buf (pos + length a) = b.
Proof.
  unfold cstring. intros H.
  rewrite Nat.add_comm, <- skipn_skipn.
  rewrite until_nul_skipn by (rewrite H, length_app; lia).
  rewrite H, skipn_app, skipn_all, Nat.sub_diag. reflexivity.
Qed.

Lemma cstring_head buf text rest :
  existsb is_nul text = false ->
  buf = text ++ NUL :: rest -> cstring buf 0 = text.
Proof.
  intros Hn ->. unfold cstring. cbn [skipn]. apply until_nul_app. exact Hn.
Qed.

Lemma starts_with_decided ci token lit rem r :
  decide_start ci token lit = Some r ->
  starts_with ci token (lit ++ rem) = r.
Proof.
  revert lit. induction token as [|a token IH]; intros lit H.
  - cbn in H. injection H as <-. reflexivity.
  - destruct lit as [|b lit]; [discriminate|].
    cbn [decide_start] in H. cbn [app starts_with].
    destruct (same_octet ci a b); cbn [andb].
    + apply IH. exact H.
    + injection H as <-. reflexivity.
Qed.

Lemma match_token_here token buf pos ci rem :
  cstring buf pos = token ++ rem ->
  nn_ws_match_token token buf pos ci false
  = (NN_WS_HANDSHAKE_MATCH, (pos + length token)%nat).
Proof.
  intros H. rewrite match_token_plain, H.
  assert (E : starts_with ci token (token ++ rem) = true).
  { clear. induction token as [|a token IH]; [reflexivity|].
    cbn [app starts_with]. rewrite IH, andb_true_r.
    unfold same_octet. destruct ci; apply Ascii.eqb_refl. }
  rewrite E. reflexivity.
Qed.

Lemma match_token_decided token buf pos ci lit rem r :
  cstring buf pos = lit ++ rem ->
  decide_start ci token lit = Some r ->
  nn_ws_match_token token buf pos ci false
  = if r then (NN_WS_HANDSHAKE_MATCH, (pos + length token)%nat)
    else (NN_WS_HANDSHAKE_NOMATCH, pos).
Proof.
  intros H Hd. rewrite match_token_plain, H.
  rewrite (starts_with_decided _ _ _ _ _ Hd). reflexivity.
Qed.

Lemma match_header_decided hdrs buf pos lit rem r :
  cstring buf pos = lit ++ rem ->
  header_decide hdrs lit = Some r ->
  match_header hdrs buf pos
  = match r with
    | Some (f, n) => Some (f, (pos + n)%nat)
    | None => None
    end.
Proof.
  intros H. induction hdrs as [|[token f] hdrs IH]; cbn [header_decide].
  - intros E. injection E as <-. reflexivity.
  - cbn [match_header].
    destruct (decide_start true token lit) as [[|]|] eqn:Ed; [| |discriminate].
    + intros E. injection E as <-.
      rewrite (match_token_decided _ _ _ _ _ _ _ H Ed). reflexivity.
    + intros E. rewrite (match_token_decided _ _ _ _ _ _ _ H Ed).
      apply IH. exact E.
Qed.

Lemma match_value_at c t buf pos v rest lead trail :
  cstring buf pos = v ++ (c :: t) ++ rest ->
  free_of c v = true ->
  exists sl,
    nn_ws_match_value (c :: t) buf pos lead trail
    = (NN_WS_HANDSHAKE_MATCH, (pos + length v + length (c :: t))%nat, sl) /\
    sl_ptr sl <> None /\
    slice_value buf sl = trimmed lead trail v /\
    cstring buf (pos + length v + length (c :: t)) = rest.
Proof.
  intros H Hfree.
  pose proof (match_value_reports (c :: t) buf pos lead trail) as Hm.
  cbv zeta in Hm. rewrite H in Hm.
  assert (Hf : find_sub (c :: t) (v ++ (c :: t) ++ rest) = Some (length v)).
  { apply find_sub_at. intros j Hj.
    apply free_of_spec in Hfree. rewrite Forall_forall in Hfree.
    rewrite skipn_app.
    replace (j - length v)%nat with O by lia. cbn [skipn].
    destruct (skipn j v) as [|x l] eqn:E.
    - apply (f_equal (@length ascii)) in E. rewrite length_skipn in E.
      cbn [length] in E. lia.
    - cbn [app prefixb].
      assert (Hx : In x v).
      { rewrite <- (firstn_skipn j v), E. apply in_or_app. right.
        left. reflexivity. }
      specialize (Hfree x Hx). apply Ascii.eqb_neq in Hfree.
      rewrite Ascii.eqb_sym, Hfree. reflexivity. }
  rewrite Hf in Hm. destruct Hm as (sl & Hv & Hp & _ & Hval).
  rewrite firstn_app, firstn_all, Nat.sub_diag in Hval.
  cbn [firstn] in Hval. rewrite app_nil_r in Hval.
  exists sl. split; [exact Hv|]. split; [rewrite Hp; discriminate|].
  split; [exact Hval|].
  rewrite <- Nat.add_assoc, <- length_app.
  apply cstring_app_skip. rewrite <- app_assoc. exact H.
Qed.

Lemma drop_sp_free v : free_of SP v = true -> drop_sp v = v.
Proof.
  destruct v as [|c v]; [reflexivity|].
  unfold free_of. cbn [forallb drop_sp]. intros H.
  apply andb_true_iff in H. destruct H as [H _].
  apply negb_true_iff in H. rewrite H. reflexivity.
Qed.

Lemma trimmed_free lead trail v :
  free_of SP v = true -> trimmed lead trail v = v.
Proof.
  intros H. unfold trimmed.
  assert (E : (if lead then drop_sp v else v) = v)
    by (destruct lead; [apply drop_sp_free; exact H|reflexivity]).
  rewrite E. destruct trail; [|reflexivity].
  unfold drop_trailing_sp. rewrite drop_sp_free, rev_involutive;
    [reflexivity|].
  unfold free_of in *. rewrite forallb_forall in *.
  intros x Hx. apply H. apply in_rev. exact Hx.
Qed.

Lemma trimmed_lead_sp trail v :
  trimmed true trail (SP :: v) = trimmed true trail v.
Proof. reflexivity. Qed.

(** One turn of the header loop on a line with a header of the table. *)
Lemma header_loop_field fuel hdrs buf pos self token f val rest :
  cstring buf pos = token ++ SP :: val ++ NN_WS_HANDSHAKE_CRLF ++ rest ->
  header_decide hdrs token = Some (Some (f, length token)) ->
  free_of CR val = true ->
  exists sl pos',
    header_loop (S fuel) hdrs buf pos self
    = header_loop fuel hdrs buf pos' (set_slice f sl self) /\
    sl_ptr sl <> None /\
    slice_value buf sl = trimmed true true val /\
    cstring buf pos' = rest.
Proof.
  intros H Hd Hfree.
  assert (Hlen : (strlen buf pos =? 0)%nat = false).
  { unfold strlen. rewrite H. destruct token; reflexivity. }
  pose proof (cstring_app_skip _ _ _ _ H) as H1.
  change (SP :: val ++ NN_WS_HANDSHAKE_CRLF ++ rest)
    with ((SP :: val) ++ [CR; LF] ++ rest) in H1.
  destruct (match_value_at CR [LF] buf (pos + length token) (SP :: val) rest
              true true H1) as (sl & Hv & Hp & Hval & Hc).
  { unfold free_of in *. cbn [forallb]. rewrite Hfree. reflexivity. }
  exists sl, (pos + length token + length (SP :: val) + length [CR; LF])%nat.
  split; [|split; [exact Hp|split; [exact Hval|exact Hc]]].
  cbn [header_loop]. rewrite Hlen.
  rewrite (match_header_decided _ _ _ token _ _ H Hd).
  change NN_WS_HANDSHAKE_CRLF with [CR; LF]. rewrite Hv.
  reflexivity.
Qed.

(** One turn of the header loop on a line that names no header of the
    table. *)
Lemma header_loop_unknown fuel hdrs buf pos self lit line rest :
  cstring buf pos = (lit ++ line) ++ NN_WS_HANDSHAKE_CRLF ++ rest ->
  header_decide hdrs lit = Some None ->
  decide_start true NN_WS_HANDSHAKE_CRLF lit = Some false ->
  free_of CR (lit ++ line) = true ->
  exists pos',
    header_loop (S fuel) hdrs buf pos self
    = header_loop fuel hdrs buf pos' self /\
    cstring buf pos' = rest.
Proof.
  intros H Hd Hcr Hfree.
  assert (Hlen : (strlen buf pos =? 0)%nat = false).
  { unfold strlen. rewrite H. destruct lit; [discriminate Hcr|reflexivity]. }
  assert (H' : cstring buf pos
               = lit ++ line ++ NN_WS_HANDSHAKE_CRLF ++ rest)
    by (rewrite H, <- app_assoc; reflexivity).
  change (NN_WS_HANDSHAKE_CRLF ++ rest) with ([CR; LF] ++ rest) in H.
  destruct (match_value_at CR [LF] buf pos (lit ++ line) rest true true H
              Hfree) as (sl & Hv & _ & _ & Hc).
  exists (pos + length (lit ++ line) + length [CR; LF])%nat.
  split; [|exact Hc].
  cbn [header_loop]. rewrite Hlen.
  rewrite (match_header_decided _ _ _ lit _ _ H' Hd).
  rewrite (match_token_decided _ _ _ _ lit _ _ H' Hcr).
  change NN_WS_HANDSHAKE_CRLF with [CR; LF]. rewrite Hv. reflexivity.
Qed.

(** The turn of the header loop on the empty line. *)
Lemma header_loop_end fuel hdrs buf pos self rest :
  cstring buf pos = NN_WS_HANDSHAKE_CRLF ++ rest ->
  header_decide hdrs NN_WS_HANDSHAKE_CRLF = Some None ->
  header_loop (S fuel) hdrs buf pos self = LOOP_EXIT (pos + 2) self /\
  cstring buf (pos + 2) = rest.
Proof.
  intros H Hd. split; [|apply (cstring_app_skip _ _ _ _ H)].
  cbn [header_loop].
  assert (Hlen : (strlen buf pos =? 0)%nat = false)
    by (unfold strlen; rewrite H; reflexivity).
  rewrite Hlen.
  rewrite <- (app_nil_r NN_WS_HANDSHAKE_CRLF) in Hd at 1.
  rewrite (match_header_decided _ _ _ NN_WS_HANDSHAKE_CRLF _ _ H)
    by (rewrite app_nil_r in Hd; exact Hd).
  rewrite (match_token_here _ _ _ _ _ H). reflexivity.
Qed.

Lemma encode_char_outside c s :
  outside_base64 c = true -> 0 <= s < 64 -> encode_char s <> c.
Proof.
  unfold outside_base64. intros H Hs.
  apply andb_true_iff in H. destruct H as [_ H].
  rewrite forallb_forall in H.
  specialize (H (Z.to_nat s)).
  rewrite Z2Nat.id in H by lia.
  apply Ascii.eqb_neq, negb_true_iff, H, in_seq. lia.
Qed.

Lemma rfc4648_free c x :
  outside_base64 c = true -> free_of c (rfc4648_base64 x) = true.
Proof.
  intros H.
  assert (He : forall s, 0 <= s < 64 ->
                 negb (Ascii.eqb (encode_char s) c) = true).
  { intros s Hs. apply negb_true_iff, Ascii.eqb_neq.
    apply encode_char_outside; assumption. }
  assert (Hp : negb (Ascii.eqb "="%char c) = true).
  { unfold outside_base64 in H. apply andb_true_iff in H. apply H. }
  pose proof uint8_range as Hr.
  induction x as [|a|a b|a b d x IH] using list_ind3;
    unfold free_of in *; cbn [rfc4648_base64 forallb app];
    rewrite ?He, ?Hp, ?IH; try reflexivity;
    first [apply sextet1_range|apply sextet2_range|apply sextet3_range
          |apply sextet4_range]; auto; lia.
Qed.

Lemma sp_map_plain :
  forallb plain_token NN_WS_HANDSHAKE_SP_MAP = true.
Proof. vm_compute. reflexivity. Qed.

Lemma sp_map_token_plain sp tok :
  sp_map_token NN_WS_HANDSHAKE_SP_MAP sp = Some tok ->
  existsb is_nul tok = false /\ free_of CR tok = true /\
  free_of SP tok = true.
Proof.
  intros H. apply sp_map_token_in in H.
  pose proof sp_map_plain as Hp. rewrite forallb_forall in Hp.
  specialize (Hp _ H). unfold plain_token in Hp. cbn [snd] in Hp.
  apply andb_true_iff in Hp. destruct Hp as [Hp H3].
  apply andb_true_iff in Hp. destruct Hp as [H1 H2].
  rewrite free_of_nul in H1. apply negb_true_iff in H1. auto.
Qed.

(** ** The server reads the request that the client writes *)

Ltac slice_at :=
  repeat (rewrite hs_slices_set_slice;
          match goal with
          | |- context [field_eq_dec ?a ?b] =>
            destruct (field_eq_dec a b);
            [try discriminate|try (exfalso; congruence)]
          end).

Lemma occurs_find_sub t l : occurs t l -> find_sub t l <> None.
Proof. intros H E. exact (find_sub_none _ _ E H). Qed.

Lemma length_opening_request resource host key ws_sp :
  length (opening_request resource host key ws_sp)
  = (140 + length resource + length host + length key + length ws_sp)%nat.
Proof.
  unfold opening_request. rewrite !length_app.
  change (length (cs "GET ")) with 4%nat.
  change (length (cs " HTTP/1.1")) with 9%nat.
  change (length NN_WS_HANDSHAKE_CRLF) with 2%nat.
  change (length NN_WS_HANDSHAKE_TERMSEQ) with 4%nat.
  change (length (cs "Host: ")) with 6%nat.
  change (length (cs "Upgrade: websocket")) with 18%nat.
  change (length (cs "Connection: Upgrade")) with 19%nat.
  change (length (cs "Sec-WebSocket-Key: ")) with 19%nat.
  change (length (cs "Sec-WebSocket-Version: 13")) with 25%nat.
  change (length (cs "Sec-WebSocket-Protocol: ")) with 24%nat.
  lia.
Qed.

Lemma scan_generated_request self resource host key ws_sp extra rest :
  hs_opening_hs self
  = opening_request resource host key ws_sp ++ extra ++ NUL :: rest ->
  existsb is_nul (opening_request resource host key ws_sp ++ extra) = false ->
  free_of SP resource = true -> free_of CR host = true ->
  free_of CR key = true -> free_of CR ws_sp = true ->
  exists pos parsed,
    scan_client_opening self = LOOP_EXIT pos parsed /\
    cstring (hs_opening_hs self) pos = extra /\
    forall f v,
      In (f, v) (request_values resource host key ws_sp) ->
      ptr parsed f <> None /\ value (hs_opening_hs self) parsed f = v.
Proof.
  intros Hbuf Hnul Hres Hhost Hkey Htok.
  set (buf := hs_opening_hs self) in *.
  assert (Hlen : (8 <= length buf)%nat).
  { rewrite Hbuf, length_app, length_opening_request. lia. }
  assert (Hc0 : cstring buf 0 =
    cs "GET " ++ resource ++ [SP] ++ cs "HTTP/1.1" ++ NN_WS_HANDSHAKE_CRLF ++
    cs "Host:" ++ SP :: host ++ NN_WS_HANDSHAKE_CRLF ++
    cs "Upgrade:" ++ SP :: cs "websocket" ++ NN_WS_HANDSHAKE_CRLF ++
    cs "Connection:" ++ SP :: cs "Upgrade" ++ NN_WS_HANDSHAKE_CRLF ++
    cs "Sec-WebSocket-Key:" ++ SP :: key ++ NN_WS_HANDSHAKE_CRLF ++
    cs "Sec-WebSocket-Version:" ++ SP :: cs "13" ++ NN_WS_HANDSHAKE_CRLF ++
    cs "Sec-WebSocket-Protocol:" ++ SP :: ws_sp ++ NN_WS_HANDSHAKE_CRLF ++
    NN_WS_HANDSHAKE_CRLF ++ extra).
  { rewrite (cstring_head buf _ rest Hnul)
      by (rewrite Hbuf, <- app_assoc; reflexivity).
    unfold opening_request. rewrite <- !app_assoc. reflexivity. }
  unfold scan_client_opening. fold buf.
  remember (set_response_code NN_WS_HANDSHAKE_RESPONSE_NULL
              (reset_slices CLIENT_OPENING_RESET self)) as s1 eqn:Hs1.
  clear Hs1.
  rewrite (match_token_here _ _ _ _ _ Hc0).
  apply cstring_app_skip in Hc0.
  destruct (match_value_at SP [] buf _ resource _ false false Hc0 Hres)
    as (sl0 & Hv0 & Hp0 & Hval0 & Hc1).
  rewrite Hv0. cbn [is_match negb].
  rewrite (match_token_here _ _ _ _ _ Hc1).
  apply cstring_app_skip in Hc1.
  rewrite (match_token_here _ _ _ _ _ Hc1).
  apply cstring_app_skip in Hc1.
  replace (S (length buf))
    with (S (S (S (S (S (S (S (S (length buf - 7))))))))) by lia.
  destruct (header_loop_field (S (S (S (S (S (S (S (length buf - 7))))))))
              CLIENT_OPENING_HEADERS buf _ (set_slice F_uri sl0 s1)
              _ F_host _ _ Hc1 eq_refl Hhost)
    as (sl1 & p1 & -> & Hp1 & Hval1 & Hc2).
  destruct (header_loop_field (S (S (S (S (S (S (length buf - 7)))))))
              CLIENT_OPENING_HEADERS buf _
              (set_slice F_host sl1 (set_slice F_uri sl0 s1))
              _ F_upgrade _ _ Hc2 eq_refl eq_refl)
    as (sl2 & p2 & -> & Hp2 & Hval2 & Hc3).
  match goal with
  | |- context [header_loop _ _ _ _ ?s] =>
    destruct (header_loop_field (S (S (S (S (S (length buf - 7))))))
                CLIENT_OPENING_HEADERS buf _ s
                _ F_conn _ _ Hc3 eq_refl eq_refl)
      as (sl3 & p3 & -> & Hp3 & Hval3 & Hc4)
  end.
  match goal with
  | |- context [header_loop _ _ _ _ ?s] =>
    destruct (header_loop_field (S (S (S (S (length buf - 7)))))
                CLIENT_OPENING_HEADERS buf _ s
                _ F_key _ _ Hc4 eq_refl Hkey)
      as (sl4 & p4 & -> & Hp4 & Hval4 & Hc5)
  end.
  match goal with
  | |- context [header_loop _ _ _ _ ?s] =>
    destruct (header_loop_field (S (S (S (length buf - 7))))
                CLIENT_OPENING_HEADERS buf _ s
                _ F_version _ _ Hc5 eq_refl eq_refl)
      as (sl5 & p5 & -> & Hp5 & Hval5 & Hc6)
  end.
  match goal with
  | |- context [header_loop _ _ _ _ ?s] =>
    destruct (header_loop_field (S (S (length buf - 7)))
                CLIENT_OPENING_HEADERS buf _ s
                _ F_protocol _ _ Hc6 eq_refl Htok)
      as (sl6 & p6 & -> & Hp6 & Hval6 & Hc7)
  end.
  match goal with
  | |- context [header_loop _ _ _ _ ?s] =>
    destruct (header_loop_end (S (length buf - 7))
                CLIENT_OPENING_HEADERS buf _ s _ Hc7 eq_refl)
      as (-> & Hc8)
  end.
  eexists. eexists. split; [reflexivity|]. split; [exact Hc8|].
  intros f v Hin. unfold request_values in Hin. cbn [In] in Hin.
  unfold ptr, value.
  repeat (destruct Hin as [Hin|Hin];
          [injection Hin as <- <-; slice_at; split; assumption|]).
  contradiction.
Qed.

Lemma existsb_nul_mid a r : existsb is_nul (a ++ NUL :: r) = true.
Proof.
  rewrite existsb_nul_app. cbn [existsb]. change (is_nul NUL) with true.
  cbn [orb]. apply orb_true_r.
Qed.

Lemma opening_request_no_nul resource host key ws_sp :
  existsb is_nul resource = false -> existsb is_nul host = false ->
  existsb is_nul key = false -> existsb is_nul ws_sp = false ->
  existsb is_nul (opening_request resource host key ws_sp) = false.
Proof.
  intros H1 H2 H3 H4. unfold opening_request.
  rewrite !existsb_nul_app, H1, H2, H3, H4. reflexivity.
Qed.

Lemma opening_request_terminated resource host key ws_sp extra :
  occurs NN_WS_HANDSHAKE_TERMSEQ
    (opening_request resource host key ws_sp ++ extra).
Proof.
  exists (cs "GET " ++ resource ++ cs " HTTP/1.1" ++ NN_WS_HANDSHAKE_CRLF ++
          cs "Host: " ++ host ++ NN_WS_HANDSHAKE_CRLF ++
          cs "Upgrade: websocket" ++ NN_WS_HANDSHAKE_CRLF ++
          cs "Connection: Upgrade" ++ NN_WS_HANDSHAKE_CRLF ++
          cs "Sec-WebSocket-Key: " ++ key ++ NN_WS_HANDSHAKE_CRLF ++
          cs "Sec-WebSocket-Version: 13" ++ NN_WS_HANDSHAKE_CRLF ++
          cs "Sec-WebSocket-Protocol: " ++ ws_sp), extra.
  unfold opening_request. rewrite <- !app_assoc. reflexivity.
Qed.

(** What the request parser makes of a buffer that holds the generated
    request, and nothing after it. *)
Lemma parse_generated_request self resource host key sp ws_sp rest :
  sp_map_token NN_WS_HANDSHAKE_SP_MAP sp = Some ws_sp ->
  existsb is_nul resource = false -> free_of SP resource = true ->
  existsb is_nul host = false -> free_of CR host = true ->
  existsb is_nul key = false -> free_of CR key = true ->
  hs_opening_hs self
  = opening_request resource host key ws_sp ++ NUL :: rest ->
  exists scanned,
    nn_ws_handshake_parse_client_opening self
    = Done (if nn_pipebase_ispeer (hs_pipebase self) sp
            then (NN_WS_HANDSHAKE_VALID,
                  set_response_code NN_WS_HANDSHAKE_RESPONSE_OK scanned)
            else (NN_WS_HANDSHAKE_INVALID,
                  set_response_code NN_WS_HANDSHAKE_RESPONSE_NOTPEER
                    scanned)) /\
    forall f v,
      In (f, v) (request_values resource host key ws_sp) ->
      ptr scanned f <> None /\ value (hs_opening_hs self) scanned f = v.
Proof.
  intros Hsp Hr0 Hr1 Hh0 Hh1 Hk0 Hk1 Hbuf.
  destruct (sp_map_token_plain _ _ Hsp) as (Ht0 & Ht1 & Ht2).
  pose proof (opening_request_no_nul _ _ _ _ Hr0 Hh0 Hk0 Ht0) as Hnul.
  assert (Hbuf' : hs_opening_hs self
                  = opening_request resource host key ws_sp ++ []
                    ++ NUL :: rest) by exact Hbuf.
  assert (Hnul' : existsb is_nul
                    (opening_request resource host key ws_sp ++ []) = false)
    by (rewrite app_nil_r; exact Hnul).
  destruct (scan_generated_request self _ _ _ _ [] rest Hbuf' Hnul'
              Hr1 Hh1 Hk1 Ht1) as (pos & scanned & Hscan & Hcur & Hvals).
  destruct (parsed_frame_client self pos scanned Hscan)
    as (Hsbuf & Hspipe & Hin).
  exists scanned. split; [|exact Hvals].
  set (buf := hs_opening_hs self) in *.
  unfold nn_ws_handshake_parse_client_opening. fold buf.
  assert (Hn : existsb is_nul buf = true)
    by (rewrite Hbuf; apply existsb_nul_mid).
  rewrite Hn. cbn [nn_assert bind].
  pose proof (nul_strlen buf Hn) as Hlt. apply Nat.ltb_lt in Hlt.
  rewrite Hlt. cbn [nn_assert bind].
  assert (Hc0 : cstring buf 0 = opening_request resource host key ws_sp)
    by (apply (cstring_head buf _ rest Hnul Hbuf)).
  unfold strstr. rewrite Hc0.
  pose proof (opening_request_terminated resource host key ws_sp []) as Hocc.
  rewrite app_nil_r in Hocc. apply occurs_find_sub in Hocc.
  destruct (find_sub _ _) as [e|]; [|contradiction]. cbn [option_map].
  rewrite Hscan. unfold strlen at 1. rewrite Hcur.
  cbn [length Nat.eqb nn_assert bind]. f_equal.
  (* the validation *)
  unfold validate_client_opening. rewrite Hsbuf. fold buf. rewrite Hspipe.
  assert (Hv : forall f v,
    In (f, v) (request_values resource host key ws_sp) ->
    exists p, ptr scanned f = Some p /\ value buf scanned f = v /\
              (p + len scanned f <= strlen buf 0)%nat /\
              mem buf p (len scanned f) = v).
  { intros f v Hf. destruct (Hvals f v Hf) as [Hp Hval].
    destruct (ptr scanned f) as [p|] eqn:Ep; [|contradiction].
    exists p. split; [reflexivity|]. split; [exact Hval|].
    assert (Hreset : In f CLIENT_OPENING_RESET).
    { unfold request_values in Hf. cbn [In] in Hf.
      repeat (destruct Hf as [Hf|Hf];
              [injection Hf as <- _; cbn; tauto|]).
      contradiction. }
    specialize (Hin f Hreset). unfold slice_in in Hin.
    unfold ptr in Ep. rewrite Ep in Hin. split; [exact Hin|].
    unfold value, slice_value in Hval. rewrite Ep in Hval. exact Hval. }
  destruct (Hv F_host _ ltac:(unfold request_values; cbn [In]; tauto)) as (ph & -> & _).
  destruct (Hv F_upgrade _ ltac:(unfold request_values; cbn [In]; tauto)) as (pu & -> & _ & Hbu & Hmu).
  destruct (Hv F_conn _ ltac:(unfold request_values; cbn [In]; tauto)) as (pc & -> & _ & Hbc & Hmc).
  destruct (Hv F_key _ ltac:(unfold request_values; cbn [In]; tauto)) as (pk & -> & _).
  destruct (Hv F_version _ ltac:(unfold request_values; cbn [In]; tauto)) as (pv & -> & _ & Hbv & Hmv).
  destruct (Hv F_protocol _ ltac:(unfold request_values; cbn [In]; tauto)) as (pp & -> & _ & Hbp & Hmp).
  assert (M1 : is_match (nn_ws_validate_value (cs "13") buf pv
                           (len scanned F_version) true) = true).
  { apply validate_value_ci; [exact Hbv|]. rewrite Hmv. reflexivity. }
  assert (M2 : is_match (nn_ws_validate_value (cs "websocket") buf pu
                           (len scanned F_upgrade) true) = true).
  { apply validate_value_ci; [exact Hbu|]. rewrite Hmu. reflexivity. }
  assert (M3 : is_match (nn_ws_validate_value (cs "Upgrade") buf pc
                           (len scanned F_conn) true) = true).
  { apply validate_value_ci; [exact Hbc|]. rewrite Hmc. reflexivity. }
  rewrite M1, M2, M3. cbn [negb].
  rewrite (sp_map_lookup_found buf pp (len scanned F_protocol) sp ws_sp).
  - unfold reply. destruct (nn_pipebase_ispeer _ _); reflexivity.
  - apply sp_map_token_in. exact Hsp.
  - exact Hbp.
  - rewrite Hmp, trimmed_free by exact Ht2. reflexivity.
Qed.

(** X16. The server's parser reads the request that the client's generator
    writes. For every resource without a space, every host and key without
    a CR, and every socket type of the table, a buffer that holds the
    generated request is parsed to the end: the parser captures the
    resource, the host, the key and the token of the socket type as they
    were written, and returns VALID with the response code OK when the
    peer check accepts the socket type and INVALID with NOTPEER when it
    does not. When any octet follows the request in the buffer, the parser
    stops the process at its assertion that nothing follows. *)
Theorem generated_request_is_accepted (self : nn_ws_handshake)
    (resource host key : list ascii) (sp : sp_id) (ws_sp : list ascii)
    (extra rest : list ascii) :
  sp_map_token NN_WS_HANDSHAKE_SP_MAP sp = Some ws_sp ->
  existsb is_nul resource = false -> free_of SP resource = true ->
  existsb is_nul host = false -> free_of CR host = true ->
  existsb is_nul key = false -> free_of CR key = true ->
  existsb is_nul extra = false ->
  hs_opening_hs self
  = opening_request resource host key ws_sp ++ extra ++ NUL :: rest ->
  let buf := hs_opening_hs self in
  match extra with
  | [] =>
    exists parsed,
      nn_ws_handshake_parse_client_opening self
      = Done (if nn_pipebase_ispeer (hs_pipebase self) sp
              then NN_WS_HANDSHAKE_VALID else NN_WS_HANDSHAKE_INVALID,
              parsed) /\
      hs_response_code parsed
      = (if nn_pipebase_ispeer (hs_pipebase self) sp
         then NN_WS_HANDSHAKE_RESPONSE_OK
         else NN_WS_HANDSHAKE_RESPONSE_NOTPEER) /\
      value buf parsed F_uri = resource /\
      value buf parsed F_host = trimmed true true host /\
      value buf parsed F_key = trimmed true true key /\
      value buf parsed F_protocol = ws_sp
  | _ :: _ =>
    nn_ws_handshake_parse_client_opening self = Abort ASSERT_TRAILING_DATA
  end.
Proof.
  intros Hsp Hr0 Hr1 Hh0 Hh1 Hk0 Hk1 He0 Hbuf buf.
  destruct (sp_map_token_plain _ _ Hsp) as (Ht0 & Ht1 & Ht2).
  destruct extra as [|c extra].
  - destruct (parse_generated_request self _ _ _ _ _ rest Hsp Hr0 Hr1 Hh0
                Hh1 Hk0 Hk1 Hbuf) as (scanned & Hparse & Hvals).
    assert (Hval : forall code f v,
      In (f, v) (request_values resource host key ws_sp) ->
      value buf (set_response_code code scanned) f = v).
    { intros code f v Hf. unfold value.
      rewrite hs_slices_set_response_code. apply (Hvals f v Hf). }
    assert (Hp : trimmed true true ws_sp = ws_sp)
      by (apply trimmed_free; exact Ht2).
    destruct (nn_pipebase_ispeer (hs_pipebase self) sp);
      (eexists; split; [exact Hparse|]; split; [reflexivity|];
       repeat split;
       first [apply Hval; unfold request_values; cbn [In]; tauto
             |rewrite <- Hp; apply Hval; unfold request_values;
              cbn [In]; tauto]).
  - pose proof (opening_request_no_nul _ _ _ _ Hr0 Hh0 Hk0 Ht0) as Hnul.
    assert (Hnul' : existsb is_nul
              (opening_request resource host key ws_sp ++ c :: extra)
              = false)
      by (rewrite existsb_nul_app, Hnul, He0; reflexivity).
    destruct (scan_generated_request self _ _ _ _ (c :: extra) rest Hbuf
                Hnul' Hr1 Hh1 Hk1 Ht1)
      as (pos & scanned & Hscan & Hcur & _).
    unfold nn_ws_handshake_parse_client_opening. fold buf.
    assert (Hn : existsb is_nul buf = true).
    { unfold buf. rewrite Hbuf, app_assoc. apply existsb_nul_mid. }
    rewrite Hn. cbn [nn_assert bind].
    pose proof (nul_strlen buf Hn) as Hlt. apply Nat.ltb_lt in Hlt.
    rewrite Hlt. cbn [nn_assert bind].
    assert (Hc0 : cstring buf 0
                  = opening_request resource host key ws_sp ++ c :: extra).
    { apply (cstring_head buf _ rest Hnul'). unfold buf.
      rewrite Hbuf, <- app_assoc. reflexivity. }
    unfold strstr. rewrite Hc0.
    pose proof (opening_request_terminated resource host key ws_sp
                  (c :: extra)) as Hocc.
    apply occurs_find_sub in Hocc.
    destruct (find_sub _ _) as [e|]; [|contradiction]. cbn [option_map].
    rewrite Hscan. unfold strlen. fold buf in Hcur. rewrite Hcur.
    reflexivity.
Qed.

Lemma generated_request_is_accepted_witness :
  exists parsed,
    nn_ws_handshake_parse_client_opening
      (server_holding
         (opening_request (cs "/") (cs "a") RFC6455_SAMPLE_KEY
            (cs "x-nanomsg-pair")))
    = Done (NN_WS_HANDSHAKE_VALID, parsed) /\
    hs_response_code parsed = NN_WS_HANDSHAKE_RESPONSE_OK.
Proof.
  pose proof (generated_request_is_accepted
                (server_holding
                   (opening_request (cs "/") (cs "a") RFC6455_SAMPLE_KEY
                      (cs "x-nanomsg-pair")))
                (cs "/") (cs "a") RFC6455_SAMPLE_KEY NN_PAIR
                (cs "x-nanomsg-pair") [] (repeat NUL 75)
                ltac:(vm_compute; reflexivity) ltac:(vm_compute; reflexivity)
                ltac:(vm_compute; reflexivity) ltac:(vm_compute; reflexivity)
                ltac:(vm_compute; reflexivity) ltac:(vm_compute; reflexivity)
                ltac:(vm_compute; reflexivity) ltac:(vm_compute; reflexivity)
                ltac:(vm_compute; reflexivity)) as H.
  cbv beta zeta iota in H. destruct H as (parsed & Hp & Hc & _).
  exists parsed. split; [exact Hp|exact Hc].
Defined.

(** ** The client reads the reply that the server writes *)

Lemma upgrade_reply_terminated accept_key protocol extra :
  occurs NN_WS_HANDSHAKE_TERMSEQ (upgrade_reply accept_key protocol ++ extra).
Proof.
  exists (cs "HTTP/1.1 101 Switching Protocols" ++ NN_WS_HANDSHAKE_CRLF ++
          cs "Upgrade: websocket" ++ NN_WS_HANDSHAKE_CRLF ++
          cs "Connection: Upgrade" ++ NN_WS_HANDSHAKE_CRLF ++
          cs "Sec-WebSocket-Accept: " ++ accept_key ++
          NN_WS_HANDSHAKE_CRLF ++
          cs "Sec-WebSocket-Protocol: " ++ protocol), extra.
  unfold upgrade_reply. rewrite <- !app_assoc. reflexivity.
Qed.

Lemma scan_generated_reply self accept_key protocol extra rest :
  hs_response self
  = upgrade_reply accept_key protocol ++ extra ++ NUL :: rest ->
  existsb is_nul (upgrade_reply accept_key protocol ++ extra) = false ->
  free_of CR accept_key = true -> free_of CR protocol = true ->
  exists pos parsed,
    scan_server_response self = LOOP_EXIT pos parsed /\
    cstring (hs_response self) pos = extra /\
    ptr parsed F_protocol = None /\
    forall f v,
      In (f, v) (reply_values accept_key) ->
      ptr parsed f <> None /\ value (hs_response self) parsed f = v.
Proof.
  intros Hbuf Hnul Hacc Hproto.
  set (buf := hs_response self) in *.
  assert (Hlen : (8 <= length buf)%nat).
  { rewrite Hbuf, length_app, length_upgrade_reply. lia. }
  assert (Hc0 : cstring buf 0 =
    cs "HTTP/1.1 " ++ cs "101" ++ [SP] ++
    cs "Switching Protocols" ++ [CR; LF] ++
    cs "Upgrade:" ++ SP :: cs "websocket" ++ NN_WS_HANDSHAKE_CRLF ++
    cs "Connection:" ++ SP :: cs "Upgrade" ++ NN_WS_HANDSHAKE_CRLF ++
    cs "Sec-WebSocket-Accept:" ++ SP :: accept_key ++ NN_WS_HANDSHAKE_CRLF ++
    (cs "Sec-WebSocket-Protocol:" ++ SP :: protocol) ++
    NN_WS_HANDSHAKE_CRLF ++
    NN_WS_HANDSHAKE_CRLF ++ extra).
  { rewrite (cstring_head buf _ rest Hnul)
      by (rewrite Hbuf, <- app_assoc; reflexivity).
    unfold upgrade_reply. rewrite <- !app_assoc. reflexivity. }
  unfold scan_server_response. fold buf.
  remember (reset_slices SERVER_RESPONSE_RESET self) as s1 eqn:Hs1.
  assert (Hnull : hs_slices s1 F_protocol = null_slice).
  { rewrite Hs1. apply reset_server_null. cbn. tauto. }
  clear Hs1.
  rewrite (match_token_here _ _ _ _ _ Hc0).
  apply cstring_app_skip in Hc0.
  destruct (match_value_at SP [] buf _ (cs "101") _ false false Hc0 eq_refl)
    as (sl0 & Hv0 & Hp0 & Hval0 & Hc1).
  rewrite Hv0. cbn [is_match negb].
  destruct (match_value_at CR [LF] buf _ (cs "Switching Protocols") _
              false false Hc1 eq_refl)
    as (sl1 & Hv1 & Hp1 & Hval1 & Hc2).
  change NN_WS_HANDSHAKE_CRLF with [CR; LF] at 1.
  rewrite Hv1. cbn [is_match negb].
  replace (S (length buf))
    with (S (S (S (S (S (length buf - 4)))))) by lia.
  match goal with
  | |- context [header_loop _ _ _ _ ?s] =>
    destruct (header_loop_field (S (S (S (S (length buf - 4)))))
                SERVER_RESPONSE_HEADERS buf _ s
                _ F_upgrade _ _ Hc2 eq_refl eq_refl)
      as (sl2 & p2 & -> & Hp2 & Hval2 & Hc3)
  end.
  match goal with
  | |- context [header_loop _ _ _ _ ?s] =>
    destruct (header_loop_field (S (S (S (length buf - 4))))
                SERVER_RESPONSE_HEADERS buf _ s
                _ F_conn _ _ Hc3 eq_refl eq_refl)
      as (sl3 & p3 & -> & Hp3 & Hval3 & Hc4)
  end.
  match goal with
  | |- context [header_loop _ _ _ _ ?s] =>
    destruct (header_loop_field (S (S (length buf - 4)))
                SERVER_RESPONSE_HEADERS buf _ s
                _ F_accept_key _ _ Hc4 eq_refl Hacc)
      as (sl4 & p4 & -> & Hp4 & Hval4 & Hc5)
  end.
  match goal with
  | |- context [header_loop _ _ _ _ ?s] =>
    destruct (header_loop_unknown (S (length buf - 4))
                SERVER_RESPONSE_HEADERS buf _ s
                (cs "Sec-WebSocket-Protocol:") (SP :: protocol) _ Hc5
                eq_refl eq_refl)
      as (p5 & -> & Hc6)
  end.
  { rewrite free_of_app. unfold free_of at 2. cbn [forallb].
    fold (free_of CR protocol). rewrite Hproto. reflexivity. }
  match goal with
  | |- context [header_loop _ _ _ _ ?s] =>
    destruct (header_loop_end (length buf - 4)
                SERVER_RESPONSE_HEADERS buf _ s _ Hc6 eq_refl)
      as (-> & Hc7)
  end.
  eexists. eexists. split; [reflexivity|]. split; [exact Hc7|].
  split; [unfold ptr; slice_at; rewrite Hnull; reflexivity|].
  intros f v Hin. unfold reply_values in Hin. cbn [In] in Hin.
  unfold ptr, value.
  repeat (destruct Hin as [Hin|Hin];
          [injection Hin as <- <-; slice_at; split; assumption|]).
  contradiction.
Qed.

Lemma parse_reply_scanned self accept_key protocol extra rest :
  existsb is_nul accept_key = false -> free_of CR accept_key = true ->
  existsb is_nul protocol = false -> free_of CR protocol = true ->
  existsb is_nul extra = false ->
  hs_response self
  = upgrade_reply accept_key protocol ++ extra ++ NUL :: rest ->
  exists parsed,
    nn_ws_handshake_parse_server_response self
    = (_ <- nn_assert (length extra =? 0)%nat ASSERT_TRAILING_DATA ;;
       Done (validate_server_response parsed, parsed)) /\
    ptr parsed F_protocol = None /\
    (validate_server_response parsed = NN_WS_HANDSHAKE_VALID <->
     ci_equal (cstring (hs_expected_accept_key self) 0)
       (trimmed true true accept_key)).
Proof.
  intros Ha0 Ha1 Hp0 Hp1 He0 Hbuf.
  set (expected := cstring (hs_expected_accept_key self) 0).
  set (buf := hs_response self) in *.
  assert (Hnul : existsb is_nul (upgrade_reply accept_key protocol ++ extra)
                 = false).
  { rewrite existsb_nul_app, upgrade_reply_no_nul, He0 by assumption.
    reflexivity. }
  destruct (scan_generated_reply self _ _ _ rest Hbuf Hnul Ha1 Hp1)
    as (pos & parsed & Hscan & Hcur & Hproto & Hvals).
  fold buf in Hcur, Hvals.
  assert (Hn : existsb is_nul buf = true).
  { rewrite Hbuf, app_assoc. apply existsb_nul_mid. }
  pose proof (nul_strlen buf Hn) as Hlt. apply Nat.ltb_lt in Hlt.
  assert (Hc0 : cstring buf 0 = upgrade_reply accept_key protocol ++ extra).
  { apply (cstring_head buf _ rest Hnul). rewrite Hbuf, <- app_assoc.
    reflexivity. }
  pose proof (upgrade_reply_terminated accept_key protocol extra) as Hocc.
  apply occurs_find_sub in Hocc.
  exists parsed. split; [|split; [exact Hproto|]].
  - unfold nn_ws_handshake_parse_server_response. fold buf.
    rewrite Hn, Hlt. cbn [nn_assert bind]. unfold strstr. rewrite Hc0.
    destruct (find_sub _ _) as [e|]; [|contradiction]. cbn [option_map].
    rewrite Hscan. unfold strlen. rewrite Hcur. reflexivity.
  - destruct (parsed_frame_server self pos parsed Hscan)
      as (Hsbuf & Hsexp & Hin).
    fold buf in Hsbuf, Hin.
    rewrite validate_server_response_ok by (rewrite Hsbuf; exact Hin).
    rewrite Hsbuf. unfold rfc6455_response_ok. rewrite Hsexp.
    fold expected.
    destruct (Hvals F_status_code _ ltac:(unfold reply_values; cbn [In];
                                           tauto)) as [C1 V1].
    destruct (Hvals F_upgrade _ ltac:(unfold reply_values; cbn [In]; tauto))
      as [C2 V2].
    destruct (Hvals F_conn _ ltac:(unfold reply_values; cbn [In]; tauto))
      as [C3 V3].
    destruct (Hvals F_accept_key (trimmed true true accept_key)
                ltac:(unfold reply_values; cbn [In]; tauto)) as [C4 V4].
    rewrite V1, V2, V3, V4. split; [intros H; apply H|].
    intros H. split; [|repeat split; try reflexivity; exact H].
    intros f Hf. unfold captured.
    cbn [SERVER_RESPONSE_REQUIRED In] in Hf.
    destruct Hf as [<-|[<-|[<-|[<-|[]]]]]; assumption.
Qed.

(** X17. The client's parser reads the 101 reply that the server's
    generator writes. For every accept key and every protocol value
    without a CR, a buffer that holds the reply is parsed to the end, and
    the verdict rests on the accept key alone: VALID when it is the
    expected accept key up to the case of letters, INVALID when it is not.
    The Sec-WebSocket-Protocol line of the reply is passed over as an
    unknown header, so its value plays no part. When any octet follows the
    reply in the buffer, the parser stops the process at its assertion
    that nothing follows. *)
Theorem upgrade_reply_is_accepted (self : nn_ws_handshake)
    (accept_key protocol extra rest : list ascii) :
  existsb is_nul accept_key = false -> free_of CR accept_key = true ->
  existsb is_nul protocol = false -> free_of CR protocol = true ->
  existsb is_nul extra = false ->
  hs_response self
  = upgrade_reply accept_key protocol ++ extra ++ NUL :: rest ->
  let expected := cstring (hs_expected_accept_key self) 0 in
  match extra with
  | [] =>
    exists parsed,
      ptr parsed F_protocol = None /\
      (ci_equal expected (trimmed true true accept_key) ->
       nn_ws_handshake_parse_server_response self
       = Done (NN_WS_HANDSHAKE_VALID, parsed)) /\
      (~ ci_equal expected (trimmed true true accept_key) ->
       nn_ws_handshake_parse_server_response self
       = Done (NN_WS_HANDSHAKE_INVALID, parsed))
  | _ :: _ =>
    nn_ws_handshake_parse_server_response self = Abort ASSERT_TRAILING_DATA
  end.
Proof.
  intros Ha0 Ha1 Hp0 Hp1 He0 Hbuf expected.
  destruct (parse_reply_scanned self _ _ _ _ Ha0 Ha1 Hp0 Hp1 He0 Hbuf)
    as (parsed & Hparse & Hproto & Hok).
  fold expected in Hok. rewrite Hparse.
  destruct extra as [|c extra];
    [|cbn [length Nat.eqb nn_assert bind]; reflexivity].
  cbn [length Nat.eqb nn_assert bind].
  exists parsed. split; [exact Hproto|split].
  - intros H. apply Hok in H. rewrite H. reflexivity.
  - intros H.
    destruct (validate_server_response_cases parsed) as [E|E];
      [apply Hok in E; contradiction|rewrite E; reflexivity].
Qed.

Lemma upgrade_reply_is_accepted_witness :
  exists parsed,
    nn_ws_handshake_parse_server_response
      (client_holding
         (upgrade_reply RFC6455_SAMPLE_ACCEPT (cs "x-nanomsg-pair")))
    = Done (NN_WS_HANDSHAKE_VALID, parsed) /\
    ptr parsed F_protocol = None.
Proof.
  pose proof (upgrade_reply_is_accepted
                (client_holding
                   (upgrade_reply RFC6455_SAMPLE_ACCEPT
                      (cs "x-nanomsg-pair")))
                RFC6455_SAMPLE_ACCEPT (cs "x-nanomsg-pair") []
                (repeat NUL 86)
                ltac:(vm_compute; reflexivity) ltac:(vm_compute; reflexivity)
                ltac:(vm_compute; reflexivity) ltac:(vm_compute; reflexivity)
                ltac:(vm_compute; reflexivity) ltac:(vm_compute; reflexivity))
    as H.
  cbv beta zeta iota in H. destruct H as (parsed & Hp & Hok & _).
  exists parsed. split; [apply Hok; vm_compute; reflexivity|exact Hp].
Defined.
(** ** SHA-1: the byte order of the machine does not matter *)

Lemma rd_upd (k n : nat) (v : ascii) (l : list ascii) :
  (k < length l)%nat ->
  rd (upd k v l) n = if (n =? k)%nat then v else rd l n.
Proof.
  intros Hk. unfold rd. destruct (Nat.eqb_spec n k) as [->|Hne].
  - apply nth_upd_eq. exact Hk.
  - apply nth_upd_neq. congruence.
Qed.

Lemma lxor3_checked : forallb lxor3_check (seq 0 64) = true.
Proof. vm_compute. reflexivity. Qed.

Lemma lxor3_spec k :
  0 <= k < 64 -> Z.lxor k 3 = 4 * (k / 4) + (3 - k mod 4).
Proof.
  intros Hk. pose proof lxor3_checked as H. rewrite forallb_forall in H.
  assert (Hin : In (Z.to_nat k) (seq 0 64)) by (apply in_seq; lia).
  specialize (H _ Hin). unfold lxor3_check in H.
  rewrite Z2Nat.id in H by lia. apply Z.eqb_eq in H. exact H.
Qed.

Lemma load32_mirrored b1 b2 i :
  mirrored b1 b2 -> 0 <= i < 16 -> load32 true b1 i = load32 false b2 i.
Proof.
  intros (_ & _ & H) Hi. unfold load32.
  replace (Z.to_nat (4 * i + 0)) with (4 * Z.to_nat i + 0)%nat by lia.
  replace (Z.to_nat (4 * i + 1)) with (4 * Z.to_nat i + 1)%nat by lia.
  replace (Z.to_nat (4 * i + 2)) with (4 * Z.to_nat i + 2)%nat by lia.
  replace (Z.to_nat (4 * i + 3)) with (4 * Z.to_nat i + 3)%nat by lia.
  assert (Hn : (Z.to_nat i < 16)%nat) by lia.
  rewrite (H _ 0%nat Hn), (H _ 1%nat Hn), (H _ 2%nat Hn), (H _ 3%nat Hn)
    by lia.
  reflexivity.
Qed.

Lemma upd_mirrored b1 b2 k v :
  mirrored b1 b2 -> 0 <= k < 64 ->
  mirrored (upd (Z.to_nat (Z.lxor k 3)) v b1) (upd (Z.to_nat k) v b2).
Proof.
  intros (H1 & H2 & H) Hk. rewrite lxor3_spec by exact Hk.
  pose proof (Z.mod_pos_bound k 4 ltac:(lia)) as Hr.
  pose proof (Z.div_mod k 4 ltac:(lia)) as Hq.
  assert (Hq0 : 0 <= k / 4 < 16)
    by (split; [apply Z.div_pos; lia|apply Z.div_lt_upper_bound; lia]).
  repeat split; rewrite ?length_upd; try assumption.
  intros i r Hi Hr'.
  rewrite !rd_upd by lia. rewrite H by assumption.
  destruct (Nat.eqb_spec (4 * i + r) (Z.to_nat (4 * (k / 4) + (3 - k mod 4))));
    destruct (Nat.eqb_spec (4 * i + (3 - r)) (Z.to_nat k));
    try reflexivity; exfalso; lia.
Qed.

Lemma store32_mirrored b1 b2 i w :
  mirrored b1 b2 -> 0 <= i < 16 ->
  mirrored (store32 true b1 i w) (store32 false b2 i w).
Proof.
  intros (H1 & H2 & H) Hi.
  repeat split; rewrite ?length_store32; try assumption.
  intros j r Hj Hr. unfold store32, word_octets.
  rewrite !rd_upd by (rewrite ?length_upd; lia).
  rewrite H by assumption.
  replace (Z.to_nat (4 * i)) with (4 * Z.to_nat i)%nat by lia.
  assert (Hn : (Z.to_nat i < 16)%nat) by lia.
  revert Hn. generalize (Z.to_nat i). intros n Hn.
  repeat match goal with
  | |- context [(?a =? ?b)%nat] => destruct (Nat.eqb_spec a b)
  end; try reflexivity; exfalso; lia.
Qed.

Lemma land15_range x : 0 <= Z.land x 15 < 16.
Proof.
  change 15 with (Z.ones 4). rewrite Z.land_ones by lia.
  apply Z.mod_pos_bound. lia.
Qed.

Lemma sha1_round_mirrored i b1 b2 r :
  mirrored b1 b2 ->
  mirrored (fst (sha1_round true i b1 r)) (fst (sha1_round false i b2 r)) /\
  snd (sha1_round true i b1 r) = snd (sha1_round false i b2 r).
Proof.
  intros H. unfold sha1_round. destruct r as [a b c d e].
  cbv zeta.
  rewrite <- !(load32_mirrored b1 b2) by (try exact H; apply land15_range).
  set (w := sha1_rol32 _ 1).
  assert (Hm : mirrored (if 16 <=? i then store32 true b1 (Z.land i 15) w
                         else b1)
                        (if 16 <=? i then store32 false b2 (Z.land i 15) w
                         else b2)).
  { destruct (16 <=? i); [|exact H].
    apply store32_mirrored; [exact H|apply land15_range]. }
  cbn [fst snd]. split; [exact Hm|].
  rewrite (load32_mirrored _ _ _ Hm) by apply land15_range.
  reflexivity.
Qed.

Lemma sha1_rounds_mirrored n :
  forall i b1 b2 r,
    mirrored b1 b2 ->
    mirrored (fst (sha1_rounds true n i b1 r))
             (fst (sha1_rounds false n i b2 r)) /\
    snd (sha1_rounds true n i b1 r) = snd (sha1_rounds false n i b2 r).
Proof.
  induction n as [|n IH]; intros i b1 b2 r H; cbn [sha1_rounds].
  - split; [exact H|reflexivity].
  - destruct (sha1_round_mirrored i b1 b2 r H) as [Hm Hr].
    destruct (sha1_round true i b1 r) as [m1 r1].
    destruct (sha1_round false i b2 r) as [m2 r2].
    cbn [fst snd] in Hm, Hr. subst r2. apply IH. exact Hm.
Qed.

Lemma sha1_add_mirror s1 s2 data :
  sha1_mirror s1 s2 ->
  sha1_mirror (sha1_add true s1 data) (sha1_add false s2 data).
Proof.
  intros (Hst & Hbh & Hoff & Hl1 & Hl2 & Hr & Hm).
  unfold sha1_add, SHA1_BLOCK_LEN.
  rewrite <- Hoff, <- Hst, <- Hbh, Hl1, Hl2.
  change (negb (1 =? 0)) with true. change (negb (0 =? 0)) with false.
  cbv iota.
  pose proof (upd_mirrored _ _ _ data Hm Hr) as Hu.
  rewrite (Z.mod_small (buffer_offset s1 + 1) 256) by lia.
  destruct (buffer_offset s1 + 1 =? 64) eqn:E.
  - destruct (sha1_rounds_mirrored 80 0 _ _
                (mk_regs (st (state s1) 0) (st (state s1) 1)
                   (st (state s1) 2) (st (state s1) 3) (st (state s1) 4))
                Hu) as [Hm' Hr'].
    destruct (sha1_rounds true _ _ _ _) as [m1 [a b c d e]].
    destruct (sha1_rounds false _ _ _ _) as [m2 r2].
    cbn [fst snd] in Hm', Hr'. subst r2.
    repeat split; cbn; try reflexivity; try assumption; try lia;
      apply Hm'.
  - apply Z.eqb_neq in E.
    repeat split; cbn; try reflexivity; try assumption; try lia;
      apply Hu.
Qed.

Lemma sha1_hashbyte_mirror s1 s2 data :
  sha1_mirror s1 s2 ->
  sha1_mirror (sha1_hashbyte true s1 data) (sha1_hashbyte false s2 data).
Proof.
  intros (Hst & Hbh & Hoff & Hl1 & Hl2 & Hr & Hm).
  apply sha1_add_mirror. repeat split; cbn; try assumption; try lia;
    try apply Hm.
  congruence.
Qed.

Lemma fold_sha1_hashbyte_mirror l :
  forall s1 s2, sha1_mirror s1 s2 ->
    sha1_mirror (fold_left (sha1_hashbyte true) l s1)
                (fold_left (sha1_hashbyte false) l s2).
Proof.
  induction l as [|c l IH]; intros s1 s2 H; cbn [fold_left]; [assumption|].
  apply IH, sha1_hashbyte_mirror, H.
Qed.

Lemma sha1_pad_zero_mirror fuel :
  forall s1 s2, sha1_mirror s1 s2 ->
    sha1_mirror (sha1_pad_zero fuel true s1) (sha1_pad_zero fuel false s2).
Proof.
  induction fuel as [|fuel IH]; intros s1 s2 H; cbn [sha1_pad_zero];
    [assumption|].
  pose proof H as (_ & _ & Hoff & _). rewrite <- Hoff.
  destruct (negb _); [apply IH, sha1_add_mirror, H|assumption].
Qed.

Lemma to_uint8_land (a b : Z) :
  Z.land a 255 = Z.land b 255 -> to_uint8 a = to_uint8 b.
Proof.
  change 255 with (Z.ones 8). rewrite !Z.land_ones by lia.
  change (2 ^ 8) with 256. unfold to_uint8. intros ->. reflexivity.
Qed.

Lemma word_octets_bswap32 w :
  word_octets true (bswap32 w) = word_octets false w.
Proof.
  unfold word_octets, bswap32, u32.
  change 4294967296 with (2 ^ 32).
  change 0xFF000000 with (Z.shiftl (Z.ones 8) 24).
  change 0x00FF0000 with (Z.shiftl (Z.ones 8) 16).
  change 0x0000FF00 with (Z.shiftl (Z.ones 8) 8).
  change 0x000000FF with (Z.ones 8).
  f_equal; [|f_equal; [|f_equal; [|f_equal]]];
    try reflexivity; apply to_uint8_land; change 255 with (Z.ones 8);
    Z.bitblast.
Qed.

Lemma flat_map_word_octets_bswap32 ws :
  flat_map (word_octets true) (map bswap32 ws)
  = flat_map (word_octets false) ws.
Proof.
  induction ws as [|w ws IH]; [reflexivity|].
  cbn [map flat_map]. rewrite word_octets_bswap32, IH. reflexivity.
Qed.

Lemma sha1_result_mirror s1 s2 :
  sha1_mirror s1 s2 -> sha1_result true s1 = sha1_result false s2.
Proof.
  intros H. unfold sha1_result.
  apply (sha1_add_mirror _ _ (to_uint8 128)) in H.
  apply (sha1_pad_zero_mirror 64) in H.
  do 3 apply (sha1_add_mirror _ _ (to_uint8 0)) in H.
  set (t1 := sha1_add true _ _) in H at 1. fold t1.
  set (t2 := sha1_add false _ _) in H. fold t2.
  assert (Hb : bytes_hashed t1 = bytes_hashed t2) by apply H.
  apply (sha1_add_mirror _ _ (to_uint8 (Z.shiftr (bytes_hashed t1) 29)))
    in H.
  rewrite Hb in H at 2.
  clearbody t1 t2.
  set (u1 := sha1_add true t1 _) in *. set (u2 := sha1_add false t2 _) in *.
  assert (Hb' : bytes_hashed u1 = bytes_hashed u2) by apply H.
  apply (sha1_add_mirror _ _ (to_uint8 (Z.shiftr (bytes_hashed u1) 21)))
    in H.
  rewrite Hb' in H at 2. clearbody u1 u2. clear Hb t1 t2.
  set (t1 := sha1_add true u1 _) in *. set (t2 := sha1_add false u2 _) in *.
  assert (Hb : bytes_hashed t1 = bytes_hashed t2) by apply H.
  apply (sha1_add_mirror _ _ (to_uint8 (Z.shiftr (bytes_hashed t1) 13)))
    in H.
  rewrite Hb in H at 2. clearbody t1 t2. clear Hb' u1 u2.
  set (u1 := sha1_add true t1 _) in *. set (u2 := sha1_add false t2 _) in *.
  assert (Hb' : bytes_hashed u1 = bytes_hashed u2) by apply H.
  apply (sha1_add_mirror _ _ (to_uint8 (Z.shiftr (bytes_hashed u1) 5)))
    in H.
  rewrite Hb' in H at 2. clearbody u1 u2. clear Hb t1 t2.
  set (t1 := sha1_add true u1 _) in *. set (t2 := sha1_add false u2 _) in *.
  assert (Hb : bytes_hashed t1 = bytes_hashed t2) by apply H.
  apply (sha1_add_mirror _ _
           (to_uint8 (u32 (Z.shiftl (bytes_hashed t1) 3)))) in H.
  rewrite Hb in H at 2.
  destruct H as (Hst & _ & _ & Hl1 & Hl2 & _).
  rewrite Hst, Hl1, Hl2.
  change (negb (1 =? 0)) with true. change (negb (0 =? 0)) with false.
  cbv iota. apply flat_map_word_octets_bswap32.
Qed.

Lemma rd_repeat_nul n k : rd (repeat NUL n) k = NUL.
Proof.
  unfold rd. revert k. induction n as [|n IH]; intros [|k]; cbn;
    try reflexivity. apply IH.
Qed.

Lemma sha1_init_mirror :
  sha1_mirror (sha1_init true zero_hash) (sha1_init false zero_hash).
Proof.
  repeat split; cbn [sha1_init state bytes_hashed buffer_offset
                     is_little_endian buffer zero_hash]; try reflexivity;
    try lia.
  intros i r _ _. rewrite !rd_repeat_nul. reflexivity.
Qed.

Lemma key_digest_any_machine le1 le2 hash1 hash2 key :
  length (buffer hash1) = 64%nat -> length (buffer hash2) = 64%nat ->
  key_digest le1 hash1 key = key_digest le2 hash2 key.
Proof.
  intros H1 H2.
  assert (Hz : length (buffer zero_hash) = 64%nat) by reflexivity.
  assert (Hm : key_digest true zero_hash key = key_digest false zero_hash key).
  { unfold key_digest.
    apply sha1_result_mirror, fold_sha1_hashbyte_mirror, sha1_init_mirror. }
  rewrite (key_digest_any_block le1 hash1 zero_hash key H1 Hz).
  rewrite (key_digest_any_block le2 hash2 zero_hash key H2 Hz).
  destruct le1, le2; congruence.
Qed.

(** X18. The accept key does not depend on the machine. On a little-endian
    and on a big-endian machine, and whatever the uninitialised SHA-1
    object on the stack holds, [nn_ws_handshake_hash_key] gives the same
    return code and stores the same octets for the same key and output
    length. *)
Theorem hash_key_any_machine (le1 le2 : bool) (hash1 hash2 : sha1hash)
    (key : list ascii) (hashed_len : nat) :
  length (buffer hash1) = 64%nat -> length (buffer hash2) = 64%nat ->
  nn_ws_handshake_hash_key le1 hash1 key hashed_len
  = nn_ws_handshake_hash_key le2 hash2 key hashed_len.
Proof.
  intros H1 H2. rewrite !hash_key_digest.
  rewrite (key_digest_any_machine le1 le2 hash1 hash2 key H1 H2).
  reflexivity.
Qed.

Lemma hash_key_any_machine_witness :
  nn_ws_handshake_hash_key true zero_hash (cs "k") 29
  = nn_ws_handshake_hash_key false
      (mk_sha1hash (repeat "x"%char 64) [] 7 9 1) (cs "k") 29.
Proof.
  apply (hash_key_any_machine true false zero_hash
           (mk_sha1hash (repeat "x"%char 64) [] 7 9 1) (cs "k") 29);
    reflexivity.
Defined.
(** ** The generators, and a handshake from end to end *)

Lemma hash_key_callers le hash key :
  nn_ws_handshake_hash_key le hash key (NN_WS_HANDSHAKE_ACCEPT_KEY_LEN + 1)
  = B64_OK 28 (rfc4648_base64 (key_digest le hash key) ++ [NUL]).
Proof.
  assert (He : length (rfc4648_base64 (key_digest le hash key)) = 28%nat)
    by (rewrite rfc4648_base64_length, length_key_digest; reflexivity).
  rewrite hash_key_digest, base64_encode_rfc4648
    by (rewrite He; unfold NN_WS_HANDSHAKE_ACCEPT_KEY_LEN; lia).
  rewrite He. reflexivity.
Qed.

Lemma random_key_length (octets : list ascii) :
  (16 <= length octets)%nat ->
  length (rfc4648_base64 (firstn 16 octets)) = 24%nat.
Proof.
  intros H. rewrite rfc4648_base64_length, length_firstn.
  rewrite Nat.min_l by exact H. reflexivity.
Qed.

Lemma sprintf_fits buf text :
  existsb is_nul text = false -> (length text < length buf)%nat ->
  exists stored,
    sprintf buf text = Done stored /\ cstring stored 0 = text /\
    length stored = length buf.
Proof.
  intros Hn Hlen. unfold sprintf.
  assert (E : (length text + 1 <=? length buf)%nat = true)
    by (apply Nat.leb_le; lia).
  rewrite E. eexists. split; [reflexivity|]. split.
  - apply (cstring_head _ text (skipn (length text + 1) buf) Hn).
    reflexivity.
  - rewrite !length_app, length_skipn. cbn [length]. lia.
Qed.

Lemma sprintf_overrun buf text :
  (length buf <= length text)%nat -> sprintf buf text = Abort BUFFER_OVERRUN.
Proof.
  intros Hlen. unfold sprintf.
  assert (E : (length text + 1 <=? length buf)%nat = false)
    by (apply Nat.leb_gt; lia).
  rewrite E. reflexivity.
Qed.

Lemma client_request_sprintf m self :
  (16 <= length (random_octets m))%nat ->
  let key := rfc4648_base64 (firstn 16 (random_octets m)) in
  let expected :=
    rfc4648_base64 (key_digest (little_endian m) (stack_hash m) key)
    ++ [NUL] in
  nn_ws_handshake_client_request m self =
  match sp_map_token NN_WS_HANDSHAKE_SP_MAP
          (socktype_protocol (hs_pipebase self)) with
  | None => Abort ASSERT_SP_MAP
  | Some ws_sp =>
    opening_hs <-
      sprintf (hs_opening_hs self)
        (opening_request (hs_resource self) (hs_remote_host self) key
           ws_sp) ;;
    Done (set_opening_hs opening_hs
            (set_expected_accept_key expected self),
          [USOCK_SEND (cstring opening_hs 0)])
  end.
Proof.
  intros Hrand key expected.
  pose proof (random_key_length _ Hrand) as Hk. fold key in Hk.
  unfold nn_ws_handshake_client_request.
  rewrite base64_encode_rfc4648 by (fold key; rewrite Hk; lia).
  fold key.
  replace (cstring (key ++ [NUL]) 0) with key
    by (symmetry; apply (cstring_head _ key []);
        [apply rfc4648_no_nul|reflexivity]).
  rewrite Hk. cbn [Nat.eqb nn_assert bind].
  rewrite hash_key_callers. fold expected.
  cbn [Nat.eqb nn_assert bind NN_WS_HANDSHAKE_ACCEPT_KEY_LEN].
  destruct (sp_map_token _ _); reflexivity.
Qed.

(** X19. What the client's generator sends. With sixteen random octets,
    a resource and a host without NUL and a socket type of the table, the
    request is the seven fixed lines with the resource, the host, the
    24-character Base64 text of the random octets and the token of the
    socket type, and the object keeps the accept key of that text to
    compare the reply with. The request is written without a length
    check: when it is as long as the request buffer or longer, the write
    runs over the buffer. A socket type that is not in the table stops the
    process at an assertion. *)
Theorem client_request_sends (m : machine) (self : nn_ws_handshake) :
  (16 <= length (random_octets m))%nat ->
  existsb is_nul (hs_resource self) = false ->
  existsb is_nul (hs_remote_host self) = false ->
  let key := rfc4648_base64 (firstn 16 (random_octets m)) in
  let accept :=
    rfc4648_base64 (key_digest (little_endian m) (stack_hash m) key) in
  match sp_map_token NN_WS_HANDSHAKE_SP_MAP
          (socktype_protocol (hs_pipebase self)) with
  | None => nn_ws_handshake_client_request m self = Abort ASSERT_SP_MAP
  | Some ws_sp =>
    let request :=
      opening_request (hs_resource self) (hs_remote_host self) key ws_sp in
    length key = 24%nat /\
    length request
    = (164 + length (hs_resource self) + length (hs_remote_host self)
       + length ws_sp)%nat /\
    ((length request < length (hs_opening_hs self))%nat ->
     exists self',
       nn_ws_handshake_client_request m self
       = Done (self', [USOCK_SEND request]) /\
       cstring (hs_opening_hs self') 0 = request /\
       length (hs_opening_hs self') = length (hs_opening_hs self) /\
       cstring (hs_expected_accept_key self') 0 = accept /\
       same_but_parsed (set_expected_accept_key (hs_expected_accept_key self)
                          (set_opening_hs (hs_opening_hs self) self'))
         self) /\
    ((length (hs_opening_hs self) <= length request)%nat ->
     nn_ws_handshake_client_request m self = Abort BUFFER_OVERRUN)
  end.
Proof.
  intros Hrand Hr Hh key accept.
  pose proof (client_request_sprintf m self Hrand) as Hreq.
  cbv zeta in Hreq. fold key in Hreq. fold accept in Hreq.
  destruct (sp_map_token NN_WS_HANDSHAKE_SP_MAP
              (socktype_protocol (hs_pipebase self))) as [ws_sp|] eqn:Hsp;
    [|exact Hreq].
  intros request. fold request in Hreq.
  pose proof (random_key_length _ Hrand) as Hk. fold key in Hk.
  destruct (sp_map_token_plain _ _ Hsp) as (Ht0 & _ & _).
  assert (Hnul : existsb is_nul request = false)
    by (apply opening_request_no_nul;
        [exact Hr|exact Hh|apply rfc4648_no_nul|exact Ht0]).
  split; [exact Hk|]. split.
  { unfold request. rewrite length_opening_request, Hk. lia. }
  split.
  - intros Hfit.
    destruct (sprintf_fits (hs_opening_hs self) request Hnul Hfit)
      as (stored & Hs & Hc & Hl).
    rewrite Hreq, Hs. cbn [bind]. rewrite Hc.
    eexists. split; [reflexivity|].
    split; [exact Hc|]. split; [exact Hl|]. split.
    + apply (cstring_head _ accept []); [apply rfc4648_no_nul|reflexivity].
    + intros g c. destruct self. reflexivity.
  - intros Hover. rewrite Hreq, sprintf_overrun by exact Hover. reflexivity.
Qed.

Lemma client_request_sends_witness :
  exists self',
    nn_ws_handshake_client_request machine0 (client_holding [])
    = Done (self',
            [USOCK_SEND
               (opening_request (cs "/") (cs "a")
                  (rfc4648_base64 (repeat "a"%char 16))
                  (cs "x-nanomsg-pair"))]).
Proof.
  pose proof (client_request_sends machine0 (client_holding [])
                ltac:(vm_compute; lia) ltac:(vm_compute; reflexivity)
                ltac:(vm_compute; reflexivity)) as H.
  cbv zeta in H.
  change (sp_map_token NN_WS_HANDSHAKE_SP_MAP
            (socktype_protocol (hs_pipebase (client_holding []))))
    with (Some (cs "x-nanomsg-pair")) in H.
  cbv beta iota in H.
  destruct H as (_ & _ & Hfit & _).
  destruct (Hfit ltac:(vm_compute; lia)) as (self' & Hs & _).
  exists self'. exact Hs.
Defined.

Lemma server_reply_upgrade m self key tok :
  hs_response_code self = NN_WS_HANDSHAKE_RESPONSE_OK ->
  ptr self F_key <> None ->
  value (hs_opening_hs self) self F_key = key ->
  ptr self F_protocol <> None ->
  value (hs_opening_hs self) self F_protocol = tok ->
  existsb is_nul tok = false ->
  let accept :=
    rfc4648_base64 (key_digest (little_endian m) (stack_hash m) key) in
  (length (upgrade_reply accept tok) < length (hs_response self))%nat ->
  exists self',
    nn_ws_handshake_server_reply m self
    = Done (self', [USOCK_SEND (upgrade_reply accept tok)]) /\
    cstring (hs_response self') 0 = upgrade_reply accept tok.
Proof.
  intros Hcode Hpk Hvk Hpp Hvp Ht0 accept Hfit.
  assert (Hnul : existsb is_nul (upgrade_reply accept tok) = false)
    by (apply upgrade_reply_no_nul; [apply rfc4648_no_nul|exact Ht0]).
  destruct (sprintf_fits (repeat NUL (length (hs_response self)))
              (upgrade_reply accept tok) Hnul
              ltac:(rewrite repeat_length; exact Hfit))
    as (stored & Hs & Hc & _).
  unfold nn_ws_handshake_server_reply. cbv zeta.
  change (hs_response_code (set_response _ self))
    with (hs_response_code self).
  change (hs_opening_hs (set_response _ self)) with (hs_opening_hs self).
  change (hs_slices (set_response _ self)) with (hs_slices self).
  change (hs_response (set_response ?v self)) with v.
  rewrite Hcode.
  assert (Hok : slice_octets (hs_opening_hs self) (hs_slices self F_key)
                = Done key).
  { unfold ptr, value, slice_value in Hpk, Hvk. unfold slice_octets.
    destruct (sl_ptr (hs_slices self F_key)); [|contradiction].
    rewrite Hvk. reflexivity. }
  assert (Hop : slice_string (hs_opening_hs self)
                  (hs_slices self F_protocol) = Done tok).
  { unfold ptr, value, slice_value in Hpp, Hvp.
    unfold slice_string, slice_octets.
    destruct (sl_ptr (hs_slices self F_protocol)); [|contradiction].
    rewrite Hvp. cbn [bind]. rewrite until_nul_id by exact Ht0.
    reflexivity. }
  rewrite Hok. cbn [bind]. rewrite hash_key_callers. fold accept.
  cbv beta iota zeta.
  replace (cstring (accept ++ [NUL]) 0) with accept
    by (symmetry; apply (cstring_head _ accept []);
        [apply rfc4648_no_nul|reflexivity]).
  fold accept.
  assert (Hl : length accept = 28%nat)
    by (unfold accept; rewrite rfc4648_base64_length, length_key_digest;
        reflexivity).
  rewrite Hl. cbn [Nat.eqb nn_assert bind NN_WS_HANDSHAKE_ACCEPT_KEY_LEN].
  rewrite Hop. cbn [bind]. rewrite Hs. cbn [bind].
  change (hs_response (set_response stored _)) with stored.
  rewrite Hc. eexists. split; [reflexivity|exact Hc].
Qed.

(** X20. A handshake between two endpoints of this code succeeds. A client
    with a resource without space or NUL, a host without CR or NUL and a
    socket type of the table sends its request; a server that holds this
    request in its zeroed buffer, and whose socket accepts the client's
    socket type as a peer, finds it VALID and sends the 101 reply; the
    client, holding this reply, finds it VALID. The two machines may
    differ in byte order, and the uninitialised SHA-1 objects on their
    stacks may hold anything. *)
Theorem handshake_round_trip (mc ms : machine)
    (client server : nn_ws_handshake) (ws_sp rest : list ascii) :
  let resource := hs_resource client in
  let host := hs_remote_host client in
  let sp := socktype_protocol (hs_pipebase client) in
  let key := rfc4648_base64 (firstn 16 (random_octets mc)) in
  let request := opening_request resource host key ws_sp in
  (16 <= length (random_octets mc))%nat ->
  length (buffer (stack_hash mc)) = 64%nat ->
  length (buffer (stack_hash ms)) = 64%nat ->
  existsb is_nul resource = false -> free_of SP resource = true ->
  existsb is_nul host = false -> free_of CR host = true ->
  sp_map_token NN_WS_HANDSHAKE_SP_MAP sp = Some ws_sp ->
  nn_pipebase_ispeer (hs_pipebase server) sp = true ->
  (length request < length (hs_opening_hs client))%nat ->
  (155 + length ws_sp < length (hs_response server))%nat ->
  hs_opening_hs server = request ++ NUL :: rest ->
  exists client1 server1 server2 reply,
    nn_ws_handshake_client_request mc client
    = Done (client1, [USOCK_SEND request]) /\
    nn_ws_handshake_parse_client_opening server
    = Done (NN_WS_HANDSHAKE_VALID, server1) /\
    nn_ws_handshake_server_reply ms server1
    = Done (server2, [USOCK_SEND reply]) /\
    forall client2 rest',
      hs_expected_accept_key client2 = hs_expected_accept_key client1 ->
      hs_response client2 = reply ++ NUL :: rest' ->
      exists client3,
        nn_ws_handshake_parse_server_response client2
        = Done (NN_WS_HANDSHAKE_VALID, client3).
Proof.
  intros resource host sp key request Hrand Hc64 Hs64 Hr0 Hr1 Hh0 Hh1 Hsp
    Hpeer Hfit Hfit' Hbuf.
  destruct (sp_map_token_plain _ _ Hsp) as (Ht0 & Ht1 & Ht2).
  assert (Hk0 : existsb is_nul key = false) by apply rfc4648_no_nul.
  assert (Hk1 : free_of CR key = true)
    by (apply rfc4648_free; vm_compute; reflexivity).
  assert (Hk2 : free_of SP key = true)
    by (apply rfc4648_free; vm_compute; reflexivity).
  assert (Hnul : existsb is_nul request = false)
    by (apply opening_request_no_nul; assumption).
  (* the client writes the request *)
  pose proof (client_request_sprintf mc client Hrand) as Hreq.
  cbv zeta in Hreq. fold key sp in Hreq. rewrite Hsp in Hreq.
  fold resource host request in Hreq.
  destruct (sprintf_fits (hs_opening_hs client) request Hnul Hfit)
    as (stored & Hst & Hcs & _).
  rewrite Hst in Hreq. cbn [bind] in Hreq. rewrite Hcs in Hreq.
  set (expected := rfc4648_base64
                     (key_digest (little_endian mc) (stack_hash mc) key))
    in *.
  set (client1 := set_opening_hs stored
                    (set_expected_accept_key (expected ++ [NUL]) client))
    in *.
  assert (Hc1 : hs_expected_accept_key client1 = expected ++ [NUL])
    by reflexivity.
  clearbody client1.
  (* the server reads it *)
  destruct (parse_generated_request server resource host key sp ws_sp rest
              Hsp Hr0 Hr1 Hh0 Hh1 Hk0 Hk1 Hbuf)
    as (scanned & Hparse & Hvals).
  rewrite Hpeer in Hparse.
  pose proof (parse_client_opening_frame _ _ _ Hparse) as Hframe.
  apply same_but_parsed_fields in Hframe.
  destruct Hframe as (_ & _ & _ & _ & Hob & Hrb & _).
  set (server1 := set_response_code NN_WS_HANDSHAKE_RESPONSE_OK scanned)
    in *.
  destruct (Hvals F_key _ ltac:(unfold request_values; cbn [In]; tauto))
    as [Pk Vk].
  destruct (Hvals F_protocol _ ltac:(unfold request_values; cbn [In]; tauto))
    as [Pp Vp].
  rewrite trimmed_free in Vk by exact Hk2.
  rewrite trimmed_free in Vp by exact Ht2.
  set (accept := rfc4648_base64
                   (key_digest (little_endian ms) (stack_hash ms) key)).
  assert (Hal : length accept = 28%nat)
    by (unfold accept; rewrite rfc4648_base64_length, length_key_digest;
        reflexivity).
  destruct (server_reply_upgrade ms server1 key ws_sp) as (server2 & Hrep & _).
  { reflexivity. }
  { exact Pk. }
  { rewrite Hob. exact Vk. }
  { exact Pp. }
  { rewrite Hob. exact Vp. }
  { exact Ht0. }
  { fold accept. rewrite length_upgrade_reply, Hal, Hrb. lia. }
  fold accept in Hrep.
  exists client1, server1, server2, (upgrade_reply accept ws_sp).
  split; [exact Hreq|]. split; [exact Hparse|]. split; [exact Hrep|].
  (* the client reads the reply *)
  intros client2 rest' Hexp Hresp.
  assert (Ha0 : existsb is_nul accept = false) by apply rfc4648_no_nul.
  assert (Ha1 : free_of CR accept = true)
    by (apply rfc4648_free; vm_compute; reflexivity).
  assert (Ha2 : free_of SP accept = true)
    by (apply rfc4648_free; vm_compute; reflexivity).
  destruct (parse_reply_scanned client2 accept ws_sp [] rest' Ha0 Ha1 Ht0 Ht1
              eq_refl Hresp) as (client3 & Hp & _ & Hok).
  cbn [length Nat.eqb nn_assert bind] in Hp.
  exists client3. rewrite Hp. f_equal. f_equal. apply Hok.
  rewrite Hexp, Hc1.
  rewrite trimmed_free by exact Ha2.
  rewrite (cstring_head _ expected [] (rfc4648_no_nul _) eq_refl).
  unfold accept, expected, ci_equal.
  rewrite (key_digest_any_machine (little_endian mc) (little_endian ms)
             (stack_hash mc) (stack_hash ms) key Hc64 Hs64).
  reflexivity.
Qed.

Lemma handshake_round_trip_witness :
  exists client1 server1 server2 reply client3,
    nn_ws_handshake_client_request machine0 (client_holding [])
    = Done (client1,
            [USOCK_SEND
               (opening_request (cs "/") (cs "a")
                  (rfc4648_base64 (repeat "a"%char 16))
                  (cs "x-nanomsg-pair"))]) /\
    nn_ws_handshake_parse_client_opening
      (server_holding
         (opening_request (cs "/") (cs "a")
            (rfc4648_base64 (repeat "a"%char 16)) (cs "x-nanomsg-pair")))
    = Done (NN_WS_HANDSHAKE_VALID, server1) /\
    nn_ws_handshake_server_reply
      (mk_machine false (mk_sha1hash (repeat "x"%char 64) [] 7 9 1) [])
      server1
    = Done (server2, [USOCK_SEND reply]) /\
    nn_ws_handshake_parse_server_response
      (set_response (reply ++ [NUL]) client1)
    = Done (NN_WS_HANDSHAKE_VALID, client3).
Proof.
  destruct (handshake_round_trip machine0
              (mk_machine false (mk_sha1hash (repeat "x"%char 64) [] 7 9 1)
                 [])
              (client_holding [])
              (server_holding
                 (opening_request (cs "/") (cs "a")
                    (rfc4648_base64 (repeat "a"%char 16))
                    (cs "x-nanomsg-pair")))
              (cs "x-nanomsg-pair") (repeat NUL 75)
              ltac:(vm_compute; lia) ltac:(reflexivity) ltac:(reflexivity)
              ltac:(vm_compute; reflexivity) ltac:(vm_compute; reflexivity)
              ltac:(vm_compute; reflexivity) ltac:(vm_compute; reflexivity)
              ltac:(reflexivity) ltac:(reflexivity)
              ltac:(vm_compute; lia) ltac:(vm_compute; lia)
              ltac:(vm_compute; reflexivity))
    as (client1 & server1 & server2 & reply & H1 & H2 & H3 & H4).
  destruct (H4 (set_response (reply ++ [NUL]) client1) [] eq_refl eq_refl)
    as (client3 & H5).
  exists client1, server1, server2, reply, client3.
  split; [exact H1|]. split; [exact H2|]. split; [exact H3|exact H5].
Defined.
(** ** The failure reply, as a client of this code reads it *)

Lemma occurs_separator (t a b : list ascii) (c : ascii) :
  ~ In c t -> occurs t (a ++ c :: b) -> occurs t a \/ occurs t b.
Proof.
  intros Hc (pre & post & H).
  apply app_eq_app in H. destruct H as [l [[Ha Hb]|[Ha Hb]]].
  - apply app_eq_app in Hb. destruct Hb as [n [[Hl Hn]|[Hl Hn]]].
    + destruct n as [|c' n].
      * left. rewrite app_nil_r in Hl. subst l. exists pre, [].
        rewrite app_nil_r. exact Ha.
      * injection Hn as <- _. exfalso. apply Hc. rewrite Hl.
        apply in_or_app. right. left. reflexivity.
    + left. exists pre, n. rewrite Ha, Hl. reflexivity.
  - destruct l as [|c' l].
    + destruct t as [|c' t].
      * left. exists [], a. reflexivity.
      * injection Hb as <- _. exfalso. apply Hc. left. reflexivity.
    + injection Hb as _ Hb. right. exists l, post. exact Hb.
Qed.

Lemma no_termseq_line (v : list ascii) :
  ~ occurs NN_WS_HANDSHAKE_CRLF v ->
  ~ occurs NN_WS_HANDSHAKE_TERMSEQ (v ++ NN_WS_HANDSHAKE_CRLF).
Proof.
  intros Hv (pre & post & H). apply Hv.
  change NN_WS_HANDSHAKE_TERMSEQ
    with (NN_WS_HANDSHAKE_CRLF ++ NN_WS_HANDSHAKE_CRLF) in H.
  rewrite <- app_assoc, app_assoc in H.
  apply app_eq_app in H. destruct H as [l [[Ha Hb]|[Ha Hb]]].
  - exists pre, l. rewrite Ha, <- app_assoc. reflexivity.
  - assert (Hl : l = []).
    { apply (f_equal (@length ascii)) in Hb. rewrite !length_app in Hb.
      cbn [length NN_WS_HANDSHAKE_CRLF] in Hb.
      destruct l; [reflexivity|cbn [length] in Hb; lia]. }
    subst l. rewrite app_nil_r in Ha. exists pre, [].
    rewrite app_nil_r. symmetry. exact Ha.
Qed.

Lemma failure_reply_no_termseq c code version :
  failure_code c = Done code ->
  ~ occurs NN_WS_HANDSHAKE_CRLF version ->
  ~ occurs NN_WS_HANDSHAKE_TERMSEQ (failure_reply code version).
Proof.
  intros Hc Hv Hocc.
  assert (Hsplit : failure_reply code version
    = (cs "HTTP/1.1 " ++ code ++ NN_WS_HANDSHAKE_CRLF
       ++ cs "Sec-WebSocket-Version:")
      ++ SP :: (version ++ NN_WS_HANDSHAKE_CRLF)).
  { unfold failure_reply. rewrite <- !app_assoc. reflexivity. }
  rewrite Hsplit in Hocc.
  apply occurs_separator in Hocc.
  - destruct Hocc as [Hocc|Hocc]; [|exact (no_termseq_line _ Hv Hocc)].
    revert Hocc. apply find_sub_none.
    destruct c; cbn [failure_code] in Hc; try discriminate Hc;
      injection Hc as <-; vm_compute; reflexivity.
  - cbn [In NN_WS_HANDSHAKE_TERMSEQ]. intros [H|[H|[H|[H|[]]]]];
      discriminate H.
Qed.

Lemma match_value_no_termseq termseq buf subj lead trail rc pos v :
  termseq <> [] ->
  nn_ws_match_value termseq buf subj lead trail = (rc, pos, v) ->
  ~ occurs termseq (slice_value buf v).
Proof.
  intros Ht Hv.
  pose proof (match_value_reports termseq buf subj lead trail) as H.
  cbv zeta in H.
  destruct (find_sub termseq (cstring buf subj)) as [k|] eqn:Ek.
  - destruct H as (v' & Hv' & _ & _ & Hval).
    rewrite Hv in Hv'. injection Hv' as _ _ <-. rewrite Hval.
    intros Hocc.
    destruct (trimmed_sublist lead trail (firstn k (cstring buf subj)))
      as (a & n & E).
    rewrite E in Hocc. apply occurs_sublist in Hocc.
    exact (no_occurrence_before _ _ _ Ht Ek Hocc).
  - rewrite Hv in H. injection H as _ _ ->.
    intros (pre & post & H). cbn [slice_value null_slice sl_ptr] in H.
    destruct pre; destruct termseq; try discriminate H. contradiction.
Qed.

Lemma header_loop_no_crlf hdrs buf g :
  forall fuel pos self pos' parsed,
    ~ occurs NN_WS_HANDSHAKE_CRLF (slice_value buf (hs_slices self g)) ->
    header_loop fuel hdrs buf pos self = LOOP_EXIT pos' parsed ->
    ~ occurs NN_WS_HANDSHAKE_CRLF (slice_value buf (hs_slices parsed g)).
Proof.
  induction fuel as [|fuel IH]; intros pos self pos' parsed Hs;
    cbn [header_loop]; [discriminate|].
  destruct (strlen buf pos =? 0)%nat.
  { intros H. injection H as _ <-. exact Hs. }
  destruct (match_header hdrs buf pos) as [[f p]|].
  - destruct (nn_ws_match_value NN_WS_HANDSHAKE_CRLF buf p true true)
      as [[rc p'] v] eqn:Ev.
    apply match_value_no_termseq in Ev; [|discriminate].
    destruct rc; cbn [is_match]; [discriminate|].
    apply IH. rewrite hs_slices_set_slice.
    destruct (field_eq_dec g f); assumption.
  - destruct (nn_ws_match_token NN_WS_HANDSHAKE_CRLF buf pos true false)
      as [[|] p].
    + destruct (nn_ws_match_value NN_WS_HANDSHAKE_CRLF buf pos true true)
        as [[rc p'] v].
      destruct rc; cbn [is_match]; [discriminate|].
      apply IH. exact Hs.
    + intros H. injection H as _ <-. exact Hs.
Qed.

Lemma scan_client_opening_version self pos parsed :
  scan_client_opening self = LOOP_EXIT pos parsed ->
  ~ occurs NN_WS_HANDSHAKE_CRLF
      (value (hs_opening_hs self) parsed F_version).
Proof.
  unfold scan_client_opening, value.
  remember (set_response_code NN_WS_HANDSHAKE_RESPONSE_NULL
              (reset_slices CLIENT_OPENING_RESET self)) as s1 eqn:Hs1.
  assert (Hnull : hs_slices s1 F_version = null_slice).
  { rewrite Hs1, hs_slices_set_response_code. apply reset_client_null.
    cbn. tauto. }
  clear Hs1.
  destruct (nn_ws_match_token (cs "GET ") _ 0 false false) as [[|] p1];
    [discriminate|].
  destruct (nn_ws_match_value [SP] _ p1 false false) as [[rc p2] v].
  destruct (negb (is_match rc)); [discriminate|].
  destruct (nn_ws_match_token (cs "HTTP/1.1") _ p2 false false)
    as [[|] p3]; [discriminate|].
  destruct (nn_ws_match_token NN_WS_HANDSHAKE_CRLF _ p3 false false)
    as [[|] p4]; [discriminate|].
  apply header_loop_no_crlf.
  rewrite hs_slices_set_slice.
  destruct (field_eq_dec F_version F_uri); [discriminate|].
  rewrite Hnull. intros (pre & post & H).
  destruct pre; discriminate H.
Qed.

Lemma find_sub_absent t l : ~ occurs t l -> find_sub t l = None.
Proof.
  intros H. destruct (find_sub t l) as [k|] eqn:E; [|reflexivity].
  exfalso. apply H. exact (find_sub_occurs _ _ _ E).
Qed.

Lemma unterminated_reply_waits (client : nn_ws_handshake)
    (text rest : list ascii) :
  existsb is_nul text = false ->
  ~ occurs NN_WS_HANDSHAKE_TERMSEQ text ->
  hs_response client = text ++ NUL :: rest ->
  nn_ws_handshake_parse_server_response client
  = Done (NN_WS_HANDSHAKE_RECV_MORE, client).
Proof.
  intros Hn Hocc Hbuf. unfold nn_ws_handshake_parse_server_response.
  assert (Hnul : existsb is_nul (hs_response client) = true)
    by (rewrite Hbuf; apply existsb_nul_mid).
  pose proof (nul_strlen _ Hnul) as Hlt. apply Nat.ltb_lt in Hlt.
  rewrite Hnul, Hlt. cbn [nn_assert bind]. unfold strstr.
  rewrite (cstring_head _ text rest Hn Hbuf).
  rewrite find_sub_absent by exact Hocc. reflexivity.
Qed.

(** X21. A client of this code never reads the server's rejection. When
    the server's parser finds a request INVALID, the handler either sends
    one text, the 400 reply, or overruns the reply buffer writing it. The
    text holds no empty line, whatever the request was; so the response
    parser of a client that holds it, followed by the zeroes of its
    buffer, returns RECV_MORE and leaves the object as it is: the client
    goes on waiting for the rest of a reply that is complete. *)
Theorem rejection_is_not_read (m : machine)
    (server parsed : nn_ws_handshake) :
  hs_state server = NN_WS_HANDSHAKE_STATE_SERVER_RECV ->
  nn_ws_handshake_parse_client_opening server
    = Done (NN_WS_HANDSHAKE_INVALID, parsed) ->
  match nn_ws_handshake_handler m server
          (NN_WS_HANDSHAKE_SRC_USOCK NN_USOCK_RECEIVED) with
  | Done (_, effects) =>
    exists text,
      effects = [USOCK_SEND text] /\
      ~ occurs NN_WS_HANDSHAKE_TERMSEQ text /\
      forall client rest,
        hs_response client = text ++ NUL :: rest ->
        nn_ws_handshake_parse_server_response client
        = Done (NN_WS_HANDSHAKE_RECV_MORE, client)
  | Abort why => why = BUFFER_OVERRUN
  end.
Proof.
  intros Hstate Hparse.
  pose proof (parse_client_opening_frame _ _ _ Hparse) as Hframe.
  apply same_but_parsed_fields in Hframe.
  destruct Hframe as (_ & _ & _ & _ & Hbuf & Hresp & _).
  destruct (parse_client_opening_decided _ _ _ Hparse ltac:(discriminate))
    as (pos & scanned & Hparsed & Hval).
  destruct Hparsed as (_ & _ & Hscan & _).
  destruct (parsed_frame_client server pos scanned Hscan) as (_ & _ & Hin).
  pose proof (scan_client_opening_version server pos scanned Hscan) as Hver.
  pose proof (validate_client_opening_codes scanned) as Hcodes.
  rewrite Hval in Hcodes. cbn [fst snd] in Hcodes.
  destruct Hcodes as [[E _]|[_ (c & Hc & Hp)]]; [discriminate E|].
  assert (Hcode : exists code, failure_code c = Done code).
  { cbn [PARSE_FAILURE_CODES In] in Hc.
    destruct Hc as [<-|[<-|[<-|[<-|[]]]]]; eexists; reflexivity. }
  destruct Hcode as [code Hcode].
  assert (Hrc : hs_response_code parsed = c) by (rewrite Hp; reflexivity).
  assert (Hsl : hs_slices parsed = hs_slices scanned)
    by (rewrite Hp; apply hs_slices_set_response_code).
  set (replying := set_state NN_WS_HANDSHAKE_STATE_SERVER_REPLY parsed).
  assert (Hh : nn_ws_handshake_handler m server
                 (NN_WS_HANDSHAKE_SRC_USOCK NN_USOCK_RECEIVED)
               = nn_ws_handshake_server_reply m replying).
  { unfold nn_ws_handshake_handler. rewrite Hstate, Hparse. reflexivity. }
  pose proof (server_reply_failure m replying code) as Hreply.
  cbn [hs_response_code hs_opening_hs hs_slices hs_response hs_state
       replying set_state] in Hreply.
  rewrite Hrc, Hbuf, Hresp, Hsl in Hreply.
  specialize (Hreply Hcode (Hin F_version ltac:(cbn; tauto))).
  cbv zeta in Hreply. rewrite Hh.
  set (text := failure_reply code
                 (slice_value (hs_opening_hs server)
                    (hs_slices scanned F_version))) in *.
  assert (Hn : existsb is_nul text = false).
  { apply failure_reply_no_nul;
      [apply (failure_code_text _ _ Hcode)|].
    apply slice_value_no_nul, Hin. cbn. tauto. }
  assert (Hocc : ~ occurs NN_WS_HANDSHAKE_TERMSEQ text)
    by (apply (failure_reply_no_termseq c); [exact Hcode|exact Hver]).
  destruct (_ <=? _)%nat.
  - destruct Hreply as (s1 & Hr & _). rewrite Hr.
    exists text. split; [reflexivity|]. split; [exact Hocc|].
    intros client rest Hc'.
    exact (unterminated_reply_waits client text rest Hn Hocc Hc').
  - rewrite Hreply. reflexivity.
Qed.

Lemma rejection_is_not_read_witness :
  nn_ws_handshake_parse_server_response
    (client_holding
       (failure_reply (cs "400 Unsupported WebSocket Version") (cs "12")))
  = Done (NN_WS_HANDSHAKE_RECV_MORE,
          client_holding
            (failure_reply (cs "400 Unsupported WebSocket Version")
               (cs "12"))).
Proof.
  pose (self := server_holding (sample_request "12" [])).
  pose (parsed := set_response_code NN_WS_HANDSHAKE_RESPONSE_WSVERSION
                    (scanned (scan_client_opening self) self)).
  pose proof (rejection_is_not_read machine0 self parsed eq_refl
                ltac:(vm_compute; reflexivity)) as H.
  destruct (nn_ws_handshake_handler machine0 self
              (NN_WS_HANDSHAKE_SRC_USOCK NN_USOCK_RECEIVED))
    as [[s effects]|why] eqn:E; vm_compute in E; [|discriminate E].
  injection E as _ <-.
  destruct H as (text & Ht & _ & Hc). injection Ht as <-.
  apply (Hc _ (repeat NUL 184)). vm_compute. reflexivity.
Defined.
